(** * A shallow embedding of the unbound resolver core

    The development follows the sources file by file:
    - [ConfigParser]: the semantic actions of util/configparser.c;
    - [Slabhash]: the sharded LRU table declared in util/storage/slabhash.h;
    - [Dns]: services/cache/dns.c (message and RRset cache services);
    - [Iterator]: the constants and the per-query state of iterator/iterator.h;
    - [Validator]: the environment of validator/validator.h;
    - [Addrtree]: the prefix tree of edns-subnet/addrtree.c;
    - [ConfigFile], [YYParse]: the configuration that the parser fills,
      what the actions call outside util/configparser.c, and [yyparse]
      of util/configparser.c with its tables and all its actions;
    - [YYAutomaton], [YYGrammar], [YYOptions]: the stacks that the
      parser can reach, the sentences of the grammar and the bounds of
      the options, for the properties of [yyparse]. *)
From Stdlib Require Import ZArith String Ascii Strings.Byte Lia Bool.
From stdpp Require Import base option gmap sorting list.

Open Scope Z_scope.

(** ** util/configparser.c *)

Module ConfigParser.

(** The fields of [struct config_file] written by the actions embedded
    below.  The struct itself lives in util/config_file.h. *)
Record config_file := {
  host_ttl               : Z;
  infra_cache_numhosts   : Z;
  val_clean_additional   : Z;
  val_permissive_mode    : Z
}.

(** [struct config_parser_state]: the parser's global [cfg_parser].
    [errors] counts the calls of [yyerror]; [log] collects the lines
    written by [verbose] and by [yyerror], oldest first. *)
Record config_parser_state := {
  cfg    : config_file;
  errors : Z;
  log    : list string
}.

Definition set_cfg (f : config_file -> config_file)
    (st : config_parser_state) : config_parser_state :=
  {| cfg := f (cfg st); errors := errors st; log := log st |}.

(** [yyerror] is [ub_c_error], defined with the lexer: it reports the
    message and counts one more error. *)
Definition yyerror (msg : string) (st : config_parser_state)
    : config_parser_state :=
  {| cfg := cfg st; errors := errors st + 1; log := log st ++ [msg] |}.

(** [verbose(VERB_DETAIL, ...)] only writes a log line. *)
Definition verbose (msg : string) (st : config_parser_state)
    : config_parser_state :=
  {| cfg := cfg st; errors := errors st; log := log st ++ [msg] |}.

(** C's [atoi]: leading white space, an optional sign, then decimal
    digits up to the first other character.  C leaves values outside
    [int] undefined; the C library computes [(int) strtol(s, NULL, 10)]:
    [strtol] stops at the bounds of [long] (64 bits), and the
    conversion to [int] keeps the low 32 bits (two's complement). *)
Definition isspace (c : ascii) : bool :=
  let n := nat_of_ascii c in
  (Nat.eqb n 32 || (Nat.leb 9 n && Nat.leb n 13))%bool.

Definition isdigit (c : ascii) : bool :=
  let n := nat_of_ascii c in (Nat.leb 48 n && Nat.leb n 57)%bool.

Fixpoint skip_space (s : string) : string :=
  match s with
  | String c s' => if isspace c then skip_space s' else s
  | EmptyString => s
  end.

Fixpoint atoi_digits (s : string) (acc : Z) : Z :=
  match s with
  | String c s' =>
      if isdigit c
      then atoi_digits s' (10 * acc + (Z.of_nat (nat_of_ascii c) - 48))
      else acc
  | EmptyString => acc
  end.

Definition strtol (s : string) : Z :=
  let z := match skip_space s with
           | String "-"%char s' => - atoi_digits s' 0
           | String "+"%char s' => atoi_digits s' 0
           | s' => atoi_digits s' 0
           end in
  Z.max (- 2 ^ 63) (Z.min (2 ^ 63 - 1) z).

Definition int_of_long (z : Z) : Z := (z + 2 ^ 31) mod 2 ^ 32 - 2 ^ 31.

Definition atoi (s : string) : Z := int_of_long (strtol s).

(** [strcmp(a, b) == 0] *)
Definition streq (a b : string) : bool := String.eqb a b.

Definition b2i (b : bool) : Z := if b then 1 else 0.

(** The [switch (yyn)] of [yyreduce], for the rules of the form
    [VAR_xxx STRING_ARG] embedded here; [str] is [yyvsp[0].str], the
    value of the option.  Rules that are not embedded have no entry
    (result [None]).  The [free] of the string is not modelled. *)
Definition yyreduce_action (yyn : Z) (str : string)
    (st : config_parser_state) : option config_parser_state :=
  match yyn with
  | 189 => (* server_infra_host_ttl *)
      Some (if (atoi str =? 0) && negb (streq str "0")
            then yyerror "number expected" st
            else set_cfg (fun c =>
                   {| host_ttl := atoi str;
                      infra_cache_numhosts := infra_cache_numhosts c;
                      val_clean_additional := val_clean_additional c;
                      val_permissive_mode := val_permissive_mode c |}) st)
  | 190 => (* server_infra_lame_ttl *)
      Some (verbose ("ignored infra-lame-ttl: " ++ str ++
                     " (option removed, use infra-host-ttl)") st)
  | 191 => (* server_infra_cache_numhosts *)
      Some (if atoi str =? 0
            then yyerror "number expected" st
            else set_cfg (fun c =>
                   {| host_ttl := host_ttl c;
                      infra_cache_numhosts := atoi str;
                      val_clean_additional := val_clean_additional c;
                      val_permissive_mode := val_permissive_mode c |}) st)
  | 192 => (* server_infra_cache_lame_size *)
      Some (verbose ("ignored infra-cache-lame-size: " ++ str ++
                     " (option removed, use infra-cache-numhosts)") st)
  | 217 => (* server_val_clean_additional *)
      Some (if negb (streq str "yes") && negb (streq str "no")
            then yyerror "expected yes or no." st
            else set_cfg (fun c =>
                   {| host_ttl := host_ttl c;
                      infra_cache_numhosts := infra_cache_numhosts c;
                      val_clean_additional := b2i (streq str "yes");
                      val_permissive_mode := val_permissive_mode c |}) st)
  | 218 => (* server_val_permissive_mode *)
      Some (if negb (streq str "yes") && negb (streq str "no")
            then yyerror "expected yes or no." st
            else set_cfg (fun c =>
                   {| host_ttl := host_ttl c;
                      infra_cache_numhosts := infra_cache_numhosts c;
                      val_clean_additional := val_clean_additional c;
                      val_permissive_mode := b2i (streq str "yes") |}) st)
  | _ => None
  end.

(** The rule numbers of the two legacy options. *)
Definition server_infra_lame_ttl : Z := 190.
Definition server_infra_cache_lame_size : Z := 192.
Definition server_val_permissive_mode : Z := 218.

End ConfigParser.

(** ** util/storage/slabhash.h *)

Module Slabhash.

(** [hashvalue_t] is a 32-bit unsigned integer. *)
Abbreviation hashvalue_t := Z (only parsing).

(** default number of slabs *)
Definition HASH_DEFAULT_SLABS : Z := 4.

Section Table.
Context {K D : Type}.

(** [lruhash_sizefunc_t]: memory used by an entry. *)
Variable sizefunc : K -> D -> nat.
(** [lruhash_compfunc_t]: compares two keys, 0 on equality. *)
Variable compfunc : K -> K -> Z.

(** [struct lruhash_entry]: hash, key and data.  The lock and the
    list links of the C struct are the position in [lru] and the
    events below. *)
Record lruhash_entry := {
  hash : hashvalue_t;
  key  : K;
  data : D
}.

(** One slab: an LRU table with its own memory budget.  [lru] lists
    the entries from the most recently used one to the tail. *)
Record lruhash := {
  space_max : nat;
  lru       : list lruhash_entry
}.

(** [struct slabhash] *)
Record slabhash := {
  size  : Z;
  mask  : Z;
  shift : Z;
  array : list lruhash
}.

(** What an operation does to locks and to memory, in order. *)
Inductive event :=
| ev_wrlock  (e : lruhash_entry)
| ev_unlock  (e : lruhash_entry)
| ev_delkey  (k : K)
| ev_deldata (d : D)
| ev_evict   (e : lruhash_entry).

Definition entry_size (e : lruhash_entry) : nat :=
  sizefunc (key e) (data e).

Definition space_used (l : list lruhash_entry) : nat :=
  foldr (fun e n => (entry_size e + n)%nat) 0%nat l.

Definition entry_matches (h : hashvalue_t) (k : K)
    (e : lruhash_entry) : bool :=
  (hash e =? h) && (compfunc (key e) k =? 0).

(** Modelled from the spec: the search of util/storage/lruhash.c, as
    the position of the first entry with this hash and an equal key. *)
Fixpoint find_index (h : hashvalue_t) (k : K)
    (l : list lruhash_entry) : option nat :=
  match l with
  | [] => None
  | e :: l' =>
      if entry_matches h k e then Some 0%nat
      else S <$> find_index h k l'
  end.

(** Modelled from the spec: [lru_touch] moves the entry at position
    [i] to the front of the LRU. *)
Definition lru_touch (i : nat) (l : list lruhash_entry)
    : list lruhash_entry :=
  match l !! i with
  | Some e => e :: delete i l
  | None => l
  end.

(** Modelled from the spec: the body of [slabhash_create] is not in
    the header.  [numtables] tables (a power of two); every table
    gets [maxmem / numtables] for itself; the top bits of the 32-bit
    hash select the table. *)
Definition slabhash_create (numtables : Z) (maxmem : nat) : slabhash :=
  let sh := if numtables =? 1 then 0 else 32 - Z.log2 numtables in
  {| size  := numtables;
     mask  := Z.shiftl (numtables - 1) sh;
     shift := sh;
     array := replicate (Z.to_nat numtables)
                {| space_max := (maxmem / Z.to_nat numtables)%nat;
                   lru := [] |} |}.

(** Modelled from the spec: the index of the slab that serves a hash
    value, by the mask and the shift of the header. *)
Definition slab_idx (sl : slabhash) (h : hashvalue_t) : nat :=
  Z.to_nat (Z.shiftr (Z.land h (mask sl)) (shift sl)).

Definition with_array (sl : slabhash) (a : list lruhash) : slabhash :=
  {| size := size sl; mask := mask sl; shift := shift sl; array := a |}.

(** Modelled from the spec: lookup of the slab cache.  The entry is
    returned to the caller (who holds its lock); the LRU is touched
    on a hit. *)
Definition lruhash_lookup (t : lruhash) (h : hashvalue_t) (k : K)
    : option lruhash_entry * lruhash :=
  match find_index h k (lru t) with
  | Some i =>
      (lru t !! i,
       {| space_max := space_max t; lru := lru_touch i (lru t) |})
  | None => (None, t)
  end.

(** Modelled from the spec: [slabhash_lookup] uses [lruhash_lookup] on
    the slab of the hash. *)
Definition slabhash_lookup (sl : slabhash) (h : hashvalue_t) (k : K)
    : option lruhash_entry * slabhash :=
  match array sl !! slab_idx sl h with
  | Some t =>
      let '(r, t') := lruhash_lookup t h k in
      (r, with_array sl (<[slab_idx sl h := t']> (array sl)))
  | None => (None, sl)
  end.

(** Modelled from the spec: evict from the tail of the LRU until the
    budget is respected;
    [n] bounds the number of evictions by the length of the list.
    Returns the entries kept and the ones evicted, in eviction
    order. *)
Fixpoint reclaim_space (n : nat) (smax : nat) (l : list lruhash_entry)
    : list lruhash_entry * list lruhash_entry :=
  match n with
  | O => (l, [])
  | S n' =>
      if (space_used l <=? smax)%nat then (l, [])
      else match last l with
           | Some e =>
               let '(kept, ev) := reclaim_space n' smax (removelast l) in
               (kept, e :: ev)
           | None => (l, [])
           end
  end.

(** Modelled from the spec: insert into one slab.  If the key exists
    the data is swapped in and the old data freed while the entry's
    write lock is held (the passed key is deleted at once); else a
    new entry is added and the tail of the LRU evicted until the
    budget is respected. *)
Definition lruhash_insert (t : lruhash) (h : hashvalue_t) (k : K) (d : D)
    : lruhash * list event :=
  match find_index h k (lru t) with
  | Some i =>
      match lru t !! i with
      | Some found =>
          let found' := {| hash := hash found; key := key found;
                           data := d |} in
          ({| space_max := space_max t;
              lru := <[i := found']> (lru t) |},
           [ev_delkey k; ev_wrlock found; ev_deldata (data found);
            ev_unlock found'])
      | None => (t, [])
      end
  | None =>
      let l := {| hash := h; key := k; data := d |} :: lru t in
      let '(kept, ev) := reclaim_space (length l) (space_max t) l in
      ({| space_max := space_max t; lru := kept |}, ev_evict <$> ev)
  end.

(** Modelled from the spec: [slabhash_insert] uses [lruhash_insert] on
    the slab of the hash. *)
Definition slabhash_insert (sl : slabhash) (h : hashvalue_t)
    (k : K) (d : D) : slabhash * list event :=
  match array sl !! slab_idx sl h with
  | Some t =>
      let '(t', evs) := lruhash_insert t h k d in
      (with_array sl (<[slab_idx sl h := t']> (array sl)), evs)
  | None => (sl, [])
  end.

(** Modelled from the spec: remove, delete if present. *)
Definition lruhash_remove (t : lruhash) (h : hashvalue_t) (k : K)
    : lruhash :=
  match find_index h k (lru t) with
  | Some i => {| space_max := space_max t; lru := delete i (lru t) |}
  | None => t
  end.

(** Modelled from the spec: [slabhash_remove] uses [lruhash_remove] on
    the slab of the hash. *)
Definition slabhash_remove (sl : slabhash) (h : hashvalue_t) (k : K)
    : slabhash :=
  match array sl !! slab_idx sl h with
  | Some t =>
      with_array sl (<[slab_idx sl h := lruhash_remove t h k]> (array sl))
  | None => sl
  end.

(** Lookup without the touch: what a lookup would return. *)
Definition lruhash_peek (t : lruhash) (h : hashvalue_t) (k : K)
    : option lruhash_entry :=
  find_index h k (lru t) ≫= fun i => lru t !! i.

Definition slabhash_peek (sl : slabhash) (h : hashvalue_t) (k : K)
    : option lruhash_entry :=
  array sl !! slab_idx sl h ≫= fun t => lruhash_peek t h k.

(** Modelled from the spec: [slabhash_get_size], the total budget. *)
Definition slabhash_get_size (sl : slabhash) : nat :=
  foldr (fun t n => (space_max t + n)%nat) 0%nat (array sl).

(** The operations of the table, to speak of every table that a
    program can build. *)
Inductive table_op :=
| op_insert (h : hashvalue_t) (k : K) (d : D)
| op_lookup (h : hashvalue_t) (k : K)
| op_remove (h : hashvalue_t) (k : K).

Definition slabhash_apply (sl : slabhash) (o : table_op) : slabhash :=
  match o with
  | op_insert h k d => fst (slabhash_insert sl h k d)
  | op_lookup h k => snd (slabhash_lookup sl h k)
  | op_remove h k => slabhash_remove sl h k
  end.

(** The table is the one made by [slabhash_create numtables maxmem],
    up to the contents of its slabs. *)
Definition slabhash_shape (numtables : Z) (maxmem : nat) (sl : slabhash)
    : Prop :=
  size sl = size (slabhash_create numtables maxmem)
  /\ mask sl = mask (slabhash_create numtables maxmem)
  /\ shift sl = shift (slabhash_create numtables maxmem)
  /\ length (array sl) = Z.to_nat numtables
  /\ Forall (fun t => space_max t = (maxmem / Z.to_nat numtables)%nat)
            (array sl).

End Table.

Arguments lruhash_entry : clear implicits.
Arguments lruhash : clear implicits.
Arguments slabhash : clear implicits.
Arguments event : clear implicits.
Arguments table_op : clear implicits.

End Slabhash.

(** ** Shared data: util/data/packed_rrset.h and util/data/msgreply.h

    Modelled from the spec and from the uses in services/cache/dns.c:
    the records list the fields that dns.c reads and writes. *)

Module Data.

(** [uint32_t] arithmetic wraps around. *)
Definition u32 (z : Z) : Z := z mod 2 ^ 32.
(** [size_t] arithmetic wraps around (64-bit platform). *)
Definition usize (z : Z) : Z := z mod 2 ^ 64.

Definition LDNS_RR_TYPE_A     : Z := 1.
Definition LDNS_RR_TYPE_NS    : Z := 2.
Definition LDNS_RR_TYPE_CNAME : Z := 5.
Definition LDNS_RR_TYPE_AAAA  : Z := 28.
Definition LDNS_RR_TYPE_DS    : Z := 43.
Definition LDNS_RR_TYPE_NSEC  : Z := 47.
Definition BIT_QR : Z := 32768.

(** Security status of a reply or an RRset. *)
Inductive sec_status :=
| sec_status_indeterminate
| sec_status_insecure
| sec_status_bogus
| sec_status_secure.

(** Trust levels, ascending. *)
Inductive rrset_trust :=
| rrset_trust_add_nonaddress
| rrset_trust_add_address
| rrset_trust_authority
| rrset_trust_answer_AA
| rrset_trust_validated.

Definition trust_rank (t : rrset_trust) : Z :=
  match t with
  | rrset_trust_add_nonaddress => 0
  | rrset_trust_add_address => 1
  | rrset_trust_authority => 2
  | rrset_trust_answer_AA => 3
  | rrset_trust_validated => 4
  end.

(** A domain name in wire format: length-prefixed labels, closed by
    the root label (a zero length byte). *)
Abbreviation dname := (list byte) (only parsing).

(** [struct query_info]; [qname_len] is the length of [qname]. *)
Record query_info := {
  qname  : dname;
  qtype  : Z;
  qclass : Z
}.

(** [struct packed_rrset_key]; [dname_len] is the length of [dname]. *)
Record packed_rrset_key := {
  rk_dname : dname;
  rk_flags : Z;
  rk_type  : Z;
  rk_class : Z
}.

(** [struct packed_rrset_data]: [rr_ttl] has [count + rrsig_count]
    slots, the signatures after the data; [rr_data] holds the RDATA
    blobs, each after its two length bytes. *)
Record packed_rrset_data := {
  ttl         : Z;
  count       : nat;
  rrsig_count : nat;
  trust       : rrset_trust;
  security    : sec_status;
  rr_ttl      : list Z;
  rr_data     : list (list byte)
}.

(** Address of a [struct ub_packed_rrset_key]. *)
Abbreviation addr := positive (only parsing).

(** [struct ub_packed_rrset_key] without its embedded entry: the
    address of the object, its version id and the key proper. *)
Record ub_packed_rrset_key := {
  key_addr : addr;
  id       : Z;
  rk       : packed_rrset_key
}.

(** A key object together with its embedded [lruhash_entry]:
    [entry.hash], [entry.key] (the object itself) and [entry.data]. *)
Abbreviation rrset_entry :=
  (Slabhash.lruhash_entry ub_packed_rrset_key packed_rrset_data)
  (only parsing).

(** [struct rrset_ref]: a key pointer and the id at capture. *)
Record rrset_ref := {
  ref_key : addr;
  ref_id  : Z
}.

(** [struct reply_info].  [P] is what a slot of [rrsets] holds: the
    address of a shared key object for a reply kept in the cache, an
    owned copy (or NULL) for a reply built in a region. *)
Record reply_info (P : Type) := {
  flags        : Z;
  qdcount      : Z;
  rep_ttl      : Z;
  rep_security : sec_status;
  an_numrrsets : nat;
  ns_numrrsets : nat;
  ar_numrrsets : nat;
  rrset_count  : nat;
  rrsets       : list P;
  ref          : list rrset_ref
}.
Arguments flags {P}. Arguments qdcount {P}. Arguments rep_ttl {P}.
Arguments rep_security {P}. Arguments an_numrrsets {P}.
Arguments ns_numrrsets {P}. Arguments ar_numrrsets {P}.
Arguments rrset_count {P}. Arguments rrsets {P}. Arguments ref {P}.

(** A reply whose RRsets are shared key objects. *)
Abbreviation cached_reply := (reply_info addr) (only parsing).
(** A reply whose RRsets are copies owned by a region. *)
Abbreviation region_reply := (reply_info (option rrset_entry))
  (only parsing).

(** [struct dns_msg]: region allocated query and reply. *)
Record dns_msg := {
  qinfo : query_info;
  rep   : region_reply
}.

(** A region (or [malloc]): the script of the coming allocations
    ([true] succeeds, [false] returns NULL; past the end of the script
    memory is plentiful) and the next free address. *)
Record region := {
  script : list bool;
  brk    : addr
}.

(** [region_alloc]: an address, or NULL. *)
Definition region_alloc (r : region) : option addr * region :=
  match script r with
  | [] => (Some (brk r), {| script := []; brk := Pos.succ (brk r) |})
  | true :: s => (Some (brk r), {| script := s; brk := Pos.succ (brk r) |})
  | false :: s => (None, {| script := s; brk := brk r |})
  end.

(** The next [n] allocations succeed. *)
Definition region_has (n : nat) (r : region) : bool :=
  forallb (fun ok : bool => ok) (take n (script r)).

#[global] Instance byte_eq_dec : EqDecision byte := Byte.byte_eq_dec.
#[global] Instance query_info_eq_dec : EqDecision query_info.
Proof. solve_decision. Defined.
#[global] Instance packed_rrset_key_eq_dec : EqDecision packed_rrset_key.
Proof. solve_decision. Defined.

End Data.

(** ** services/cache/dns.c *)

Module Dns.
Import Data.
Import Slabhash.

Section Cache.
(** Callbacks and hash functions that live in other files. *)
Variable query_info_hash   : query_info -> hashvalue_t.
Variable rrset_key_hash    : packed_rrset_key -> hashvalue_t.
Variable msgreply_sizefunc : query_info -> cached_reply -> nat.
Variable ub_rrset_sizefunc :
  ub_packed_rrset_key -> packed_rrset_data -> nat.

(** Modelled from the spec: the key comparisons are in other files.
    A message is keyed by its query-info (owner name, type, class),
    an RRset by (owner, type, class, flags); 0 on equality. *)
Definition query_info_compare (a b : query_info) : Z :=
  if decide (a = b) then 0 else 1.
Definition ub_rrset_compare (a b : ub_packed_rrset_key) : Z :=
  if decide (rk a = rk b) then 0 else 1.

Abbreviation msg_cache_t := (slabhash query_info cached_reply)
  (only parsing).
Abbreviation rrset_cache_t :=
  (slabhash ub_packed_rrset_key packed_rrset_data) (only parsing).

(** The part of [struct module_env] used here.  [alloc] holds the
    key objects handed out by the alloc cache that are not in the
    RRset cache; [heap] scripts [malloc]. *)
Record module_env := {
  msg_cache   : msg_cache_t;
  rrset_cache : rrset_cache_t;
  alloc       : gmap addr rrset_entry;
  heap        : region
}.

Definition set_msg_cache (env : module_env) (c : msg_cache_t) :=
  {| msg_cache := c; rrset_cache := rrset_cache env;
     alloc := alloc env; heap := heap env |}.
Definition set_rrset_cache (env : module_env) (c : rrset_cache_t) :=
  {| msg_cache := msg_cache env; rrset_cache := c;
     alloc := alloc env; heap := heap env |}.
Definition set_alloc (env : module_env) (a : gmap addr rrset_entry) :=
  {| msg_cache := msg_cache env; rrset_cache := rrset_cache env;
     alloc := a; heap := heap env |}.
Definition set_heap (env : module_env) (h : region) :=
  {| msg_cache := msg_cache env; rrset_cache := rrset_cache env;
     alloc := alloc env; heap := h |}.

(** The entries of all slabs of the RRset cache. *)
Definition rrset_cache_entries (c : rrset_cache_t) : list rrset_entry :=
  mjoin (lru <$> array c).

(** The key object in the RRset cache that lives at an address. *)
Definition cache_find_addr (c : rrset_cache_t) (a : addr)
    : option rrset_entry :=
  List.find (fun e => Pos.eqb (key_addr (key e)) a)
            (rrset_cache_entries c).

(** Dereference a key pointer: a shared object of the RRset cache,
    or else an object still owned by the caller. *)
Definition rrset_deref (env : module_env) (p : addr)
    : option rrset_entry :=
  match cache_find_addr (rrset_cache env) p with
  | Some e => Some e
  | None => alloc env !! p
  end.

(** The name that starts at [qname] and is [qnamelen] bytes long. *)
Definition name_at (qname : list byte) (qnamelen : Z) : dname :=
  take (Z.to_nat qnamelen) qname.

(** Modelled from the spec: [rrset_cache_lookup] is in
    services/cache/rrset.c.  A slab cache lookup by (owner, type,
    class, flags); an entry that has expired at [now] is a miss.
    The comparison is the one [tomsg] makes for a reply. *)
Definition rrset_cache_lookup (c : rrset_cache_t) (qname : dname)
    (qtype qclass flags : Z) (now : Z)
    : option rrset_entry * rrset_cache_t :=
  let k := {| rk_dname := qname; rk_flags := flags;
              rk_type := qtype; rk_class := qclass |} in
  let probe := {| key_addr := 1%positive; id := 0; rk := k |} in
  match slabhash_lookup ub_rrset_compare c (rrset_key_hash k) probe with
  | (Some e, c') =>
      if now >? ttl (data e) then (None, c') else (Some e, c')
  | (None, c') => (None, c')
  end.

(** Modelled from the spec: the update policy of the RRset cache
    (services/cache/rrset.c).  The new record dominates with a
    higher trust, or an equal trust and a later expiry. *)
Definition need_to_update_rrset (newd cached : packed_rrset_data)
    : bool :=
  (trust_rank (trust cached) <? trust_rank (trust newd))
  || ((trust_rank (trust cached) =? trust_rank (trust newd))
      && (ttl cached <? ttl newd)).

(** Modelled from the spec: [rrset_cache_update].  With no entry
    for the key, insert (result 0).  Else the passed key object is
    deleted and [ref] is set to the key in the cache (result 1); the
    cached data is replaced, and the version id bumped, only when
    the new record dominates. *)
Definition rrset_cache_update (env : module_env) (r : rrset_ref)
    (now : Z) : bool * rrset_ref * module_env :=
  match alloc env !! ref_key r with
  | None => (false, r, env)
  | Some k =>
      let env0 := set_alloc env (delete (ref_key r) (alloc env)) in
      match slabhash_lookup ub_rrset_compare (rrset_cache env)
              (hash k) (key k) with
      | (Some e, c1) =>
          if need_to_update_rrset (data k) (data e) then
            let key' := {| key_addr := key_addr (key e);
                           id := id (key e) + 1;
                           rk := rk (key e) |} in
            let c2 := slabhash_remove ub_rrset_compare c1
                        (hash e) (key e) in
            let c3 := fst (slabhash_insert ub_rrset_sizefunc
                             ub_rrset_compare c2 (hash e) key'
                             (data k)) in
            (true,
             {| ref_key := key_addr key'; ref_id := id key' |},
             set_rrset_cache env0 c3)
          else
            (true,
             {| ref_key := key_addr (key e); ref_id := id (key e) |},
             set_rrset_cache env0 c1)
      | (None, c1) =>
          let c2 := fst (slabhash_insert ub_rrset_sizefunc
                           ub_rrset_compare c1 (hash k) (key k)
                           (data k)) in
          (false, r, set_rrset_cache env0 c2)
      end
  end.

Definition set_rrsets_ref {P} (rep : reply_info P)
    (rs : list P) (rf : list rrset_ref) : reply_info P :=
  {| flags := flags rep; qdcount := qdcount rep;
     rep_ttl := rep_ttl rep; rep_security := rep_security rep;
     an_numrrsets := an_numrrsets rep;
     ns_numrrsets := ns_numrrsets rep;
     ar_numrrsets := ar_numrrsets rep;
     rrset_count := rrset_count rep;
     rrsets := rs; ref := rf |}.

Definition set_rep_ttl {P} (rep : reply_info P) (t : Z)
    : reply_info P :=
  {| flags := flags rep; qdcount := qdcount rep;
     rep_ttl := t; rep_security := rep_security rep;
     an_numrrsets := an_numrrsets rep;
     ns_numrrsets := ns_numrrsets rep;
     ar_numrrsets := ar_numrrsets rep;
     rrset_count := rrset_count rep;
     rrsets := rrsets rep; ref := ref rep |}.

(** [rep->ref[i].key = rep->rrsets[i];
     rep->ref[i].id = rep->rrsets[i]->id;]
    A slot or a key object that is not there leaves [ref] as it
    is. *)
Definition capture_ref (env : module_env) (rep : cached_reply)
    (i : nat) : cached_reply :=
  match rrsets rep !! i with
  | Some p =>
      match rrset_deref env p with
      | Some k =>
          set_rrsets_ref rep (rrsets rep)
            (<[i := {| ref_key := p; ref_id := id (key k) |}]> (ref rep))
      | None => rep
      end
  | None => rep
  end.

(** store rrsets in the rrset cache. *)
Definition store_rrsets_step (now : Z)
    (st : module_env * cached_reply) (i : nat)
    : module_env * cached_reply :=
  let '(env, rep) := st in
  let rep := capture_ref env rep i in
  match ref rep !! i with
  | Some r =>
      let '(incache, r', env') := rrset_cache_update env r now in
      let rep := set_rrsets_ref rep (rrsets rep) (<[i := r']> (ref rep)) in
      if incache (* it was in the cache *)
      then (env', set_rrsets_ref rep
                    (<[i := ref_key r']> (rrsets rep)) (ref rep))
      else (env', rep)
  | None => (env, rep)
  end.

Definition store_rrsets (env : module_env) (rep : cached_reply)
    (now : Z) : module_env * cached_reply :=
  foldl (store_rrsets_step now) (env, rep) (seq 0 (rrset_count rep)).

(** Modelled from the spec: [reply_info_sortref] (util/data/msgreply.c)
    orders the references by key address, the lock order. *)
Definition ref_le (a b : rrset_ref) : Prop :=
  (ref_key a <= ref_key b)%positive.
#[local] Instance ref_le_dec a b : Decision (ref_le a b).
Proof. unfold ref_le. apply _. Defined.

Definition reply_info_sortref (rep : cached_reply) : cached_reply :=
  set_rrsets_ref rep (rrsets rep) (merge_sort ref_le (ref rep)).

(** Absolute TTLs for one RRset: [now] is added to the TTL of the
    set and to the TTL of every record and signature. *)
Definition data_add_ttl (now : Z) (d : packed_rrset_data)
    : packed_rrset_data :=
  {| ttl := u32 (ttl d + now); count := count d;
     rrsig_count := rrsig_count d; trust := trust d;
     security := security d;
     rr_ttl := (fun t => u32 (t + now)) <$> rr_ttl d;
     rr_data := rr_data d |}.

Definition entry_add_ttl (now : Z) (e : rrset_entry) : rrset_entry :=
  {| hash := hash e; key := key e; data := data_add_ttl now (data e) |}.

(** Modelled from the spec: [reply_info_set_ttls]
    (util/data/msgreply.c) sets absolute TTLs, in the reply and once
    in every key object it references. *)
Definition reply_info_set_ttls (env : module_env) (rep : cached_reply)
    (now : Z) : module_env * cached_reply :=
  (set_alloc env
     (foldr (fun p a => alter (entry_add_ttl now) p a) (alloc env)
            (remove_dups (ref_key <$> take (rrset_count rep) (ref rep)))),
   set_rep_ttl rep (u32 (rep_ttl rep + now))).

(** [dns_cache_store_msg]; [now] is [time(NULL)].  The entry made
    by [query_info_entrysetup] is one [malloc]. *)
Definition dns_cache_store_msg (env : module_env) (qinf : query_info)
    (h : hashvalue_t) (rep : cached_reply) (now : Z)
    : module_env * cached_reply :=
  let t := rep_ttl rep in
  (* store RRsets *)
  let rep := foldl (capture_ref env) rep (seq 0 (rrset_count rep)) in
  let rep := reply_info_sortref rep in
  let '(env, rep) := reply_info_set_ttls env rep now in
  let '(env, rep) := store_rrsets env rep now in
  if t =? 0 then
    (* we do not store the message, but we did store the RRs *)
    (env, rep)
  else
    (* store msg in the cache *)
    let rep := reply_info_sortref rep in
    match region_alloc (heap env) with
    | (None, hp) => (set_heap env hp, rep)
    | (Some _, hp) =>
        let env := set_heap env hp in
        (set_msg_cache env
           (fst (slabhash_insert msgreply_sizefunc query_info_compare
                   (msg_cache env) h qinf rep)),
         rep)
    end.


(** allocate rrset in region - no more locks needed.  Three
    allocations: the key, its name, its data.  The loop over
    [rr_ttl] updates the slots [0 .. count + rrsig_count - 1] in
    place; a slot that the list does not have is left alone. *)
Definition copy_rrset (k : rrset_entry) (rg : region) (now : Z)
    : option rrset_entry * region :=
  match region_alloc rg with
  | (None, rg) => (None, rg)
  | (Some ck, rg) =>
      match region_alloc rg with
      | (None, rg) => (None, rg)
      | (Some _, rg) =>
          match region_alloc rg with
          | (None, rg) => (None, rg)
          | (Some _, rg) =>
              let d := data k in
              (* make TTLs relative - once per rrset *)
              let ttls :=
                foldl (fun t i => alter (fun x => u32 (x - now)) i t)
                      (rr_ttl d)
                      (seq 0 (count d + rrsig_count d)) in
              (Some {| hash := hash k;
                       key := {| key_addr := ck; id := id (key k);
                                 rk := rk (key k) |};
                       data := {| ttl := u32 (ttl d - now);
                                  count := count d;
                                  rrsig_count := rrsig_count d;
                                  trust := trust d;
                                  security := security d;
                                  rr_ttl := ttls;
                                  rr_data := rr_data d |} |},
               rg)
          end
      end
  end.

(** find closest NS and returns the rrset (locked).  The loop snips
    the front label off [qname] while [qnamelen > 0]; [fuel] bounds
    the iterations.  Reading the length byte past the end of the
    buffer stops the walk. *)
Fixpoint find_deleg_ns_loop (fuel : nat) (c : rrset_cache_t)
    (qname : list byte) (qnamelen : Z) (qclass : Z) (now : Z)
    : option rrset_entry * rrset_cache_t :=
  match fuel with
  | O => (None, c)
  | S fuel' =>
      if 0 <? qnamelen then
        match rrset_cache_lookup c (name_at qname qnamelen)
                LDNS_RR_TYPE_NS qclass 0 now with
        | (Some rrset, c') => (Some rrset, c')
        | (None, c') =>
            (* snip off front label *)
            match qname with
            | lablen :: _ =>
                let n := (Byte.to_nat lablen + 1)%nat in
                find_deleg_ns_loop fuel' c' (drop n qname)
                  (usize (qnamelen - Z.of_nat n)) qclass now
            | [] => (None, c')
            end
        end
      else (None, c)
  end.

(** Every iteration consumes at least one byte of the buffer. *)
Definition find_deleg_ns (c : rrset_cache_t) (qname : list byte)
    (qnamelen : Z) (qclass : Z) (now : Z)
    : option rrset_entry * rrset_cache_t :=
  find_deleg_ns_loop (S (length qname)) c qname qnamelen qclass now.

Definition set_rep (m : dns_msg) (r : region_reply) : dns_msg :=
  {| qinfo := qinfo m; rep := r |}.

(** [n++] when the pointer just stored is not NULL. *)
Definition count_if_set {A} (p : option A) (n : nat) : nat :=
  match p with Some _ => S n | None => n end.

(** add addr to additional section *)
Definition addr_to_additional (rrset : rrset_entry) (rg : region)
    (msg : dns_msg) (now : Z) : dns_msg * region :=
  let '(ck, rg) := copy_rrset rrset rg now in
  let r := rep msg in
  let rs := <[rrset_count r := ck]> (rrsets r) in
  (set_rep msg
     {| flags := flags r; qdcount := qdcount r; rep_ttl := rep_ttl r;
        rep_security := rep_security r;
        an_numrrsets := an_numrrsets r;
        ns_numrrsets := ns_numrrsets r;
        ar_numrrsets := count_if_set ck (ar_numrrsets r);
        rrset_count := count_if_set ck (rrset_count r);
        rrsets := rs; ref := ref r |},
   rg).

(** Modelled from the spec: the delegation point of
    iterator/iter_delegpt.c.  The owner name of the zone cut, the NS
    names and the resolved addresses. *)
Record delegpt := {
  dp_name     : dname;
  nslist      : list dname;
  target_list : list (list byte)
}.

(** Modelled from the spec: a delegation point is allocated in the
    region; NULL when the region is out of memory. *)
Definition delegpt_create (rg : region) : option delegpt * region :=
  match region_alloc rg with
  | (None, rg) => (None, rg)
  | (Some _, rg) =>
      (Some {| dp_name := []; nslist := []; target_list := [] |}, rg)
  end.

(** Modelled from the spec: the owner name is copied into the region. *)
Definition delegpt_set_name (dp : delegpt) (rg : region) (n : dname)
    : bool * delegpt * region :=
  match region_alloc rg with
  | (None, rg) => (false, dp, rg)
  | (Some _, rg) =>
      (true,
       {| dp_name := n; nslist := nslist dp;
          target_list := target_list dp |}, rg)
  end.

(** Modelled from the spec: one NS name per record of the set; the
    name follows the two length bytes of the RDATA. *)
Fixpoint delegpt_add_names (dp : delegpt) (rg : region)
    (rds : list (list byte)) : bool * delegpt * region :=
  match rds with
  | [] => (true, dp, rg)
  | rd :: rds' =>
      match region_alloc rg with
      | (None, rg) => (false, dp, rg)
      | (Some _, rg) =>
          delegpt_add_names
            {| dp_name := dp_name dp;
               nslist := drop 2 rd :: nslist dp;
               target_list := target_list dp |} rg rds'
      end
  end.

Definition delegpt_rrset_add_ns (dp : delegpt) (rg : region)
    (nskey : rrset_entry) : bool * delegpt * region :=
  delegpt_add_names dp rg (take (count (data nskey)) (rr_data (data nskey))).

(** Modelled from the spec: merge the addresses of an A or AAAA set
    into the targets. *)
Fixpoint delegpt_add_targets (dp : delegpt) (rg : region)
    (rds : list (list byte)) : bool * delegpt * region :=
  match rds with
  | [] => (true, dp, rg)
  | rd :: rds' =>
      match region_alloc rg with
      | (None, rg) => (false, dp, rg)
      | (Some _, rg) =>
          delegpt_add_targets
            {| dp_name := dp_name dp; nslist := nslist dp;
               target_list := drop 2 rd :: target_list dp |} rg rds'
      end
  end.

Definition delegpt_add_rrset_A (dp : delegpt) (rg : region)
    (akey : rrset_entry) : bool * delegpt * region :=
  delegpt_add_targets dp rg (take (count (data akey)) (rr_data (data akey))).
Definition delegpt_add_rrset_AAAA := delegpt_add_rrset_A.

(** The state threaded through the construction of a delegation:
    the RRset cache (lookups touch its LRU), the region, the
    delegation point and the referral message, if one is wanted. *)
Record deleg_state := {
  ds_cache : rrset_cache_t;
  ds_rg    : region;
  ds_dp    : delegpt;
  ds_msg   : option dns_msg
}.

(** One address type of one name server in [find_add_addrs]; the
    result is false when the delegation point runs out of memory. *)
Definition find_add_addr (qclass now : Z) (rrtype : Z) (ns : dname)
    (st : deleg_state) : bool * deleg_state :=
  match rrset_cache_lookup (ds_cache st) ns rrtype qclass 0 now with
  | (Some akey, c) =>
      match delegpt_add_rrset_A (ds_dp st) (ds_rg st) akey with
      | (false, dp, rg) =>
          (false, {| ds_cache := c; ds_rg := rg; ds_dp := dp;
                     ds_msg := ds_msg st |})
      | (true, dp, rg) =>
          match ds_msg st with
          | Some m =>
              let '(m', rg') := addr_to_additional akey rg m now in
              (true, {| ds_cache := c; ds_rg := rg'; ds_dp := dp;
                        ds_msg := Some m' |})
          | None =>
              (true, {| ds_cache := c; ds_rg := rg; ds_dp := dp;
                        ds_msg := None |})
          end
      end
  | (None, c) =>
      (true, {| ds_cache := c; ds_rg := ds_rg st; ds_dp := ds_dp st;
                ds_msg := ds_msg st |})
  end.

(** find and add A and AAAA records for nameservers in delegpt *)
Fixpoint find_add_addrs_loop (qclass now : Z) (nss : list dname)
    (st : deleg_state) : bool * deleg_state :=
  match nss with
  | [] => (true, st)
  | ns :: nss' =>
      match find_add_addr qclass now LDNS_RR_TYPE_A ns st with
      | (false, st) => (false, st)
      | (true, st) =>
          match find_add_addr qclass now LDNS_RR_TYPE_AAAA ns st with
          | (false, st) => (false, st)
          | (true, st) => find_add_addrs_loop qclass now nss' st
          end
      end
  end.

Definition find_add_addrs (qclass now : Z) (st : deleg_state)
    : bool * deleg_state :=
  find_add_addrs_loop qclass now (nslist (ds_dp st)) st.

(** find and add DS or NSEC to delegation msg *)
Definition find_add_ds (now : Z) (msg : dns_msg) (st : deleg_state)
    : deleg_state :=
  let dp := ds_dp st in
  let '(rrset, c) :=
    match rrset_cache_lookup (ds_cache st) (dp_name dp)
            LDNS_RR_TYPE_DS (qclass (qinfo msg)) 0 now with
    | (Some r, c) => (Some r, c)
    | (None, c) =>
        rrset_cache_lookup c (dp_name dp) LDNS_RR_TYPE_NSEC
          (qclass (qinfo msg)) 0 now
    end in
  match rrset with
  | Some r =>
      (* add it to auth section. This is the second rrset. *)
      let '(ck, rg) := copy_rrset r (ds_rg st) now in
      let rp := rep msg in
      let rp' :=
        {| flags := flags rp; qdcount := qdcount rp;
           rep_ttl := rep_ttl rp; rep_security := rep_security rp;
           an_numrrsets := an_numrrsets rp;
           ns_numrrsets := count_if_set ck (ns_numrrsets rp);
           ar_numrrsets := ar_numrrsets rp;
           rrset_count := count_if_set ck (rrset_count rp);
           rrsets := <[rrset_count rp := ck]> (rrsets rp);
           ref := ref rp |} in
      {| ds_cache := c; ds_rg := rg; ds_dp := dp;
         ds_msg := Some (set_rep msg rp') |}
  | None =>
      {| ds_cache := c; ds_rg := ds_rg st; ds_dp := dp;
         ds_msg := Some msg |}
  end.

(** create referral message with NS and query *)
Definition create_msg (qname : list byte) (qnamelen : Z)
    (qtype qclass : Z) (rg : region) (nskey : rrset_entry) (now : Z)
    : option dns_msg * region :=
  match region_alloc rg with
  | (None, rg) => (None, rg)
  | (Some _, rg) =>
  match region_alloc rg with
  | (None, rg) => (None, rg)
  | (Some _, rg) =>
  match region_alloc rg with
  | (None, rg) => (None, rg)
  | (Some _, rg) =>
  match region_alloc rg with
  | (None, rg) => (None, rg)
  | (Some _, rg) =>
      match copy_rrset nskey rg now with
      | (None, rg) => (None, rg)
      | (Some ck, rg) =>
          (Some {| qinfo := {| qname := name_at qname qnamelen;
                               qtype := qtype; qclass := qclass |};
                   rep := {| flags := BIT_QR; (* with QR, no AA *)
                             qdcount := 1;
                             rep_ttl := 0;
                             rep_security := sec_status_indeterminate;
                             an_numrrsets := 0;
                             ns_numrrsets := 1;
                             ar_numrrsets := 0;
                             rrset_count := 1;
                             rrsets :=
                               <[0%nat := Some ck]>
                                 (replicate
                                    (2 + count (data nskey) * 2) None);
                             ref := [] |} |},
           rg)
      end
  end end end end.

(** [dns_cache_find_delegation]; [want_msg] says whether the caller
    passed a place for the referral message.  NULL is [None]. *)
Definition dns_cache_find_delegation (env : module_env)
    (qname : list byte) (qnamelen : Z) (qtype qclass : Z)
    (rg : region) (want_msg : bool) (now : Z)
    : option (delegpt * option dns_msg) * module_env * region :=
  (* try to find closest NS rrset *)
  match find_deleg_ns (rrset_cache env) qname qnamelen qclass now with
  | (None, c) => (None, set_rrset_cache env c, rg)
  | (Some nskey, c) =>
      let env := set_rrset_cache env c in
      (* got the NS key, create delegation point *)
      match delegpt_create rg with
      | (None, rg) => (None, env, rg)
      | (Some dp, rg) =>
      match delegpt_set_name dp rg (rk_dname (rk (key nskey))) with
      | (false, _, rg) => (None, env, rg)
      | (true, dp, rg) =>
          (* create referral message *)
          let '(mres, rg) :=
            if want_msg
            then match create_msg qname qnamelen qtype qclass rg
                         nskey now with
                 | (None, rg) => (None, rg)
                 | (Some m, rg) => (Some (Some m), rg)
                 end
            else (Some None, rg) in
          match mres with
          | None => (None, env, rg)
          | Some msg =>
              let '(_, dp, rg) := delegpt_rrset_add_ns dp rg nskey in
              let st := {| ds_cache := c; ds_rg := rg; ds_dp := dp;
                           ds_msg := msg |} in
              (* find and add DS/NSEC (if any) *)
              let st := match msg with
                        | Some m => find_add_ds now m st
                        | None => st
                        end in
              (* find and add A entries *)
              let '(_, st) := find_add_addrs qclass now st in
              (Some (ds_dp st, ds_msg st),
               set_rrset_cache env (ds_cache st), ds_rg st)
          end
      end end
  end.

(** Modelled from the spec: [rrset_array_lock]
    (services/cache/rrset.c).  A back-reference that fails the
    version-id check, or a referenced RRset that has expired, makes
    the message a miss. *)
Definition rrset_array_lock (env : module_env) (rf : list rrset_ref)
    (n : nat) (now : Z) : bool :=
  forallb (fun r =>
             match rrset_deref env (ref_key r) with
             | Some k => (id (key k) =? ref_id r)
                         && negb (now >? ttl (data k))
             | None => false
             end)
          (take n rf).

(** Modelled from the spec: [rrset_array_unlock_touch]; the LRU of
    every referenced RRset is touched. *)
Definition rrset_cache_touch (c : rrset_cache_t) (a : addr)
    : rrset_cache_t :=
  match cache_find_addr c a with
  | Some e => snd (slabhash_lookup ub_rrset_compare c (hash e) (key e))
  | None => c
  end.

Definition rrset_array_unlock_touch (env : module_env)
    (scratch : region) (rf : list rrset_ref) (n : nat) : module_env :=
  set_rrset_cache env
    (foldl (fun c r => rrset_cache_touch c (ref_key r))
           (rrset_cache env) (take n rf)).

(** The copy loop of [tomsg], from index [i] on; NULL from
    [copy_rrset] ends it. *)
Fixpoint tomsg_copy (env : module_env) (r : cached_reply)
    (idx : list nat) (arr : list (option rrset_entry)) (rg : region)
    (now : Z) : option (list (option rrset_entry)) * region :=
  match idx with
  | [] => (Some arr, rg)
  | i :: idx' =>
      match rrsets r !! i ≫= rrset_deref env with
      | Some k =>
          match copy_rrset k rg now with
          | (Some ck, rg) =>
              tomsg_copy env r idx' (<[i := Some ck]> arr) rg now
          | (None, rg) => (None, rg)
          end
      | None => (None, rg)
      end
  end.

(** allocate dns_msg from query_info and reply_info *)
Definition tomsg (env : module_env) (e : query_info)
    (r : cached_reply) (rg : region) (now : Z) (scratch : region)
    : option dns_msg * module_env * region :=
  if now >? rep_ttl r then (None, env, rg) else
  match region_alloc rg with
  | (None, rg) => (None, env, rg)
  | (Some _, rg) =>
  match region_alloc rg with
  | (None, rg) => (None, env, rg)
  | (Some _, rg) =>
  (* allocate replyinfo struct and rrset key array separately *)
  match region_alloc rg with
  | (None, rg) => (None, env, rg)
  | (Some _, rg) =>
  match region_alloc rg with
  | (None, rg) => (None, env, rg)
  | (Some _, rg) =>
      if negb (rrset_array_lock env (ref r) (rrset_count r) now)
      then (None, env, rg)
      else
        match tomsg_copy env r (seq 0 (rrset_count r))
                (replicate (rrset_count r) None) rg now with
        | (None, rg) => (None, env, rg)
        | (Some arr, rg) =>
            (Some {| qinfo := e;
                     rep := {| flags := flags r; qdcount := qdcount r;
                               rep_ttl := rep_ttl r;
                               rep_security := rep_security r;
                               an_numrrsets := an_numrrsets r;
                               ns_numrrsets := ns_numrrsets r;
                               ar_numrrsets := ar_numrrsets r;
                               rrset_count := rrset_count r;
                               rrsets := arr; ref := [] |} |},
             rrset_array_unlock_touch env scratch (ref r)
               (rrset_count r),
             rg)
        end
  end end end end.

(** One message-cache lookup of [dns_cache_lookup] with its
    conversion: the entry for [k], if any, through [tomsg]. *)
Definition lookup_tomsg (env : module_env) (k : query_info)
    (rg : region) (now : Z) (scratch : region)
    : option dns_msg * module_env * region :=
  let h := query_info_hash k in
  match slabhash_lookup query_info_compare (msg_cache env) h k with
  | (Some e, mc) => tomsg (set_msg_cache env mc) (key e) (data e)
                      rg now scratch
  | (None, mc) => (None, set_msg_cache env mc, rg)
  end.

(** [dns_cache_lookup]; [now] is [time(NULL)]. *)
Definition dns_cache_lookup (env : module_env) (qname : list byte)
    (qnamelen : Z) (qtype qclass : Z) (rg : region) (scratch : region)
    (now : Z) : option dns_msg * module_env * region :=
  (* lookup first, this has both NXdomains and ANSWER responses *)
  let k := {| qname := name_at qname qnamelen; qtype := qtype;
              qclass := qclass |} in
  match lookup_tomsg env k rg now scratch with
  | (Some msg, env, rg) => (Some msg, env, rg)
  | (None, env, rg) =>
      (* see if we have CNAME for this domain *)
      let k := {| qname := name_at qname qnamelen;
                  qtype := LDNS_RR_TYPE_CNAME; qclass := qclass |} in
      match lookup_tomsg env k rg now scratch with
      | (Some msg, env, rg) => (Some msg, env, rg)
      | (None, env, rg) =>
          (* construct DS, DNSKEY messages from rrset cache. TODO *)
          (None, env, rg)
      end
  end.

(** What the message cache holds for a query, without the touch. *)
Definition msg_peek (env : module_env) (k : query_info)
    : option (lruhash_entry query_info cached_reply) :=
  slabhash_peek query_info_compare (msg_cache env) (query_info_hash k) k.

(** What the RRset cache holds, unexpired at [now], for a name, type,
    class and flags, without the touch. *)
Definition rrset_cache_peek (c : rrset_cache_t) (qname : dname)
    (qtype qclass flags : Z) (now : Z) : option rrset_entry :=
  let k := {| rk_dname := qname; rk_flags := flags;
              rk_type := qtype; rk_class := qclass |} in
  let probe := {| key_addr := 1%positive; id := 0; rk := k |} in
  match slabhash_peek ub_rrset_compare c (rrset_key_hash k) probe with
  | Some e => if now >? ttl (data e) then None else Some e
  | None => None
  end.

(** The name without its front label. *)
Definition dname_strip (n : dname) : dname :=
  match n with
  | lablen :: _ => drop (Byte.to_nat lablen + 1) n
  | [] => []
  end.

(** The name and its ancestors, the longest first, down to the root. *)
Fixpoint dname_suffixes_loop (fuel : nat) (n : dname) : list dname :=
  match fuel with
  | O => []
  | S fuel' =>
      match n with
      | [] => []
      | lablen :: _ =>
          n :: (if Nat.eqb (Byte.to_nat lablen) 0 then []
                else dname_suffixes_loop fuel' (dname_strip n))
      end
  end.

Definition dname_suffixes (n : dname) : list dname :=
  dname_suffixes_loop (length n) n.

(** A well-formed name in wire format: at most 255 bytes, every label
    has the bytes its length byte announces, and the root label is the
    last byte. *)
Fixpoint dname_valid_loop (fuel : nat) (n : dname) : bool :=
  match fuel with
  | O => false
  | S fuel' =>
      match n with
      | [] => false
      | lablen :: rest =>
          if Nat.eqb (Byte.to_nat lablen) 0
          then match rest with [] => true | _ => false end
          else (Byte.to_nat lablen <=? length rest)%nat
               && dname_valid_loop fuel' (dname_strip n)
      end
  end.

Definition dname_valid (n : dname) : bool :=
  (length n <=? 255)%nat && dname_valid_loop (length n) n.

(** The first name of a list for which the RRset cache holds an
    unexpired NS set of the class. *)
Fixpoint first_cached_ns (c : rrset_cache_t) (qclass now : Z)
    (l : list dname) : option rrset_entry :=
  match l with
  | [] => None
  | s :: l' =>
      match rrset_cache_peek c s LDNS_RR_TYPE_NS qclass 0 now with
      | Some e => Some e
      | None => first_cached_ns c qclass now l'
      end
  end.

(** What the caller of a lookup sees: the message (or NULL) and
    the region. *)
Definition outcome (x : option dns_msg * module_env * region)
    : option dns_msg * region :=
  (fst (fst x), snd x).

(** An entry of the RRset cache that comes from the reply [rep] of a
    caller with the environment [env], stored at [now]: it has the key
    fields of a key object of the caller that one of the first
    [rrset_count] slots of [rrsets] points to, and the data of that
    object with [now] added to every TTL. *)
Definition stored_absolute (env : module_env) (rep : cached_reply)
    (now : Z) (e : rrset_entry) : Prop :=
  exists i p k0,
    (i < rrset_count rep)%nat /\ rrsets rep !! i = Some p
    /\ alloc env !! p = Some k0
    /\ rk (key e) = rk (key k0)
    /\ data e = data_add_ttl now (data k0).

(** The arrays of a reply as [dns_cache_store_msg] reads them: [ref]
    has [rrset_count] slots, and every one of the first [rrset_count]
    slots of [rrsets] points to a key object. *)
Definition reply_refs_ok (env : module_env) (rep : cached_reply) : Prop :=
  length (ref rep) = rrset_count rep
  /\ forall i, (i < rrset_count rep)%nat ->
       exists p, rrsets rep !! i = Some p /\ is_Some (rrset_deref env p).

End Cache.
End Dns.

(** ** iterator/iterator.h *)

Module Iterator.

(** max number of query restarts. Determines max number of CNAME chain. *)
Definition MAX_RESTART_COUNT : Z := 8.
(** max number of referrals. Makes sure resolver does not run away *)
Definition MAX_REFERRAL_COUNT : Z := 30.
(** how nice is a server without further information, in msec *)
Definition UNKNOWN_SERVER_NICENESS : Z := 376.
(** maximum timeout before a host is deemed unsuitable, in msec. *)
Definition USEFUL_SERVER_TOP_TIMEOUT : Z := 120000.
(** number of retries on outgoing queries *)
Definition OUTBOUND_MSG_RETRY : Z := 4.

(** [enum iter_state] *)
Inductive iter_state :=
| INIT_REQUEST_STATE
| INIT_REQUEST_2_STATE
| INIT_REQUEST_3_STATE
| QUERYTARGETS_STATE
| QUERY_RESP_STATE
| PRIME_RESP_STATE
| FINISHED_STATE.

(** Modelled from the spec: a target of the delegation point, an
    address and the retries that remain for it. *)
Record target := {
  t_addr    : list byte;
  t_retries : Z;
  t_bad     : bool
}.

(** The fields of [struct iter_qstate] that drive the state machine.
    [dp] is the list of targets of the current delegation point;
    [failed] is set once the query has been answered SERVFAIL. *)
Record iter_qstate := {
  state               : iter_state;
  final_state         : iter_state;
  depth               : Z;
  dp                  : list target;
  num_target_queries  : Z;
  num_current_queries : Z;
  query_restart_count : Z;
  referral_count      : Z;
  wait_priming_stub   : bool;
  failed              : bool
}.

(** Modelled from the spec: what the module asks of the worker. *)
Inductive action :=
| act_outbound (a : list byte)   (* one outbound query, wait_reply *)
| act_subquery                   (* a priming or target query, wait_subquery *)
| act_servfail                   (* error: the query ends with SERVFAIL *)
| act_finished.                  (* hand off to the next module *)

(** Modelled from the spec: what the worker and the caches deliver to
    the module. *)
Inductive response :=
| resp_answer                          (* final positive answer *)
| resp_cname                           (* positive answer through a CNAME *)
| resp_referral (addrs : list (list byte))
| resp_nxdomain_nodata
| resp_throwaway (from : list byte).   (* throwaway, lame or format error *)

Inductive input :=
| in_cache_hit                         (* INIT: reply found in the cache *)
| in_cache_dp (addrs : list (list byte)) (* INIT: closest cached NS *)
| in_cache_none                        (* INIT: nothing; prime the root *)
| in_prime_done (addrs : list (list byte))
| in_no_stub                           (* INIT2: no stub priming needed *)
| in_stub_prime                        (* INIT2: stub must be primed *)
| in_forward (fwd : option (list (list byte))) (* INIT3 *)
| in_run                               (* QUERYTARGETS is (re)entered *)
| in_target_done (addrs : list (list byte)) (* a target query finished *)
| in_reply (r : response)
| in_timeout.

Definition new_target (a : list byte) : target :=
  {| t_addr := a; t_retries := OUTBOUND_MSG_RETRY; t_bad := false |}.

Definition new_dp (addrs : list (list byte)) : list target :=
  new_target <$> addrs.

Definition usable (t : target) : bool :=
  negb (t_bad t) && (0 <? t_retries t).

(** Modelled from the spec: the position of the next target to query. *)
Fixpoint select_target (l : list target) : option nat :=
  match l with
  | [] => None
  | t :: l' => if usable t then Some 0%nat else S <$> select_target l'
  end.

Definition initial_qstate : iter_qstate :=
  {| state := INIT_REQUEST_STATE; final_state := FINISHED_STATE;
     depth := 0; dp := []; num_target_queries := 0;
     num_current_queries := 0; query_restart_count := 0;
     referral_count := 0; wait_priming_stub := false; failed := false |}.

Definition with_state (iq : iter_qstate) (s : iter_state) : iter_qstate :=
  {| state := s; final_state := final_state iq; depth := depth iq;
     dp := dp iq; num_target_queries := num_target_queries iq;
     num_current_queries := num_current_queries iq;
     query_restart_count := query_restart_count iq;
     referral_count := referral_count iq;
     wait_priming_stub := wait_priming_stub iq; failed := failed iq |}.

Definition with_dp (iq : iter_qstate) (d : list target) : iter_qstate :=
  {| state := state iq; final_state := final_state iq; depth := depth iq;
     dp := d; num_target_queries := num_target_queries iq;
     num_current_queries := num_current_queries iq;
     query_restart_count := query_restart_count iq;
     referral_count := referral_count iq;
     wait_priming_stub := wait_priming_stub iq; failed := failed iq |}.

Definition with_queries (iq : iter_qstate) (nt nc : Z) : iter_qstate :=
  {| state := state iq; final_state := final_state iq; depth := depth iq;
     dp := dp iq; num_target_queries := nt;
     num_current_queries := nc;
     query_restart_count := query_restart_count iq;
     referral_count := referral_count iq;
     wait_priming_stub := wait_priming_stub iq; failed := failed iq |}.

Definition with_counts (iq : iter_qstate) (rs rf : Z) : iter_qstate :=
  {| state := state iq; final_state := final_state iq; depth := depth iq;
     dp := dp iq; num_target_queries := num_target_queries iq;
     num_current_queries := num_current_queries iq;
     query_restart_count := rs;
     referral_count := rf;
     wait_priming_stub := wait_priming_stub iq; failed := failed iq |}.

Definition with_stub (iq : iter_qstate) (w : bool) : iter_qstate :=
  {| state := state iq; final_state := final_state iq; depth := depth iq;
     dp := dp iq; num_target_queries := num_target_queries iq;
     num_current_queries := num_current_queries iq;
     query_restart_count := query_restart_count iq;
     referral_count := referral_count iq;
     wait_priming_stub := w; failed := failed iq |}.

(** Modelled from the spec: the query ends with SERVFAIL. *)
Definition error_servfail (iq : iter_qstate) : iter_qstate * list action :=
  ({| state := FINISHED_STATE; final_state := final_state iq;
      depth := depth iq; dp := dp iq;
      num_target_queries := num_target_queries iq;
      num_current_queries := num_current_queries iq;
      query_restart_count := query_restart_count iq;
      referral_count := referral_count iq;
      wait_priming_stub := wait_priming_stub iq; failed := true |},
   [act_servfail]).

Definition spend_retry (t : target) : target :=
  {| t_addr := t_addr t; t_retries := t_retries t - 1; t_bad := t_bad t |}.

Definition mark_bad (t : target) : target :=
  {| t_addr := t_addr t; t_retries := t_retries t; t_bad := true |}.

(** Modelled from the spec: QUERYTARGETS.  With a usable target and
    no query outstanding, emit one outbound query and decrement the
    remaining retries of the target; with target queries outstanding,
    wait for them; on exhaustion of all targets and retries,
    SERVFAIL. *)
Definition processQueryTargets (iq : iter_qstate)
    : iter_qstate * list action :=
  match select_target (dp iq) with
  | Some i =>
      match dp iq !! i with
      | Some t =>
          if num_current_queries iq =? 0 then
            (with_state
               (with_queries (with_dp iq (<[i := spend_retry t]> (dp iq)))
                  (num_target_queries iq) 1)
               QUERY_RESP_STATE,
             [act_outbound (t_addr t)])
          else (iq, [])
      | None => (iq, [])
      end
  | None =>
      if 0 <? num_target_queries iq then (iq, [])
      else error_servfail iq
  end.

(** Modelled from the spec: QUERY_RESP, the classification of the
    response.  A restart or a referral that would exceed its limit
    ends the query with SERVFAIL at once; a throwaway marks the
    answering target bad. *)
Definition processQueryResponse (iq : iter_qstate) (r : response)
    : iter_qstate * list action :=
  let iq := with_queries iq (num_target_queries iq) 0 in
  match r with
  | resp_answer | resp_nxdomain_nodata =>
      (with_state iq FINISHED_STATE, [act_finished])
  | resp_cname =>
      if MAX_RESTART_COUNT <? query_restart_count iq + 1
      then error_servfail iq
      else (with_state
              (with_counts iq (query_restart_count iq + 1)
                 (referral_count iq))
              INIT_REQUEST_STATE, [])
  | resp_referral addrs =>
      if MAX_REFERRAL_COUNT <? referral_count iq + 1
      then error_servfail iq
      else (with_state
              (with_counts (with_dp iq (new_dp addrs))
                 (query_restart_count iq) (referral_count iq + 1))
              QUERYTARGETS_STATE, [])
  | resp_throwaway from =>
      (with_state
         (with_dp iq
            ((fun t => if decide (t_addr t = from) then mark_bad t else t)
               <$> dp iq))
         QUERYTARGETS_STATE, [])
  end.

(** Modelled from the spec: one event delivered to the iterator
    (section 4.6 of the spec; the code is in iterator/iterator.c).
    An event that the current state does not expect is ignored. *)
Definition iter_handle (iq : iter_qstate) (i : input)
    : iter_qstate * list action :=
  if failed iq then (iq, []) else
  match state iq, i with
  | INIT_REQUEST_STATE, in_cache_hit =>
      (with_state iq FINISHED_STATE, [act_finished])
  | INIT_REQUEST_STATE, in_cache_dp addrs =>
      (with_state (with_dp iq (new_dp addrs)) INIT_REQUEST_2_STATE, [])
  | INIT_REQUEST_STATE, in_cache_none =>
      (with_state (with_dp iq []) PRIME_RESP_STATE, [act_subquery])
  | PRIME_RESP_STATE, in_prime_done addrs =>
      (with_state (with_stub (with_dp iq (new_dp addrs)) false)
         (if wait_priming_stub iq then INIT_REQUEST_3_STATE
          else INIT_REQUEST_2_STATE), [])
  | INIT_REQUEST_2_STATE, in_no_stub =>
      (with_state iq INIT_REQUEST_3_STATE, [])
  | INIT_REQUEST_2_STATE, in_stub_prime =>
      (with_state (with_stub (with_dp iq []) true) PRIME_RESP_STATE,
       [act_subquery])
  | INIT_REQUEST_3_STATE, in_forward fwd =>
      (with_state
         (match fwd with
          | Some addrs => with_dp iq (new_dp addrs)
          | None => iq
          end) QUERYTARGETS_STATE, [])
  | QUERYTARGETS_STATE, in_run => processQueryTargets iq
  | QUERYTARGETS_STATE, in_target_done addrs =>
      (with_queries (with_dp iq (dp iq ++ new_dp addrs))
         (Z.max 0 (num_target_queries iq - 1)) (num_current_queries iq),
       [])
  | QUERY_RESP_STATE, in_reply r => processQueryResponse iq r
  | QUERY_RESP_STATE, in_timeout =>
      (with_state (with_queries iq (num_target_queries iq) 0)
         QUERYTARGETS_STATE, [])
  | _, _ => (iq, [])
  end.

(** The life of a query: the events in order, the actions collected. *)
Fixpoint iter_run (iq : iter_qstate) (ins : list input)
    : iter_qstate * list action :=
  match ins with
  | [] => (iq, [])
  | i :: ins' =>
      let '(iq1, a1) := iter_handle iq i in
      let '(iq2, a2) := iter_run iq1 ins' in
      (iq2, a1 ++ a2)
  end.

Definition is_outbound (a : action) : bool :=
  match a with act_outbound _ => true | _ => false end.

(** The number of outbound queries in a list of actions. *)
Definition outbound_count (l : list action) : Z :=
  Z.of_nat (length (List.filter is_outbound l)).

(** A response that would take a counter past its limit. *)
Definition would_exceed (iq : iter_qstate) (r : response) : bool :=
  match r with
  | resp_cname => MAX_RESTART_COUNT <? query_restart_count iq + 1
  | resp_referral _ => MAX_REFERRAL_COUNT <? referral_count iq + 1
  | _ => false
  end.

(** The delegation point has at most [D] targets in every state the
    query goes through. *)
Fixpoint dp_within (D : nat) (iq : iter_qstate) (ins : list input) : bool :=
  (length (dp iq) <=? D)%nat
  && match ins with
     | [] => true
     | i :: ins' => dp_within D (fst (iter_handle iq i)) ins'
     end.

(** The retries spent on the targets of a delegation point. *)
Definition retries_spent (l : list target) : Z :=
  foldr (fun t n => (OUTBOUND_MSG_RETRY - t_retries t) + n) 0 l.

(** The states in which the current delegation point has been
    queried. *)
Definition querying (s : iter_state) : bool :=
  match s with
  | QUERYTARGETS_STATE | QUERY_RESP_STATE | FINISHED_STATE => true
  | _ => false
  end.

(** Both counters are within their limits. *)
Definition counts_ok (iq : iter_qstate) : Prop :=
  0 <= query_restart_count iq <= MAX_RESTART_COUNT
  /\ 0 <= referral_count iq <= MAX_REFERRAL_COUNT.

(** The account of outbound queries: [E] queries sent so far are
    covered by the delegation points left behind (one per restart or
    referral) and by the retries spent on the current one. *)
Definition budget_inv (D : nat) (iq : iter_qstate) (E : Z) : Prop :=
  counts_ok iq
  /\ Forall (fun t => 0 <= t_retries t <= OUTBOUND_MSG_RETRY) (dp iq)
  /\ E <= OUTBOUND_MSG_RETRY * Z.of_nat D
          * (query_restart_count iq + referral_count iq)
          + (if querying (state iq) then retries_spent (dp iq) else 0).

End Iterator.

(** ** validator/validator.h *)

Module Validator.
Import Data.

(** This is the TTL to use when a trust anchor fails to prime. *)
Definition NULL_KEY_TTL : Z := 900.

(** The scalar fields of [struct val_env]. *)
Record val_env := {
  date_override    : Z;
  bogus_ttl        : Z;
  clean_additional : Z;
  permissive_mode  : Z
}.

(** [enum val_state] *)
Inductive val_state :=
| VAL_INIT_STATE
| VAL_FINDKEY_STATE
| VAL_VALIDATE_STATE
| VAL_FINISHED_STATE.

Inductive rcode := RCODE_NOERROR | RCODE_SERVFAIL.

(** What the FINISHED state leaves: the status in the reply handed to
    the client with its RCODE and AD bit, and the status and TTL of
    the entry written to the cache. *)
Record val_outcome := {
  client_security : sec_status;
  client_rcode    : rcode;
  client_ad       : bool;
  cached_security : sec_status;
  cached_ttl      : Z
}.

(** Modelled from the spec: the validator reads its switches from the
    configuration ([val-permissive-mode], [val-clean-additional]);
    the code is in validator/validator.c. *)
Definition val_apply_cfg (ve : val_env) (c : ConfigParser.config_file)
    : val_env :=
  {| date_override := date_override ve; bogus_ttl := bogus_ttl ve;
     clean_additional := ConfigParser.val_clean_additional c;
     permissive_mode := ConfigParser.val_permissive_mode c |}.

(** Modelled from the spec: the FINISHED state of the validator
    (section 4.7; the code is in validator/validator.c).  The reply
    gets its security status; a bogus result is cached with
    [bogus_ttl]; in permissive mode bogus is downgraded to
    indeterminate for the client, never cached as secure.  A bogus
    reply is answered SERVFAIL; only a secure one carries the AD
    bit. *)
Definition processFinished (ve : val_env) (status : sec_status)
    (ttl : Z) : val_outcome :=
  match status with
  | sec_status_bogus =>
      if permissive_mode ve =? 0 then
        {| client_security := sec_status_bogus;
           client_rcode := RCODE_SERVFAIL; client_ad := false;
           cached_security := sec_status_bogus;
           cached_ttl := bogus_ttl ve |}
      else
        {| client_security := sec_status_indeterminate;
           client_rcode := RCODE_NOERROR; client_ad := false;
           cached_security := sec_status_bogus;
           cached_ttl := bogus_ttl ve |}
  | sec_status_secure =>
      {| client_security := status; client_rcode := RCODE_NOERROR;
         client_ad := true; cached_security := status;
         cached_ttl := ttl |}
  | _ =>
      {| client_security := status; client_rcode := RCODE_NOERROR;
         client_ad := false; cached_security := status;
         cached_ttl := ttl |}
  end.

End Validator.

(** ** A resolver at work: concrete caches and queries *)

Module Scenario.
Import Data Slabhash Dns.

(** Hash functions that spread on the top bits, and size functions
    that count bytes. *)
Definition qhash (q : query_info) : Z :=
  u32 (Z.of_nat (length (qname q)) * 2 ^ 28 + qtype q).
Definition rhash (k : packed_rrset_key) : Z :=
  u32 (Z.of_nat (length (rk_dname k)) * 2 ^ 28 + rk_type k).
Definition msgsize (q : query_info) (r : reply_info positive) : nat :=
  (64 + length (qname q) + 8 * rrset_count r)%nat.
Definition rrsize (k : ub_packed_rrset_key) (d : packed_rrset_data) : nat :=
  (64 + length (rk_dname (rk k)) + length (mjoin (rr_data d)))%nat.

Definition length_byte (n : nat) : byte :=
  match Byte.of_nat n with Some b => b | None => x00 end.

Definition label (s : string) : list byte :=
  length_byte (String.length s) :: list_byte_of_string s.

(** The wire format of a name given by its labels. *)
Definition wire (labels : list string) : list byte :=
  mjoin (label <$> labels) ++ [x00].

Definition www_example_com : list byte :=
  wire ["www"%string; "example"%string; "com"%string].
Definition example_com : list byte :=
  wire ["example"%string; "com"%string].
Definition com : list byte := wire ["com"%string].
Definition a_gtld_servers_net : list byte :=
  wire ["a"%string; "gtld-servers"%string; "net"%string].

(** An RDATA blob: two length bytes, then the data. *)
Definition rdata (d : list byte) : list byte :=
  x00 :: length_byte (length d) :: d.

Definition memory : region := {| script := []; brk := 4096%positive |}.
Definition no_memory : region :=
  {| script := [false]; brk := 4096%positive |}.

Definition empty_env : module_env :=
  {| msg_cache := slabhash_create 4 4096;
     rrset_cache := slabhash_create 4 4096;
     alloc := ∅; heap := memory |}.

Definition IN : Z := 1.

(** The NS set of com, as a referral brings it, with relative TTLs. *)
Definition com_ns_rk : packed_rrset_key :=
  {| rk_dname := com; rk_flags := 0; rk_type := LDNS_RR_TYPE_NS;
     rk_class := IN |}.
Definition com_ns : Slabhash.lruhash_entry ub_packed_rrset_key
                      packed_rrset_data :=
  {| hash := rhash com_ns_rk;
     key := {| key_addr := 16%positive; id := 1; rk := com_ns_rk |};
     data := {| ttl := 300; count := 1; rrsig_count := 0;
                trust := rrset_trust_authority;
                security := sec_status_indeterminate;
                rr_ttl := [300];
                rr_data := [rdata a_gtld_servers_net] |} |}.

Definition query_a : query_info :=
  {| qname := www_example_com; qtype := LDNS_RR_TYPE_A; qclass := IN |}.
Definition query_cname : query_info :=
  {| qname := www_example_com; qtype := LDNS_RR_TYPE_CNAME; qclass := IN |}.

(** A reply that refers to the NS set of com. *)
Definition referral (t : Z) : reply_info positive :=
  {| flags := BIT_QR; qdcount := 1; rep_ttl := t;
     rep_security := sec_status_indeterminate;
     an_numrrsets := 0; ns_numrrsets := 1; ar_numrrsets := 0;
     rrset_count := 1; rrsets := [16%positive];
     ref := [{| ref_key := 1%positive; ref_id := 0 |}] |}.

(** A reply without RRsets. *)
Definition nodata (t : Z) : reply_info positive :=
  {| flags := BIT_QR; qdcount := 1; rep_ttl := t;
     rep_security := sec_status_indeterminate;
     an_numrrsets := 0; ns_numrrsets := 0; ar_numrrsets := 0;
     rrset_count := 0; rrsets := []; ref := [] |}.

(** The referral has arrived: its key object is owned by the caller. *)
Definition env_fresh : module_env :=
  set_alloc empty_env {[ 16%positive := com_ns ]}.

(** The referral stored for [query_a] at time 1000 with TTL 300. *)
Definition env_stored : module_env :=
  fst (dns_cache_store_msg msgsize rrsize env_fresh query_a
         (qhash query_a) (referral 300) 1000).

(** The same referral stored as the answer to the CNAME query. *)
Definition env_cname : module_env :=
  fst (dns_cache_store_msg msgsize rrsize env_fresh query_cname
         (qhash query_cname) (referral 300) 1000).

(** A reply without RRsets stored at time 1000 with TTL 300: its
    absolute TTL is 1300. *)
Definition env_nodata : module_env :=
  fst (dns_cache_store_msg msgsize rrsize empty_env query_a
         (qhash query_a) (nodata 300) 1000).

(** The entry of the message cache for [query_a] in [env_nodata]. *)
Definition nodata_entry
    : Slabhash.lruhash_entry query_info (reply_info positive) :=
  {| hash := qhash query_a; key := query_a;
     data := {| flags := BIT_QR; qdcount := 1; rep_ttl := 1300;
                rep_security := sec_status_indeterminate;
                an_numrrsets := 0; ns_numrrsets := 0; ar_numrrsets := 0;
                rrset_count := 0; rrsets := []; ref := [] |} |}.

(** A small table with keys and data in [Z]: every entry counts 1,
    two slabs share a budget of 4. *)
Definition unit_size (k d : Z) : nat := 1%nat.
Definition small_table : Slabhash.slabhash Z Z :=
  foldl (slabhash_apply unit_size Z.sub) (slabhash_create 2 4)
        [op_insert 0 1 10; op_insert 0 2 20].

(** The environment of a validator configured with
    [val-permissive-mode: yes]. *)
Definition default_val_env : Validator.val_env :=
  {| Validator.date_override := 0; Validator.bogus_ttl := 60;
     Validator.clean_additional := 1; Validator.permissive_mode := 0 |}.
Definition permissive_env : Validator.val_env :=
  match ConfigParser.yyreduce_action
          ConfigParser.server_val_permissive_mode "yes"
          {| ConfigParser.cfg :=
               {| ConfigParser.host_ttl := 900;
                  ConfigParser.infra_cache_numhosts := 10000;
                  ConfigParser.val_clean_additional := 1;
                  ConfigParser.val_permissive_mode := 0 |};
             ConfigParser.errors := 0; ConfigParser.log := [] |} with
  | Some st => Validator.val_apply_cfg default_val_env (ConfigParser.cfg st)
  | None => default_val_env
  end.

End Scenario.

(** ** edns-subnet/addrtree.c *)

Module Addrtree.
Import Data.

Section Tree.
(** [KEYWIDTH], the number of bits of an [addrkey_t], is a macro of
    addrtree.h; [E] stands for [struct reply_info] and [Env] for
    [struct module_env]. *)
Variable KEYWIDTH : Z.
Context {E Env : Type}.

(** [addrkey_t] and [addrlen_t] are unsigned integers. *)
Abbreviation addrkey_t := Z (only parsing).
Abbreviation addrlen_t := Z (only parsing).

(** [struct addrnode] and [struct addredge], with the fields that
    addrtree.c uses; a pointer that may be NULL is an [option], the
    array [edge[2]] is the pair [edge0], [edge1]. *)
Inductive addrnode : Type :=
| mk_node (elem : option E) (scope : addrlen_t)
          (edge0 edge1 : option addredge)
with addredge : Type :=
| mk_edge (str : list addrkey_t) (len : addrlen_t)
          (node : option addrnode).

Definition elem (n : addrnode) : option E :=
  match n with mk_node e _ _ _ => e end.
Definition scope (n : addrnode) : addrlen_t :=
  match n with mk_node _ s _ _ => s end.
Definition edge0 (n : addrnode) : option addredge :=
  match n with mk_node _ _ e _ => e end.
Definition edge1 (n : addrnode) : option addredge :=
  match n with mk_node _ _ _ e => e end.
Definition str (e : addredge) : list addrkey_t :=
  match e with mk_edge s _ _ => s end.
Definition len (e : addredge) : addrlen_t :=
  match e with mk_edge _ l _ => l end.
Definition node (e : addredge) : option addrnode :=
  match e with mk_edge _ _ n => n end.

(** [node->edge[index]], read and written; [index] is 0 or 1. *)
Definition edge_at (n : addrnode) (index : Z) : option addredge :=
  if index =? 0 then edge0 n else edge1 n.
Definition set_edge (n : addrnode) (index : Z) (e : option addredge)
    : addrnode :=
  if index =? 0 then mk_node (elem n) (scope n) e (edge1 n)
  else mk_node (elem n) (scope n) (edge0 n) e.

(** [struct addrtree] *)
Record addrtree := {
  root      : option addrnode;
  max_depth : addrlen_t;
  env       : Env
}.

(** The functions below return [None] where the C program has no
    result: an [assert] fails, NULL is dereferenced or a key is read
    past its end.  [malloc] and [calloc] take their results from the
    script of a [region]. *)

(** The number of [addrkey_t] that hold [addrlen] bits. *)
Definition nwords (addrlen : addrlen_t) : Z :=
  addrlen / KEYWIDTH + (if addrlen mod KEYWIDTH =? 0 then 0 else 1).

(** Create a new edge *)
Definition edge_create (nd : option addrnode) (addr : list addrkey_t)
    (addrlen : addrlen_t) (h : region)
    : option (option addredge * region) :=
  match region_alloc h with
  | (None, h) => Some (None, h)
  | (Some _, h) =>
      let n := nwords addrlen in
      match region_alloc h with
      | (None, h) => Some (None, h)
      | (Some _, h) =>
          (* memcpy(edge->str, addr, n * sizeof(addrkey_t)) *)
          if (Z.to_nat n <=? length addr)%nat
          then Some (Some (mk_edge (take (Z.to_nat n) addr) addrlen nd), h)
          else None
      end
  end.

(** Create a new node *)
Definition node_create (el : option E) (sc : addrlen_t) (h : region)
    : option addrnode * region :=
  match region_alloc h with
  | (None, h) => (None, h)
  | (Some _, h) => (Some (mk_node el sc None None), h)
  end.

Definition addrtree_create (maxdepth : addrlen_t) (ev : option Env)
    (h : region) : option (option addrtree * region) :=
  match ev with
  | None => None                       (* assert(env != NULL) *)
  | Some ev =>
      match region_alloc h with
      | (None, h) => Some (None, h)
      | (Some _, h) =>
          match node_create None 0 h with
          | (None, h) => Some (None, h)
          | (Some r, h) =>
              Some (Some {| root := Some r; max_depth := maxdepth;
                            env := ev |}, h)
          end
      end
  end.

(** [addrtree_clean_node]: the element, if there is one, goes to
    [reply_info_parsedelete]; the result lists what was deleted. *)
Definition addrtree_clean_node (n : addrnode) : addrnode * list E :=
  match elem n with
  | Some e => (mk_node None (scope n) (edge0 n) (edge1 n), [e])
  | None => (n, [])
  end.

(** Free node and all nodes below; the result lists the elements given
    to [reply_info_parsedelete], in the order of the calls. *)
Fixpoint freenode_recursive (n : addrnode) : option (list E) :=
  let free_edge (oe : option addredge) : option (list E) :=
    match oe with
    | Some (mk_edge _ _ (Some c)) => freenode_recursive c
    | Some (mk_edge _ _ None) => None  (* assert(edge->node != NULL) *)
    | None => Some []
    end in
  match n with
  | mk_node el sc e0 e1 =>
      d0 ← free_edge e0;
      d1 ← free_edge e1;
      Some (d0 ++ d1 ++ snd (addrtree_clean_node n))
  end.

Definition addrtree_delete (tree : option addrtree) : option (list E) :=
  match tree with
  | Some t =>
      match root t with
      | Some r => freenode_recursive r
      | None => Some []
      end
  | None => Some []
  end.

(** Get N'th bit from address *)
Definition getbit (addr : list addrkey_t) (addrlen n : addrlen_t)
    : option Z :=
  if n <? addrlen                       (* assert(addrlen > n) *)
  then w ← addr !! Z.to_nat (n / KEYWIDTH);
       Some (Z.land (Z.shiftr w ((KEYWIDTH - 1) - n mod KEYWIDTH)) 1)
  else None.

(** Test for equality on N'th bit: 0 for equal, 1 otherwise. *)
Definition cmpbit (key1 key2 : list addrkey_t) (n : addrlen_t)
    : option Z :=
  w1 ← key1 !! Z.to_nat (n / KEYWIDTH);
  w2 ← key2 !! Z.to_nat (n / KEYWIDTH);
  let c := Z.lxor w1 w2 in
  Some (Z.land (Z.shiftr c ((KEYWIDTH - 1) - n mod KEYWIDTH)) 1).

(** The loop of [bits_common] with [k] iterations to go: it ends at
    [i = len]. *)
Fixpoint bits_common_loop (s1 s2 : list addrkey_t) (k : nat)
    (i : addrlen_t) : option addrlen_t :=
  match k with
  | O => Some i
  | S k' =>
      c ← cmpbit s1 s2 i;
      if c =? 0 then bits_common_loop s1 s2 k' (i + 1) else Some i
  end.

(** Common number of bits in prefix *)
Definition bits_common (s1 : list addrkey_t) (l1 : addrlen_t)
    (s2 : list addrkey_t) (l2 : addrlen_t) (skip : addrlen_t)
    : option addrlen_t :=
  let len := if l2 <? l1 then l2 else l1 in
  if skip <? len                        (* assert(skip < len) *)
  then bits_common_loop s1 s2 (Z.to_nat (len - skip)) skip
  else None.

(** Tests if s1 is a substring of s2: 1 for substring, 0 otherwise. *)
Definition issub (s1 : list addrkey_t) (l1 : addrlen_t)
    (s2 : list addrkey_t) (l2 : addrlen_t) (skip : addrlen_t)
    : option Z :=
  c ← bits_common s1 l1 s2 l2 skip;
  Some (if c =? l1 then 1 else 0).

(** The [while (1)] of [addrtree_insert], entered with [node = nd] at
    [depth]; the result is the node as the loop leaves it, the
    elements given to [reply_info_parsedelete] and the heap. *)
Fixpoint insert_loop (addr : list addrkey_t) (sourcemask sc : addrlen_t)
    (el : option E) (nd : addrnode) (depth : addrlen_t) (h : region)
    {struct nd} : option (addrnode * list E * region) :=
  if sourcemask <? depth then None      (* assert(depth <= sourcemask) *)
  else if depth =? sourcemask then
    (* Case 1: update existing node *)
    (* update this node's scope and data *)
    Some (mk_node el sc (edge0 nd) (edge1 nd),
          match elem nd with Some old => [old] | None => [] end, h)
  else
    match getbit addr sourcemask depth with
    | None => None
    | Some index =>
    match edge_at nd index with
    | None =>
        (* Case 2: New leafnode *)
        let '(newnode, h) := node_create el sc h in
        match edge_create newnode addr sourcemask h with
        | None => None
        | Some (e, h) => Some (set_edge nd index e, [], h)
        end
    | Some edge =>
        (* Case 3: Traverse edge *)
        match bits_common (str edge) (len edge) addr sourcemask depth with
        | None => None
        | Some common =>
        if common =? len edge then
          match node edge with
          | None => None                (* node = edge->node is NULL *)
          | Some child =>
              match insert_loop addr sourcemask sc el child (len edge) h
              with
              | None => None
              | Some (child', del, h) =>
                  Some (set_edge (mk_node (elem nd) sc (edge0 nd) (edge1 nd))
                          index
                          (Some (mk_edge (str edge) (len edge) (Some child'))),
                        del, h)
              end
          end
        else
          (* Case 4: split. *)
          let '(newnode, h) := node_create None 0 h in
          match edge_create newnode addr common h with
          | None => None
          | Some (newedge, h) =>
          match getbit (str edge) (len edge) common with
          | None => None
          | Some index2 =>
          match newnode with
          | None => None                (* newnode->edge[index] = edge *)
          | Some newnode =>
              let newnode := set_edge newnode index2 (Some edge) in
              let finish (newnode : addrnode) (h : region) :=
                Some (set_edge nd index
                        (match newedge with
                         | Some ne =>
                             Some (mk_edge (str ne) (len ne) (Some newnode))
                         | None => None
                         end), @nil E, h) in
              if common =? sourcemask then
                (* Data is stored in the node *)
                finish (mk_node el sc (edge0 newnode) (edge1 newnode)) h
              else
                (* Data is stored in other leafnode *)
                let '(leaf, h) := node_create el sc h in
                match edge_create leaf addr sourcemask h with
                | None => None
                | Some (e, h) =>
                    finish (set_edge newnode (Z.lxor index2 1) e) h
                end
          end end end
        end
    end end.

Definition addrtree_insert (tree : addrtree) (addr : list addrkey_t)
    (sourcemask sc : addrlen_t) (el : option E) (h : region)
    : option (addrtree * list E * region) :=
  match root tree with
  | None => None                        (* assert(node != NULL) *)
  | Some nd =>
      (* Protect our cache against to much fine-grained data *)
      let sc := if max_depth tree <? sc then max_depth tree else sc in
      (* Server answer was less specific than question *)
      let sourcemask := if sc <? sourcemask then sc else sourcemask in
      match insert_loop addr sourcemask sc el nd 0 h with
      | None => None
      | Some (nd', del, h) =>
          Some ({| root := Some nd'; max_depth := max_depth tree;
                   env := env tree |}, del, h)
      end
  end.

(** The [while (1)] of [addrtree_find], entered with [node = nd] at
    [depth]; [Some None] is the result NULL. *)
Fixpoint find_loop (addr : list addrkey_t) (sourcemask : addrlen_t)
    (nd : addrnode) (depth : addrlen_t) {struct nd}
    : option (option addrnode) :=
  if sourcemask <? depth then None      (* assert(depth <= sourcemask) *)
  else
    (* does this node have data? if yes, see if we have a match *)
    let hit :=
      match elem nd with
      | Some _ =>
          if scope nd <? depth then None (* assert(node->scope >= depth) *)
          else Some ((depth =? scope nd)
                     || ((sourcemask <? scope nd) && (depth =? sourcemask)))
      | None => Some false
      end in
    match hit with
    | None => None
    | Some true => Some (Some nd)
    | Some false =>
        (* This is our final depth, but we haven't found an answer. *)
        if depth =? sourcemask then Some None
        else
          match getbit addr sourcemask depth with
          | None => None
          | Some index =>
          match edge_at nd index with
          | None => Some None
          | Some edge =>
          match node edge with
          | None => Some None
          | Some child =>
              if sourcemask <? len edge then Some None
              else
                match issub (str edge) (len edge) addr sourcemask depth with
                | None => None
                | Some sub =>
                    if sub =? 0 then Some None
                    else if depth <? len edge (* assert(depth < edge->len) *)
                    then find_loop addr sourcemask child (len edge)
                    else None
                end
          end end end
    end.

Definition addrtree_find (tree : addrtree) (addr : list addrkey_t)
    (sourcemask : addrlen_t) : option (option addrnode) :=
  match root tree with
  | None => None                        (* assert(node != NULL) *)
  | Some nd => find_loop addr sourcemask nd 0
  end.

(** The shape of the trees that [addrtree_insert] builds, for a node
    at [depth] of a tree limited to [maxd]: a node with an element has
    a scope of at least its depth; an edge is longer than the depth of
    the node it leaves and not longer than [maxd], its key holds its
    [len] bits, the bit at the depth of the node is the index of the
    edge, and it leads to a node. *)
Fixpoint addrnode_ok (maxd depth : addrlen_t) (n : addrnode) {struct n}
    : bool :=
  let edge_ok (index : Z) (oe : option addredge) : bool :=
    match oe with
    | None => true
    | Some (mk_edge s l nd) =>
        (depth <? l) && (l <=? maxd)
        && (Z.to_nat (nwords l) <=? length s)%nat
        && match getbit s l depth with
           | Some b => b =? index
           | None => false
           end
        && match nd with
           | Some c => addrnode_ok maxd l c
           | None => false
           end
    end in
  match n with
  | mk_node el sc e0 e1 =>
      match el with Some _ => depth <=? sc | None => true end
      && (sc <=? maxd) && edge_ok 0 e0 && edge_ok 1 e1
  end.

Definition addrtree_ok (t : addrtree) : bool :=
  match root t with
  | Some r => (0 <=? max_depth t) && addrnode_ok (max_depth t) 0 r
  | None => false
  end.

(** The elements stored in the nodes of a tree. *)
Fixpoint elems (n : addrnode) : list E :=
  let below (oe : option addredge) : list E :=
    match oe with
    | Some (mk_edge _ _ (Some c)) => elems c
    | _ => []
    end in
  match n with
  | mk_node el _ e0 e1 => option_list el ++ below e0 ++ below e1
  end.

(** The elements below an edge. *)
Definition elems_below (oe : option addredge) : list E :=
  match oe with
  | Some (mk_edge _ _ (Some c)) => elems c
  | _ => []
  end.

Definition addrtree_elems (t : addrtree) : list E :=
  match root t with Some r => elems r | None => [] end.

(** A call of [addrtree_insert], and a sequence of calls on one tree:
    the result collects what the calls gave to
    [reply_info_parsedelete]. *)
Record insert_op := {
  op_addr       : list addrkey_t;
  op_sourcemask : addrlen_t;
  op_scope      : addrlen_t;
  op_elem       : option E
}.

Fixpoint addrtree_insert_all (tree : addrtree) (ops : list insert_op)
    (h : region) : option (addrtree * list E * region) :=
  match ops with
  | [] => Some (tree, [], h)
  | o :: ops' =>
      match addrtree_insert tree (op_addr o) (op_sourcemask o)
              (op_scope o) (op_elem o) h with
      | None => None
      | Some (tree, del, h) =>
          match addrtree_insert_all tree ops' h with
          | None => None
          | Some (tree, del', h) => Some (tree, del ++ del', h)
          end
      end
  end.

(** The caller's side of [addrtree_insert] and [addrtree_find]: the
    lengths are unsigned and the key holds [sourcemask] bits. *)
Definition key_ok (addr : list addrkey_t) (sourcemask : addrlen_t) : bool :=
  (0 <=? sourcemask) && (Z.to_nat (nwords sourcemask) <=? length addr)%nat.

Definition insert_op_ok (o : insert_op) : bool :=
  key_ok (op_addr o) (op_sourcemask o) && (0 <=? op_scope o).

End Tree.

Arguments addrnode : clear implicits.
Arguments addredge : clear implicits.
Arguments addrtree : clear implicits.
Arguments insert_op : clear implicits.

End Addrtree.

(** ** Accounting of region allocations *)

Module Regions.
Import Data.

(** [rg'] is [rg] after [n] allocations that all succeeded. *)
Definition allocated (n : nat) (rg rg' : region) : Prop :=
  script rg' = drop n (script rg)
  /\ Pos.to_nat (brk rg') = (Pos.to_nat (brk rg) + n)%nat
  /\ Forall (fun ok => ok = true) (take n (script rg)).

End Regions.

(** ** The referral message of [dns_cache_find_delegation] *)

Module Referral.
Import Data Dns.


End Referral.

(** ** util/config_file.h, as far as the parser writes it *)

Module ConfigFile.
Import Data.

(** The members of [struct config_file] that the actions of the parser
    assign themselves, from a number or from yes/no.  A member holds
    the value that was assigned to it; the header that declares the
    types of the members is not among the sources. *)
Inductive int_member :=
  | num_threads | verbosity | stat_cumulative | stat_extended | port
  | outgoing_num_ports | outgoing_num_tcp | incoming_num_tcp
  | if_automatic | do_ip4 | do_ip6 | do_udp | do_tcp | tcp_upstream
  | ssl_upstream | ssl_port | do_daemonize | log_time_ascii | log_queries
  | hide_identity | hide_version | so_reuseport | num_queries_per_thread
  | jostle_time | delay_close | unblock_lan_zones | host_ttl
  | infra_cache_numhosts | harden_short_bufsize | harden_large_queries
  | harden_glue | harden_dnssec_stripped | harden_below_nxdomain
  | harden_referral_path | use_caps_bits_for_id | prefetch | prefetch_key
  | unwanted_threshold | donotquery_localhost | max_ttl | min_ttl
  | bogus_ttl | val_clean_additional | val_permissive_mode | ignore_cd
  | val_log_level | add_holddown | del_holddown | keep_missing
  | minimal_responses | rrset_roundrobin | dns64_synthall
  | remote_control_enable | control_port | dnstap | dnstap_send_identity
  | dnstap_send_version | dnstap_log_resolver_query_messages
  | dnstap_log_resolver_response_messages
  | dnstap_log_client_query_messages | dnstap_log_client_response_messages
  | dnstap_log_forwarder_query_messages
  | dnstap_log_forwarder_response_messages | stat_interval | use_syslog
  | edns_buffer_size | msg_buffer_size | val_date_override
  | val_sig_skew_min | val_sig_skew_max | max_udp_size
  | msg_cache_slabs | rrset_cache_slabs | infra_cache_slabs
  | key_cache_slabs.

(** The members of type [char*] that take the string of the option. *)
Inductive str_member :=
  | ssl_service_key | ssl_service_pem | chrootdir | username | directory
  | pidfile | dlv_anchor_file | identity | version | target_fetch_policy
  | module_conf | val_nsec3_key_iterations | dns64_prefix
  | server_key_file | server_cert_file | control_key_file
  | control_cert_file | dnstap_socket_path | dnstap_identity
  | dnstap_version | python_script | logfile.

(** The members whose address goes to [cfg_parse_memsize]. *)
Inductive size_member :=
  | so_rcvbuf | so_sndbuf | msg_cache_size | rrset_cache_size
  | key_cache_size | neg_cache_size.

(** The lists of strings and of pairs of strings, whose heads go to
    [cfg_strlist_insert] and to [cfg_str2list_insert]. *)
Inductive strlist_member :=
  | root_hints | dlv_anchor_list | auto_trust_anchor_file_list
  | trust_anchor_file_list | trusted_keys_file_list | trust_anchor_list
  | domain_insecure | private_address | private_domain | donotqueryaddrs
  | control_ifs | local_zones_nodefault | local_data.

Inductive str2list_member :=
  | acls | local_zones.

#[global] Instance int_member_eq_dec : EqDecision int_member.
Proof. solve_decision. Defined.
#[global] Instance str_member_eq_dec : EqDecision str_member.
Proof. solve_decision. Defined.
#[global] Instance size_member_eq_dec : EqDecision size_member.
Proof. solve_decision. Defined.
#[global] Instance strlist_member_eq_dec : EqDecision strlist_member.
Proof. solve_decision. Defined.
#[global] Instance str2list_member_eq_dec : EqDecision str2list_member.
Proof. solve_decision. Defined.

(** [struct config_stub], an element of the lists [stubs] and
    [forwards]: in a stub from [calloc] the [name] is NULL and the
    lists of hosts and of addresses are empty. *)
Record config_stub := {
  name    : option string;
  hosts   : list string;
  addrs   : list string;
  isfirst : Z;
  isprime : Z
}.

(** [struct config_file].  [stubs] and [forwards] are the linked lists,
    head first; [ifs] and [out_ifs] are the arrays of [num_ifs] and
    [num_out_ifs] strings ([None]: the NULL pointer; an element [None]:
    a slot that was never assigned); [outgoing_avail_ports] is the
    array of 65536 numbers. *)
Record config_file := {
  ints        : int_member -> Z;
  strs        : str_member -> option string;
  sizes       : size_member -> Z;
  strlists    : strlist_member -> list string;
  str2lists   : str2list_member -> list (string * string);
  outgoing_avail_ports : list Z;
  stubs       : list config_stub;
  forwards    : list config_stub;
  num_ifs     : Z;
  ifs         : option (list (option string));
  num_out_ifs : Z;
  out_ifs     : option (list (option string))
}.

Definition set_int (m : int_member) (x : Z) (c : config_file)
    : config_file :=
  {| ints := fun m' => if decide (m' = m) then x else ints c m';
     strs := strs c; sizes := sizes c; strlists := strlists c;
     str2lists := str2lists c;
     outgoing_avail_ports := outgoing_avail_ports c;
     stubs := stubs c; forwards := forwards c;
     num_ifs := num_ifs c; ifs := ifs c;
     num_out_ifs := num_out_ifs c; out_ifs := out_ifs c |}.

Definition set_str (m : str_member) (x : option string) (c : config_file)
    : config_file :=
  {| ints := ints c;
     strs := fun m' => if decide (m' = m) then x else strs c m';
     sizes := sizes c; strlists := strlists c; str2lists := str2lists c;
     outgoing_avail_ports := outgoing_avail_ports c;
     stubs := stubs c; forwards := forwards c;
     num_ifs := num_ifs c; ifs := ifs c;
     num_out_ifs := num_out_ifs c; out_ifs := out_ifs c |}.

Definition set_size (m : size_member) (x : Z) (c : config_file)
    : config_file :=
  {| ints := ints c; strs := strs c;
     sizes := fun m' => if decide (m' = m) then x else sizes c m';
     strlists := strlists c; str2lists := str2lists c;
     outgoing_avail_ports := outgoing_avail_ports c;
     stubs := stubs c; forwards := forwards c;
     num_ifs := num_ifs c; ifs := ifs c;
     num_out_ifs := num_out_ifs c; out_ifs := out_ifs c |}.

Definition set_strlist (m : strlist_member) (l : list string)
    (c : config_file) : config_file :=
  {| ints := ints c; strs := strs c; sizes := sizes c;
     strlists := fun m' => if decide (m' = m) then l else strlists c m';
     str2lists := str2lists c;
     outgoing_avail_ports := outgoing_avail_ports c;
     stubs := stubs c; forwards := forwards c;
     num_ifs := num_ifs c; ifs := ifs c;
     num_out_ifs := num_out_ifs c; out_ifs := out_ifs c |}.

Definition set_str2list (m : str2list_member) (l : list (string * string))
    (c : config_file) : config_file :=
  {| ints := ints c; strs := strs c; sizes := sizes c;
     strlists := strlists c;
     str2lists := fun m' => if decide (m' = m) then l else str2lists c m';
     outgoing_avail_ports := outgoing_avail_ports c;
     stubs := stubs c; forwards := forwards c;
     num_ifs := num_ifs c; ifs := ifs c;
     num_out_ifs := num_out_ifs c; out_ifs := out_ifs c |}.

Definition set_outgoing_avail_ports (a : list Z) (c : config_file)
    : config_file :=
  {| ints := ints c; strs := strs c; sizes := sizes c;
     strlists := strlists c; str2lists := str2lists c;
     outgoing_avail_ports := a;
     stubs := stubs c; forwards := forwards c;
     num_ifs := num_ifs c; ifs := ifs c;
     num_out_ifs := num_out_ifs c; out_ifs := out_ifs c |}.

Definition set_stubs (l : list config_stub) (c : config_file)
    : config_file :=
  {| ints := ints c; strs := strs c; sizes := sizes c;
     strlists := strlists c; str2lists := str2lists c;
     outgoing_avail_ports := outgoing_avail_ports c;
     stubs := l; forwards := forwards c;
     num_ifs := num_ifs c; ifs := ifs c;
     num_out_ifs := num_out_ifs c; out_ifs := out_ifs c |}.

Definition set_forwards (l : list config_stub) (c : config_file)
    : config_file :=
  {| ints := ints c; strs := strs c; sizes := sizes c;
     strlists := strlists c; str2lists := str2lists c;
     outgoing_avail_ports := outgoing_avail_ports c;
     stubs := stubs c; forwards := l;
     num_ifs := num_ifs c; ifs := ifs c;
     num_out_ifs := num_out_ifs c; out_ifs := out_ifs c |}.

Definition set_ifs (n : Z) (a : option (list (option string)))
    (c : config_file) : config_file :=
  {| ints := ints c; strs := strs c; sizes := sizes c;
     strlists := strlists c; str2lists := str2lists c;
     outgoing_avail_ports := outgoing_avail_ports c;
     stubs := stubs c; forwards := forwards c;
     num_ifs := n; ifs := a;
     num_out_ifs := num_out_ifs c; out_ifs := out_ifs c |}.

Definition set_out_ifs (n : Z) (a : option (list (option string)))
    (c : config_file) : config_file :=
  {| ints := ints c; strs := strs c; sizes := sizes c;
     strlists := strlists c; str2lists := str2lists c;
     outgoing_avail_ports := outgoing_avail_ports c;
     stubs := stubs c; forwards := forwards c;
     num_ifs := num_ifs c; ifs := ifs c;
     num_out_ifs := n; out_ifs := a |}.

(** [struct config_parser_state], the global [cfg_parser]: the
    configuration being filled and the count of errors, with the lines
    that [yyerror], [verbose] and [fatal_exit] write on behalf of the
    parser (oldest first) and the heap that [calloc], [realloc] and
    [malloc] draw from. *)
Record config_parser_state := {
  cfg    : config_file;
  errors : Z;
  log    : list string;
  heap   : region
}.

Definition set_cfg (f : config_file -> config_file)
    (st : config_parser_state) : config_parser_state :=
  {| cfg := f (cfg st); errors := errors st; log := log st;
     heap := heap st |}.

Definition set_heap (h : region) (st : config_parser_state)
    : config_parser_state :=
  {| cfg := cfg st; errors := errors st; log := log st; heap := h |}.

(** [yyerror] is [ub_c_error], defined with the lexer: it reports the
    message and counts one more error. *)
Definition yyerror (msg : string) (st : config_parser_state)
    : config_parser_state :=
  {| cfg := cfg st; errors := errors st + 1; log := log st ++ [msg];
     heap := heap st |}.

(** [verbose(VERB_DETAIL, ...)] only writes a log line. *)
Definition verbose (msg : string) (st : config_parser_state)
    : config_parser_state :=
  {| cfg := cfg st; errors := errors st; log := log st ++ [msg];
     heap := heap st |}.

(** What the actions of the parser take from elsewhere: the two macros
    of config.h that they test, and the functions of util/config_file.c
    and util/net_help.c that they call.  None of these files is among
    the sources, so nothing is fixed about them but what the calls
    show: a function reads its arguments and writes what they point
    to, and those that build a list or a string draw from the heap.
    - [cfg_strlist_insert(&head, item)] and
      [cfg_str2list_insert(&head, item, i2)] return an [int] and leave a
      list at [head];
    - [cfg_parse_memsize(str, &res)] returns an [int] and leaves a
      number at [res];
    - [cfg_mark_ports(str, allow, avail, num)] returns an [int] and
      leaves numbers in the array [avail];
    - [cfg_ptr_reverse(str)] returns a new string or NULL;
    - [cfg_convert_timeval(str)] and [is_pow2(num)] return a number. *)
Class config_externs := {
  HAVE_SYSLOG_H : bool;
  UB_ON_WINDOWS : bool;
  cfg_strlist_insert :
    list string -> string -> region -> Z * list string * region;
  cfg_str2list_insert :
    list (string * string) -> string -> string -> region
    -> Z * list (string * string) * region;
  cfg_parse_memsize : string -> Z -> Z * Z;
  cfg_mark_ports : string -> Z -> list Z -> Z -> Z * list Z;
  cfg_ptr_reverse : string -> region -> option string * region;
  cfg_convert_timeval : string -> Z;
  is_pow2 : Z -> Z
}.

End ConfigFile.

(** ** util/configparser.c: the parser [yyparse] *)

Module YYParse.
Import Data ConfigFile.

(** [YYSTYPE] is a union with the one member [char* str].  [None]
    stands for a value that holds no string: the value of a token for
    which the lexer set none, or a slot that was never written. *)
Definition YYSTYPE : Type := option string.

(** [enum yytokentype] *)
Definition SPACE : Z := 258.
Definition LETTER : Z := 259.
Definition NEWLINE : Z := 260.
Definition COMMENT : Z := 261.
Definition COLON : Z := 262.
Definition ANY : Z := 263.
Definition ZONESTR : Z := 264.
Definition STRING_ARG : Z := 265.
Definition VAR_SERVER : Z := 266.
Definition VAR_VERBOSITY : Z := 267.
Definition VAR_NUM_THREADS : Z := 268.
Definition VAR_PORT : Z := 269.
Definition VAR_OUTGOING_RANGE : Z := 270.
Definition VAR_INTERFACE : Z := 271.
Definition VAR_DO_IP4 : Z := 272.
Definition VAR_DO_IP6 : Z := 273.
Definition VAR_DO_UDP : Z := 274.
Definition VAR_DO_TCP : Z := 275.
Definition VAR_CHROOT : Z := 276.
Definition VAR_USERNAME : Z := 277.
Definition VAR_DIRECTORY : Z := 278.
Definition VAR_LOGFILE : Z := 279.
Definition VAR_PIDFILE : Z := 280.
Definition VAR_MSG_CACHE_SIZE : Z := 281.
Definition VAR_MSG_CACHE_SLABS : Z := 282.
Definition VAR_NUM_QUERIES_PER_THREAD : Z := 283.
Definition VAR_RRSET_CACHE_SIZE : Z := 284.
Definition VAR_RRSET_CACHE_SLABS : Z := 285.
Definition VAR_OUTGOING_NUM_TCP : Z := 286.
Definition VAR_INFRA_HOST_TTL : Z := 287.
Definition VAR_INFRA_LAME_TTL : Z := 288.
Definition VAR_INFRA_CACHE_SLABS : Z := 289.
Definition VAR_INFRA_CACHE_NUMHOSTS : Z := 290.
Definition VAR_INFRA_CACHE_LAME_SIZE : Z := 291.
Definition VAR_NAME : Z := 292.
Definition VAR_STUB_ZONE : Z := 293.
Definition VAR_STUB_HOST : Z := 294.
Definition VAR_STUB_ADDR : Z := 295.
Definition VAR_TARGET_FETCH_POLICY : Z := 296.
Definition VAR_HARDEN_SHORT_BUFSIZE : Z := 297.
Definition VAR_HARDEN_LARGE_QUERIES : Z := 298.
Definition VAR_FORWARD_ZONE : Z := 299.
Definition VAR_FORWARD_HOST : Z := 300.
Definition VAR_FORWARD_ADDR : Z := 301.
Definition VAR_DO_NOT_QUERY_ADDRESS : Z := 302.
Definition VAR_HIDE_IDENTITY : Z := 303.
Definition VAR_HIDE_VERSION : Z := 304.
Definition VAR_IDENTITY : Z := 305.
Definition VAR_VERSION : Z := 306.
Definition VAR_HARDEN_GLUE : Z := 307.
Definition VAR_MODULE_CONF : Z := 308.
Definition VAR_TRUST_ANCHOR_FILE : Z := 309.
Definition VAR_TRUST_ANCHOR : Z := 310.
Definition VAR_VAL_OVERRIDE_DATE : Z := 311.
Definition VAR_BOGUS_TTL : Z := 312.
Definition VAR_VAL_CLEAN_ADDITIONAL : Z := 313.
Definition VAR_VAL_PERMISSIVE_MODE : Z := 314.
Definition VAR_INCOMING_NUM_TCP : Z := 315.
Definition VAR_MSG_BUFFER_SIZE : Z := 316.
Definition VAR_KEY_CACHE_SIZE : Z := 317.
Definition VAR_KEY_CACHE_SLABS : Z := 318.
Definition VAR_TRUSTED_KEYS_FILE : Z := 319.
Definition VAR_VAL_NSEC3_KEYSIZE_ITERATIONS : Z := 320.
Definition VAR_USE_SYSLOG : Z := 321.
Definition VAR_OUTGOING_INTERFACE : Z := 322.
Definition VAR_ROOT_HINTS : Z := 323.
Definition VAR_DO_NOT_QUERY_LOCALHOST : Z := 324.
Definition VAR_CACHE_MAX_TTL : Z := 325.
Definition VAR_HARDEN_DNSSEC_STRIPPED : Z := 326.
Definition VAR_ACCESS_CONTROL : Z := 327.
Definition VAR_LOCAL_ZONE : Z := 328.
Definition VAR_LOCAL_DATA : Z := 329.
Definition VAR_INTERFACE_AUTOMATIC : Z := 330.
Definition VAR_STATISTICS_INTERVAL : Z := 331.
Definition VAR_DO_DAEMONIZE : Z := 332.
Definition VAR_USE_CAPS_FOR_ID : Z := 333.
Definition VAR_STATISTICS_CUMULATIVE : Z := 334.
Definition VAR_OUTGOING_PORT_PERMIT : Z := 335.
Definition VAR_OUTGOING_PORT_AVOID : Z := 336.
Definition VAR_DLV_ANCHOR_FILE : Z := 337.
Definition VAR_DLV_ANCHOR : Z := 338.
Definition VAR_NEG_CACHE_SIZE : Z := 339.
Definition VAR_HARDEN_REFERRAL_PATH : Z := 340.
Definition VAR_PRIVATE_ADDRESS : Z := 341.
Definition VAR_PRIVATE_DOMAIN : Z := 342.
Definition VAR_REMOTE_CONTROL : Z := 343.
Definition VAR_CONTROL_ENABLE : Z := 344.
Definition VAR_CONTROL_INTERFACE : Z := 345.
Definition VAR_CONTROL_PORT : Z := 346.
Definition VAR_SERVER_KEY_FILE : Z := 347.
Definition VAR_SERVER_CERT_FILE : Z := 348.
Definition VAR_CONTROL_KEY_FILE : Z := 349.
Definition VAR_CONTROL_CERT_FILE : Z := 350.
Definition VAR_EXTENDED_STATISTICS : Z := 351.
Definition VAR_LOCAL_DATA_PTR : Z := 352.
Definition VAR_JOSTLE_TIMEOUT : Z := 353.
Definition VAR_STUB_PRIME : Z := 354.
Definition VAR_UNWANTED_REPLY_THRESHOLD : Z := 355.
Definition VAR_LOG_TIME_ASCII : Z := 356.
Definition VAR_DOMAIN_INSECURE : Z := 357.
Definition VAR_PYTHON : Z := 358.
Definition VAR_PYTHON_SCRIPT : Z := 359.
Definition VAR_VAL_SIG_SKEW_MIN : Z := 360.
Definition VAR_VAL_SIG_SKEW_MAX : Z := 361.
Definition VAR_CACHE_MIN_TTL : Z := 362.
Definition VAR_VAL_LOG_LEVEL : Z := 363.
Definition VAR_AUTO_TRUST_ANCHOR_FILE : Z := 364.
Definition VAR_KEEP_MISSING : Z := 365.
Definition VAR_ADD_HOLDDOWN : Z := 366.
Definition VAR_DEL_HOLDDOWN : Z := 367.
Definition VAR_SO_RCVBUF : Z := 368.
Definition VAR_EDNS_BUFFER_SIZE : Z := 369.
Definition VAR_PREFETCH : Z := 370.
Definition VAR_PREFETCH_KEY : Z := 371.
Definition VAR_SO_SNDBUF : Z := 372.
Definition VAR_SO_REUSEPORT : Z := 373.
Definition VAR_HARDEN_BELOW_NXDOMAIN : Z := 374.
Definition VAR_IGNORE_CD_FLAG : Z := 375.
Definition VAR_LOG_QUERIES : Z := 376.
Definition VAR_TCP_UPSTREAM : Z := 377.
Definition VAR_SSL_UPSTREAM : Z := 378.
Definition VAR_SSL_SERVICE_KEY : Z := 379.
Definition VAR_SSL_SERVICE_PEM : Z := 380.
Definition VAR_SSL_PORT : Z := 381.
Definition VAR_FORWARD_FIRST : Z := 382.
Definition VAR_STUB_FIRST : Z := 383.
Definition VAR_MINIMAL_RESPONSES : Z := 384.
Definition VAR_RRSET_ROUNDROBIN : Z := 385.
Definition VAR_MAX_UDP_SIZE : Z := 386.
Definition VAR_DELAY_CLOSE : Z := 387.
Definition VAR_UNBLOCK_LAN_ZONES : Z := 388.
Definition VAR_DNS64_PREFIX : Z := 389.
Definition VAR_DNS64_SYNTHALL : Z := 390.
Definition VAR_DNSTAP : Z := 391.
Definition VAR_DNSTAP_ENABLE : Z := 392.
Definition VAR_DNSTAP_SOCKET_PATH : Z := 393.
Definition VAR_DNSTAP_SEND_IDENTITY : Z := 394.
Definition VAR_DNSTAP_SEND_VERSION : Z := 395.
Definition VAR_DNSTAP_IDENTITY : Z := 396.
Definition VAR_DNSTAP_VERSION : Z := 397.
Definition VAR_DNSTAP_LOG_RESOLVER_QUERY_MESSAGES : Z := 398.
Definition VAR_DNSTAP_LOG_RESOLVER_RESPONSE_MESSAGES : Z := 399.
Definition VAR_DNSTAP_LOG_CLIENT_QUERY_MESSAGES : Z := 400.
Definition VAR_DNSTAP_LOG_CLIENT_RESPONSE_MESSAGES : Z := 401.
Definition VAR_DNSTAP_LOG_FORWARDER_QUERY_MESSAGES : Z := 402.
Definition VAR_DNSTAP_LOG_FORWARDER_RESPONSE_MESSAGES : Z := 403.

Definition YYFINAL : Z := 2.
Definition YYLAST : Z := 276.
Definition YYNTOKENS : Z := 149.
Definition YYUNDEFTOK : Z := 2.
Definition YYMAXUTOK : Z := 403.
Definition YYPACT_NINF : Z := -123.
Definition YYEMPTY : Z := -2.
Definition YYEOF : Z := 0.
Definition YYTERROR : Z := 1.
Definition YYINITDEPTH : Z := 200.
Definition YYMAXDEPTH : Z := 10000.

(** [YYTRANSLATE[YYLEX]]: the symbol number of a token number. *)
Definition yytranslate : list Z :=
  [
    0; 2; 2; 2; 2; 2; 2; 2; 2; 2; 2; 2; 2; 2; 2; 2; 2; 2; 2; 2; 2; 2; 2; 2;
    2; 2; 2; 2; 2; 2; 2; 2; 2; 2; 2; 2; 2; 2; 2; 2; 2; 2; 2; 2; 2; 2; 2; 2;
    2; 2; 2; 2; 2; 2; 2; 2; 2; 2; 2; 2; 2; 2; 2; 2; 2; 2; 2; 2; 2; 2; 2; 2;
    2; 2; 2; 2; 2; 2; 2; 2; 2; 2; 2; 2; 2; 2; 2; 2; 2; 2; 2; 2; 2; 2; 2; 2;
    2; 2; 2; 2; 2; 2; 2; 2; 2; 2; 2; 2; 2; 2; 2; 2; 2; 2; 2; 2; 2; 2; 2; 2;
    2; 2; 2; 2; 2; 2; 2; 2; 2; 2; 2; 2; 2; 2; 2; 2; 2; 2; 2; 2; 2; 2; 2; 2;
    2; 2; 2; 2; 2; 2; 2; 2; 2; 2; 2; 2; 2; 2; 2; 2; 2; 2; 2; 2; 2; 2; 2; 2;
    2; 2; 2; 2; 2; 2; 2; 2; 2; 2; 2; 2; 2; 2; 2; 2; 2; 2; 2; 2; 2; 2; 2; 2;
    2; 2; 2; 2; 2; 2; 2; 2; 2; 2; 2; 2; 2; 2; 2; 2; 2; 2; 2; 2; 2; 2; 2; 2;
    2; 2; 2; 2; 2; 2; 2; 2; 2; 2; 2; 2; 2; 2; 2; 2; 2; 2; 2; 2; 2; 2; 2; 2;
    2; 2; 2; 2; 2; 2; 2; 2; 2; 2; 2; 2; 2; 2; 2; 2; 1; 2; 3; 4; 5; 6; 7; 8;
    9; 10; 11; 12; 13; 14; 15; 16; 17; 18; 19; 20; 21; 22; 23; 24; 25; 26;
    27; 28; 29; 30; 31; 32; 33; 34; 35; 36; 37; 38; 39; 40; 41; 42; 43; 44;
    45; 46; 47; 48; 49; 50; 51; 52; 53; 54; 55; 56; 57; 58; 59; 60; 61; 62;
    63; 64; 65; 66; 67; 68; 69; 70; 71; 72; 73; 74; 75; 76; 77; 78; 79; 80;
    81; 82; 83; 84; 85; 86; 87; 88; 89; 90; 91; 92; 93; 94; 95; 96; 97; 98;
    99; 100; 101; 102; 103; 104; 105; 106; 107; 108; 109; 110; 111; 112;
    113; 114; 115; 116; 117; 118; 119; 120; 121; 122; 123; 124; 125; 126;
    127; 128; 129; 130; 131; 132; 133; 134; 135; 136; 137; 138; 139; 140;
    141; 142; 143; 144; 145; 146; 147; 148 ].

(** [YYPRHS[YYN]]: the index in [yyrhs] of the first symbol of rule [YYN]. *)
Definition yyprhs : list Z :=
  [
    0; 0; 3; 4; 7; 10; 13; 16; 19; 22; 25; 27; 30; 31; 33; 35; 37; 39; 41;
    43; 45; 47; 49; 51; 53; 55; 57; 59; 61; 63; 65; 67; 69; 71; 73; 75; 77;
    79; 81; 83; 85; 87; 89; 91; 93; 95; 97; 99; 101; 103; 105; 107; 109;
    111; 113; 115; 117; 119; 121; 123; 125; 127; 129; 131; 133; 135; 137;
    139; 141; 143; 145; 147; 149; 151; 153; 155; 157; 159; 161; 163; 165;
    167; 169; 171; 173; 175; 177; 179; 181; 183; 185; 187; 189; 191; 193;
    195; 197; 199; 201; 203; 205; 207; 209; 211; 213; 215; 217; 219; 221;
    223; 225; 227; 229; 231; 233; 235; 237; 239; 241; 244; 245; 247; 249;
    251; 253; 255; 257; 260; 261; 263; 265; 267; 269; 272; 275; 278; 281;
    284; 287; 290; 293; 296; 299; 302; 305; 308; 311; 314; 317; 320; 323;
    326; 329; 332; 335; 338; 341; 344; 347; 350; 353; 356; 359; 362; 365;
    368; 371; 374; 377; 380; 383; 386; 389; 392; 395; 398; 401; 404; 407;
    410; 413; 416; 419; 422; 425; 428; 431; 434; 437; 440; 443; 446; 449;
    452; 455; 458; 461; 464; 467; 470; 473; 476; 479; 482; 485; 488; 491;
    494; 497; 500; 504; 507; 510; 513; 516; 519; 522; 525; 528; 531; 534;
    537; 540; 543; 546; 549; 552; 555; 558; 562; 565; 568; 571; 574; 577;
    580; 583; 586; 589; 592; 595; 598; 601; 604; 607; 610; 612; 615; 616;
    618; 620; 622; 624; 626; 628; 630; 633; 636; 639; 642; 645; 648; 651;
    653; 656; 657; 659; 661; 663; 665; 667; 669; 671; 673; 675; 677; 679;
    681; 684; 687; 690; 693; 696; 699; 702; 705; 708; 711; 714; 717; 719;
    722; 723; 725 ].

(** [YYRHS]: the right-hand sides of the rules, each closed by -1. *)
Definition yyrhs : list Z :=
  [
    150; 0; -1; -1; 150; 151; -1; 152; 153; -1; 155; 156; -1; 158; 159; -1;
    299; 300; -1; 274; 275; -1; 284; 285; -1; 11; -1; 153; 154; -1; -1; 161;
    -1; 162; -1; 166; -1; 169; -1; 175; -1; 176; -1; 177; -1; 178; -1; 167;
    -1; 188; -1; 189; -1; 190; -1; 191; -1; 192; -1; 210; -1; 211; -1; 212;
    -1; 216; -1; 217; -1; 172; -1; 218; -1; 219; -1; 222; -1; 220; -1; 221;
    -1; 223; -1; 224; -1; 225; -1; 236; -1; 201; -1; 202; -1; 203; -1; 204;
    -1; 226; -1; 239; -1; 197; -1; 199; -1; 240; -1; 245; -1; 246; -1; 247;
    -1; 173; -1; 209; -1; 254; -1; 255; -1; 198; -1; 250; -1; 185; -1; 168;
    -1; 193; -1; 237; -1; 243; -1; 227; -1; 238; -1; 257; -1; 258; -1; 174;
    -1; 163; -1; 184; -1; 230; -1; 164; -1; 170; -1; 171; -1; 194; -1; 195;
    -1; 256; -1; 229; -1; 231; -1; 232; -1; 165; -1; 259; -1; 213; -1; 235;
    -1; 186; -1; 200; -1; 241; -1; 242; -1; 244; -1; 249; -1; 196; -1; 251;
    -1; 252; -1; 253; -1; 205; -1; 208; -1; 233; -1; 234; -1; 206; -1; 228;
    -1; 248; -1; 187; -1; 179; -1; 180; -1; 181; -1; 182; -1; 183; -1; 260;
    -1; 261; -1; 262; -1; 207; -1; 214; -1; 215; -1; 263; -1; 264; -1; 38;
    -1; 156; 157; -1; -1; 265; -1; 266; -1; 267; -1; 269; -1; 268; -1; 44;
    -1; 159; 160; -1; -1; 270; -1; 271; -1; 272; -1; 273; -1; 13; 10; -1;
    12; 10; -1; 76; 10; -1; 79; 10; -1; 96; 10; -1; 14; 10; -1; 16; 10; -1;
    67; 10; -1; 15; 10; -1; 80; 10; -1; 81; 10; -1; 31; 10; -1; 60; 10; -1;
    75; 10; -1; 17; 10; -1; 18; 10; -1; 19; 10; -1; 20; 10; -1; 122; 10; -1;
    123; 10; -1; 124; 10; -1; 125; 10; -1; 126; 10; -1; 77; 10; -1; 66; 10;
    -1; 101; 10; -1; 121; 10; -1; 21; 10; -1; 22; 10; -1; 23; 10; -1; 24;
    10; -1; 25; 10; -1; 68; 10; -1; 82; 10; -1; 83; 10; -1; 109; 10; -1; 54;
    10; -1; 64; 10; -1; 55; 10; -1; 102; 10; -1; 48; 10; -1; 49; 10; -1; 50;
    10; -1; 51; 10; -1; 113; 10; -1; 117; 10; -1; 118; 10; -1; 114; 10; -1;
    61; 10; -1; 26; 10; -1; 27; 10; -1; 28; 10; -1; 98; 10; -1; 132; 10; -1;
    133; 10; -1; 29; 10; -1; 30; 10; -1; 32; 10; -1; 33; 10; -1; 35; 10; -1;
    36; 10; -1; 34; 10; -1; 41; 10; -1; 42; 10; -1; 43; 10; -1; 52; 10; -1;
    71; 10; -1; 119; 10; -1; 85; 10; -1; 78; 10; -1; 86; 10; -1; 87; 10; -1;
    115; 10; -1; 116; 10; -1; 100; 10; -1; 47; 10; -1; 69; 10; -1; 72; 10;
    10; -1; 53; 10; -1; 56; 10; -1; 105; 10; -1; 106; 10; -1; 70; 10; -1;
    107; 10; -1; 57; 10; -1; 58; 10; -1; 59; 10; -1; 120; 10; -1; 108; 10;
    -1; 65; 10; -1; 111; 10; -1; 112; 10; -1; 110; 10; -1; 62; 10; -1; 63;
    10; -1; 84; 10; -1; 73; 10; 10; -1; 74; 10; -1; 97; 10; -1; 129; 10; -1;
    130; 10; -1; 131; 10; -1; 134; 10; -1; 135; 10; -1; 37; 10; -1; 39; 10;
    -1; 40; 10; -1; 128; 10; -1; 99; 10; -1; 37; 10; -1; 45; 10; -1; 46; 10;
    -1; 127; 10; -1; 88; -1; 275; 276; -1; -1; 277; -1; 279; -1; 278; -1;
    280; -1; 281; -1; 282; -1; 283; -1; 89; 10; -1; 91; 10; -1; 90; 10; -1;
    92; 10; -1; 93; 10; -1; 94; 10; -1; 95; 10; -1; 136; -1; 285; 286; -1;
    -1; 287; -1; 288; -1; 289; -1; 290; -1; 291; -1; 292; -1; 293; -1; 294;
    -1; 295; -1; 296; -1; 297; -1; 298; -1; 137; 10; -1; 138; 10; -1; 139;
    10; -1; 140; 10; -1; 141; 10; -1; 142; 10; -1; 143; 10; -1; 144; 10; -1;
    145; 10; -1; 146; 10; -1; 147; 10; -1; 148; 10; -1; 103; -1; 300; 301;
    -1; -1; 302; -1; 104; 10; -1 ].

(** [YYTOKNUM[YYLEX-NUM]]: the token number of a symbol number. *)
Definition yytoknum : list Z :=
  [
    0; 256; 257; 258; 259; 260; 261; 262; 263; 264; 265; 266; 267; 268; 269;
    270; 271; 272; 273; 274; 275; 276; 277; 278; 279; 280; 281; 282; 283;
    284; 285; 286; 287; 288; 289; 290; 291; 292; 293; 294; 295; 296; 297;
    298; 299; 300; 301; 302; 303; 304; 305; 306; 307; 308; 309; 310; 311;
    312; 313; 314; 315; 316; 317; 318; 319; 320; 321; 322; 323; 324; 325;
    326; 327; 328; 329; 330; 331; 332; 333; 334; 335; 336; 337; 338; 339;
    340; 341; 342; 343; 344; 345; 346; 347; 348; 349; 350; 351; 352; 353;
    354; 355; 356; 357; 358; 359; 360; 361; 362; 363; 364; 365; 366; 367;
    368; 369; 370; 371; 372; 373; 374; 375; 376; 377; 378; 379; 380; 381;
    382; 383; 384; 385; 386; 387; 388; 389; 390; 391; 392; 393; 394; 395;
    396; 397; 398; 399; 400; 401; 402; 403 ].

(** [YYR1[YYN]]: the symbol number of the symbol that rule [YYN] derives. *)
Definition yyr1 : list Z :=
  [
    0; 149; 150; 150; 151; 151; 151; 151; 151; 151; 152; 153; 153; 154; 154;
    154; 154; 154; 154; 154; 154; 154; 154; 154; 154; 154; 154; 154; 154;
    154; 154; 154; 154; 154; 154; 154; 154; 154; 154; 154; 154; 154; 154;
    154; 154; 154; 154; 154; 154; 154; 154; 154; 154; 154; 154; 154; 154;
    154; 154; 154; 154; 154; 154; 154; 154; 154; 154; 154; 154; 154; 154;
    154; 154; 154; 154; 154; 154; 154; 154; 154; 154; 154; 154; 154; 154;
    154; 154; 154; 154; 154; 154; 154; 154; 154; 154; 154; 154; 154; 154;
    154; 154; 154; 154; 154; 154; 154; 154; 154; 154; 154; 154; 154; 154;
    154; 154; 154; 154; 155; 156; 156; 157; 157; 157; 157; 157; 158; 159;
    159; 160; 160; 160; 160; 161; 162; 163; 164; 165; 166; 167; 168; 169;
    170; 171; 172; 173; 174; 175; 176; 177; 178; 179; 180; 181; 182; 183;
    184; 185; 186; 187; 188; 189; 190; 191; 192; 193; 194; 195; 196; 197;
    198; 199; 200; 201; 202; 203; 204; 205; 206; 207; 208; 209; 210; 211;
    212; 213; 214; 215; 216; 217; 218; 219; 220; 221; 222; 223; 224; 225;
    226; 227; 228; 229; 230; 231; 232; 233; 234; 235; 236; 237; 238; 239;
    240; 241; 242; 243; 244; 245; 246; 247; 248; 249; 250; 251; 252; 253;
    254; 255; 256; 257; 258; 259; 260; 261; 262; 263; 264; 265; 266; 267;
    268; 269; 270; 271; 272; 273; 274; 275; 275; 276; 276; 276; 276; 276;
    276; 276; 277; 278; 279; 280; 281; 282; 283; 284; 285; 285; 286; 286;
    286; 286; 286; 286; 286; 286; 286; 286; 286; 286; 287; 288; 289; 290;
    291; 292; 293; 294; 295; 296; 297; 298; 299; 300; 300; 301; 302 ].

(** [YYR2[YYN]]: the number of symbols on the right-hand side of rule [YYN]. *)
Definition yyr2 : list Z :=
  [
    0; 2; 0; 2; 2; 2; 2; 2; 2; 2; 1; 2; 0; 1; 1; 1; 1; 1; 1; 1; 1; 1; 1; 1;
    1; 1; 1; 1; 1; 1; 1; 1; 1; 1; 1; 1; 1; 1; 1; 1; 1; 1; 1; 1; 1; 1; 1; 1;
    1; 1; 1; 1; 1; 1; 1; 1; 1; 1; 1; 1; 1; 1; 1; 1; 1; 1; 1; 1; 1; 1; 1; 1;
    1; 1; 1; 1; 1; 1; 1; 1; 1; 1; 1; 1; 1; 1; 1; 1; 1; 1; 1; 1; 1; 1; 1; 1;
    1; 1; 1; 1; 1; 1; 1; 1; 1; 1; 1; 1; 1; 1; 1; 1; 1; 1; 1; 1; 1; 1; 2; 0;
    1; 1; 1; 1; 1; 1; 2; 0; 1; 1; 1; 1; 2; 2; 2; 2; 2; 2; 2; 2; 2; 2; 2; 2;
    2; 2; 2; 2; 2; 2; 2; 2; 2; 2; 2; 2; 2; 2; 2; 2; 2; 2; 2; 2; 2; 2; 2; 2;
    2; 2; 2; 2; 2; 2; 2; 2; 2; 2; 2; 2; 2; 2; 2; 2; 2; 2; 2; 2; 2; 2; 2; 2;
    2; 2; 2; 2; 2; 2; 2; 2; 2; 2; 2; 2; 2; 2; 2; 2; 2; 3; 2; 2; 2; 2; 2; 2;
    2; 2; 2; 2; 2; 2; 2; 2; 2; 2; 2; 2; 3; 2; 2; 2; 2; 2; 2; 2; 2; 2; 2; 2;
    2; 2; 2; 2; 2; 1; 2; 0; 1; 1; 1; 1; 1; 1; 1; 2; 2; 2; 2; 2; 2; 2; 1; 2;
    0; 1; 1; 1; 1; 1; 1; 1; 1; 1; 1; 1; 1; 2; 2; 2; 2; 2; 2; 2; 2; 2; 2; 2;
    2; 1; 2; 0; 1; 2 ].

(** [YYDEFACT[STATE]]: the default reduction of the state; 0 means an error. *)
Definition yydefact : list Z :=
  [
    2; 0; 1; 10; 117; 125; 245; 289; 262; 3; 12; 119; 127; 247; 264; 291; 4;
    5; 6; 8; 9; 7; 0; 0; 0; 0; 0; 0; 0; 0; 0; 0; 0; 0; 0; 0; 0; 0; 0; 0; 0;
    0; 0; 0; 0; 0; 0; 0; 0; 0; 0; 0; 0; 0; 0; 0; 0; 0; 0; 0; 0; 0; 0; 0; 0;
    0; 0; 0; 0; 0; 0; 0; 0; 0; 0; 0; 0; 0; 0; 0; 0; 0; 0; 0; 0; 0; 0; 0; 0;
    0; 0; 0; 0; 0; 0; 0; 0; 0; 0; 0; 0; 0; 0; 0; 0; 0; 0; 0; 0; 0; 0; 0; 0;
    0; 0; 0; 0; 0; 0; 0; 0; 0; 0; 0; 0; 0; 11; 13; 14; 70; 73; 82; 15; 21;
    61; 16; 74; 75; 32; 54; 69; 17; 18; 19; 20; 104; 105; 106; 107; 108; 71;
    60; 86; 103; 22; 23; 24; 25; 26; 62; 76; 77; 92; 48; 58; 49; 87; 42; 43;
    44; 45; 96; 100; 112; 97; 55; 27; 28; 29; 84; 113; 114; 30; 31; 33; 34;
    36; 37; 35; 38; 39; 40; 46; 65; 101; 79; 72; 80; 81; 98; 99; 85; 41; 63;
    66; 47; 50; 88; 89; 64; 90; 51; 52; 53; 102; 91; 59; 93; 94; 95; 56; 57;
    78; 67; 68; 83; 109; 110; 111; 115; 116; 0; 0; 0; 0; 0; 118; 120; 121;
    122; 124; 123; 0; 0; 0; 0; 126; 128; 129; 130; 131; 0; 0; 0; 0; 0; 0; 0;
    246; 248; 250; 249; 251; 252; 253; 254; 0; 0; 0; 0; 0; 0; 0; 0; 0; 0; 0;
    0; 263; 265; 266; 267; 268; 269; 270; 271; 272; 273; 274; 275; 276; 0;
    290; 292; 133; 132; 137; 140; 138; 146; 147; 148; 149; 159; 160; 161;
    162; 163; 181; 182; 183; 187; 188; 143; 189; 190; 193; 191; 192; 194;
    195; 196; 207; 172; 173; 174; 175; 197; 210; 168; 170; 211; 216; 217;
    218; 144; 180; 225; 226; 169; 221; 156; 139; 164; 208; 214; 198; 0; 0;
    229; 145; 134; 155; 201; 135; 141; 142; 165; 166; 227; 200; 202; 203;
    136; 230; 184; 206; 157; 171; 212; 213; 215; 220; 167; 224; 222; 223;
    176; 179; 204; 205; 177; 178; 199; 219; 158; 150; 151; 152; 153; 154;
    231; 232; 233; 185; 186; 234; 235; 236; 237; 238; 240; 239; 241; 242;
    243; 244; 255; 257; 256; 258; 259; 260; 261; 277; 278; 279; 280; 281;
    282; 283; 284; 285; 286; 287; 288; 293; 209; 228 ].

(** [YYDEFGOTO[NTERM-NUM]] *)
Definition yydefgoto : list Z :=
  [
    -1; 1; 9; 10; 16; 126; 11; 17; 236; 12; 18; 246; 127; 128; 129; 130;
    131; 132; 133; 134; 135; 136; 137; 138; 139; 140; 141; 142; 143; 144;
    145; 146; 147; 148; 149; 150; 151; 152; 153; 154; 155; 156; 157; 158;
    159; 160; 161; 162; 163; 164; 165; 166; 167; 168; 169; 170; 171; 172;
    173; 174; 175; 176; 177; 178; 179; 180; 181; 182; 183; 184; 185; 186;
    187; 188; 189; 190; 191; 192; 193; 194; 195; 196; 197; 198; 199; 200;
    201; 202; 203; 204; 205; 206; 207; 208; 209; 210; 211; 212; 213; 214;
    215; 216; 217; 218; 219; 220; 221; 222; 223; 224; 225; 226; 227; 228;
    229; 230; 237; 238; 239; 240; 241; 247; 248; 249; 250; 13; 19; 258; 259;
    260; 261; 262; 263; 264; 265; 14; 20; 278; 279; 280; 281; 282; 283; 284;
    285; 286; 287; 288; 289; 290; 15; 21; 292; 293 ].

(** [YYPACT[STATE-NUM]]: the index in [yytable] of the portion of the state. *)
Definition yypact : list Z :=
  [
    -123; 0; -123; -123; -123; -123; -123; -123; -123; -123; -123; -123;
    -123; -123; -123; -123; 92; -36; -32; -62; -122; -102; -4; -3; -2; -1;
    2; 24; 25; 26; 27; 29; 30; 31; 32; 33; 35; 36; 37; 38; 39; 40; 41; 42;
    43; 44; 45; 46; 47; 48; 49; 50; 51; 52; 54; 55; 56; 57; 58; 59; 60; 61;
    62; 63; 64; 65; 66; 67; 68; 69; 70; 71; 72; 73; 74; 75; 76; 77; 79; 80;
    81; 83; 84; 86; 87; 88; 89; 90; 91; 119; 120; 121; 122; 127; 128; 170;
    171; 172; 173; 174; 175; 176; 177; 181; 185; 186; 209; 210; 218; 219;
    220; 221; 222; 223; 224; 225; 226; 227; 228; 229; 230; 231; 232; 233;
    234; 235; -123; -123; -123; -123; -123; -123; -123; -123; -123; -123;
    -123; -123; -123; -123; -123; -123; -123; -123; -123; -123; -123; -123;
    -123; -123; -123; -123; -123; -123; -123; -123; -123; -123; -123; -123;
    -123; -123; -123; -123; -123; -123; -123; -123; -123; -123; -123; -123;
    -123; -123; -123; -123; -123; -123; -123; -123; -123; -123; -123; -123;
    -123; -123; -123; -123; -123; -123; -123; -123; -123; -123; -123; -123;
    -123; -123; -123; -123; -123; -123; -123; -123; -123; -123; -123; -123;
    -123; -123; -123; -123; -123; -123; -123; -123; -123; -123; -123; -123;
    -123; -123; -123; -123; -123; -123; -123; -123; -123; -123; -123; 236;
    237; 238; 239; 240; -123; -123; -123; -123; -123; -123; 241; 242; 243;
    244; -123; -123; -123; -123; -123; 245; 246; 247; 248; 249; 250; 251;
    -123; -123; -123; -123; -123; -123; -123; -123; 252; 253; 254; 255; 256;
    257; 258; 259; 260; 261; 262; 263; -123; -123; -123; -123; -123; -123;
    -123; -123; -123; -123; -123; -123; -123; 264; -123; -123; -123; -123;
    -123; -123; -123; -123; -123; -123; -123; -123; -123; -123; -123; -123;
    -123; -123; -123; -123; -123; -123; -123; -123; -123; -123; -123; -123;
    -123; -123; -123; -123; -123; -123; -123; -123; -123; -123; -123; -123;
    -123; -123; -123; -123; -123; -123; -123; -123; -123; -123; -123; -123;
    -123; -123; -123; 265; 266; -123; -123; -123; -123; -123; -123; -123;
    -123; -123; -123; -123; -123; -123; -123; -123; -123; -123; -123; -123;
    -123; -123; -123; -123; -123; -123; -123; -123; -123; -123; -123; -123;
    -123; -123; -123; -123; -123; -123; -123; -123; -123; -123; -123; -123;
    -123; -123; -123; -123; -123; -123; -123; -123; -123; -123; -123; -123;
    -123; -123; -123; -123; -123; -123; -123; -123; -123; -123; -123; -123;
    -123; -123; -123; -123; -123; -123; -123; -123; -123; -123; -123; -123;
    -123 ].

(** [YYPGOTO[NTERM-NUM]] *)
Definition yypgoto : list Z :=
  [
    -123; -123; -123; -123; -123; -123; -123; -123; -123; -123; -123; -123;
    -123; -123; -123; -123; -123; -123; -123; -123; -123; -123; -123; -123;
    -123; -123; -123; -123; -123; -123; -123; -123; -123; -123; -123; -123;
    -123; -123; -123; -123; -123; -123; -123; -123; -123; -123; -123; -123;
    -123; -123; -123; -123; -123; -123; -123; -123; -123; -123; -123; -123;
    -123; -123; -123; -123; -123; -123; -123; -123; -123; -123; -123; -123;
    -123; -123; -123; -123; -123; -123; -123; -123; -123; -123; -123; -123;
    -123; -123; -123; -123; -123; -123; -123; -123; -123; -123; -123; -123;
    -123; -123; -123; -123; -123; -123; -123; -123; -123; -123; -123; -123;
    -123; -123; -123; -123; -123; -123; -123; -123; -123; -123; -123; -123;
    -123; -123; -123; -123; -123; -123; -123; -123; -123; -123; -123; -123;
    -123; -123; -123; -123; -123; -123; -123; -123; -123; -123; -123; -123;
    -123; -123; -123; -123; -123; -123; -123; -123; -123; -123 ].

(** [YYTABLE[YYPACT[STATE-NUM]]]: what to do in the state; positive, shift
    to that state; negative, reduce by the rule of that number. *)
Definition yytable : list Z :=
  [
    2; 231; 291; 232; 233; 242; 294; 295; 296; 297; 0; 3; 298; 243; 244;
    266; 267; 268; 269; 270; 271; 272; 273; 274; 275; 276; 277; 251; 252;
    253; 254; 255; 256; 257; 299; 300; 301; 302; 4; 303; 304; 305; 306; 307;
    5; 308; 309; 310; 311; 312; 313; 314; 315; 316; 317; 318; 319; 320; 321;
    322; 323; 324; 325; 234; 326; 327; 328; 329; 330; 331; 332; 333; 334;
    335; 336; 337; 338; 339; 340; 341; 342; 343; 344; 345; 346; 347; 348;
    349; 6; 350; 351; 352; 235; 353; 354; 245; 355; 356; 357; 358; 359; 360;
    0; 7; 22; 23; 24; 25; 26; 27; 28; 29; 30; 31; 32; 33; 34; 35; 36; 37;
    38; 39; 40; 41; 42; 43; 44; 45; 46; 361; 362; 363; 364; 47; 48; 49; 8;
    365; 366; 50; 51; 52; 53; 54; 55; 56; 57; 58; 59; 60; 61; 62; 63; 64;
    65; 66; 67; 68; 69; 70; 71; 72; 73; 74; 75; 76; 77; 78; 79; 80; 81; 82;
    83; 84; 85; 86; 87; 88; 89; 90; 367; 368; 369; 370; 371; 372; 373; 374;
    91; 92; 93; 375; 94; 95; 96; 376; 377; 97; 98; 99; 100; 101; 102; 103;
    104; 105; 106; 107; 108; 109; 110; 111; 112; 113; 114; 115; 116; 117;
    118; 378; 379; 119; 120; 121; 122; 123; 124; 125; 380; 381; 382; 383;
    384; 385; 386; 387; 388; 389; 390; 391; 392; 393; 394; 395; 396; 397;
    398; 399; 400; 401; 402; 403; 404; 405; 406; 407; 408; 409; 410; 411;
    412; 413; 414; 415; 416; 417; 418; 419; 420; 421; 422; 423; 424; 425;
    426; 427; 428 ].

(** [YYCHECK] *)
Definition yycheck : list Z :=
  [
    0; 37; 104; 39; 40; 37; 10; 10; 10; 10; -1; 11; 10; 45; 46; 137; 138;
    139; 140; 141; 142; 143; 144; 145; 146; 147; 148; 89; 90; 91; 92; 93;
    94; 95; 10; 10; 10; 10; 38; 10; 10; 10; 10; 10; 44; 10; 10; 10; 10; 10;
    10; 10; 10; 10; 10; 10; 10; 10; 10; 10; 10; 10; 10; 99; 10; 10; 10; 10;
    10; 10; 10; 10; 10; 10; 10; 10; 10; 10; 10; 10; 10; 10; 10; 10; 10; 10;
    10; 10; 88; 10; 10; 10; 128; 10; 10; 127; 10; 10; 10; 10; 10; 10; -1;
    103; 12; 13; 14; 15; 16; 17; 18; 19; 20; 21; 22; 23; 24; 25; 26; 27; 28;
    29; 30; 31; 32; 33; 34; 35; 36; 10; 10; 10; 10; 41; 42; 43; 136; 10; 10;
    47; 48; 49; 50; 51; 52; 53; 54; 55; 56; 57; 58; 59; 60; 61; 62; 63; 64;
    65; 66; 67; 68; 69; 70; 71; 72; 73; 74; 75; 76; 77; 78; 79; 80; 81; 82;
    83; 84; 85; 86; 87; 10; 10; 10; 10; 10; 10; 10; 10; 96; 97; 98; 10; 100;
    101; 102; 10; 10; 105; 106; 107; 108; 109; 110; 111; 112; 113; 114; 115;
    116; 117; 118; 119; 120; 121; 122; 123; 124; 125; 126; 10; 10; 129; 130;
    131; 132; 133; 134; 135; 10; 10; 10; 10; 10; 10; 10; 10; 10; 10; 10; 10;
    10; 10; 10; 10; 10; 10; 10; 10; 10; 10; 10; 10; 10; 10; 10; 10; 10; 10;
    10; 10; 10; 10; 10; 10; 10; 10; 10; 10; 10; 10; 10; 10; 10; 10; 10; 10;
    10 ].

(** [tbl[i]], for an index inside the table. *)
Definition yyat (tbl : list Z) (i : Z) : option Z :=
  if i <? 0 then None else tbl !! Z.to_nat i.

(** [YYTRANSLATE(YYX)].  The test is made on [(unsigned int) YYX]: a
    negative number counts as too large. *)
Definition YYTRANSLATE (yyx : Z) : option Z :=
  if (0 <=? yyx) && (yyx <=? YYMAXUTOK) then yyat yytranslate yyx
  else Some YYUNDEFTOK.

(** *** The semantic actions *)

Abbreviation atoi := ConfigParser.atoi.
Abbreviation streq := ConfigParser.streq.
Abbreviation b2i := ConfigParser.b2i.

(** How an action ends other than at its [break]: in [fatal_exit],
    which ends the process, or in what C leaves undefined: a NULL
    pointer is followed, a slot in front of an array is written, a
    value is read that holds no string. *)
Inductive yyhalt :=
  | yyfatal (st : config_parser_state)
  | yyundefined.

Inductive yyeffect :=
  | yybreak (st : config_parser_state)
  | yyhalts (h : yyhalt).

(** [fatal_exit] (util/log.h) reports the message and ends the
    process. *)
Definition fatal_exit (msg : string) (st : config_parser_state)
    : yyeffect :=
  yyhalts (yyfatal (verbose msg st)).

(** [(yyvsp[(i) - (n)].str)]: a value that holds no string cannot be
    read. *)
Definition yystr (val : YYSTYPE) (k : string -> yyeffect) : yyeffect :=
  match val with
  | Some str => k str
  | None => yyhalts yyundefined
  end.

Section Actions.
Context `{externs : config_externs}.

(** The three forms that most options share: a yes/no value, a number
    ("0" is the only spelling of zero), a number that may not be zero. *)
Definition yes_or_no (str : string)
    (assign : Z -> config_file -> config_file)
    (st : config_parser_state) : config_parser_state :=
  if negb (streq str "yes") && negb (streq str "no")
  then yyerror "expected yes or no." st
  else set_cfg (assign (b2i (streq str "yes"))) st.

Definition number (str : string)
    (assign : Z -> config_file -> config_file)
    (st : config_parser_state) : config_parser_state :=
  if (atoi str =? 0) && negb (streq str "0")
  then yyerror "number expected" st
  else set_cfg (assign (atoi str)) st.

Definition nonzero_number (msg str : string)
    (assign : Z -> config_file -> config_file)
    (st : config_parser_state) : config_parser_state :=
  if atoi str =? 0
  then yyerror msg st
  else set_cfg (assign (atoi str)) st.

(** [stubstart] and [forwardstart]: a new element from [calloc] at the
    head of the list. *)
Definition stubstart (st : config_parser_state) : config_parser_state :=
  match region_alloc (heap st) with
  | (Some _, h) =>
      set_cfg (fun c =>
                 set_stubs ({| name := None; hosts := []; addrs := [];
                               isfirst := 0; isprime := 0 |}
                            :: stubs c) c)
              (set_heap h st)
  | (None, h) => yyerror "out of memory" (set_heap h st)
  end.

Definition forwardstart (st : config_parser_state) : config_parser_state :=
  match region_alloc (heap st) with
  | (Some _, h) =>
      set_cfg (fun c =>
                 set_forwards ({| name := None; hosts := []; addrs := [];
                                  isfirst := 0; isprime := 0 |}
                               :: forwards c) c)
              (set_heap h st)
  | (None, h) => yyerror "out of memory" (set_heap h st)
  end.

Definition server_statistics_interval (str : string)
    (st : config_parser_state) : config_parser_state :=
  if streq str EmptyString || streq str "0"
  then set_cfg (set_int stat_interval 0) st
  else if atoi str =? 0
  then yyerror "number expected" st
  else set_cfg (set_int stat_interval (atoi str)) st.

(** [calloc(1, sizeof(char* ))] and [realloc(p, n * sizeof(char* ))]: the
    new block starts with the contents of the old one; its other slots
    hold nothing yet.  [realloc] of NULL is [malloc]. *)
Definition calloc_slots (h : region)
    : option (list (option string)) * region :=
  match region_alloc h with
  | (Some _, h') => (Some [None], h')
  | (None, h') => (None, h')
  end.

Definition realloc_slots (p : option (list (option string))) (n : nat)
    (h : region) : option (list (option string)) * region :=
  match region_alloc h with
  | (Some _, h') => (Some (take n (default [] p ++ replicate n None)), h')
  | (None, h') => (None, h')
  end.

(** [server_interface] and [server_outgoing_interface].  With a count
    below zero the string would be written in front of the array. *)
Definition server_interface (str : string) (st : config_parser_state)
    : yyeffect :=
  let c := cfg st in
  let '(a, h) :=
    if num_ifs c =? 0 then calloc_slots (heap st)
    else realloc_slots (ifs c) (Z.to_nat (num_ifs c + 1)) (heap st) in
  match a with
  | None =>
      yybreak (yyerror "out of memory"
                 (set_cfg (set_ifs (num_ifs c) None) (set_heap h st)))
  | Some l =>
      if num_ifs c <? 0 then yyhalts yyundefined
      else
        yybreak (set_cfg (set_ifs (num_ifs c + 1)
                            (Some (<[Z.to_nat (num_ifs c) := Some str]> l)))
                         (set_heap h st))
  end.

Definition server_outgoing_interface (str : string)
    (st : config_parser_state) : yyeffect :=
  let c := cfg st in
  let '(a, h) :=
    if num_out_ifs c =? 0 then calloc_slots (heap st)
    else realloc_slots (out_ifs c) (Z.to_nat (num_out_ifs c + 1))
           (heap st) in
  match a with
  | None =>
      yybreak (yyerror "out of memory"
                 (set_cfg (set_out_ifs (num_out_ifs c) None)
                    (set_heap h st)))
  | Some l =>
      if num_out_ifs c <? 0 then yyhalts yyundefined
      else
        yybreak (set_cfg (set_out_ifs (num_out_ifs c + 1)
                            (Some (<[Z.to_nat (num_out_ifs c) := Some str]>
                                     l)))
                         (set_heap h st))
  end.

(** A double quote. *)
Definition dquote : string := String "034"%char EmptyString.

(** [server_outgoing_port_permit] and [server_outgoing_port_avoid]. *)
Definition server_outgoing_port (allow : Z) (str : string)
    (st : config_parser_state) : config_parser_state :=
  let '(r, a) :=
    cfg_mark_ports str allow (outgoing_avail_ports (cfg st)) 65536 in
  let st1 := set_cfg (set_outgoing_avail_ports a) st in
  if r =? 0
  then yyerror ("port number or range (" ++ dquote ++ "low-high" ++ dquote
                ++ ") expected") st1
  else st1.

(** [server_use_syslog]: the second test is compiled in a build that
    has neither syslog.h nor Windows. *)
Definition server_use_syslog (str : string) (st : config_parser_state)
    : config_parser_state :=
  let st1 := yes_or_no str (set_int use_syslog) st in
  if negb HAVE_SYSLOG_H && negb UB_ON_WINDOWS && streq str "yes"
  then yyerror
         "no syslog services are available. (reconfigure and compile to add)"
         st1
  else st1.

Definition server_logfile (str : string) (st : config_parser_state)
    : config_parser_state :=
  set_cfg (fun c => set_int use_syslog 0 (set_str logfile (Some str) c)) st.

(** The options that add their string to a list: when
    [cfg_strlist_insert] returns 0 the action reports "out of memory". *)
Definition strlist_option (m : strlist_member) (str : string)
    (st : config_parser_state) : config_parser_state :=
  let '(r, l, h) := cfg_strlist_insert (strlists (cfg st) m) str (heap st) in
  let st1 := set_cfg (set_strlist m l) (set_heap h st) in
  if r =? 0 then yyerror "out of memory" st1 else st1.

(** The sizes of buffers and of caches. *)
Definition memsize_option (msg : string) (m : size_member) (str : string)
    (st : config_parser_state) : config_parser_state :=
  let '(r, x) := cfg_parse_memsize str (sizes (cfg st) m) in
  let st1 := set_cfg (set_size m x) st in
  if r =? 0 then yyerror msg st1 else st1.

(** The numbers of slabs: the member is assigned before [is_pow2]
    tests it. *)
Definition slabs_option (m : int_member) (str : string)
    (st : config_parser_state) : config_parser_state :=
  if atoi str =? 0
  then yyerror "number expected" st
  else
    let st1 := set_cfg (set_int m (atoi str)) st in
    if is_pow2 (ints (cfg st1) m) =? 0
    then yyerror "must be a power of 2" st1
    else st1.

Definition server_edns_buffer_size (str : string)
    (st : config_parser_state) : config_parser_state :=
  if atoi str =? 0
  then yyerror "number expected" st
  else if atoi str <? 12
  then yyerror "edns buffer size too small" st
  else if 65535 <? atoi str
  then set_cfg (set_int edns_buffer_size 65535) st
  else set_cfg (set_int edns_buffer_size (atoi str)) st.

Definition server_msg_buffer_size (str : string)
    (st : config_parser_state) : config_parser_state :=
  if atoi str =? 0
  then yyerror "number expected" st
  else if atoi str <? 4096
  then yyerror "message buffer size too small (use 4096)" st
  else set_cfg (set_int msg_buffer_size (atoi str)) st.

(** [server_access_control]: the action is looked at first. *)
Definition server_access_control (s2 s3 : YYSTYPE)
    (st : config_parser_state) : yyeffect :=
  yystr s3 (fun act =>
    if negb (streq act "deny") && negb (streq act "refuse")
       && negb (streq act "deny_non_local")
       && negb (streq act "refuse_non_local")
       && negb (streq act "allow") && negb (streq act "allow_snoop")
    then
      yybreak
        (yyerror
           ("expected deny, refuse, deny_non_local, "
            ++ "refuse_non_local, allow or allow_snoop "
            ++ "in access control action") st)
    else
      yystr s2 (fun net =>
        let '(r, l, h) :=
          cfg_str2list_insert (str2lists (cfg st) acls) net act (heap st) in
        let st1 := set_cfg (set_str2list acls l) (set_heap h st) in
        if r =? 0 then fatal_exit "out of memory adding acl" st1
        else yybreak st1)).

(** [server_val_override_date]: a value of 14 characters is a date and
    goes to [cfg_convert_timeval]. *)
Definition server_val_override_date (str : string)
    (st : config_parser_state) : config_parser_state :=
  if Nat.eqb (String.length str) 0 || streq str "0"
  then set_cfg (set_int val_date_override 0) st
  else if Nat.eqb (String.length str) 14
  then
    let st1 :=
      set_cfg (set_int val_date_override (cfg_convert_timeval str)) st in
    if ints (cfg st1) val_date_override =? 0
    then yyerror "bad date/time specification" st1
    else st1
  else
    let st1 := if atoi str =? 0 then yyerror "number expected" st else st in
    set_cfg (set_int val_date_override (atoi str)) st1.

(** [server_val_sig_skew_min] and [server_val_sig_skew_max]: the member
    is assigned before it is tested. *)
Definition sig_skew (m : int_member) (str : string)
    (st : config_parser_state) : config_parser_state :=
  if Nat.eqb (String.length str) 0 || streq str "0"
  then set_cfg (set_int m 0) st
  else
    let st1 := set_cfg (set_int m (atoi str)) st in
    if ints (cfg st1) m =? 0 then yyerror "number expected" st1 else st1.

(** [server_local_zone], [server_local_data] and
    [server_local_data_ptr]. *)
Definition server_local_zone (s2 s3 : YYSTYPE) (st : config_parser_state)
    : yyeffect :=
  yystr s3 (fun type =>
    if negb (streq type "static") && negb (streq type "deny")
       && negb (streq type "refuse") && negb (streq type "redirect")
       && negb (streq type "transparent") && negb (streq type "nodefault")
       && negb (streq type "typetransparent")
    then
      yybreak
        (yyerror
           ("local-zone type: expected static, deny, "
            ++ "refuse, redirect, transparent, "
            ++ "typetransparent or nodefault") st)
    else if streq type "nodefault"
    then
      yystr s2 (fun zone =>
        let '(r, l, h) :=
          cfg_strlist_insert (strlists (cfg st) local_zones_nodefault) zone
            (heap st) in
        let st1 :=
          set_cfg (set_strlist local_zones_nodefault l) (set_heap h st) in
        if r =? 0 then fatal_exit "out of memory adding local-zone" st1
        else yybreak st1)
    else
      yystr s2 (fun zone =>
        let '(r, l, h) :=
          cfg_str2list_insert (str2lists (cfg st) local_zones) zone type
            (heap st) in
        let st1 := set_cfg (set_str2list local_zones l) (set_heap h st) in
        if r =? 0 then fatal_exit "out of memory adding local-zone" st1
        else yybreak st1)).

Definition server_local_data (str : string) (st : config_parser_state)
    : yyeffect :=
  let '(r, l, h) :=
    cfg_strlist_insert (strlists (cfg st) local_data) str (heap st) in
  let st1 := set_cfg (set_strlist local_data l) (set_heap h st) in
  if r =? 0 then fatal_exit "out of memory adding local-data" st1
  else yybreak st1.

Definition server_local_data_ptr (str : string) (st : config_parser_state)
    : yyeffect :=
  match cfg_ptr_reverse str (heap st) with
  | (Some ptr, h) => server_local_data ptr (set_heap h st)
  | (None, h) =>
      yybreak (yyerror "local-data-ptr could not be reversed"
                 (set_heap h st))
  end.

(** The options of a stub or forward zone go to the head of the list,
    [cfg->stubs->...]: with an empty list that is a NULL pointer. *)
Definition stub_name (str : string) (st : config_parser_state)
    : yyeffect :=
  match stubs (cfg st) with
  | [] => yyhalts yyundefined
  | s :: l =>
      let st1 :=
        match name s with
        | Some _ =>
            yyerror
              "stub name override, there must be one name for one stub-zone"
              st
        | None => st
        end in
      yybreak
        (set_cfg (set_stubs ({| name := Some str; hosts := hosts s;
                                addrs := addrs s; isfirst := isfirst s;
                                isprime := isprime s |} :: l)) st1)
  end.

Definition stub_host (str : string) (st : config_parser_state)
    : yyeffect :=
  match stubs (cfg st) with
  | [] => yyhalts yyundefined
  | s :: l =>
      let '(r, x, h) := cfg_strlist_insert (hosts s) str (heap st) in
      let st1 :=
        set_cfg (set_stubs ({| name := name s; hosts := x;
                               addrs := addrs s; isfirst := isfirst s;
                               isprime := isprime s |} :: l))
                (set_heap h st) in
      yybreak (if r =? 0 then yyerror "out of memory" st1 else st1)
  end.

Definition stub_addr (str : string) (st : config_parser_state)
    : yyeffect :=
  match stubs (cfg st) with
  | [] => yyhalts yyundefined
  | s :: l =>
      let '(r, x, h) := cfg_strlist_insert (addrs s) str (heap st) in
      let st1 :=
        set_cfg (set_stubs ({| name := name s; hosts := hosts s;
                               addrs := x; isfirst := isfirst s;
                               isprime := isprime s |} :: l))
                (set_heap h st) in
      yybreak (if r =? 0 then yyerror "out of memory" st1 else st1)
  end.

Definition stub_first (str : string) (st : config_parser_state)
    : yyeffect :=
  if negb (streq str "yes") && negb (streq str "no")
  then yybreak (yyerror "expected yes or no." st)
  else
    match stubs (cfg st) with
    | [] => yyhalts yyundefined
    | s :: l =>
        yybreak
          (set_cfg (set_stubs ({| name := name s; hosts := hosts s;
                                  addrs := addrs s;
                                  isfirst := b2i (streq str "yes");
                                  isprime := isprime s |} :: l)) st)
    end.

Definition stub_prime (str : string) (st : config_parser_state)
    : yyeffect :=
  if negb (streq str "yes") && negb (streq str "no")
  then yybreak (yyerror "expected yes or no." st)
  else
    match stubs (cfg st) with
    | [] => yyhalts yyundefined
    | s :: l =>
        yybreak
          (set_cfg (set_stubs ({| name := name s; hosts := hosts s;
                                  addrs := addrs s; isfirst := isfirst s;
                                  isprime := b2i (streq str "yes") |}
                               :: l)) st)
    end.

Definition forward_name (str : string) (st : config_parser_state)
    : yyeffect :=
  match forwards (cfg st) with
  | [] => yyhalts yyundefined
  | s :: l =>
      let st1 :=
        match name s with
        | Some _ =>
            yyerror
          "forward name override, there must be one name for one forward-zone"
              st
        | None => st
        end in
      yybreak
        (set_cfg (set_forwards ({| name := Some str; hosts := hosts s;
                                   addrs := addrs s; isfirst := isfirst s;
                                   isprime := isprime s |} :: l)) st1)
  end.

Definition forward_host (str : string) (st : config_parser_state)
    : yyeffect :=
  match forwards (cfg st) with
  | [] => yyhalts yyundefined
  | s :: l =>
      let '(r, x, h) := cfg_strlist_insert (hosts s) str (heap st) in
      let st1 :=
        set_cfg (set_forwards ({| name := name s; hosts := x;
                                  addrs := addrs s; isfirst := isfirst s;
                                  isprime := isprime s |} :: l))
                (set_heap h st) in
      yybreak (if r =? 0 then yyerror "out of memory" st1 else st1)
  end.

Definition forward_addr (str : string) (st : config_parser_state)
    : yyeffect :=
  match forwards (cfg st) with
  | [] => yyhalts yyundefined
  | s :: l =>
      let '(r, x, h) := cfg_strlist_insert (addrs s) str (heap st) in
      let st1 :=
        set_cfg (set_forwards ({| name := name s; hosts := hosts s;
                                  addrs := x; isfirst := isfirst s;
                                  isprime := isprime s |} :: l))
                (set_heap h st) in
      yybreak (if r =? 0 then yyerror "out of memory" st1 else st1)
  end.

Definition forward_first (str : string) (st : config_parser_state)
    : yyeffect :=
  if negb (streq str "yes") && negb (streq str "no")
  then yybreak (yyerror "expected yes or no." st)
  else
    match forwards (cfg st) with
    | [] => yyhalts yyundefined
    | s :: l =>
        yybreak
          (set_cfg (set_forwards ({| name := name s; hosts := hosts s;
                                     addrs := addrs s;
                                     isfirst := b2i (streq str "yes");
                                     isprime := isprime s |} :: l)) st)
    end.

(** The [switch (yyn)] of [yyparse].  [yyrhs_vals] holds the values of the
    right-hand side of the rule, first symbol first, so that
    [(yyvsp[(2) - (2)].str)] is its second element.  The rules that are
    not listed have no action ([default: break]).  The [free] of the
    strings is not modelled, nor is [OUTYY], which is empty. *)
Definition yyaction (yyn : Z) (yyrhs_vals : list YYSTYPE)
    (st : config_parser_state) : yyeffect :=
  let S2 : YYSTYPE := mjoin (yyrhs_vals !! 1%nat) in
  let S3 : YYSTYPE := mjoin (yyrhs_vals !! 2%nat) in
  match yyn with
  | 10 => (* serverstart *)
      yybreak st
  | 117 => (* stubstart *)
      yybreak (stubstart st)
  | 125 => (* forwardstart *)
      yybreak (forwardstart st)
  | 132 => (* server_num_threads *)
      yystr S2 (fun str => yybreak (number str (set_int num_threads) st))
  | 133 => (* server_verbosity *)
      yystr S2 (fun str => yybreak (number str (set_int verbosity) st))
  | 134 => (* server_statistics_interval *)
      yystr S2 (fun str => yybreak (server_statistics_interval str st))
  | 135 => (* server_statistics_cumulative *)
      yystr S2 (fun str =>
        yybreak (yes_or_no str (set_int stat_cumulative) st))
  | 136 => (* server_extended_statistics *)
      yystr S2 (fun str => yybreak (yes_or_no str (set_int stat_extended) st))
  | 137 => (* server_port *)
      yystr S2 (fun str =>
        yybreak (nonzero_number "port number expected" str (set_int port) st))
  | 138 => (* server_interface *)
      yystr S2 (fun str => server_interface str st)
  | 139 => (* server_outgoing_interface *)
      yystr S2 (fun str => server_outgoing_interface str st)
  | 140 => (* server_outgoing_range *)
      yystr S2 (fun str =>
        yybreak
          (nonzero_number "number expected" str
             (set_int outgoing_num_ports) st))
  | 141 => (* server_outgoing_port_permit *)
      yystr S2 (fun str => yybreak (server_outgoing_port 1 str st))
  | 142 => (* server_outgoing_port_avoid *)
      yystr S2 (fun str => yybreak (server_outgoing_port 0 str st))
  | 143 => (* server_outgoing_num_tcp *)
      yystr S2 (fun str => yybreak (number str (set_int outgoing_num_tcp) st))
  | 144 => (* server_incoming_num_tcp *)
      yystr S2 (fun str => yybreak (number str (set_int incoming_num_tcp) st))
  | 145 => (* server_interface_automatic *)
      yystr S2 (fun str => yybreak (yes_or_no str (set_int if_automatic) st))
  | 146 => (* server_do_ip4 *)
      yystr S2 (fun str => yybreak (yes_or_no str (set_int do_ip4) st))
  | 147 => (* server_do_ip6 *)
      yystr S2 (fun str => yybreak (yes_or_no str (set_int do_ip6) st))
  | 148 => (* server_do_udp *)
      yystr S2 (fun str => yybreak (yes_or_no str (set_int do_udp) st))
  | 149 => (* server_do_tcp *)
      yystr S2 (fun str => yybreak (yes_or_no str (set_int do_tcp) st))
  | 150 => (* server_tcp_upstream *)
      yystr S2 (fun str => yybreak (yes_or_no str (set_int tcp_upstream) st))
  | 151 => (* server_ssl_upstream *)
      yystr S2 (fun str => yybreak (yes_or_no str (set_int ssl_upstream) st))
  | 152 => (* server_ssl_service_key *)
      yystr S2 (fun str =>
        yybreak (set_cfg (set_str ssl_service_key (Some str)) st))
  | 153 => (* server_ssl_service_pem *)
      yystr S2 (fun str =>
        yybreak (set_cfg (set_str ssl_service_pem (Some str)) st))
  | 154 => (* server_ssl_port *)
      yystr S2 (fun str =>
        yybreak
          (nonzero_number "port number expected" str
             (set_int ssl_port) st))
  | 155 => (* server_do_daemonize *)
      yystr S2 (fun str => yybreak (yes_or_no str (set_int do_daemonize) st))
  | 156 => (* server_use_syslog *)
      yystr S2 (fun str => yybreak (server_use_syslog str st))
  | 157 => (* server_log_time_ascii *)
      yystr S2 (fun str =>
        yybreak (yes_or_no str (set_int log_time_ascii) st))
  | 158 => (* server_log_queries *)
      yystr S2 (fun str => yybreak (yes_or_no str (set_int log_queries) st))
  | 159 => (* server_chroot *)
      yystr S2 (fun str =>
        yybreak (set_cfg (set_str chrootdir (Some str)) st))
  | 160 => (* server_username *)
      yystr S2 (fun str => yybreak (set_cfg (set_str username (Some str)) st))
  | 161 => (* server_directory *)
      yystr S2 (fun str =>
        yybreak (set_cfg (set_str directory (Some str)) st))
  | 162 => (* server_logfile *)
      yystr S2 (fun str => yybreak (server_logfile str st))
  | 163 => (* server_pidfile *)
      yystr S2 (fun str => yybreak (set_cfg (set_str pidfile (Some str)) st))
  | 164 => (* server_root_hints *)
      yystr S2 (fun str => yybreak (strlist_option root_hints str st))
  | 165 => (* server_dlv_anchor_file *)
      yystr S2 (fun str =>
        yybreak (set_cfg (set_str dlv_anchor_file (Some str)) st))
  | 166 => (* server_dlv_anchor *)
      yystr S2 (fun str => yybreak (strlist_option dlv_anchor_list str st))
  | 167 => (* server_auto_trust_anchor_file *)
      yystr S2 (fun str =>
        yybreak (strlist_option auto_trust_anchor_file_list str st))
  | 168 => (* server_trust_anchor_file *)
      yystr S2 (fun str =>
        yybreak (strlist_option trust_anchor_file_list str st))
  | 169 => (* server_trusted_keys_file *)
      yystr S2 (fun str =>
        yybreak (strlist_option trusted_keys_file_list str st))
  | 170 => (* server_trust_anchor *)
      yystr S2 (fun str => yybreak (strlist_option trust_anchor_list str st))
  | 171 => (* server_domain_insecure *)
      yystr S2 (fun str => yybreak (strlist_option domain_insecure str st))
  | 172 => (* server_hide_identity *)
      yystr S2 (fun str => yybreak (yes_or_no str (set_int hide_identity) st))
  | 173 => (* server_hide_version *)
      yystr S2 (fun str => yybreak (yes_or_no str (set_int hide_version) st))
  | 174 => (* server_identity *)
      yystr S2 (fun str => yybreak (set_cfg (set_str identity (Some str)) st))
  | 175 => (* server_version *)
      yystr S2 (fun str => yybreak (set_cfg (set_str version (Some str)) st))
  | 176 => (* server_so_rcvbuf *)
      yystr S2 (fun str =>
        yybreak (memsize_option "buffer size expected" so_rcvbuf str st))
  | 177 => (* server_so_sndbuf *)
      yystr S2 (fun str =>
        yybreak (memsize_option "buffer size expected" so_sndbuf str st))
  | 178 => (* server_so_reuseport *)
      yystr S2 (fun str => yybreak (yes_or_no str (set_int so_reuseport) st))
  | 179 => (* server_edns_buffer_size *)
      yystr S2 (fun str => yybreak (server_edns_buffer_size str st))
  | 180 => (* server_msg_buffer_size *)
      yystr S2 (fun str => yybreak (server_msg_buffer_size str st))
  | 181 => (* server_msg_cache_size *)
      yystr S2 (fun str =>
        yybreak (memsize_option "memory size expected" msg_cache_size str st))
  | 182 => (* server_msg_cache_slabs *)
      yystr S2 (fun str => yybreak (slabs_option msg_cache_slabs str st))
  | 183 => (* server_num_queries_per_thread *)
      yystr S2 (fun str =>
        yybreak
          (nonzero_number "number expected" str
             (set_int num_queries_per_thread) st))
  | 184 => (* server_jostle_timeout *)
      yystr S2 (fun str => yybreak (number str (set_int jostle_time) st))
  | 185 => (* server_delay_close *)
      yystr S2 (fun str => yybreak (number str (set_int delay_close) st))
  | 186 => (* server_unblock_lan_zones *)
      yystr S2 (fun str =>
        yybreak (yes_or_no str (set_int unblock_lan_zones) st))
  | 187 => (* server_rrset_cache_size *)
      yystr S2 (fun str =>
        yybreak
          (memsize_option "memory size expected"
             rrset_cache_size str st))
  | 188 => (* server_rrset_cache_slabs *)
      yystr S2 (fun str => yybreak (slabs_option rrset_cache_slabs str st))
  | 189 => (* server_infra_host_ttl *)
      yystr S2 (fun str => yybreak (number str (set_int host_ttl) st))
  | 190 => (* server_infra_lame_ttl *)
      yystr S2 (fun str =>
        yybreak
          (verbose ("ignored infra-lame-ttl: " ++ str ++
                    " (option removed, use infra-host-ttl)") st))
  | 191 => (* server_infra_cache_numhosts *)
      yystr S2 (fun str =>
        yybreak
          (nonzero_number "number expected" str
             (set_int infra_cache_numhosts) st))
  | 192 => (* server_infra_cache_lame_size *)
      yystr S2 (fun str =>
        yybreak
          (verbose ("ignored infra-cache-lame-size: " ++ str ++
                    " (option removed, use infra-cache-numhosts)") st))
  | 193 => (* server_infra_cache_slabs *)
      yystr S2 (fun str => yybreak (slabs_option infra_cache_slabs str st))
  | 194 => (* server_target_fetch_policy *)
      yystr S2 (fun str =>
        yybreak (set_cfg (set_str target_fetch_policy (Some str)) st))
  | 195 => (* server_harden_short_bufsize *)
      yystr S2 (fun str =>
        yybreak (yes_or_no str (set_int harden_short_bufsize) st))
  | 196 => (* server_harden_large_queries *)
      yystr S2 (fun str =>
        yybreak (yes_or_no str (set_int harden_large_queries) st))
  | 197 => (* server_harden_glue *)
      yystr S2 (fun str => yybreak (yes_or_no str (set_int harden_glue) st))
  | 198 => (* server_harden_dnssec_stripped *)
      yystr S2 (fun str =>
        yybreak (yes_or_no str (set_int harden_dnssec_stripped) st))
  | 199 => (* server_harden_below_nxdomain *)
      yystr S2 (fun str =>
        yybreak (yes_or_no str (set_int harden_below_nxdomain) st))
  | 200 => (* server_harden_referral_path *)
      yystr S2 (fun str =>
        yybreak (yes_or_no str (set_int harden_referral_path) st))
  | 201 => (* server_use_caps_for_id *)
      yystr S2 (fun str =>
        yybreak (yes_or_no str (set_int use_caps_bits_for_id) st))
  | 202 => (* server_private_address *)
      yystr S2 (fun str => yybreak (strlist_option private_address str st))
  | 203 => (* server_private_domain *)
      yystr S2 (fun str => yybreak (strlist_option private_domain str st))
  | 204 => (* server_prefetch *)
      yystr S2 (fun str => yybreak (yes_or_no str (set_int prefetch) st))
  | 205 => (* server_prefetch_key *)
      yystr S2 (fun str => yybreak (yes_or_no str (set_int prefetch_key) st))
  | 206 => (* server_unwanted_reply_threshold *)
      yystr S2 (fun str =>
        yybreak (number str (set_int unwanted_threshold) st))
  | 207 => (* server_do_not_query_address *)
      yystr S2 (fun str => yybreak (strlist_option donotqueryaddrs str st))
  | 208 => (* server_do_not_query_localhost *)
      yystr S2 (fun str =>
        yybreak (yes_or_no str (set_int donotquery_localhost) st))
  | 209 => (* server_access_control *)
      server_access_control S2 S3 st
  | 210 => (* server_module_conf *)
      yystr S2 (fun str =>
        yybreak (set_cfg (set_str module_conf (Some str)) st))
  | 211 => (* server_val_override_date *)
      yystr S2 (fun str => yybreak (server_val_override_date str st))
  | 212 => (* server_val_sig_skew_min *)
      yystr S2 (fun str => yybreak (sig_skew val_sig_skew_min str st))
  | 213 => (* server_val_sig_skew_max *)
      yystr S2 (fun str => yybreak (sig_skew val_sig_skew_max str st))
  | 214 => (* server_cache_max_ttl *)
      yystr S2 (fun str => yybreak (number str (set_int max_ttl) st))
  | 215 => (* server_cache_min_ttl *)
      yystr S2 (fun str => yybreak (number str (set_int min_ttl) st))
  | 216 => (* server_bogus_ttl *)
      yystr S2 (fun str => yybreak (number str (set_int bogus_ttl) st))
  | 217 => (* server_val_clean_additional *)
      yystr S2 (fun str =>
        yybreak (yes_or_no str (set_int val_clean_additional) st))
  | 218 => (* server_val_permissive_mode *)
      yystr S2 (fun str =>
        yybreak (yes_or_no str (set_int val_permissive_mode) st))
  | 219 => (* server_ignore_cd_flag *)
      yystr S2 (fun str => yybreak (yes_or_no str (set_int ignore_cd) st))
  | 220 => (* server_val_log_level *)
      yystr S2 (fun str => yybreak (number str (set_int val_log_level) st))
  | 221 => (* server_val_nsec3_keysize_iterations *)
      yystr S2 (fun str =>
        yybreak (set_cfg (set_str val_nsec3_key_iterations (Some str)) st))
  | 222 => (* server_add_holddown *)
      yystr S2 (fun str => yybreak (number str (set_int add_holddown) st))
  | 223 => (* server_del_holddown *)
      yystr S2 (fun str => yybreak (number str (set_int del_holddown) st))
  | 224 => (* server_keep_missing *)
      yystr S2 (fun str => yybreak (number str (set_int keep_missing) st))
  | 225 => (* server_key_cache_size *)
      yystr S2 (fun str =>
        yybreak (memsize_option "memory size expected" key_cache_size str st))
  | 226 => (* server_key_cache_slabs *)
      yystr S2 (fun str => yybreak (slabs_option key_cache_slabs str st))
  | 227 => (* server_neg_cache_size *)
      yystr S2 (fun str =>
        yybreak (memsize_option "memory size expected" neg_cache_size str st))
  | 228 => (* server_local_zone *)
      server_local_zone S2 S3 st
  | 229 => (* server_local_data *)
      yystr S2 (fun str => server_local_data str st)
  | 230 => (* server_local_data_ptr *)
      yystr S2 (fun str => server_local_data_ptr str st)
  | 231 => (* server_minimal_responses *)
      yystr S2 (fun str =>
        yybreak (yes_or_no str (set_int minimal_responses) st))
  | 232 => (* server_rrset_roundrobin *)
      yystr S2 (fun str =>
        yybreak (yes_or_no str (set_int rrset_roundrobin) st))
  | 233 => (* server_max_udp_size *)
      yystr S2 (fun str =>
        yybreak (set_cfg (set_int max_udp_size (atoi str)) st))
  | 234 => (* server_dns64_prefix *)
      yystr S2 (fun str =>
        yybreak (set_cfg (set_str dns64_prefix (Some str)) st))
  | 235 => (* server_dns64_synthall *)
      yystr S2 (fun str =>
        yybreak (yes_or_no str (set_int dns64_synthall) st))
  | 236 => (* stub_name *)
      yystr S2 (fun str => stub_name str st)
  | 237 => (* stub_host *)
      yystr S2 (fun str => stub_host str st)
  | 238 => (* stub_addr *)
      yystr S2 (fun str => stub_addr str st)
  | 239 => (* stub_first *)
      yystr S2 (fun str => stub_first str st)
  | 240 => (* stub_prime *)
      yystr S2 (fun str => stub_prime str st)
  | 241 => (* forward_name *)
      yystr S2 (fun str => forward_name str st)
  | 242 => (* forward_host *)
      yystr S2 (fun str => forward_host str st)
  | 243 => (* forward_addr *)
      yystr S2 (fun str => forward_addr str st)
  | 244 => (* forward_first *)
      yystr S2 (fun str => forward_first str st)
  | 245 => (* rcstart *)
      yybreak st
  | 255 => (* rc_control_enable *)
      yystr S2 (fun str =>
        yybreak (yes_or_no str (set_int remote_control_enable) st))
  | 256 => (* rc_control_port *)
      yystr S2 (fun str =>
        yybreak
          (nonzero_number "control port number expected" str
             (set_int control_port) st))
  | 257 => (* rc_control_interface *)
      yystr S2 (fun str => yybreak (strlist_option control_ifs str st))
  | 258 => (* rc_server_key_file *)
      yystr S2 (fun str =>
        yybreak (set_cfg (set_str server_key_file (Some str)) st))
  | 259 => (* rc_server_cert_file *)
      yystr S2 (fun str =>
        yybreak (set_cfg (set_str server_cert_file (Some str)) st))
  | 260 => (* rc_control_key_file *)
      yystr S2 (fun str =>
        yybreak (set_cfg (set_str control_key_file (Some str)) st))
  | 261 => (* rc_control_cert_file *)
      yystr S2 (fun str =>
        yybreak (set_cfg (set_str control_cert_file (Some str)) st))
  | 262 => (* dtstart *)
      yybreak st
  | 277 => (* dt_dnstap_enable *)
      yystr S2 (fun str => yybreak (yes_or_no str (set_int dnstap) st))
  | 278 => (* dt_dnstap_socket_path *)
      yystr S2 (fun str =>
        yybreak (set_cfg (set_str dnstap_socket_path (Some str)) st))
  | 279 => (* dt_dnstap_send_identity *)
      yystr S2 (fun str =>
        yybreak (yes_or_no str (set_int dnstap_send_identity) st))
  | 280 => (* dt_dnstap_send_version *)
      yystr S2 (fun str =>
        yybreak (yes_or_no str (set_int dnstap_send_version) st))
  | 281 => (* dt_dnstap_identity *)
      yystr S2 (fun str =>
        yybreak (set_cfg (set_str dnstap_identity (Some str)) st))
  | 282 => (* dt_dnstap_version *)
      yystr S2 (fun str =>
        yybreak (set_cfg (set_str dnstap_version (Some str)) st))
  | 283 => (* dt_dnstap_log_resolver_query_messages *)
      yystr S2 (fun str =>
        yybreak
          (yes_or_no str
             (set_int dnstap_log_resolver_query_messages) st))
  | 284 => (* dt_dnstap_log_resolver_response_messages *)
      yystr S2 (fun str =>
        yybreak
          (yes_or_no str
             (set_int dnstap_log_resolver_response_messages) st))
  | 285 => (* dt_dnstap_log_client_query_messages *)
      yystr S2 (fun str =>
        yybreak (yes_or_no str (set_int dnstap_log_client_query_messages) st))
  | 286 => (* dt_dnstap_log_client_response_messages *)
      yystr S2 (fun str =>
        yybreak
          (yes_or_no str
             (set_int dnstap_log_client_response_messages) st))
  | 287 => (* dt_dnstap_log_forwarder_query_messages *)
      yystr S2 (fun str =>
        yybreak
          (yes_or_no str
             (set_int dnstap_log_forwarder_query_messages) st))
  | 288 => (* dt_dnstap_log_forwarder_response_messages *)
      yystr S2 (fun str =>
        yybreak
          (yes_or_no str
             (set_int dnstap_log_forwarder_response_messages) st))
  | 289 => (* pythonstart *)
      yybreak st
  | 293 => (* py_script *)
      yystr S2 (fun str =>
        yybreak (set_cfg (set_str python_script (Some str)) st))
  | _ => yybreak st
  end.

(** *** The lexer *)

(** [yylex] is [ub_c_lex], the scanner generated from
    util/configlexer.lex; the parser sees the sequence of its results: a
    token number and the value that the call leaves in [yylval].  At the
    end of the file it returns 0. *)

(** *** The variables of [yyparse] *)

(** [yyss] and [yyvs] are the two stacks, top first ([*yyssp] is the
    head of [yyss]); [yyin] is what the lexer has yet to return;
    [cfg_parser] is the global of that name. *)
Record yyvars := {
  yyss        : list Z;
  yyvs        : list YYSTYPE;
  yystacksize : Z;
  yyerrstatus : Z;
  yynerrs     : Z;
  yychar      : Z;
  yylval      : YYSTYPE;
  yyin        : list (Z * YYSTYPE);
  cfg_parser  : config_parser_state
}.

Definition set_stacks (ss : list Z) (vs : list YYSTYPE) (v : yyvars)
    : yyvars :=
  {| yyss := ss; yyvs := vs; yystacksize := yystacksize v;
     yyerrstatus := yyerrstatus v; yynerrs := yynerrs v;
     yychar := yychar v; yylval := yylval v; yyin := yyin v;
     cfg_parser := cfg_parser v |}.

Definition set_yystacksize (n : Z) (v : yyvars) : yyvars :=
  {| yyss := yyss v; yyvs := yyvs v; yystacksize := n;
     yyerrstatus := yyerrstatus v; yynerrs := yynerrs v;
     yychar := yychar v; yylval := yylval v; yyin := yyin v;
     cfg_parser := cfg_parser v |}.

Definition set_yyerrstatus (n : Z) (v : yyvars) : yyvars :=
  {| yyss := yyss v; yyvs := yyvs v; yystacksize := yystacksize v;
     yyerrstatus := n; yynerrs := yynerrs v;
     yychar := yychar v; yylval := yylval v; yyin := yyin v;
     cfg_parser := cfg_parser v |}.

Definition set_yynerrs (n : Z) (v : yyvars) : yyvars :=
  {| yyss := yyss v; yyvs := yyvs v; yystacksize := yystacksize v;
     yyerrstatus := yyerrstatus v; yynerrs := n;
     yychar := yychar v; yylval := yylval v; yyin := yyin v;
     cfg_parser := cfg_parser v |}.

Definition set_yychar (c : Z) (v : yyvars) : yyvars :=
  {| yyss := yyss v; yyvs := yyvs v; yystacksize := yystacksize v;
     yyerrstatus := yyerrstatus v; yynerrs := yynerrs v;
     yychar := c; yylval := yylval v; yyin := yyin v;
     cfg_parser := cfg_parser v |}.

Definition set_cfg_parser (st : config_parser_state) (v : yyvars)
    : yyvars :=
  {| yyss := yyss v; yyvs := yyvs v; yystacksize := yystacksize v;
     yyerrstatus := yyerrstatus v; yynerrs := yynerrs v;
     yychar := yychar v; yylval := yylval v; yyin := yyin v;
     cfg_parser := st |}.

(** [yychar = YYLEX] *)
Definition yylex (v : yyvars) : yyvars :=
  match yyin v with
  | [] => set_yychar 0 v
  | (tok, val) :: rest =>
      {| yyss := yyss v; yyvs := yyvs v; yystacksize := yystacksize v;
         yyerrstatus := yyerrstatus v; yynerrs := yynerrs v;
         yychar := tok; yylval := val; yyin := rest;
         cfg_parser := cfg_parser v |}
  end.

(** *** The labels of [yyparse] *)

(** Where a pass through the labels ends: at [yynewstate] with the next
    state, at [yyreturn] with the result, or inside an action that does
    not come to its [break].  [yyfault] stands for a table read out of
    its bounds and for a pop below the stack. *)
Inductive yynext :=
  | yynewstate (yystate : Z) (v : yyvars)
  | yyreturn (yyresult : Z) (v : yyvars)
  | yystop (h : yyhalt)
  | yyfault.

Definition yyacceptlab (v : yyvars) : yynext := yyreturn 0 v.
Definition yyabortlab (v : yyvars) : yynext := yyreturn 1 v.
Definition yyexhaustedlab (v : yyvars) : yynext :=
  yyreturn 2 (set_cfg_parser (yyerror "memory exhausted" (cfg_parser v)) v).

(** The state to go to after a reduction to the symbol [yyn], with
    [top] the state uncovered on the stack. *)
Definition yygoto (yyn top : Z) : option Z :=
  base ← yyat yypgoto (yyn - YYNTOKENS);
  let yystate := base + top in
  if (0 <=? yystate) && (yystate <=? YYLAST)
  then
    c ← yyat yycheck yystate;
    if c =? top then yyat yytable yystate
    else yyat yydefgoto (yyn - YYNTOKENS)
  else yyat yydefgoto (yyn - YYNTOKENS).

(** [yyreduce]: the value of the rule is the value of its first symbol
    ([yyvsp[1-yylen]]); for an empty rule that is the slot above the
    stack, which holds nothing. *)
Definition yyreduce (yyn : Z) (v : yyvars) : yynext :=
  match yyat yyr2 yyn, yyat yyr1 yyn with
  | Some yylen, Some lhs =>
      let n := Z.to_nat yylen in
      let yyval : YYSTYPE :=
        if yylen =? 0 then None
        else mjoin (yyvs v !! (n - 1)%nat) in
      match yyaction yyn (reverse (take n (yyvs v))) (cfg_parser v) with
      | yyhalts h => yystop h
      | yybreak st =>
          match drop n (yyss v) with
          | [] => yyfault
          | top :: below =>
              match yygoto lhs top with
              | None => yyfault
              | Some yystate =>
                  yynewstate yystate
                    (set_cfg_parser st
                       (set_stacks (top :: below)
                                   (yyval :: drop n (yyvs v)) v))
              end
          end
      end
  | _, _ => yyfault
  end.

(** The test of the loop of [yyerrlab1]: the state to shift the error
    token to, if [yystate] has one. *)
Definition yyerrshift (yystate : Z) : option (option Z) :=
  yyn ← yyat yypact yystate;
  if yyn =? YYPACT_NINF then Some None
  else
    let yyn := yyn + YYTERROR in
    if (0 <=? yyn) && (yyn <=? YYLAST)
    then
      c ← yyat yycheck yyn;
      if c =? YYTERROR
      then t ← yyat yytable yyn; Some (if 0 <? t then Some t else None)
      else Some None
    else Some None.

(** The loop of [yyerrlab1]: pop states until one shifts the error
    token; [YYABORT] when the stack is down to its first state. *)
Fixpoint yyerrlab1_loop (ss : list Z) (vs : list YYSTYPE) (v : yyvars)
    : yynext :=
  match ss with
  | [] => yyfault
  | yystate :: below =>
      match yyerrshift yystate with
      | None => yyfault
      | Some (Some yyn) =>
          yynewstate yyn (set_stacks ss (yylval v :: vs) v)
      | Some None =>
          match below with
          | [] => yyabortlab (set_stacks ss vs v)
          | _ :: _ => yyerrlab1_loop below (tail vs) v
          end
      end
  end.

Definition yyerrlab1 (v : yyvars) : yynext :=
  let v1 := set_yyerrstatus 3 v in
  yyerrlab1_loop (yyss v1) (yyvs v1) v1.

(** [yyerrlab]: without [YYERROR_VERBOSE] the message is "syntax
    error". *)
Definition yyerrlab (v : yyvars) : yynext :=
  let v1 :=
    if yyerrstatus v =? 0
    then set_cfg_parser (yyerror "syntax error" (cfg_parser v))
           (set_yynerrs (yynerrs v + 1) v)
    else v in
  if yyerrstatus v1 =? 3
  then
    if yychar v1 <=? YYEOF
    then if yychar v1 =? YYEOF then yyabortlab v1 else yyerrlab1 v1
    else yyerrlab1 (set_yychar YYEMPTY v1)
  else yyerrlab1 v1.

(** [yydefault] *)
Definition yydefault (yystate : Z) (v : yyvars) : yynext :=
  match yyat yydefact yystate with
  | None => yyfault
  | Some yyn => if yyn =? 0 then yyerrlab v else yyreduce yyn v
  end.

(** [yybackup], from the point where the lookahead is known:
    [yyn] is [yypact[yystate]].  In this parser
    [yytable_value_is_error] is 0 for every value, so that an entry of
    [yytable] that is not positive is always a reduction. *)
Definition yybackup_token (yystate yyn yytoken : Z) (v : yyvars)
    : yynext :=
  let yyn := yyn + yytoken in
  if (yyn <? 0) || (YYLAST <? yyn) then yydefault yystate v
  else
    match yyat yycheck yyn with
    | None => yyfault
    | Some c =>
        if negb (c =? yytoken) then yydefault yystate v
        else
          match yyat yytable yyn with
          | None => yyfault
          | Some t =>
              if t <=? 0 then yyreduce (- t) v
              else
                let v1 :=
                  if yyerrstatus v =? 0 then v
                  else set_yyerrstatus (yyerrstatus v - 1) v in
                yynewstate t
                  (set_stacks (yyss v1) (yylval v1 :: yyvs v1)
                     (set_yychar YYEMPTY v1))
          end
    end.

Definition yybackup (yystate : Z) (v : yyvars) : yynext :=
  match yyat yypact yystate with
  | None => yyfault
  | Some yyn =>
      if yyn =? YYPACT_NINF then yydefault yystate v
      else
        let v1 := if yychar v =? YYEMPTY then yylex v else v in
        if yychar v1 <=? YYEOF
        then yybackup_token yystate yyn YYEOF (set_yychar YYEOF v1)
        else
          match YYTRANSLATE (yychar v1) with
          | None => yyfault
          | Some yytoken => yybackup_token yystate yyn yytoken v1
          end
  end.

(** The test at [yysetstate] for a full state stack, and the growth of
    the stacks ([YYSTACK_ALLOC] is [malloc]; the copy to the new block
    changes nothing here). *)
Definition yygrow (v : yyvars) : yyvars + yynext :=
  let yysize := Z.of_nat (length (yyss v)) in
  if yystacksize v - 1 <=? yysize - 1
  then
    if YYMAXDEPTH <=? yystacksize v then inr (yyexhaustedlab v)
    else
      let size2 := Z.min (2 * yystacksize v) YYMAXDEPTH in
      let '(p, h) := region_alloc (heap (cfg_parser v)) in
      let v1 := set_cfg_parser (set_heap h (cfg_parser v))
                  (set_yystacksize size2 v) in
      match p with
      | None => inr (yyexhaustedlab v1)
      | Some _ =>
          if size2 - 1 <=? yysize - 1 then inr (yyabortlab v1) else inl v1
      end
  else inl v.

(** [yynewstate] and [yysetstate]: push the state, make room, accept in
    the final state. *)
Definition yysetstate (yystate : Z) (v : yyvars) : yynext :=
  match yygrow (set_stacks (yystate :: yyss v) (yyvs v) v) with
  | inr r => r
  | inl v1 =>
      if yystate =? YYFINAL then yyacceptlab v1 else yybackup yystate v1
  end.

(** What [yyparse] comes to: [yyreturned] with the result, [yystopped]
    inside an action, [yyfaulted], or still running when the passes
    counted by the first argument are used up. *)
Inductive yyoutcome :=
  | yyreturned (yyresult : Z) (v : yyvars)
  | yystopped (h : yyhalt)
  | yyfaulted
  | yyrunning (yystate : Z) (v : yyvars).

Fixpoint yyparse_loop (passes : nat) (yystate : Z) (v : yyvars)
    : yyoutcome :=
  match passes with
  | O => yyrunning yystate v
  | S passes' =>
      match yysetstate yystate v with
      | yynewstate yystate' v' => yyparse_loop passes' yystate' v'
      | yyreturn r v' => yyreturned r v'
      | yystop h => yystopped h
      | yyfault => yyfaulted
      end
  end.

(** The variables at the start of [yyparse].  The first slot of the
    value stack is never written. *)
Definition yyinit (input : list (Z * YYSTYPE)) (st : config_parser_state)
    : yyvars :=
  {| yyss := []; yyvs := [None]; yystacksize := YYINITDEPTH;
     yyerrstatus := 0; yynerrs := 0; yychar := YYEMPTY; yylval := None;
     yyin := input; cfg_parser := st |}.

(** [yyparse] on the tokens that the lexer returns.  Six passes for
    each token and eighteen more are enough for every input (see
    the properties of the driver). *)
Definition yyparse (input : list (Z * YYSTYPE)) (st : config_parser_state)
    : yyoutcome :=
  yyparse_loop (6 * length input + 18) 0 (yyinit input st).

End Actions.

End YYParse.

(** ** The automaton in the tables of the parser *)

Module YYAutomaton.
Import Data ConfigFile YYParse.

(** What the tables ask for in a state: shift to a state, reduce by a
    rule, or report an error. *)
Inductive yymove :=
  | mv_shift (yystate : Z)
  | mv_reduce (yyn : Z)
  | mv_error.

(** The move at [yydefault], and the move at [yybackup] once the
    lookahead is known ([yyn] is [yypact[yystate]]). *)
Definition yymove_default (yystate : Z) : option yymove :=
  yyn ← yyat yydefact yystate;
  Some (if yyn =? 0 then mv_error else mv_reduce yyn).

Definition yymove_token (yystate yyn yytoken : Z) : option yymove :=
  let yyn := yyn + yytoken in
  if (yyn <? 0) || (YYLAST <? yyn) then yymove_default yystate
  else
    c ← yyat yycheck yyn;
    if negb (c =? yytoken) then yymove_default yystate
    else
      t ← yyat yytable yyn;
      Some (if t <=? 0 then mv_reduce (- t) else mv_shift t).

(** The state stack (top first) after a reduction by rule [yyn], the
    new state on top. *)
Definition yystack_reduce (yyn : Z) (ss : list Z) : option (list Z) :=
  yylen ← yyat yyr2 yyn;
  lhs ← yyat yyr1 yyn;
  match drop (Z.to_nat yylen) ss with
  | [] => None
  | top :: below => g ← yygoto lhs top; Some (g :: top :: below)
  end.

(** The moves of a state over all symbols that [YYTRANSLATE] yields. *)
Definition yymoves (yystate : Z) : list (option yymove) :=
  match yyat yypact yystate with
  | None => [None]
  | Some yyn =>
      if yyn =? YYPACT_NINF then [yymove_default yystate]
      else map (yymove_token yystate yyn) (seqZ 0 YYNTOKENS)
  end.

(** The stacks that one move leads to, by a shift or by a reduction. *)
Definition yystack_move (ss : list Z) (m : option yymove)
    : option (list Z) :=
  match m with
  | Some (mv_shift s) => Some (s :: ss)
  | Some (mv_reduce r) => yystack_reduce r ss
  | _ => None
  end.

Definition yysuccessors (ss : list Z) : list (list Z) :=
  match ss with
  | [] => []
  | s :: _ =>
      if s =? YYFINAL then []
      else remove_dups (omap (yystack_move ss) (yymoves s))
  end.

Definition yyreductions (ss : list Z) : list (list Z) :=
  match ss with
  | [] => []
  | s :: _ =>
      if s =? YYFINAL then []
      else
        remove_dups
          (omap (fun m => match m with
                          | Some (mv_reduce r) => yystack_reduce r ss
                          | _ => None
                          end) (yymoves s))
  end.

(** The state stacks that the parser can build from [[0]], found by a
    search of the given depth. *)
Fixpoint yyexplore (depth : nat) (seen front : list (list Z))
    : list (list Z) :=
  match depth with
  | O => seen
  | S depth' =>
      let new :=
        remove_dups
          (filter (fun ss => ss ∉ seen) (concat (map yysuccessors front))) in
      yyexplore depth' (seen ++ new) new
  end.

Definition yystacks : list (list Z) :=
  Eval vm_compute in yyexplore 8 [[0]] [[0]].

(** The longest run of reductions that can start from a stack. *)
Fixpoint yyrank_upto (depth : nat) (ss : list Z) : nat :=
  match depth with
  | O => O
  | S depth' =>
      foldr Nat.max O (map (fun ss' => S (yyrank_upto depth' ss'))
                           (yyreductions ss))
  end.

Definition yyranks : list (Z * nat) :=
  Eval vm_compute in
    omap (fun ss => match ss with
                    | s :: _ => Some (s, yyrank_upto 8 ss)
                    | [] => None
                    end) yystacks.

Definition yyrank (yystate : Z) : nat :=
  match list_find (fun p => bool_decide (fst p = yystate)) yyranks with
  | Some (_, (_, n)) => n
  | None => O
  end.

Section Moves.
Context `{externs : config_externs}.

(** Carrying out a move: the end of [yybackup] for a shift, [yyreduce]
    and [yyerrlab]. *)
Definition yyshift (t : Z) (v : yyvars) : yynext :=
  let v1 :=
    if yyerrstatus v =? 0 then v
    else set_yyerrstatus (yyerrstatus v - 1) v in
  yynewstate t
    (set_stacks (yyss v1) (yylval v1 :: yyvs v1) (set_yychar YYEMPTY v1)).

Definition yydo (m : option yymove) (v : yyvars) : yynext :=
  match m with
  | None => yyfault
  | Some (mv_shift t) => yyshift t v
  | Some (mv_reduce r) => yyreduce r v
  | Some mv_error => yyerrlab v
  end.

(** The variables once the lookahead has been read, and its symbol
    number. *)
Definition yypeek (v : yyvars) : yyvars :=
  let v1 := if yychar v =? YYEMPTY then yylex v else v in
  if yychar v1 <=? YYEOF then set_yychar YYEOF v1 else v1.

Definition yytoken (v : yyvars) : option Z :=
  if yychar v <=? YYEOF then Some YYEOF else YYTRANSLATE (yychar v).

(** The tokens that the parser has yet to shift: the lookahead, when
    it has been read, and what the lexer has yet to return. *)
Definition yypending (v : yyvars) : list (Z * YYSTYPE) :=
  if yychar v =? YYEMPTY then yyin v
  else (yychar v, yylval v) :: yyin v.

(** A number of passes from [yynewstate] on. *)
Fixpoint yypasses (k : nat) (yystate : Z) (v : yyvars) : yynext :=
  match k with
  | O => yynewstate yystate v
  | S k' =>
      match yysetstate yystate v with
      | yynewstate yystate' v' => yypasses k' yystate' v'
      | r => r
      end
  end.

(** A check of one stack against the tables: it is short, none of its
    states shifts the error token, and every move from it leads to a
    stack of [yystacks]; a reduction leads to a state of lower rank and
    the end of the input is shifted to the final state only. *)
Fixpoint yystack_eqb (a b : list Z) : bool :=
  match a, b with
  | [], [] => true
  | x :: a', y :: b' => (x =? y) && yystack_eqb a' b'
  | _, _ => false
  end.

Definition yyviable (ss : list Z) : bool :=
  existsb (yystack_eqb ss) yystacks.

Definition yycheck_move (ss : list Z) (eof : bool) (m : option yymove)
    : bool :=
  match ss, m with
  | s :: _, Some mv_error => true
  | s :: _, Some (mv_shift t) =>
      yyviable (t :: ss) && (negb eof || (t =? YYFINAL))
      && (yyrank t <=? 5)%nat
  | s :: _, Some (mv_reduce r) =>
      match yystack_reduce r ss with
      | Some (g :: ss') =>
          yyviable (g :: ss') && (yyrank g <? yyrank s)%nat
      | _ => false
      end
  | _, _ => false
  end.

Definition yycheck_stack (ss : list Z) : bool :=
  match ss with
  | [] => false
  | s :: _ =>
      (length ss <=? 7)%nat
      && forallb (fun s' => match yyerrshift s' with
                            | Some None => true
                            | _ => false
                            end) ss
      && ((s =? YYFINAL)
          || match yyat yypact s with
             | None => false
             | Some p =>
                 if p =? YYPACT_NINF
                 then yycheck_move ss false (yymove_default s)
                 else forallb (fun t => yycheck_move ss (t =? YYEOF)
                                          (yymove_token s p t))
                              (seqZ 0 YYNTOKENS)
             end)
  end.

(** The measure that every pass lowers: six for each token that is yet
    to be shifted (the end of the input counts as one), and the rank of
    the state. *)
Definition yybudget (v : yyvars) : nat :=
  if yychar v =? YYEMPTY then (length (yyin v) + 2)%nat
  else if yychar v =? YYEOF then 1%nat
  else (length (yyin v) + 3)%nat.

Definition yymeasure (yystate : Z) (v : yyvars) : nat :=
  (6 * yybudget v + yyrank yystate)%nat.

(** What holds at [yynewstate] as long as no error was found. *)
Definition yyinv (yystate : Z) (v : yyvars) : Prop :=
  yyviable (yystate :: yyss v) = true
  /\ length (yyvs v) = S (length (yyss v))
  /\ yystacksize v = YYINITDEPTH
  /\ yyerrstatus v = 0
  /\ yynerrs v = 0
  /\ (yychar v = YYEMPTY \/ 0 <= yychar v).

(** How [yyparse] ends: with 0 and no syntax error, or with 1 after one
    syntax error, which is the last thing reported, and the stacks were
    never grown; or inside an action that does not come to its
    [break]. *)
Definition yyended (o : yyoutcome) : Prop :=
  match o with
  | yyreturned r v =>
      yystacksize v = YYINITDEPTH
      /\ ((r = 0 /\ yynerrs v = 0)
          \/ (r = 1 /\ yynerrs v = 1
              /\ last (log (cfg_parser v)) = Some "syntax error"%string))
  | yystopped h => exists yyn vals st, yyaction yyn vals st = yyhalts h
  | yyfaulted => False
  | yyrunning _ _ => False
  end.

End Moves.

End YYAutomaton.

(** ** The sentences of the grammar *)

Module YYGrammar.
Import Data ConfigFile YYParse YYAutomaton.

Section Sentences.
Context `{externs : config_externs}.

(** The right-hand side of a rule, and the tokens of a rule whose
    right-hand side has tokens only, each with its value. *)
Definition yyrhs_of (r : Z) : list Z :=
  match yyat yyprhs r, yyat yyr2 r with
  | Some i, Some n => take (Z.to_nat n) (drop (Z.to_nat i) yyrhs)
  | _, _ => []
  end.

Definition yytokens_of (r : Z) (vals : list YYSTYPE)
    : list (Z * YYSTYPE) :=
  zip (omap (yyat yytoknum) (yyrhs_of r)) vals.

(** A configuration file is a sequence of sections; a section is its
    opening keyword ([server:], [stub-zone:], ...), that is the rule of
    [serverstart], [stubstart], ..., followed by clauses; a clause is a
    rule [keyword STRING_ARG], or [keyword STRING_ARG STRING_ARG] for
    access-control and local-zone, with the values of its tokens. *)
Record yyclause := {
  cl_rule : Z;
  cl_vals : list YYSTYPE
}.

Record yysection := {
  sec_rule    : Z;
  sec_val     : YYSTYPE;
  sec_clauses : list yyclause
}.

(** The rules of the clauses of each section, by the rule that opens
    it: [server:], [stub-zone:], [forward-zone:], [remote-control:],
    [dnstap:] and [python:]. *)
Definition yyclauses_of (h : Z) : option (list Z) :=
  if h =? 10 then Some (seqZ 132 104)
  else if h =? 117 then Some (seqZ 236 5)
  else if h =? 125 then Some (seqZ 241 4)
  else if h =? 245 then Some (seqZ 255 7)
  else if h =? 262 then Some (seqZ 277 12)
  else if h =? 289 then Some [293]
  else None.

Definition yyclause_ok (rules : list Z) (c : yyclause) : bool :=
  existsb (Z.eqb (cl_rule c)) rules
  && Nat.eqb (length (cl_vals c)) (length (yyrhs_of (cl_rule c))).

Definition yysection_ok (s : yysection) : bool :=
  match yyclauses_of (sec_rule s) with
  | Some rules => forallb (yyclause_ok rules) (sec_clauses s)
  | None => false
  end.

Definition yyclause_tokens (c : yyclause) : list (Z * YYSTYPE) :=
  yytokens_of (cl_rule c) (cl_vals c).

Definition yysection_tokens (s : yysection) : list (Z * YYSTYPE) :=
  yytokens_of (sec_rule s) [sec_val s]
  ++ concat (map yyclause_tokens (sec_clauses s)).

Definition yyfile_tokens (f : list yysection) : list (Z * YYSTYPE) :=
  concat (map yysection_tokens f).

(** The actions of a file, in the order of the text: the next one
    runs when the one before came to its [break]. *)
Definition yythen (e : yyeffect) (k : config_parser_state -> yyeffect)
    : yyeffect :=
  match e with
  | yybreak st => k st
  | yyhalts h => yyhalts h
  end.

Definition yyrun_clause (e : yyeffect) (c : yyclause) : yyeffect :=
  yythen e (yyaction (cl_rule c) (cl_vals c)).

Definition yyrun_section (e : yyeffect) (s : yysection) : yyeffect :=
  foldl yyrun_clause (yythen e (yyaction (sec_rule s) [sec_val s]))
        (sec_clauses s).

Definition yyrun_file (st : config_parser_state) (f : list yysection)
    : yyeffect :=
  foldl yyrun_section (yybreak st) f.

(** The keywords of a section: the first tokens of the rules of its
    clauses, and the keywords that open a section. *)
Definition yykeywords_of (h : Z) : list Z :=
  omap (fun r => head (omap (yyat yytoknum) (yyrhs_of r)))
       (default [] (yyclauses_of h)).

Definition yystart_rules : list Z := [10; 117; 125; 245; 262; 289].

Definition yyheader_tokens : list Z :=
  concat (map (fun h => omap (yyat yytoknum) (yyrhs_of h)) yystart_rules).

(** A token that cannot follow the file [f]: it opens no section and is
    no keyword of the last section of [f]. *)
Definition yyunexpected (f : list yysection) (tok : Z) : bool :=
  negb (existsb (Z.eqb tok) yyheader_tokens)
  && match last f with
     | Some s => negb (existsb (Z.eqb tok) (yykeywords_of (sec_rule s)))
     | None => true
     end.

(** *** The paths of the sentences through the tables *)

(** The variables at [yynewstate] with the stack [ss] below the state
    to push, as long as no error was found. *)
Definition yyconfig (ss : list Z) (v : yyvars) : Prop :=
  yyss v = ss
  /\ length (yyvs v) = S (length ss)
  /\ yystacksize v = YYINITDEPTH
  /\ yyerrstatus v = 0
  /\ yynerrs v = 0.

(** The lookahead is the end of the input. *)
Definition yyateof (v : yyvars) : Prop :=
  (yychar v = YYEMPTY /\ yyin v = []) \/ yychar v = YYEOF.

(** The tokens that are yet to be shifted are [l]; none of them is a
    number that stands for the end of the input. *)
Definition yyupcoming (v : yyvars) (l : list (Z * YYSTYPE)) : Prop :=
  match l with
  | [] => yyateof v
  | (tok, _) :: _ => 0 < tok /\ yypending v = l
  end.

Definition yyfinished (o : yyoutcome) : bool :=
  match o with
  | yyrunning _ _ => false
  | _ => true
  end.

(** From [yynewstate] the parser comes to an end that satisfies [Q]. *)
Definition yyruns (s : Z) (v : yyvars) (Q : yyoutcome -> Prop) : Prop :=
  exists n, yyfinished (yyparse_loop n s v) = true
            /\ Q (yyparse_loop n s v).

(** State [s] shifts the token [tok] and goes to [s']. *)
Definition yyshifts (s tok s' : Z) : Prop :=
  s <> YYFINAL /\ 0 < tok
  /\ exists p t,
       yyat yypact s = Some p /\ p <> YYPACT_NINF
       /\ YYTRANSLATE tok = Some t
       /\ yymove_token s p t = Some (mv_shift s').

(** Rule [r] of length [yylen], reduced over the state [top], leads to
    the state [g]; state [s] reduces by [r] whatever the lookahead. *)
Definition yyrule_goto (r : Z) (yylen : nat) (top g : Z) : Prop :=
  yyat yyr2 r = Some (Z.of_nat yylen)
  /\ exists lhs, yyat yyr1 r = Some lhs /\ yygoto lhs top = Some g.

Definition yyreduces (s r : Z) (yylen : nat) (top g : Z) : Prop :=
  s <> YYFINAL
  /\ yyat yypact s = Some YYPACT_NINF
  /\ yyat yydefact s = Some r /\ r <> 0
  /\ yyrule_goto r yylen top g.

Definition yyno_action (r : Z) : Prop :=
  forall vals st, yyaction r vals st = yybreak st.

Definition yyis_error (m : option yymove) : bool :=
  match m with
  | Some mv_error => true
  | _ => false
  end.

Definition yyno_errshift (ss : list Z) : bool :=
  forallb (fun s' => match yyerrshift s' with
                     | Some None => true
                     | _ => false
                     end) ss.

(** State [k] on the stack [k :: below] takes a string and nothing
    else: every other symbol is an error, and no state of the stack
    shifts the error token. *)
Definition yyneeds_value (k : Z) (below : list Z) : bool :=
  negb (k =? YYFINAL)
  && match yyat yypact k with
     | Some p =>
         negb (p =? YYPACT_NINF)
         && forallb (fun t => bool_decide (Some t = YYTRANSLATE STRING_ARG)
                              || yyis_error (yymove_token k p t))
                    (seqZ 0 YYNTOKENS)
     | None => false
     end
  && yyno_errshift (k :: below).

(** The first token of a rule. *)
Definition yykeyword (r : Z) : Z :=
  default 0 (head (omap (yyat yytoknum) (yyrhs_of r))).

(** The path of a clause by rule [r] in a section whose stack is
    [c; sh; 1; 0]: keyword, string, for a rule with two strings the
    second string, the rule, then the two rules that add the clause to
    the section.  Where a string is due nothing else is taken. *)
Definition yyclause_path (sh c r : Z) : Prop :=
  exists kw k1 k2 g1 u g2 cc,
    yykeyword r = kw
    /\ yyshifts c kw k1
    /\ yyneeds_value k1 [c; sh; 1; 0] = true
    /\ yyshifts k1 STRING_ARG k2
    /\ match omap (yyat yytoknum) (yyrhs_of r) with
       | [_; sa] => sa = STRING_ARG /\ yyreduces k2 r 2 c g1
       | [_; sa; sb] =>
           sa = STRING_ARG /\ sb = STRING_ARG
           /\ yyneeds_value k2 [k1; c; sh; 1; 0] = true
           /\ exists k3,
                yyshifts k2 STRING_ARG k3 /\ yyreduces k3 r 3 c g1
       | _ => False
       end
    /\ yyreduces g1 u 1 c g2 /\ yyno_action u
    /\ yyreduces g2 cc 2 sh c /\ yyno_action cc.

(** The symbols that a state shifts. *)
Definition yyshifted (s t : Z) : bool :=
  match yyat yypact s with
  | Some p =>
      match yymove_token s p t with
      | Some (mv_shift _) => true
      | _ => false
      end
  | None => false
  end.

Definition yyis_reduce (r : Z) (m : option yymove) : bool :=
  match m with
  | Some (mv_reduce r') => r' =? r
  | _ => false
  end.

(** The state [c] of a section closes the section on every symbol that
    it does not shift: it reduces by [tv] and the parser is back in
    state 1 after one more reduction, by rule 3. *)
Definition yysection_end (c tv : Z) : Prop :=
  c <> YYFINAL
  /\ yyshifted c YYEOF = false
  /\ exists p g3,
       yyat yypact c = Some p /\ p <> YYPACT_NINF
       /\ forallb (fun t => yyshifted c t
                            || yyis_reduce tv (yymove_token c p t))
                  (seqZ 0 YYNTOKENS) = true
       /\ yyrule_goto tv 2 1 g3 /\ yyno_action tv
       /\ yyreduces g3 3 2 0 1 /\ yyno_action 3.

(** The path of a section opened by rule [h] with clauses by [rules]:
    the keyword, the rule [h], the empty list of clauses.  The state of
    the section shifts no keyword that opens a section. *)
Definition yysection_path (h : Z) (rules : list Z) (sh c : Z) : Prop :=
  exists htok stok e tv,
    omap (yyat yytoknum) (yyrhs_of h) = [htok]
    /\ yyshifts 1 htok stok
    /\ yyreduces stok h 1 1 sh
    /\ yyreduces sh e 0 sh c /\ yyno_action e
    /\ Forall (yyclause_path sh c) rules
    /\ yysection_end c tv
    /\ forallb (fun tok => negb (yyshifted c (default 0 (YYTRANSLATE tok))))
               yyheader_tokens = true.

(** *** The paths, computed *)

(** The rules without an action of their own: the switch falls to
    [default: break]. *)
Definition yyquiet_rules : list Z :=
  seqZ 0 10 ++ seqZ 11 106 ++ seqZ 118 7 ++ seqZ 126 6 ++ seqZ 246 9
  ++ seqZ 263 14 ++ seqZ 290 3.

Definition yyquiet (r : Z) : bool := existsb (Z.eqb r) yyquiet_rules.

Definition yyshift_to (s tok : Z) : option Z :=
  if (s =? YYFINAL) || (tok <=? 0) then None
  else
    p ← yyat yypact s;
    if p =? YYPACT_NINF then None
    else
      t ← YYTRANSLATE tok;
      match yymove_token s p t with
      | Some (mv_shift s') => Some s'
      | _ => None
      end.

Definition yygoto_of (r : Z) (yylen : nat) (top : Z) : option Z :=
  n ← yyat yyr2 r;
  if negb (n =? Z.of_nat yylen) then None
  else lhs ← yyat yyr1 r; yygoto lhs top.

Definition yyreduce_to (s : Z) (yylen : nat) (top : Z) : option (Z * Z) :=
  if s =? YYFINAL then None
  else
    p ← yyat yypact s;
    if negb (p =? YYPACT_NINF) then None
    else
      r ← yyat yydefact s;
      if r =? 0 then None
      else g ← yygoto_of r yylen top; Some (r, g).

(** The end of a clause, from the state [k] after its last string. *)
Definition yyclause_end_check (sh c r k : Z) (yylen : nat) : bool :=
  match
    '(r', g1) ← yyreduce_to k yylen c;
    '(u, g2) ← yyreduce_to g1 1 c;
    '(cc, c') ← yyreduce_to g2 2 sh;
    Some ((r' =? r) && yyquiet u && yyquiet cc && (c' =? c))
  with
  | Some b => b
  | None => false
  end.

Definition yyclause_check (sh c r : Z) : bool :=
  match yyshift_to c (yykeyword r) with
  | Some k1 =>
      yyneeds_value k1 [c; sh; 1; 0]
      && match yyshift_to k1 STRING_ARG with
         | Some k2 =>
             match omap (yyat yytoknum) (yyrhs_of r) with
             | [_; sa] =>
                 (sa =? STRING_ARG) && yyclause_end_check sh c r k2 2
             | [_; sa; sb] =>
                 (sa =? STRING_ARG) && (sb =? STRING_ARG)
                 && yyneeds_value k2 [k1; c; sh; 1; 0]
                 && match yyshift_to k2 STRING_ARG with
                    | Some k3 => yyclause_end_check sh c r k3 3
                    | None => false
                    end
             | _ => false
             end
         | None => false
         end
  | None => false
  end.

Definition yysection_end_check (c : Z) : bool :=
  negb (c =? YYFINAL)
  && negb (yyshifted c YYEOF)
  && match yyat yypact c with
     | Some p =>
         negb (p =? YYPACT_NINF)
         && match yymove_token c p YYEOF with
            | Some (mv_reduce tv) =>
                forallb (fun t => yyshifted c t
                                  || yyis_reduce tv (yymove_token c p t))
                        (seqZ 0 YYNTOKENS)
                && yyquiet tv
                && match yygoto_of tv 2 1 with
                   | Some g3 =>
                       match yyreduce_to g3 2 0 with
                       | Some (r3, g) => (r3 =? 3) && (g =? 1)
                       | None => false
                       end
                   | None => false
                   end
            | _ => false
            end
     | None => false
     end.

(** The two states of a section: after the rule that opens it, and
    with its list of clauses. *)
Definition yysection_states (h : Z) : option (Z * Z) :=
  match omap (yyat yytoknum) (yyrhs_of h) with
  | [htok] =>
      stok ← yyshift_to 1 htok;
      '(h', sh) ← yyreduce_to stok 1 1;
      '(e, c) ← yyreduce_to sh 0 sh;
      if (h' =? h) && yyquiet e then Some (sh, c) else None
  | _ => None
  end.

(** What may follow the file [f] for the last section of [f] to be
    closed: the end of the input, or a token that the state of that
    section does not shift. *)
Definition yytail_ok (f : list yysection) (tail : list (Z * YYSTYPE))
    : Prop :=
  match tail with
  | [] => True
  | (tok, _) :: _ =>
      0 < tok
      /\ match last f with
         | Some s =>
             forall sh c,
               yysection_states (sec_rule s) = Some (sh, c) ->
               yyshifted c (default 0 (YYTRANSLATE tok)) = false
         | None => True
         end
  end.

(** A state shifts keywords of the section only. *)
Definition yykeywords_check (h c : Z) : bool :=
  forallb (fun t =>
             negb (yyshifted c t)
             || (negb (t =? YYUNDEFTOK)
                 && match yyat yytoknum t with
                    | Some tok => existsb (Z.eqb tok) (yykeywords_of h)
                    | None => false
                    end))
          (seqZ 0 YYNTOKENS).

Definition yysection_check (h : Z) : bool :=
  match yysection_states h, yyclauses_of h with
  | Some (sh, c), Some rules =>
      forallb (yyclause_check sh c) rules
      && yykeywords_check h c
      && yysection_end_check c
      && forallb (fun tok =>
                    negb (yyshifted c (default 0 (YYTRANSLATE tok))))
                 yyheader_tokens
  | _, _ => false
  end.

End Sentences.

End YYGrammar.

(** ** A subnet cache at work *)

Module SubnetScenario.
Import Data Addrtree.

(** Keys of bytes, as IPv4 addresses are. *)
Definition KEYWIDTH : Z := 8.

Definition heap : region := {| script := []; brk := 1%positive |}.

Definition net_168 : list Z := [192; 168; 0; 0].
Definition net_169 : list Z := [192; 169; 0; 0].
Definition host_168_1_7 : list Z := [192; 168; 1; 7].

(** Three answers: for 192.168/16, for 192.169/16 (valid for /24) and
    for 192.168.1/24. *)
Definition answers : list (insert_op string) :=
  [ {| op_addr := net_168; op_sourcemask := 16; op_scope := 16;
       op_elem := Some "a"%string |};
    {| op_addr := net_169; op_sourcemask := 16; op_scope := 24;
       op_elem := Some "b"%string |};
    {| op_addr := host_168_1_7; op_sourcemask := 24; op_scope := 24;
       op_elem := Some "c"%string |} ].

Definition no_tree : addrtree string unit :=
  {| root := None; max_depth := 0; env := tt |}.

(** The empty tree for prefixes of up to 32 bits, and the tree that
    holds the three answers. *)
Definition fresh : addrtree string unit :=
  match addrtree_create 32 (Some tt) heap with
  | Some (Some t, _) => t
  | _ => no_tree
  end.

Definition grown : addrtree string unit :=
  match addrtree_insert_all KEYWIDTH fresh answers heap with
  | Some (t, _, _) => t
  | None => no_tree
  end.

End SubnetScenario.

(** ** What the options may hold *)

Module YYOptions.
Import Data ConfigFile YYParse YYGrammar.

Section Options.
Context `{externs : config_externs}.

Definition int_members : list int_member :=
  [
    num_threads; verbosity; stat_cumulative; stat_extended; port;
    outgoing_num_ports; outgoing_num_tcp; incoming_num_tcp; if_automatic;
    do_ip4; do_ip6; do_udp; do_tcp; tcp_upstream; ssl_upstream; ssl_port;
    do_daemonize; log_time_ascii; log_queries; hide_identity; hide_version;
    so_reuseport; num_queries_per_thread; jostle_time; delay_close;
    unblock_lan_zones; host_ttl; infra_cache_numhosts; harden_short_bufsize;
    harden_large_queries; harden_glue; harden_dnssec_stripped;
    harden_below_nxdomain; harden_referral_path; use_caps_bits_for_id;
    prefetch; prefetch_key; unwanted_threshold; donotquery_localhost;
    max_ttl; min_ttl; bogus_ttl; val_clean_additional; val_permissive_mode;
    ignore_cd; val_log_level; add_holddown; del_holddown; keep_missing;
    minimal_responses; rrset_roundrobin; dns64_synthall;
    remote_control_enable; control_port; dnstap; dnstap_send_identity;
    dnstap_send_version; dnstap_log_resolver_query_messages;
    dnstap_log_resolver_response_messages; dnstap_log_client_query_messages;
    dnstap_log_client_response_messages;
    dnstap_log_forwarder_query_messages;
    dnstap_log_forwarder_response_messages; stat_interval; use_syslog;
    edns_buffer_size; msg_buffer_size; val_date_override; val_sig_skew_min;
    val_sig_skew_max; max_udp_size; msg_cache_slabs; rrset_cache_slabs;
    infra_cache_slabs; key_cache_slabs
  ].

Definition yyflag (x : Z) : bool := (x =? 0) || (x =? 1).

(** What the actions assign to a member: the value of a yes/no option
    is 0 or 1, a port, a size of a table or a number of slabs is not 0,
    the size of the EDNS buffer is within 12 and 65535 and that of the
    message buffer is 4096 at least.  The other members take any
    number. *)
Definition yyint_ok (m : int_member) (x : Z) : bool :=
  match m with
  | port | outgoing_num_ports | ssl_port | num_queries_per_thread
  | infra_cache_numhosts | control_port | msg_cache_slabs
  | rrset_cache_slabs | infra_cache_slabs | key_cache_slabs =>
      negb (x =? 0)
  | edns_buffer_size => (12 <=? x) && (x <=? 65535)
  | msg_buffer_size => 4096 <=? x
  | use_syslog | stat_cumulative | stat_extended | if_automatic | do_ip4 |
    do_ip6 | do_udp | do_tcp | tcp_upstream | ssl_upstream | do_daemonize |
    log_time_ascii | log_queries | hide_identity | hide_version |
    so_reuseport | unblock_lan_zones | harden_short_bufsize |
    harden_large_queries | harden_glue | harden_dnssec_stripped |
    harden_below_nxdomain | harden_referral_path | use_caps_bits_for_id |
    prefetch | prefetch_key | donotquery_localhost | val_clean_additional |
    val_permissive_mode | ignore_cd | minimal_responses | rrset_roundrobin |
    dns64_synthall | remote_control_enable | dnstap | dnstap_send_identity |
    dnstap_send_version | dnstap_log_resolver_query_messages |
    dnstap_log_resolver_response_messages |
    dnstap_log_client_query_messages | dnstap_log_client_response_messages |
    dnstap_log_forwarder_query_messages |
    dnstap_log_forwarder_response_messages => yyflag x
  | _ => true
  end.

Definition yystub_ok (s : config_stub) : bool :=
  yyflag (isfirst s) && yyflag (isprime s).

Definition yybounds (c : config_file) : bool :=
  forallb (fun m => yyint_ok m (ints c m)) int_members
  && forallb yystub_ok (stubs c)
  && forallb yystub_ok (forwards c).

(** [P] holds of the configuration that an action leaves, also when it
    ends in [fatal_exit]. *)
Definition yyholds (P : config_file -> Prop) (h : yyhalt) : Prop :=
  match h with
  | yyfatal st => P (cfg st)
  | yyundefined => True
  end.

Definition yyleaves (P : config_file -> Prop) (e : yyeffect) : Prop :=
  match e with
  | yybreak st => P (cfg st)
  | yyhalts h => yyholds P h
  end.

(** A pass through the labels keeps [P] of the configuration. *)
Definition yykeeps (P : config_file -> Prop) (n : yynext) : Prop :=
  match n with
  | yynewstate _ v | yyreturn _ v => P (cfg (cfg_parser v))
  | yystop h => yyholds P h
  | yyfault => True
  end.

(** The rules whose action can report an error and assign all the
    same: the two kinds of interface, use-syslog, the four numbers of
    slabs, val-override-date, the two val-sig-skew options and the name
    of a stub or forward zone. *)
Definition yyeager_rules : list Z :=
  [138; 139; 156; 182; 188; 193; 211; 212; 213; 226; 236; 241].

(** The rules whose action hands a member of the configuration to
    [cfg_mark_ports], [cfg_strlist_insert] or [cfg_parse_memsize] and
    reports an error when the function returns 0. *)
Definition yyhanded_rules : list Z :=
  [141; 142; 164; 166; 167; 168; 169; 170; 171; 176; 177; 181; 187; 202;
   203; 207; 225; 227; 237; 238; 242; 243; 257].

(** The tokens of [interface:] clauses, of [outgoing-interface:]
    clauses and of [stub-zone:] sections that hold a name each; [hv]
    and [kv] are what the lexer leaves in [yylval] at a keyword. *)
Definition yyinterfaces (kv : YYSTYPE) (strs : list string)
    : list (Z * YYSTYPE) :=
  flat_map (fun s => [(VAR_INTERFACE, kv); (STRING_ARG, Some s)]) strs.

Definition yystub_zones (hv kv : YYSTYPE) (names : list string)
    : list (Z * YYSTYPE) :=
  flat_map (fun n => [(VAR_STUB_ZONE, hv); (VAR_NAME, kv);
                      (STRING_ARG, Some n)]) names.

Definition yystub_of (n : string) : config_stub :=
  {| name := Some n; hosts := []; addrs := []; isfirst := 0;
     isprime := 0 |}.

(** The same as clauses and sections. *)
Definition yyinterface_clause (kv : YYSTYPE) (s : string) : yyclause :=
  {| cl_rule := 138; cl_vals := [kv; Some s] |}.

Definition yyserver_section (hv : YYSTYPE) (cls : list yyclause)
    : yysection :=
  {| sec_rule := 10; sec_val := hv; sec_clauses := cls |}.

Definition yystub_section (hv kv : YYSTYPE) (n : string) : yysection :=
  {| sec_rule := 117; sec_val := hv;
     sec_clauses := [{| cl_rule := 236; cl_vals := [kv; Some n] |}] |}.

(** The next [n] allocations succeed. *)
Definition yyenough (n : nat) (h : region) : bool :=
  forallb (fun b : bool => b) (take n (script h)).

End Options.

End YYOptions.

(** ** A configuration file at work *)

Module ConfigScenario.
Import Data ConfigFile YYParse YYGrammar YYOptions.

(** The build of the examples: one with syslog.h, whose lists grow by
    one element from the heap at their head, whose sizes are plain
    numbers, whose ports are single numbers and whose dates are the
    fourteen digits read as a number; no name is reversed. *)
Definition insert_at_head {A : Type} (l : list A) (x : A) (h : region)
    : Z * list A * region :=
  match region_alloc h with
  | (Some _, h') => (1, x :: l, h')
  | (None, h') => (0, l, h')
  end.

#[export] Instance externs0 : config_externs := {|
  HAVE_SYSLOG_H := true;
  UB_ON_WINDOWS := false;
  cfg_strlist_insert := insert_at_head;
  cfg_str2list_insert := fun l item i2 => insert_at_head l (item, i2);
  cfg_parse_memsize := fun str res =>
    if ConfigParser.atoi str <=? 0 then (0, res)
    else (1, ConfigParser.atoi str);
  cfg_mark_ports := fun str allow avail num =>
    let p := ConfigParser.atoi str in
    if (0 <? p) && (p <? num)
    then (1, <[Z.to_nat p := allow]> avail)
    else (0, avail);
  cfg_ptr_reverse := fun str h => (None, h);
  cfg_convert_timeval := ConfigParser.atoi;
  is_pow2 := fun num => ConfigParser.b2i (Z.land num (num - 1) =? 0)
|}.

(** A configuration to start from, with every option within its
    bounds, and the state of the parser around it: no error yet, and
    memory that is plentiful, or that fails at the second or at the
    first allocation. *)
Definition config0 : config_file :=
  {| ints := fun m =>
       match m with
       | port => 53
       | ssl_port => 443
       | control_port => 8953
       | outgoing_num_ports => 4096
       | num_queries_per_thread => 1024
       | infra_cache_numhosts => 10000
       | edns_buffer_size => 4096
       | msg_buffer_size => 65552
       | msg_cache_slabs | rrset_cache_slabs | infra_cache_slabs
       | key_cache_slabs => 4
       | do_ip4 | do_ip6 | do_udp | do_tcp => 1
       | _ => 0
       end;
     strs := fun _ => None; sizes := fun _ => 0;
     strlists := fun _ => []; str2lists := fun _ => [];
     outgoing_avail_ports := []; stubs := []; forwards := [];
     num_ifs := 0; ifs := None; num_out_ifs := 0; out_ifs := None |}.

Definition state_with (s : list bool) : config_parser_state :=
  {| cfg := config0; errors := 0; log := [];
     heap := {| script := s; brk := 1%positive |} |}.

Definition state0 : config_parser_state := state_with [].
Definition state_low : config_parser_state := state_with [true; false].
Definition state_dry : config_parser_state := state_with [false].

(** The state after a stub zone was read. *)
Definition state_zone : config_parser_state :=
  {| cfg := set_stubs [yystub_of "example.org."%string] config0;
     errors := 0; log := [];
     heap := {| script := [false]; brk := 1%positive |} |}.

(** [server: verbosity: 2  port: 5353  do-ip4: no
     access-control: 192.0.2.0/24 allow  msg-cache-slabs: 4
     root-hints: named.cache
     stub-zone: name: example.org.] *)
Definition server_lines : yysection :=
  {| sec_rule := 10; sec_val := None;
     sec_clauses :=
       [ {| cl_rule := 133; cl_vals := [None; Some "2"%string] |};
         {| cl_rule := 137; cl_vals := [None; Some "5353"%string] |};
         {| cl_rule := 146; cl_vals := [None; Some "no"%string] |};
         {| cl_rule := 209;
            cl_vals := [None; Some "192.0.2.0/24"%string;
                        Some "allow"%string] |};
         {| cl_rule := 182; cl_vals := [None; Some "4"%string] |};
         {| cl_rule := 164;
            cl_vals := [None; Some "named.cache"%string] |} ] |}.

Definition sample_file : list yysection :=
  [ server_lines; yystub_section None None "example.org."%string ].

(** What the lexer returns for [port: 0 do-ip4: maybe interface:]. *)
Definition odd_tokens : list (Z * YYSTYPE) :=
  [ (VAR_SERVER, None); (VAR_PORT, None); (STRING_ARG, Some "0"%string);
    (VAR_DO_IP4, None); (STRING_ARG, Some "maybe"%string);
    (VAR_INTERFACE, None) ].

End ConfigScenario.

(** * Properties *)

(** ** The configuration parser *)

Section ConfigParserFacts.
Import ConfigParser.

Lemma verbose_frame (msg : string) (st : config_parser_state) :
  cfg (verbose msg st) = cfg st /\ errors (verbose msg st) = errors st.
Proof. split; reflexivity. Qed.

(** A sibling option for contrast: [infra-host-ttl] does write its
    field. *)
Example infra_host_ttl_written (st : config_parser_state) :
  host_ttl <$> (cfg <$> yyreduce_action 189 "900" st) = Some 900.
Proof. reflexivity. Qed.

Example infra_host_ttl_rejects (st : config_parser_state) :
  errors <$> yyreduce_action 189 "soon" st = Some (errors st + 1).
Proof. reflexivity. Qed.

(** C8: for every value string, the rule for infra-lame-ttl and the
    rule for infra-cache-lame-size leave the whole configuration and
    the error count of the parser as they were; the only effect is
    one more line in the log. *)
Theorem legacy_infra_options_ignored
    (str : string) (st : config_parser_state) :
  (exists msg,
      yyreduce_action server_infra_lame_ttl str st
      = Some {| cfg := cfg st; errors := errors st;
                log := log st ++ [msg] |})
  /\ (exists msg,
      yyreduce_action server_infra_cache_lame_size str st
      = Some {| cfg := cfg st; errors := errors st;
                log := log st ++ [msg] |}).
Proof. split; eexists; reflexivity. Qed.

(** [val-permissive-mode: yes] sets the switch, [no] clears it, any
    other value is a parse error that leaves the switch alone. *)
Lemma permissive_mode_parsed (str : string) (st : config_parser_state) :
  exists st', yyreduce_action server_val_permissive_mode str st = Some st'
    /\ (str = "yes"%string -> val_permissive_mode (cfg st') = 1
                             /\ errors st' = errors st)
    /\ (str = "no"%string -> val_permissive_mode (cfg st') = 0
                            /\ errors st' = errors st)
    /\ (str <> "yes"%string -> str <> "no"%string ->
        cfg st' = cfg st /\ errors st' = errors st + 1).
Proof.
  eexists; split; [reflexivity|].
  unfold streq.
  repeat split; intros; subst; try reflexivity;
    repeat match goal with
           | H : ?s <> _ |- context [String.eqb ?s ?t] =>
               destruct (String.eqb_spec s t); [congruence|]
           end; reflexivity.
Qed.

End ConfigParserFacts.

(** ** The validator *)

Section ValidatorFacts.
Import Data Validator.
Import Scenario.

(** C7: with permissive_mode set, a bogus validation result reaches
    the client as indeterminate, the client does not get SERVFAIL,
    and what is cached is not secure (it is the bogus result, kept
    for bogus_ttl). *)
Theorem permissive_mode_downgrades_bogus (ve : val_env) (ttl : Z) :
  permissive_mode ve <> 0 ->
  let o := processFinished ve sec_status_bogus ttl in
  client_security o = sec_status_indeterminate
  /\ client_rcode o <> RCODE_SERVFAIL
  /\ cached_security o <> sec_status_secure
  /\ cached_ttl o = bogus_ttl ve.
Proof.
  intros Hp. cbn. destruct (Z.eqb_spec (permissive_mode ve) 0) as [E|_];
    [contradiction|]. cbn. repeat split; discriminate.
Qed.

(** Without the switch the client is answered SERVFAIL. *)
Lemma strict_mode_bogus_servfail (ve : val_env) (ttl : Z) :
  permissive_mode ve = 0 ->
  client_rcode (processFinished ve sec_status_bogus ttl) = RCODE_SERVFAIL.
Proof. intros H. cbn. rewrite H. reflexivity. Qed.

Lemma permissive_mode_downgrades_bogus_witness :
  permissive_mode permissive_env <> 0
  /\ client_security (processFinished permissive_env sec_status_bogus 3600)
     = sec_status_indeterminate
  /\ client_rcode (processFinished permissive_env sec_status_bogus 3600)
     <> RCODE_SERVFAIL
  /\ cached_security (processFinished permissive_env sec_status_bogus 3600)
     <> sec_status_secure
  /\ cached_ttl (processFinished permissive_env sec_status_bogus 3600) = 60.
Proof.
  split; [vm_compute; discriminate|].
  apply (permissive_mode_downgrades_bogus permissive_env 3600).
  vm_compute; discriminate.
Defined.

End ValidatorFacts.

(** ** The iterator *)

Section IteratorFacts.
Import Iterator.

Lemma failed_absorbs (iq : iter_qstate) (ins : list input) :
  failed iq = true -> iter_run iq ins = (iq, []).
Proof.
  intros Hf. induction ins as [|i ins IH]; [reflexivity|].
  cbn [iter_run]. unfold iter_handle. rewrite Hf. rewrite IH. reflexivity.
Qed.

Lemma processQueryTargets_counts (iq : iter_qstate) :
  query_restart_count (fst (processQueryTargets iq)) = query_restart_count iq
  /\ referral_count (fst (processQueryTargets iq)) = referral_count iq.
Proof.
  unfold processQueryTargets.
  repeat (case_match; cbn); auto.
Qed.

Lemma iter_handle_counts (iq : iter_qstate) (i : input) :
  counts_ok iq -> counts_ok (fst (iter_handle iq i)).
Proof.
  unfold counts_ok, iter_handle, MAX_RESTART_COUNT, MAX_REFERRAL_COUNT.
  intros H.
  destruct (failed iq); [exact H|].
  destruct (state iq), i; cbn; try exact H;
    try (destruct (processQueryTargets_counts iq) as [-> ->]; exact H).
  - destruct fwd; cbn; exact H.
  - destruct r; cbn; unfold MAX_RESTART_COUNT, MAX_REFERRAL_COUNT;
      repeat (case_match; cbn); try exact H; lia.
Qed.

Lemma iter_run_counts (ins : list input) (iq : iter_qstate) :
  counts_ok iq -> counts_ok (fst (iter_run iq ins)).
Proof.
  revert iq. induction ins as [|i ins IH]; intros iq H; [exact H|].
  cbn [iter_run].
  pose proof (iter_handle_counts iq i H) as H1.
  destruct (iter_handle iq i) as [iq1 a1]. cbn [fst] in H1.
  specialize (IH iq1 H1).
  destruct (iter_run iq1 ins) as [iq2 a2]. exact IH.
Qed.

Lemma initial_counts_ok : counts_ok initial_qstate.
Proof. unfold counts_ok; cbn; unfold MAX_RESTART_COUNT, MAX_REFERRAL_COUNT; lia. Qed.

(** C2: in every state a query reaches, the restart count is at most 8
    and the referral count at most 30; a CNAME or a referral that would
    take its counter past the limit ends the query with SERVFAIL at
    once: the counters stay, and no later event makes the module act. *)
Theorem restart_and_referral_limits (ins : list input) :
  let iq := fst (iter_run initial_qstate ins) in
  query_restart_count iq <= MAX_RESTART_COUNT
  /\ referral_count iq <= MAX_REFERRAL_COUNT
  /\ MAX_RESTART_COUNT = 8 /\ MAX_REFERRAL_COUNT = 30
  /\ (forall (r : response) (more : list input),
        state iq = QUERY_RESP_STATE -> failed iq = false ->
        would_exceed iq r = true ->
        exists iq',
          iter_handle iq (in_reply r) = (iq', [act_servfail])
          /\ failed iq' = true
          /\ query_restart_count iq' = query_restart_count iq
          /\ referral_count iq' = referral_count iq
          /\ iter_run iq' more = (iq', [])).
Proof.
  intros iq.
  destruct (iter_run_counts ins initial_qstate initial_counts_ok)
    as [[_ Hr] [_ Hf]].
  fold iq in Hr, Hf.
  repeat split; try assumption.
  intros r more Hs Hnf Hex.
  unfold iter_handle. rewrite Hnf, Hs.
  unfold processQueryResponse.
  destruct r; cbn in Hex; try discriminate; cbn; rewrite Hex;
    (eexists; split; [reflexivity|]; cbn; repeat split;
     apply failed_absorbs; reflexivity).
Qed.

Lemma restart_and_referral_limits_witness :
  let iq := fst (iter_run initial_qstate
                   [in_cache_dp [[x01]]; in_no_stub; in_forward None;
                    in_run; in_reply resp_cname]) in
  query_restart_count iq = 1 /\ query_restart_count iq <= MAX_RESTART_COUNT.
Proof.
  split; [reflexivity|].
  apply (restart_and_referral_limits
           [in_cache_dp [[x01]]; in_no_stub; in_forward None;
            in_run; in_reply resp_cname]).
Defined.

Lemma retries_spent_cons (t : target) (l : list target) :
  retries_spent (t :: l) = (OUTBOUND_MSG_RETRY - t_retries t) + retries_spent l.
Proof. reflexivity. Qed.

Lemma retries_spent_app (l1 l2 : list target) :
  retries_spent (l1 ++ l2) = retries_spent l1 + retries_spent l2.
Proof.
  unfold retries_spent.
  induction l1 as [|t l1 IH]; cbn [app foldr]; [lia|rewrite IH; lia].
Qed.

Lemma retries_spent_new_dp (addrs : list (list byte)) :
  retries_spent (new_dp addrs) = 0.
Proof.
  unfold retries_spent, new_dp.
  induction addrs as [|a l IH]; cbn [fmap list_fmap foldr]; [reflexivity|].
  rewrite IH. cbn. unfold OUTBOUND_MSG_RETRY. lia.
Qed.

Lemma retries_ok_new_dp (addrs : list (list byte)) :
  Forall (fun t => 0 <= t_retries t <= OUTBOUND_MSG_RETRY) (new_dp addrs).
Proof.
  induction addrs as [|a l IH]; constructor; [|exact IH].
  cbn. unfold OUTBOUND_MSG_RETRY. lia.
Qed.

Lemma retries_spent_bounds (l : list target) :
  Forall (fun t => 0 <= t_retries t <= OUTBOUND_MSG_RETRY) l ->
  0 <= retries_spent l <= OUTBOUND_MSG_RETRY * Z.of_nat (length l).
Proof.
  induction 1 as [|t l Ht _ IH].
  - cbn. lia.
  - rewrite retries_spent_cons. cbn [length]. lia.
Qed.

Lemma select_target_usable (l : list target) (i : nat) :
  select_target l = Some i -> exists t, l !! i = Some t /\ usable t = true.
Proof.
  revert i. induction l as [|t l IH]; intros i; cbn; [discriminate|].
  destruct (usable t) eqn:Hu.
  - intros [= <-]. exists t. split; [reflexivity|assumption].
  - destruct (select_target l) as [j|]; cbn; [|discriminate].
    intros [= <-]. destruct (IH j eq_refl) as [t' [? ?]]. exists t'. auto.
Qed.

Lemma retries_spent_spend (l : list target) (i : nat) (t : target) :
  l !! i = Some t ->
  retries_spent (<[i := spend_retry t]> l) = retries_spent l + 1.
Proof.
  revert i. induction l as [|u l IH]; intros i; [discriminate|].
  destruct i as [|i]; cbn [lookup list_lookup].
  - intros [= ->].
    change (<[0%nat := spend_retry t]> (t :: l)) with (spend_retry t :: l).
    rewrite !retries_spent_cons. cbn. lia.
  - intros H.
    change (<[S i := spend_retry t]> (u :: l))
      with (u :: <[i := spend_retry t]> l).
    rewrite !retries_spent_cons, (IH i H). lia.
Qed.

Lemma retries_ok_spend (l : list target) (i : nat) (t : target) :
  l !! i = Some t -> usable t = true ->
  Forall (fun t => 0 <= t_retries t <= OUTBOUND_MSG_RETRY) l ->
  Forall (fun t => 0 <= t_retries t <= OUTBOUND_MSG_RETRY)
         (<[i := spend_retry t]> l).
Proof.
  intros Hi Hu Hall. apply Forall_insert; [exact Hall|].
  rewrite Forall_lookup in Hall. specialize (Hall i t Hi). cbn in Hall.
  unfold usable in Hu. apply andb_true_iff in Hu as [_ Hu].
  apply Z.ltb_lt in Hu. cbn. lia.
Qed.

Lemma retries_mark_bad (from : list byte) (l : list target) :
  retries_spent
    ((fun t => if decide (t_addr t = from) then mark_bad t else t) <$> l)
  = retries_spent l
  /\ (Forall (fun t => 0 <= t_retries t <= OUTBOUND_MSG_RETRY) l ->
      Forall (fun t => 0 <= t_retries t <= OUTBOUND_MSG_RETRY)
        ((fun t => if decide (t_addr t = from) then mark_bad t else t) <$> l)).
Proof.
  induction l as [|t l [IH1 IH2]]; [split; [reflexivity|auto]|].
  rewrite fmap_cons. split.
  - rewrite !retries_spent_cons, IH1. destruct (decide _); reflexivity.
  - intros H. inversion H; subst. constructor; [|auto].
    destruct (decide _); cbn; assumption.
Qed.

Lemma outbound_count_app (a b : list action) :
  outbound_count (a ++ b) = outbound_count a + outbound_count b.
Proof.
  unfold outbound_count. rewrite List.filter_app, length_app. lia.
Qed.

Ltac iq_simpl :=
  unfold budget_inv, counts_ok;
  cbn [fst snd state dp query_restart_count referral_count failed
       num_target_queries num_current_queries with_state with_queries
       with_dp with_counts with_stub error_servfail querying].

Lemma processQueryTargets_budget (D : nat) (iq : iter_qstate) (E : Z) :
  state iq = QUERYTARGETS_STATE ->
  budget_inv D iq E ->
  budget_inv D (fst (processQueryTargets iq))
             (E + outbound_count (snd (processQueryTargets iq))).
Proof.
  intros Hs (Hc & Hall & HE). rewrite Hs in HE. cbn in HE.
  unfold processQueryTargets.
  destruct (select_target (dp iq)) as [i|] eqn:Hsel.
  - destruct (select_target_usable _ _ Hsel) as [t [Hi Hu]].
    rewrite Hi.
    destruct (num_current_queries iq =? 0); iq_simpl.
    + split; [exact Hc|]. split; [eapply retries_ok_spend; eauto|].
      rewrite (retries_spent_spend _ _ _ Hi).
      change (outbound_count [act_outbound (t_addr t)]) with 1. lia.
    + split; [exact Hc|]. split; [exact Hall|]. rewrite Hs. iq_simpl.
      change (outbound_count []) with 0. lia.
  - destruct (0 <? num_target_queries iq); iq_simpl.
    + split; [exact Hc|]. split; [exact Hall|]. rewrite Hs. iq_simpl.
      change (outbound_count []) with 0. lia.
    + split; [exact Hc|]. split; [exact Hall|].
      change (outbound_count [act_servfail]) with 0. lia.
Qed.

Lemma iter_handle_budget (D : nat) (iq : iter_qstate) (i : input) (E : Z) :
  (length (dp iq) <= D)%nat ->
  budget_inv D iq E ->
  budget_inv D (fst (iter_handle iq i))
             (E + outbound_count (snd (iter_handle iq i))).
Proof.
  intros HD Hinv.
  pose proof Hinv as (Hc & Hall & HE).
  pose proof (retries_spent_bounds _ Hall) as Hsp.
  assert (Hsp' : retries_spent (dp iq) <= OUTBOUND_MSG_RETRY * Z.of_nat D)
    by (unfold OUTBOUND_MSG_RETRY in *; lia).
  assert (Hstay : budget_inv D iq (E + outbound_count []))
    by (change (outbound_count []) with 0; rewrite Z.add_0_r; exact Hinv).
  destruct Hc as [[Hr0 Hr1] [Hf0 Hf1]].
  unfold iter_handle.
  destruct (failed iq); [exact Hstay|].
  destruct (state iq) eqn:Hs, i; try exact Hstay; cbn [fst snd];
    try (apply processQueryTargets_budget; assumption);
    cbn in HE;
    try match goal with
        | |- context [processQueryResponse _ ?r] =>
            unfold processQueryResponse; destruct r;
            try match goal with
                | |- context [MAX_RESTART_COUNT <? ?x] =>
                    destruct (Z.ltb_spec MAX_RESTART_COUNT x)
                | |- context [MAX_REFERRAL_COUNT <? ?x] =>
                    destruct (Z.ltb_spec MAX_REFERRAL_COUNT x)
                end
        | |- context [in_forward] => idtac
        | |- context [match ?f with Some _ => _ | None => _ end] =>
            destruct f
        end;
    iq_simpl;
    try match goal with
        | |- context [decide (t_addr _ = ?from)] =>
            destruct (retries_mark_bad from (dp iq)) as [-> ?]
        end;
    rewrite ?retries_spent_app, ?retries_spent_new_dp;
    change (outbound_count []) with 0;
    change (outbound_count [act_finished]) with 0;
    change (outbound_count [act_subquery]) with 0;
    change (outbound_count [act_servfail]) with 0;
    (split; [|split]);
    try (first [ exact Hall | apply retries_ok_new_dp | apply Forall_nil_2
               | (apply Forall_app; split;
                  [exact Hall|apply retries_ok_new_dp])
               | auto ]; fail);
    try rewrite Hs; iq_simpl;
    cbn [query_restart_count referral_count with_queries] in *;
    unfold OUTBOUND_MSG_RETRY, MAX_RESTART_COUNT, MAX_REFERRAL_COUNT in *;
    try (destruct (wait_priming_stub iq); cbn);
    try lia; try nia.
Qed.

Lemma iter_run_budget (D : nat) (ins : list input) (iq : iter_qstate) (E : Z) :
  dp_within D iq ins = true ->
  budget_inv D iq E ->
  budget_inv D (fst (iter_run iq ins))
             (E + outbound_count (snd (iter_run iq ins)))
  /\ (length (dp (fst (iter_run iq ins))) <= D)%nat.
Proof.
  revert iq E. induction ins as [|i ins IH]; intros iq E Hw Hinv.
  - cbn in *. apply andb_true_iff in Hw as [Hw _]. apply Nat.leb_le in Hw.
    change (outbound_count []) with 0. rewrite Z.add_0_r. auto.
  - cbn [dp_within] in Hw. apply andb_true_iff in Hw as [Hw1 Hw2].
    apply Nat.leb_le in Hw1.
    pose proof (iter_handle_budget D iq i E Hw1 Hinv) as H1.
    cbn [iter_run].
    destruct (iter_handle iq i) as [iq1 a1]. cbn [fst snd] in *.
    destruct (IH iq1 _ Hw2 H1) as [H2 H3].
    destruct (iter_run iq1 ins) as [iq2 a2]. cbn [fst snd] in *.
    rewrite outbound_count_app, Z.add_assoc. auto.
Qed.

(** C6: over the whole life of a query whose delegation points never
    hold more than [D] targets, the outbound queries number at most
    8 x 30 x D x 4 (restart limit, referral limit, targets, retries). *)
Theorem outbound_queries_bounded (D : nat) (ins : list input) :
  dp_within D initial_qstate ins = true ->
  outbound_count (snd (iter_run initial_qstate ins))
  <= MAX_RESTART_COUNT * MAX_REFERRAL_COUNT * Z.of_nat D * OUTBOUND_MSG_RETRY
  /\ MAX_RESTART_COUNT * MAX_REFERRAL_COUNT * Z.of_nat D * OUTBOUND_MSG_RETRY
     = 8 * 30 * Z.of_nat D * 4.
Proof.
  intros Hw. split; [|reflexivity].
  assert (H0 : budget_inv D initial_qstate 0).
  { split; [apply initial_counts_ok|]. split; [constructor|]. cbn. lia. }
  destruct (iter_run_budget D ins initial_qstate 0 Hw H0)
    as [(Hc & Hall & HE) HD].
  pose proof (retries_spent_bounds _ Hall) as Hsp.
  destruct Hc as [[_ Hr] [_ Hf]].
  rewrite Z.add_0_l in HE.
  assert (Hq : (if querying (state (fst (iter_run initial_qstate ins)))
                then retries_spent (dp (fst (iter_run initial_qstate ins)))
                else 0) <= OUTBOUND_MSG_RETRY * Z.of_nat D).
  { destruct (querying _); unfold OUTBOUND_MSG_RETRY in *; lia. }
  unfold MAX_RESTART_COUNT, MAX_REFERRAL_COUNT, OUTBOUND_MSG_RETRY in *.
  nia.
Qed.

Lemma outbound_queries_bounded_witness :
  dp_within 2 initial_qstate
    [in_cache_dp [[x01]; [x02]]; in_no_stub; in_forward None; in_run;
     in_timeout; in_run; in_reply (resp_referral [[x03]]); in_run;
     in_reply resp_answer] = true
  /\ outbound_count
       (snd (iter_run initial_qstate
               [in_cache_dp [[x01]; [x02]]; in_no_stub; in_forward None;
                in_run; in_timeout; in_run;
                in_reply (resp_referral [[x03]]); in_run;
                in_reply resp_answer])) = 3
  /\ outbound_count
       (snd (iter_run initial_qstate
               [in_cache_dp [[x01]; [x02]]; in_no_stub; in_forward None;
                in_run; in_timeout; in_run;
                in_reply (resp_referral [[x03]]); in_run;
                in_reply resp_answer]))
     <= MAX_RESTART_COUNT * MAX_REFERRAL_COUNT * Z.of_nat 2
        * OUTBOUND_MSG_RETRY.
Proof.
  split; [reflexivity|]. split; [reflexivity|].
  apply (outbound_queries_bounded 2
           [in_cache_dp [[x01]; [x02]]; in_no_stub; in_forward None; in_run;
            in_timeout; in_run; in_reply (resp_referral [[x03]]); in_run;
            in_reply resp_answer]).
  reflexivity.
Defined.

End IteratorFacts.

(** ** The slab cache *)

Section SlabhashFacts.
Import Slabhash.
Context {K D : Type}.
Variable sizefunc : K -> D -> nat.
Variable compfunc : K -> K -> Z.

Abbreviation entry := (lruhash_entry K D) (only parsing).

Lemma find_index_Some (h : hashvalue_t) (k : K) (l : list entry) (i : nat) :
  find_index compfunc h k l = Some i ->
  exists e, l !! i = Some e /\ entry_matches compfunc h k e = true
            /\ forall j e', (j < i)%nat -> l !! j = Some e' ->
                            entry_matches compfunc h k e' = false.
Proof.
  revert i. induction l as [|e l IH]; intros i; cbn; [discriminate|].
  destruct (entry_matches compfunc h k e) eqn:Hm.
  - intros [= <-]. exists e. repeat split; auto. intros j e' Hj. lia.
  - destruct (find_index compfunc h k l) as [j|]; cbn; [|discriminate].
    intros [= <-]. destruct (IH j eq_refl) as (e0 & H1 & H2 & H3).
    exists e0. repeat split; auto.
    intros [|j'] e' Hj; cbn.
    + intros [= <-]. exact Hm.
    + intros He'. apply (H3 j' e'); [lia|exact He'].
Qed.

Lemma find_index_None (h : hashvalue_t) (k : K) (l : list entry) :
  find_index compfunc h k l = None ->
  forall e, e ∈ l -> entry_matches compfunc h k e = false.
Proof.
  induction l as [|e l IH]; cbn; intros H e0 He0.
  - inversion He0.
  - destruct (entry_matches compfunc h k e) eqn:Hm; [discriminate|].
    destruct (find_index compfunc h k l); [discriminate|].
    apply elem_of_cons in He0 as [->|He0]; auto.
Qed.

Lemma space_used_app (l1 l2 : list entry) :
  space_used sizefunc (l1 ++ l2)
  = (space_used sizefunc l1 + space_used sizefunc l2)%nat.
Proof.
  unfold space_used.
  induction l1 as [|e l1 IH]; cbn [app foldr]; [reflexivity|].
  rewrite IH. lia.
Qed.

(** Eviction takes a suffix of the LRU list, tail first, and stops as
    soon as the budget is respected. *)
Lemma reclaim_space_spec (n smax : nat) (l : list entry) :
  (length l <= n)%nat ->
  exists m,
    reclaim_space sizefunc n smax l = (take m l, reverse (drop m l))
    /\ (m <= length l)%nat
    /\ (space_used sizefunc (take m l) <= smax)%nat
    /\ ((m < length l)%nat ->
        (smax < space_used sizefunc (take (S m) l))%nat).
Proof.
  revert l. induction n as [|n IH]; intros l Hlen.
  - destruct l; [|cbn in Hlen; lia]. exists 0%nat. cbn. repeat split; lia.
  - cbn [reclaim_space].
    destruct (Nat.leb_spec (space_used sizefunc l) smax) as [Hfit|Hover].
    + exists (length l). rewrite take_ge, drop_ge by lia. cbn.
      repeat split; [lia|exact Hfit|lia].
    + destruct (last l) as [e|] eqn:Hlast.
      * apply last_Some in Hlast as [l' ->].
        rewrite List.removelast_last.
        rewrite length_app in Hlen. cbn in Hlen.
        destruct (IH l' ltac:(lia)) as (m & Hr & Hm & Hfit & Hmax).
        rewrite Hr. exists m.
        rewrite take_app_le, drop_app_le by lia.
        rewrite reverse_app. cbn.
        repeat split; [rewrite length_app; cbn; lia|exact Hfit|].
        intros _.
        destruct (Nat.eq_dec m (length l')) as [->|Hne].
        -- rewrite take_app_ge by lia.
           replace (S (length l') - length l')%nat with 1%nat by lia.
           exact Hover.
        -- rewrite take_app_le by lia. apply Hmax. lia.
      * apply last_None in Hlast. subst l. cbn in Hover. lia.
Qed.

Lemma slab_idx_in_range (e : nat) (maxmem : nat) (sl : slabhash K D)
    (h : hashvalue_t) :
  (e <= 32)%nat ->
  slabhash_shape (2 ^ Z.of_nat e) maxmem sl ->
  (slab_idx sl h < length (array sl))%nat.
Proof.
  intros He (_ & Hmask & Hshift & Hlen & _).
  unfold slab_idx. rewrite Hmask, Hshift, Hlen. cbn [mask shift slabhash_create].

  assert (Hpow : 0 < 2 ^ Z.of_nat e) by (apply Z.pow_pos_nonneg; [reflexivity|apply Nat2Z.is_nonneg]).
  destruct (Z.eqb_spec (2 ^ Z.of_nat e) 1) as [E1|N1].
  - rewrite E1. change (1 =? 1) with true. cbv iota.
    change (1 - 1) with 0.
    rewrite Z.shiftl_0_l, Z.land_0_r, Z.shiftr_0_l.
    change (Z.to_nat 0) with 0%nat. change (Z.to_nat 1) with 1%nat. lia.
  - rewrite Z.log2_pow2 by lia.
    rewrite Z.shiftr_land.
    rewrite Z.shiftr_shiftl_l by lia.
    rewrite Z.sub_diag, Z.shiftl_0_r.
    replace (2 ^ Z.of_nat e - 1) with (Z.ones (Z.of_nat e))
      by (rewrite Z.ones_equiv; lia).
    rewrite Z.land_ones by lia.
    pose proof (Z.mod_pos_bound (Z.shiftr h (32 - Z.of_nat e))
                  (2 ^ Z.of_nat e) Hpow).
    lia.
Qed.

Lemma slabhash_create_shape (numtables : Z) (maxmem : nat) :
  slabhash_shape numtables maxmem (@slabhash_create K D numtables maxmem).
Proof.
  repeat split; cbn [array slabhash_create].
  - apply length_replicate.
  - apply Forall_replicate. reflexivity.
Qed.

Lemma slabhash_shape_insert_slab (numtables : Z) (maxmem : nat)
    (sl : slabhash K D) (i : nat) (t t' : lruhash K D) :
  slabhash_shape numtables maxmem sl ->
  array sl !! i = Some t -> space_max t' = space_max t ->
  slabhash_shape numtables maxmem (with_array sl (<[i := t']> (array sl))).
Proof.
  intros (H1 & H2 & H3 & H4 & H5) Hi Hsm.
  repeat split; cbn [size mask shift array with_array]; auto.
  - rewrite length_insert. exact H4.
  - apply Forall_insert; [exact H5|].
    rewrite Forall_lookup in H5. rewrite Hsm. exact (H5 i t Hi).
Qed.

Lemma lruhash_insert_space_max (t : lruhash K D) (h : hashvalue_t)
    (k : K) (d : D) :
  space_max (fst (lruhash_insert sizefunc compfunc t h k d)) = space_max t.
Proof.
  unfold lruhash_insert.
  destruct (find_index compfunc h k (lru t)) as [i|].
  - destruct (lru t !! i); reflexivity.
  - destruct (reclaim_space _ _ _ _). reflexivity.
Qed.

Lemma lruhash_lookup_space_max (t : lruhash K D) (h : hashvalue_t) (k : K) :
  space_max (snd (lruhash_lookup compfunc t h k)) = space_max t.
Proof.
  unfold lruhash_lookup.
  destruct (find_index compfunc h k (lru t)); reflexivity.
Qed.

Lemma lruhash_remove_space_max (t : lruhash K D) (h : hashvalue_t) (k : K) :
  space_max (lruhash_remove compfunc t h k) = space_max t.
Proof.
  unfold lruhash_remove.
  destruct (find_index compfunc h k (lru t)); reflexivity.
Qed.

Lemma slabhash_apply_shape (numtables : Z) (maxmem : nat)
    (sl : slabhash K D) (o : table_op K D) :
  slabhash_shape numtables maxmem sl ->
  slabhash_shape numtables maxmem (slabhash_apply sizefunc compfunc sl o).
Proof.
  intros Hs. destruct o as [h k d|h k|h k]; cbn [slabhash_apply].
  - unfold slabhash_insert.
    destruct (array sl !! slab_idx sl h) as [t|] eqn:Hi; [|exact Hs].
    pose proof (lruhash_insert_space_max t h k d) as Hsm.
    destruct (lruhash_insert sizefunc compfunc t h k d) as [t' evs].
    cbn [fst] in *. eapply slabhash_shape_insert_slab; eauto.
  - unfold slabhash_lookup.
    destruct (array sl !! slab_idx sl h) as [t|] eqn:Hi; [|exact Hs].
    pose proof (lruhash_lookup_space_max t h k) as Hsm.
    destruct (lruhash_lookup compfunc t h k) as [r t'].
    cbn [snd] in *. eapply slabhash_shape_insert_slab; eauto.
  - unfold slabhash_remove.
    destruct (array sl !! slab_idx sl h) as [t|] eqn:Hi; [|exact Hs].
    eapply slabhash_shape_insert_slab; eauto.
    apply lruhash_remove_space_max.
Qed.

Lemma slabhash_run_shape (numtables : Z) (maxmem : nat)
    (ops : list (table_op K D)) (sl : slabhash K D) :
  slabhash_shape numtables maxmem sl ->
  slabhash_shape numtables maxmem
    (foldl (slabhash_apply sizefunc compfunc) sl ops).
Proof.
  revert sl. induction ops as [|o ops IH]; intros sl Hs; [exact Hs|].
  cbn [foldl]. apply IH. apply slabhash_apply_shape. exact Hs.
Qed.

(** C4: on every table built from [slabhash_create] with a power of
    two of slabs, an insert works on the slab selected by the hash and
    leaves the others alone.  If an entry with an equal key is present,
    its data is swapped for the new data and the old data is freed
    between the write lock and the unlock of that entry.  Otherwise the
    new entry goes to the front and entries are evicted from the tail
    of that slab's LRU, stopping as soon as the slab is within its own
    budget of maxmem / numtables. *)
Theorem slabhash_insert_swaps_or_evicts (e maxmem : nat)
    (ops : list (table_op K D)) (h : hashvalue_t) (k : K) (d : D) :
  (e <= 32)%nat ->
  let numtables := 2 ^ Z.of_nat e in
  let sl := foldl (slabhash_apply sizefunc compfunc)
                  (slabhash_create numtables maxmem) ops in
  let budget := (maxmem / Z.to_nat numtables)%nat in
  let new := {| hash := h; key := k; data := d |} in
  exists t t' evs,
    array sl !! slab_idx sl h = Some t
    /\ slabhash_insert sizefunc compfunc sl h k d
       = (with_array sl (<[slab_idx sl h := t']> (array sl)), evs)
    /\ space_max t = budget /\ space_max t' = budget
    /\ match lruhash_peek compfunc t h k with
       | Some found =>
           let swapped := {| hash := hash found; key := key found;
                             data := d |} in
           exists j,
             lru t !! j = Some found
             /\ entry_matches compfunc h k found = true
             /\ lru t' = <[j := swapped]> (lru t)
             /\ evs = [ev_delkey k; ev_wrlock found;
                       ev_deldata (data found); ev_unlock swapped]
       | None =>
           exists n,
             lru t' = take n (new :: lru t)
             /\ evs = ev_evict <$> reverse (drop n (new :: lru t))
             /\ (space_used sizefunc (lru t') <= budget)%nat
             /\ ((n < length (new :: lru t))%nat ->
                 (budget < space_used sizefunc
                             (take (S n) (new :: lru t)))%nat)
       end.
Proof.
  intros He. cbv zeta.
  set (numtables := 2 ^ Z.of_nat e).
  set (sl := foldl _ _ ops).
  set (budget := (maxmem / Z.to_nat numtables)%nat).
  assert (Hshape : slabhash_shape numtables maxmem sl)
    by (apply slabhash_run_shape, slabhash_create_shape).
  pose proof (slab_idx_in_range e maxmem sl h He Hshape) as Hidx.
  destruct (lookup_lt_is_Some_2 _ _ Hidx) as [t Ht].
  assert (Hsm : space_max t = budget).
  { destruct Hshape as (_ & _ & _ & _ & Hall).
    rewrite Forall_lookup in Hall. exact (Hall _ _ Ht). }
  unfold slabhash_insert. rewrite Ht.
  unfold lruhash_insert, lruhash_peek.
  destruct (find_index compfunc h k (lru t)) as [j|] eqn:Hfind.
  - destruct (find_index_Some _ _ _ _ Hfind) as (found & Hj & Hm & _).
    cbn [mbind option_bind]. rewrite Hj.
    eexists t, _, _. split; [reflexivity|]. split; [reflexivity|].
    split; [exact Hsm|]. split; [exact Hsm|].
    rewrite Hfind. cbn [mbind option_bind]. rewrite Hj.
    cbv beta iota zeta. exists j. repeat split; assumption.
  - cbn [mbind option_bind].
    destruct (reclaim_space_spec
                (length ({| hash := h; key := k; data := d |} :: lru t))
                (space_max t)
                ({| hash := h; key := k; data := d |} :: lru t) (le_n _))
      as (n & Hr & Hn & Hfit & Hmax).
    rewrite Hr.
    eexists t, _, _. split; [reflexivity|]. split; [reflexivity|].
    split; [exact Hsm|]. split; [exact Hsm|].
    rewrite Hfind. cbn [mbind option_bind].
    cbv beta iota zeta. exists n. cbn [lru]. rewrite <- Hsm.
    repeat split; assumption.
Qed.

End SlabhashFacts.

(** *** Lookups and the LRU touch *)

Section SlabhashLookupFacts.
Import Slabhash.
Context {K D K' : Type}.
Variable compfunc : K -> K -> Z.
(** The comparison is the equality of what [key_of] takes from a key. *)
Variable key_of : K -> K'.
Hypothesis compfunc_eq : forall a b, compfunc a b = 0 <-> key_of a = key_of b.

Abbreviation lentry := (lruhash_entry K D) (only parsing).

Lemma lruhash_peek_find (t : lruhash K D) (h : hashvalue_t) (k : K) :
  lruhash_peek compfunc t h k
  = List.find (entry_matches compfunc h k) (lru t).
Proof.
  unfold lruhash_peek. induction (lru t) as [|e l IH]; cbn; [reflexivity|].
  destruct (entry_matches compfunc h k e); [reflexivity|].
  rewrite <- IH. destruct (find_index compfunc h k l); reflexivity.
Qed.

Lemma lruhash_lookup_fst (t : lruhash K D) (h : hashvalue_t) (k : K) :
  fst (lruhash_lookup compfunc t h k) = lruhash_peek compfunc t h k.
Proof.
  unfold lruhash_lookup, lruhash_peek.
  destruct (find_index compfunc h k (lru t)); reflexivity.
Qed.

Lemma slabhash_lookup_fst (sl : slabhash K D) (h : hashvalue_t) (k : K) :
  fst (slabhash_lookup compfunc sl h k) = slabhash_peek compfunc sl h k.
Proof.
  unfold slabhash_lookup, slabhash_peek.
  destruct (array sl !! slab_idx sl h) as [t|]; [|reflexivity].
  cbn [mbind option_bind]. rewrite <- lruhash_lookup_fst.
  destruct (lruhash_lookup compfunc t h k). reflexivity.
Qed.

Lemma entry_matches_key (h : hashvalue_t) (k : K) (e : lentry) :
  entry_matches compfunc h k e = true ->
  hash e = h /\ key_of (key e) = key_of k.
Proof.
  unfold entry_matches. intros H. apply andb_true_iff in H as [H1 H2].
  apply Z.eqb_eq in H1, H2. split; [exact H1|]. apply compfunc_eq. exact H2.
Qed.

Lemma entry_matches_same (h h' : hashvalue_t) (k k' : K) (e : lentry) :
  entry_matches compfunc h k e = true ->
  entry_matches compfunc h' k' e = true ->
  forall x : lentry,
    entry_matches compfunc h' k' x = entry_matches compfunc h k x.
Proof.
  intros H1 H2 x.
  destruct (entry_matches_key _ _ _ H1) as [Hh Hk].
  destruct (entry_matches_key _ _ _ H2) as [Hh' Hk'].
  unfold entry_matches. rewrite <- Hh, <- Hh'. f_equal.
  apply eq_true_iff_eq. rewrite !Z.eqb_eq, !compfunc_eq. split; congruence.
Qed.

Lemma find_delete_other (P : lentry -> bool) (l : list lentry) (i : nat)
    (e : lentry) :
  l !! i = Some e -> P e = false ->
  List.find P (delete i l) = List.find P l.
Proof.
  revert i. induction l as [|x l IH]; intros i; [discriminate|].
  destruct i as [|i]; cbn.
  - intros [= ->] ->. reflexivity.
  - intros Hi He. change (list_delete i l) with (delete i l).
    destruct (P x); [reflexivity|]. apply (IH i Hi He).
Qed.

Lemma find_ext (P Q : lentry -> bool) (l : list lentry) :
  (forall x, P x = Q x) -> List.find P l = List.find Q l.
Proof.
  intros H. induction l as [|x l IH]; cbn; [reflexivity|].
  rewrite H, IH. reflexivity.
Qed.

(** A lookup does not change what any later lookup finds. *)
Lemma lruhash_peek_lookup (t : lruhash K D) (h h' : hashvalue_t) (k k' : K) :
  lruhash_peek compfunc (snd (lruhash_lookup compfunc t h k)) h' k'
  = lruhash_peek compfunc t h' k'.
Proof.
  rewrite !lruhash_peek_find. unfold lruhash_lookup.
  destruct (find_index compfunc h k (lru t)) as [i|] eqn:Hfind;
    [|reflexivity].
  cbn [snd lru]. unfold lru_touch.
  destruct (find_index_Some compfunc _ _ _ _ Hfind) as (e & Hi & Hm & _).
  rewrite Hi. cbn [List.find].
  destruct (entry_matches compfunc h' k' e) eqn:Hm'.
  - rewrite (find_ext _ _ (lru t) (entry_matches_same _ _ _ _ _ Hm Hm')).
    rewrite <- lruhash_peek_find. unfold lruhash_peek.
    rewrite Hfind. cbn. symmetry. exact Hi.
  - apply (find_delete_other _ _ _ _ Hi Hm').
Qed.

Lemma slabhash_peek_lookup (sl : slabhash K D) (h h' : hashvalue_t)
    (k k' : K) :
  slabhash_peek compfunc (snd (slabhash_lookup compfunc sl h k)) h' k'
  = slabhash_peek compfunc sl h' k'.
Proof.
  unfold slabhash_lookup.
  destruct (array sl !! slab_idx sl h) as [t|] eqn:Ht; [|reflexivity].
  pose proof (lruhash_peek_lookup t h h' k k') as Hp.
  destruct (lruhash_lookup compfunc t h k) as [r t']. cbn [snd] in *.
  unfold slabhash_peek.
  change (slab_idx (with_array sl _) h') with (slab_idx sl h').
  cbn [array with_array].
  destruct (decide (slab_idx sl h = slab_idx sl h')) as [E|N].
  - rewrite <- E, Ht. rewrite list_lookup_insert_eq
      by (eapply lookup_lt_Some; exact Ht).
    cbn [mbind option_bind]. exact Hp.
  - rewrite list_lookup_insert_ne by exact N. reflexivity.
Qed.

End SlabhashLookupFacts.

(** *** The entries of a table through its operations *)

Section SlabhashEntryFacts.
Import Slabhash.
Context {K D : Type}.
Variable sizefunc : K -> D -> nat.
Variable compfunc : K -> K -> Z.

Abbreviation tentry := (lruhash_entry K D) (only parsing).

(** The entries of all slabs. *)
Lemma entries_slab (a : list (lruhash K D)) (j : nat) (t : lruhash K D)
    (e : tentry) :
  a !! j = Some t -> e ∈ lru t -> e ∈ mjoin (lru <$> a).
Proof.
  intros Hj He. apply list_elem_of_join. exists (lru t).
  split; [exact He|]. apply list_elem_of_fmap. exists t.
  split; [reflexivity|]. eapply list_elem_of_lookup_2. exact Hj.
Qed.

Lemma entries_insert_slab (a : list (lruhash K D)) (j : nat)
    (t' : lruhash K D) (e : tentry) :
  e ∈ mjoin (lru <$> <[j := t']> a) ->
  e ∈ lru t' \/ e ∈ mjoin (lru <$> a).
Proof.
  intros He. apply list_elem_of_join in He as (l & He & Hl).
  apply list_elem_of_fmap in Hl as (t & -> & Ht).
  apply list_elem_of_lookup in Ht as (i & Hi).
  destruct (decide (i = j)) as [->|Hne].
  - destruct (decide (j < length a)%nat) as [Hlt|Hge].
    + rewrite list_lookup_insert_eq in Hi by exact Hlt.
      injection Hi as <-. left. exact He.
    + rewrite list_insert_ge in Hi by lia. right.
      exact (entries_slab a j t e Hi He).
  - rewrite list_lookup_insert_ne in Hi by congruence. right.
    exact (entries_slab a i t e Hi He).
Qed.

Lemma lru_touch_elem (i : nat) (l : list tentry) (e : tentry) :
  e ∈ lru_touch i l -> e ∈ l.
Proof.
  unfold lru_touch. destruct (l !! i) as [x|] eqn:Hx; [|auto].
  intros He. apply elem_of_cons in He as [->|He].
  - eapply list_elem_of_lookup_2. exact Hx.
  - apply list_elem_of_lookup in He as (j & Hj).
    destruct (decide (j < i)%nat).
    + rewrite list_lookup_delete_lt in Hj by assumption.
      eapply list_elem_of_lookup_2. exact Hj.
    + rewrite list_lookup_delete_ge in Hj by lia.
      eapply list_elem_of_lookup_2. exact Hj.
Qed.

Lemma delete_elem (i : nat) (l : list tentry) (e : tentry) :
  e ∈ delete i l -> e ∈ l.
Proof.
  intros He. apply list_elem_of_lookup in He as (j & Hj).
  destruct (decide (j < i)%nat).
  - rewrite list_lookup_delete_lt in Hj by assumption.
    eapply list_elem_of_lookup_2. exact Hj.
  - rewrite list_lookup_delete_ge in Hj by lia.
    eapply list_elem_of_lookup_2. exact Hj.
Qed.

Lemma slabhash_lookup_entries (sl : slabhash K D) (h : hashvalue_t)
    (k : K) (e : tentry) :
  e ∈ mjoin (lru <$> array (snd (slabhash_lookup compfunc sl h k))) ->
  e ∈ mjoin (lru <$> array sl).
Proof.
  unfold slabhash_lookup.
  destruct (array sl !! slab_idx sl h) as [t|] eqn:Ht; [|auto].
  unfold lruhash_lookup.
  destruct (find_index compfunc h k (lru t)) as [i|]; cbn [snd array with_array].
  - intros He. apply entries_insert_slab in He as [He|He]; [|exact He].
    cbn [lru] in He. apply lru_touch_elem in He.
    exact (entries_slab _ _ t e Ht He).
  - intros He. apply entries_insert_slab in He as [He|He]; [|exact He].
    exact (entries_slab _ _ t e Ht He).
Qed.

Lemma slabhash_lookup_found (sl : slabhash K D) (h : hashvalue_t)
    (k : K) (f : tentry) :
  fst (slabhash_lookup compfunc sl h k) = Some f ->
  f ∈ mjoin (lru <$> array sl) /\ compfunc (key f) k = 0.
Proof.
  unfold slabhash_lookup.
  destruct (array sl !! slab_idx sl h) as [t|] eqn:Ht; [|discriminate].
  unfold lruhash_lookup.
  destruct (find_index compfunc h k (lru t)) as [i|] eqn:Hi;
    cbn [fst]; [|discriminate].
  intros Hf.
  destruct (find_index_Some compfunc h k (lru t) i Hi) as (x & Hx & Hm & _).
  rewrite Hx in Hf. injection Hf as <-. split.
  - eapply entries_slab; [exact Ht|]. eapply list_elem_of_lookup_2. exact Hx.
  - unfold entry_matches in Hm. apply andb_true_iff in Hm as [_ Hm].
    apply Z.eqb_eq in Hm. exact Hm.
Qed.

Lemma slabhash_remove_entries (sl : slabhash K D) (h : hashvalue_t)
    (k : K) (e : tentry) :
  e ∈ mjoin (lru <$> array (slabhash_remove compfunc sl h k)) ->
  e ∈ mjoin (lru <$> array sl).
Proof.
  unfold slabhash_remove.
  destruct (array sl !! slab_idx sl h) as [t|] eqn:Ht; [|auto].
  cbn [array with_array]. intros He.
  apply entries_insert_slab in He as [He|He]; [|exact He].
  unfold lruhash_remove in He.
  destruct (find_index compfunc h k (lru t)) as [i|].
  - cbn [lru] in He. apply delete_elem in He.
    exact (entries_slab _ _ t e Ht He).
  - exact (entries_slab _ _ t e Ht He).
Qed.

Lemma reclaim_space_kept (n smax : nat) (l : list tentry) (e : tentry) :
  e ∈ fst (reclaim_space sizefunc n smax l) -> e ∈ l.
Proof.
  revert l. induction n as [|n IH]; intros l; cbn [reclaim_space];
    [auto|].
  destruct (space_used sizefunc l <=? smax)%nat; [auto|].
  destruct (last l) as [x|] eqn:Hl; [|auto].
  specialize (IH (removelast l)).
  destruct (reclaim_space sizefunc n smax (removelast l)) as [kept ev].
  cbn [fst] in *. intros He. specialize (IH He).
  apply last_Some in Hl as (l' & ->).
  rewrite removelast_last in IH. apply elem_of_app. left. exact IH.
Qed.

(** An entry of the table after an insert was there before, or holds
    the data inserted under the key inserted or under the key of an
    entry that compares equal to it. *)
Lemma slabhash_insert_entries (sl : slabhash K D) (h : hashvalue_t)
    (k : K) (d : D) (e : tentry) :
  e ∈ mjoin (lru <$> array (fst (slabhash_insert sizefunc compfunc sl h
                                   k d))) ->
  e ∈ mjoin (lru <$> array sl)
  \/ (data e = d
      /\ (key e = k
          \/ exists f, f ∈ mjoin (lru <$> array sl) /\ key e = key f
                       /\ compfunc (key f) k = 0)).
Proof.
  unfold slabhash_insert.
  destruct (array sl !! slab_idx sl h) as [t|] eqn:Ht; [|auto].
  unfold lruhash_insert.
  destruct (find_index compfunc h k (lru t)) as [i|] eqn:Hi.
  - destruct (find_index_Some compfunc h k (lru t) i Hi)
      as (x & Hx & Hm & _).
    rewrite Hx. cbn [fst array with_array]. intros He.
    apply entries_insert_slab in He as [He|He]; [|left; exact He].
    cbn [lru] in He. apply list_elem_of_lookup in He as (j & Hj).
    destruct (decide (j = i)) as [->|Hne].
    + rewrite list_lookup_insert_eq in Hj
        by (eapply lookup_lt_Some; exact Hx).
      injection Hj as <-. right. split; [reflexivity|]. right.
      exists x. split; [|split; [reflexivity|]].
      * eapply entries_slab; [exact Ht|].
        eapply list_elem_of_lookup_2. exact Hx.
      * unfold entry_matches in Hm. apply andb_true_iff in Hm as [_ Hm].
        apply Z.eqb_eq in Hm. exact Hm.
    + rewrite list_lookup_insert_ne in Hj by congruence. left.
      eapply entries_slab; [exact Ht|].
      eapply list_elem_of_lookup_2. exact Hj.
  - pose proof (reclaim_space_kept
                  (length ({| hash := h; key := k; data := d |} :: lru t))
                  (space_max t)
                  ({| hash := h; key := k; data := d |} :: lru t) e) as Hk.
    destruct (reclaim_space sizefunc _ _ _) as [kept ev].
    cbn [fst array with_array]. intros He.
    apply entries_insert_slab in He as [He|He]; [|left; exact He].
    cbn [lru fst] in *. specialize (Hk He).
    apply elem_of_cons in Hk as [->|Hk].
    + right. split; [reflexivity|]. left. reflexivity.
    + left. exact (entries_slab _ _ t e Ht Hk).
Qed.

End SlabhashEntryFacts.

(** ** The DNS cache services *)

Section DnsFacts.
Import Data Slabhash Dns.
Variable query_info_hash   : query_info -> hashvalue_t.
Variable rrset_key_hash    : packed_rrset_key -> hashvalue_t.
Variable msgreply_sizefunc : query_info -> cached_reply -> nat.
Variable ub_rrset_sizefunc : ub_packed_rrset_key -> packed_rrset_data -> nat.

(** *** Storing a message *)

Lemma rrset_cache_update_frame (env : module_env) (r : rrset_ref) (now : Z) :
  msg_cache (snd (rrset_cache_update ub_rrset_sizefunc env r now))
  = msg_cache env
  /\ heap (snd (rrset_cache_update ub_rrset_sizefunc env r now)) = heap env.
Proof.
  unfold rrset_cache_update.
  destruct (alloc env !! ref_key r) as [k|]; [|split; reflexivity].
  destruct (slabhash_lookup _ _ _ _) as [[e|] c1];
    [destruct (need_to_update_rrset _ _)|]; split; reflexivity.
Qed.

Lemma capture_ref_fields (env : module_env) (rep : cached_reply) (i : nat) :
  rep_ttl (capture_ref env rep i) = rep_ttl rep
  /\ rrset_count (capture_ref env rep i) = rrset_count rep
  /\ rrsets (capture_ref env rep i) = rrsets rep.
Proof.
  unfold capture_ref.
  destruct (rrsets rep !! i) as [p|]; [|auto].
  destruct (rrset_deref env p); auto.
Qed.

Lemma store_rrsets_step_frame (now : Z) (st : module_env * cached_reply)
    (i : nat) :
  msg_cache (fst (store_rrsets_step ub_rrset_sizefunc now st i))
  = msg_cache (fst st)
  /\ heap (fst (store_rrsets_step ub_rrset_sizefunc now st i))
     = heap (fst st)
  /\ rep_ttl (snd (store_rrsets_step ub_rrset_sizefunc now st i))
     = rep_ttl (snd st)
  /\ rrset_count (snd (store_rrsets_step ub_rrset_sizefunc now st i))
     = rrset_count (snd st).
Proof.
  destruct st as [env rep]. unfold store_rrsets_step. cbn [fst snd].
  destruct (capture_ref_fields env rep i) as (Ht & Hn & _).
  destruct (ref (capture_ref env rep i) !! i) as [r|]; [|auto].
  destruct (rrset_cache_update_frame env r now) as [Hm Hh].
  destruct (rrset_cache_update ub_rrset_sizefunc env r now)
    as [[incache r'] env'].
  cbn [snd] in Hm, Hh. destruct incache; cbn; auto.
Qed.

Lemma store_rrsets_loop_frame (now : Z) (idx : list nat)
    (st : module_env * cached_reply) :
  msg_cache (fst (foldl (store_rrsets_step ub_rrset_sizefunc now) st idx))
  = msg_cache (fst st)
  /\ heap (fst (foldl (store_rrsets_step ub_rrset_sizefunc now) st idx))
     = heap (fst st)
  /\ rep_ttl (snd (foldl (store_rrsets_step ub_rrset_sizefunc now) st idx))
     = rep_ttl (snd st)
  /\ rrset_count
       (snd (foldl (store_rrsets_step ub_rrset_sizefunc now) st idx))
     = rrset_count (snd st).
Proof.
  revert st. induction idx as [|i idx IH]; intros st; [auto|].
  cbn [foldl].
  destruct (IH (store_rrsets_step ub_rrset_sizefunc now st i))
    as (H1 & H2 & H3 & H4).
  destruct (store_rrsets_step_frame now st i) as (G1 & G2 & G3 & G4).
  rewrite H1, H2, H3, H4. auto.
Qed.

Lemma capture_loop_fields (env : module_env) (idx : list nat)
    (rep : cached_reply) :
  rep_ttl (foldl (capture_ref env) rep idx) = rep_ttl rep
  /\ rrset_count (foldl (capture_ref env) rep idx) = rrset_count rep
  /\ rrsets (foldl (capture_ref env) rep idx) = rrsets rep.
Proof.
  revert rep. induction idx as [|i idx IH]; intros rep; [auto|].
  cbn [foldl]. destruct (IH (capture_ref env rep i)) as (H1 & H2 & H3).
  destruct (capture_ref_fields env rep i) as (G1 & G2 & G3).
  rewrite H1, H2, H3. auto.
Qed.

(** C9: with a reply whose overall TTL is 0, [dns_cache_store_msg] does
    the write-through of the RRsets ([store_rrsets] on the reply with
    its references captured and its TTLs made absolute) and nothing
    else: the message cache and the heap are as they were. *)
Theorem store_msg_ttl_zero_keeps_msg_cache (env : module_env)
    (qinf : query_info) (h : hashvalue_t) (rep : cached_reply) (now : Z) :
  rep_ttl rep = 0 ->
  let prep :=
    reply_info_set_ttls env
      (reply_info_sortref
         (foldl (capture_ref env) rep (seq 0 (rrset_count rep)))) now in
  dns_cache_store_msg msgreply_sizefunc ub_rrset_sizefunc env qinf h rep now
  = store_rrsets ub_rrset_sizefunc (fst prep) (snd prep) now
  /\ msg_cache (fst (dns_cache_store_msg msgreply_sizefunc ub_rrset_sizefunc
                       env qinf h rep now))
     = msg_cache env
  /\ heap (fst (dns_cache_store_msg msgreply_sizefunc ub_rrset_sizefunc
                  env qinf h rep now))
     = heap env.
Proof.
  intros Hz prep.
  assert (E : dns_cache_store_msg msgreply_sizefunc ub_rrset_sizefunc
                env qinf h rep now
              = store_rrsets ub_rrset_sizefunc (fst prep) (snd prep) now).
  { unfold dns_cache_store_msg. fold prep.
    destruct prep as [env1 rep1]. cbn [fst snd].
    destruct (store_rrsets ub_rrset_sizefunc env1 rep1 now) as [env2 rep2].
    rewrite Hz. reflexivity. }
  rewrite E. split; [reflexivity|].
  unfold store_rrsets.
  destruct (store_rrsets_loop_frame now (seq 0 (rrset_count (snd prep)))
              (fst prep, snd prep)) as (H1 & H2 & _).
  rewrite H1, H2. split; reflexivity.
Qed.

(** With a TTL that is not 0 and memory for the entry, the message is
    inserted. *)
Lemma store_msg_inserts (env : module_env) (qinf : query_info)
    (h : hashvalue_t) (rep : cached_reply) (now : Z) (a : addr) (hp : region) :
  rep_ttl rep <> 0 ->
  region_alloc (heap env) = (Some a, hp) ->
  let res := dns_cache_store_msg msgreply_sizefunc ub_rrset_sizefunc
               env qinf h rep now in
  msg_cache (fst res)
  = fst (slabhash_insert msgreply_sizefunc query_info_compare
           (msg_cache env) h qinf (snd res))
  /\ rep_ttl (snd res) = u32 (rep_ttl rep + now).
Proof.
  intros Hnz Hal res. subst res. unfold dns_cache_store_msg.
  destruct (capture_loop_fields env (seq 0 (rrset_count rep)) rep)
    as (C1 & C2 & C3).
  set (rep0 := reply_info_sortref _).
  unfold reply_info_set_ttls.
  set (env1 := set_alloc env _).
  set (rep1 := set_rep_ttl rep0 _).
  unfold store_rrsets.
  destruct (store_rrsets_loop_frame now (seq 0 (rrset_count rep1))
              (env1, rep1)) as (H1 & H2 & H3 & H4).
  destruct (foldl (store_rrsets_step ub_rrset_sizefunc now) (env1, rep1)
              (seq 0 (rrset_count rep1))) as [env2 rep2].
  cbn [fst snd] in *.
  destruct (Z.eqb_spec (rep_ttl rep) 0) as [E|_]; [contradiction|].
  rewrite H2. change (heap env1) with (heap env). rewrite Hal.
  cbn [fst snd msg_cache set_msg_cache set_heap reply_info_sortref
       set_rrsets_ref rep_ttl].
  rewrite H1, H3. change (msg_cache env1) with (msg_cache env).
  split; [reflexivity|].
  subst rep1 rep0. cbn. rewrite C1. reflexivity.
Qed.

(** *** Copying RRsets out of the cache *)

Lemma alter_loop_lookup {A} (f : A -> A) (n a : nat) (l : list A) (j : nat) :
  foldl (fun t i => alter f i t) l (seq a n) !! j
  = if decide (a <= j < a + n)%nat then f <$> l !! j else l !! j.
Proof.
  revert a l. induction n as [|n IH]; intros a l; cbn [seq foldl].
  - destruct (decide _); [lia|reflexivity].
  - rewrite IH.
    destruct (decide (S a <= j < S a + n)%nat) as [H1|H1];
      destruct (decide (a <= j < a + S n)%nat) as [H2|H2]; try lia.
    + rewrite list_lookup_alter_ne by lia. reflexivity.
    + assert (j = a) by lia. subst j. apply list_lookup_alter_eq.
    + rewrite list_lookup_alter_ne by lia. reflexivity.
Qed.

Lemma region_alloc_Some_script (rg : region) :
  script rg = [] ->
  exists a rg', region_alloc rg = (Some a, rg') /\ script rg' = [].
Proof.
  intros H. unfold region_alloc. rewrite H. eauto.
Qed.

(** A copy keeps the id, the hash, the key and the records; its TTL
    and the TTL of each record and signature are those of the original
    less [now]. *)
Lemma copy_rrset_spec (k : rrset_entry) (rg : region) (now : Z)
    (ck : rrset_entry) (rg' : region) :
  copy_rrset k rg now = (Some ck, rg') ->
  id (key ck) = id (key k) /\ rk (key ck) = rk (key k)
  /\ hash ck = hash k /\ rr_data (data ck) = rr_data (data k)
  /\ count (data ck) = count (data k)
  /\ rrsig_count (data ck) = rrsig_count (data k)
  /\ ttl (data ck) = u32 (ttl (data k) - now)
  /\ forall i, (i < count (data k) + rrsig_count (data k))%nat ->
       rr_ttl (data ck) !! i
       = (fun t => u32 (t - now)) <$> rr_ttl (data k) !! i.
Proof.
  unfold copy_rrset.
  destruct (region_alloc rg) as [[a1|] rg1]; [|discriminate].
  destruct (region_alloc rg1) as [[a2|] rg2]; [|discriminate].
  destruct (region_alloc rg2) as [[a3|] rg3]; [|discriminate].
  intros [= <- <-]. cbn [hash key data id rk ttl count rrsig_count rr_ttl
                         rr_data].
  repeat split. intros i Hi.
  rewrite alter_loop_lookup. destruct (decide _); [reflexivity|lia].
Qed.

Lemma copy_rrset_succeeds (k : rrset_entry) (rg : region) (now : Z) :
  script rg = [] ->
  exists ck rg', copy_rrset k rg now = (Some ck, rg') /\ script rg' = [].
Proof.
  intros H. unfold copy_rrset.
  destruct (region_alloc_Some_script rg H) as (a1 & rg1 & -> & H1).
  destruct (region_alloc_Some_script rg1 H1) as (a2 & rg2 & -> & H2).
  destruct (region_alloc_Some_script rg2 H2) as (a3 & rg3 & -> & H3).
  eauto.
Qed.

(** The copy loop of [tomsg] fills the slots of its indices with
    copies of the RRsets the reply points to. *)
Lemma tomsg_copy_spec (env : module_env) (r : cached_reply) (now : Z)
    (n a : nat) (arr : list (option rrset_entry)) (rg : region)
    (arr' : list (option rrset_entry)) (rg' : region) :
  tomsg_copy env r (seq a n) arr rg now = (Some arr', rg') ->
  (a + n <= length arr)%nat ->
  length arr' = length arr
  /\ (forall j, (j < a)%nat -> arr' !! j = arr !! j)
  /\ forall i, (a <= i < a + n)%nat ->
       exists p k ck rg1 rg2,
         rrsets r !! i = Some p /\ rrset_deref env p = Some k
         /\ copy_rrset k rg1 now = (Some ck, rg2)
         /\ arr' !! i = Some (Some ck).
Proof.
  revert a arr rg. induction n as [|n IH]; intros a arr rg; cbn [seq tomsg_copy].
  - intros [= <- <-] _. repeat split; auto. intros i Hi. lia.
  - destruct (rrsets r !! a) as [p|] eqn:Hp; cbn [mbind option_bind];
      [|discriminate].
    destruct (rrset_deref env p) as [k|] eqn:Hk; [|discriminate].
    destruct (copy_rrset k rg now) as [[ck|] rg1] eqn:Hc; [|discriminate].
    intros Hrec Hlen.
    destruct (IH (S a) (<[a := Some ck]> arr) rg1 Hrec
                ltac:(rewrite length_insert; lia)) as (L & Hlow & Hhigh).
    rewrite length_insert in L.
    split; [exact L|]. split.
    + intros j Hj. rewrite Hlow by lia.
      apply list_lookup_insert_ne. lia.
    + intros i Hi. destruct (decide (i = a)) as [->|Hne].
      * exists p, k, ck, rg, rg1. repeat split; auto.
        rewrite Hlow by lia. apply list_lookup_insert_eq. lia.
      * apply Hhigh. lia.
Qed.

Lemma tomsg_spec (env : module_env) (e : query_info) (r : cached_reply)
    (rg : region) (now : Z) (scratch : region) (msg : dns_msg)
    (env' : module_env) (rg' : region) :
  tomsg env e r rg now scratch = (Some msg, env', rg') ->
  now <= rep_ttl r /\ qinfo msg = e
  /\ rep_ttl (rep msg) = rep_ttl r
  /\ rrset_count (rep msg) = rrset_count r
  /\ rrset_array_lock env (ref r) (rrset_count r) now = true
  /\ forall i, (i < rrset_count r)%nat ->
       exists p k ck rg1 rg2,
         rrsets r !! i = Some p /\ rrset_deref env p = Some k
         /\ copy_rrset k rg1 now = (Some ck, rg2)
         /\ rrsets (rep msg) !! i = Some (Some ck).
Proof.
  unfold tomsg.
  destruct (Z.gtb_spec now (rep_ttl r)) as [Hexp|Hok]; [discriminate|].
  destruct (region_alloc rg) as [[a1|] rg1]; [|discriminate].
  destruct (region_alloc rg1) as [[a2|] rg2]; [|discriminate].
  destruct (region_alloc rg2) as [[a3|] rg3]; [|discriminate].
  destruct (region_alloc rg3) as [[a4|] rg4]; [|discriminate].
  destruct (rrset_array_lock env (ref r) (rrset_count r) now) eqn:Hlock;
    cbn [negb]; [|discriminate].
  destruct (tomsg_copy env r (seq 0 (rrset_count r))
              (replicate (rrset_count r) None) rg4 now)
    as [[arr|] rg5] eqn:Hcopy; [|discriminate].
  intros [= <- <- <-]. cbn [qinfo rep rep_ttl rrset_count rrsets].
  repeat split; try lia.
  intros i Hi.
  destruct (tomsg_copy_spec env r now (rrset_count r) 0 _ _ _ _ Hcopy
              ltac:(rewrite length_replicate; lia)) as (_ & _ & H).
  apply H. lia.
Qed.

(** A reply that has expired is not converted, at no cost. *)
Lemma tomsg_expired (env : module_env) (e : query_info) (r : cached_reply)
    (rg : region) (now : Z) (scratch : region) :
  rep_ttl r < now -> tomsg env e r rg now scratch = (None, env, rg).
Proof.
  intros H. unfold tomsg.
  destruct (Z.gtb_spec now (rep_ttl r)); [reflexivity|lia].
Qed.

Lemma alter_all_lookup {A} (f : A -> A) (l : list addr)
    (m : gmap addr A) (p : addr) :
  NoDup l ->
  foldr (fun q a => alter f q a) m l !! p
  = if decide (p ∈ l) then f <$> m !! p else m !! p.
Proof.
  induction 1 as [|q l Hq Hnd IH]; cbn [foldr].
  - destruct (decide _) as [H|H]; [inversion H|reflexivity].
  - destruct (decide (q = p)) as [->|Hne].
    + rewrite lookup_alter_eq, IH.
      destruct (decide (p ∈ l)); [contradiction|].
      destruct (decide (p ∈ p :: l)) as [_|H]; [reflexivity|].
      exfalso. apply H. left.
    + rewrite lookup_alter_ne by exact Hne. rewrite IH.
      destruct (decide (p ∈ l)) as [H|H];
        destruct (decide (p ∈ q :: l)) as [H'|H']; try reflexivity.
      * exfalso. apply H'. right. exact H.
      * apply elem_of_cons in H' as [->|H']; [congruence|contradiction].
Qed.

Lemma u32_add_sub (t now now' : Z) :
  u32 (u32 (t + now) - now') = u32 (t - (now' - now)).
Proof.
  unfold u32. rewrite Zminus_mod_idemp_l. f_equal. lia.
Qed.

Lemma ub_rrset_compare_rk (a b : ub_packed_rrset_key) :
  ub_rrset_compare a b = 0 -> rk a = rk b.
Proof.
  unfold ub_rrset_compare. destruct (decide (rk a = rk b)); [auto|discriminate].
Qed.

(** What [rrset_cache_update] leaves in the cache was there, or is the
    data of the key object passed, under its key fields; and it hands
    out no key object. *)
Lemma rrset_cache_update_entries (env : module_env) (r : rrset_ref)
    (now : Z) :
  (forall q k1,
     alloc (snd (rrset_cache_update ub_rrset_sizefunc env r now)) !! q
     = Some k1 ->
     alloc env !! q = Some k1)
  /\ forall e,
       e ∈ rrset_cache_entries
             (rrset_cache (snd (rrset_cache_update ub_rrset_sizefunc env r
                                  now))) ->
       e ∈ rrset_cache_entries (rrset_cache env)
       \/ exists k1, alloc env !! ref_key r = Some k1
                     /\ data e = data k1 /\ rk (key e) = rk (key k1).
Proof.
  unfold rrset_cache_update, rrset_cache_entries.
  destruct (alloc env !! ref_key r) as [k|] eqn:Hk; [|split; auto].
  assert (Hal : forall q k1,
             delete (ref_key r) (alloc env) !! q = Some k1 ->
             alloc env !! q = Some k1).
  { intros q k1 Hq. apply lookup_delete_Some in Hq as [_ Hq]. exact Hq. }
  pose proof (slabhash_lookup_entries ub_rrset_compare (rrset_cache env)
                (hash k) (key k)) as Hlook.
  pose proof (slabhash_lookup_found ub_rrset_compare (rrset_cache env)
                (hash k) (key k)) as Hfound.
  destruct (slabhash_lookup ub_rrset_compare (rrset_cache env) (hash k)
              (key k)) as [[f|] c1]; cbn [fst snd] in *.
  - destruct (Hfound f eq_refl) as [Hfin Hcmp].
    apply ub_rrset_compare_rk in Hcmp.
    destruct (need_to_update_rrset (data k) (data f));
      cbn [snd alloc rrset_cache set_alloc set_rrset_cache];
      (split; [exact Hal|]); intros e He.
    + apply slabhash_insert_entries in He as [He|(Hd & Hkey)].
      * left. apply Hlook.
        exact (slabhash_remove_entries _ _ _ _ _ He).
      * right. exists k. split; [reflexivity|]. split; [exact Hd|].
        destruct Hkey as [->|(g & Hg & -> & Hc)]; [exact Hcmp|].
        apply ub_rrset_compare_rk in Hc. cbn [rk] in Hc.
        rewrite Hc. exact Hcmp.
    + left. apply Hlook. exact He.
  - cbn [snd alloc rrset_cache set_alloc set_rrset_cache].
    split; [exact Hal|]. intros e He.
    apply slabhash_insert_entries in He as [He|(Hd & Hkey)].
    + left. apply Hlook. exact He.
    + right. exists k. split; [reflexivity|]. split; [exact Hd|].
      destruct Hkey as [->|(g & Hg & -> & Hc)]; [reflexivity|].
      apply ub_rrset_compare_rk in Hc. exact Hc.
Qed.

(** The capture loop of [dns_cache_store_msg] on a reply whose slots
    all point to key objects. *)
Lemma capture_loop_refs (env : module_env) (rp : cached_reply) (m : nat) :
  reply_refs_ok env rp -> (m <= rrset_count rp)%nat ->
  length (ref (foldl (capture_ref env) rp (seq 0 m))) = length (ref rp)
  /\ (forall j, (j < m)%nat ->
        exists p k,
          rrsets rp !! j = Some p /\ rrset_deref env p = Some k
          /\ ref (foldl (capture_ref env) rp (seq 0 m)) !! j
             = Some {| ref_key := p; ref_id := id (key k) |})
  /\ (forall j, (m <= j)%nat ->
        ref (foldl (capture_ref env) rp (seq 0 m)) !! j = ref rp !! j).
Proof.
  intros [Hlen Hwf]. induction m as [|m IH]; intros Hm.
  - cbn. split; [reflexivity|]. split; [intros j Hj; lia|auto].
  - destruct IH as (I1 & I2 & I3); [lia|].
    rewrite seq_S, foldl_app. cbn [foldl Nat.add].
    set (rep := foldl (capture_ref env) rp (seq 0 m)) in *.
    destruct (capture_loop_fields env (seq 0 m) rp) as (_ & _ & Hrs).
    fold rep in Hrs.
    destruct (Hwf m ltac:(lia)) as (p & Hp & [k Hk]).
    unfold capture_ref. rewrite Hrs, Hp, Hk. cbn [ref set_rrsets_ref].
    split; [rewrite length_insert; exact I1|]. split.
    + intros j Hj. destruct (decide (j = m)) as [->|Hne].
      * exists p, k. split; [exact Hp|]. split; [exact Hk|].
        apply list_lookup_insert_eq. lia.
      * destruct (I2 j ltac:(lia)) as (p' & k' & A & B & C).
        exists p', k'. split; [exact A|]. split; [exact B|].
        rewrite list_lookup_insert_ne by congruence. exact C.
    + intros j Hj. rewrite list_lookup_insert_ne by lia. apply I3. lia.
Qed.

(** The environment and the reply that [dns_cache_store_msg] hands to
    [store_rrsets]: the references are those of the slots, and every
    key object of the caller that a slot points to has [now] added to
    its TTLs. *)
Lemma store_msg_prepared (env : module_env) (rp : cached_reply) (now : Z) :
  reply_refs_ok env rp ->
  let prep :=
    reply_info_set_ttls env
      (reply_info_sortref
         (foldl (capture_ref env) rp (seq 0 (rrset_count rp)))) now in
  rrset_cache (fst prep) = rrset_cache env
  /\ rrsets (snd prep) = rrsets rp
  /\ rrset_count (snd prep) = rrset_count rp
  /\ length (ref (snd prep)) = rrset_count rp
  /\ (forall r, r ∈ ref (snd prep) ->
        exists j, (j < rrset_count rp)%nat
                  /\ rrsets rp !! j = Some (ref_key r))
  /\ (forall j p, (j < rrset_count rp)%nat -> rrsets rp !! j = Some p ->
        alloc (fst prep) !! p = entry_add_ttl now <$> alloc env !! p).
Proof.
  intros Hwf prep.
  destruct (capture_loop_fields env (seq 0 (rrset_count rp)) rp)
    as (_ & Hcnt & Hrs).
  destruct (capture_loop_refs env rp (rrset_count rp) Hwf (le_n _))
    as (Hlen & Hcap & _).
  destruct Hwf as [Hl Hwf].
  set (rep1 := foldl (capture_ref env) rp (seq 0 (rrset_count rp))) in *.
  assert (Hperm : ref (reply_info_sortref rep1) ≡ₚ ref rep1)
    by (apply merge_sort_Permutation).
  assert (Hrefs : forall r, r ∈ ref rep1 <->
                    exists j, (j < rrset_count rp)%nat
                              /\ ref rep1 !! j = Some r).
  { intros r. rewrite list_elem_of_lookup. split; intros (j & Hj).
    - exists j. split; [|exact Hj]. apply lookup_lt_Some in Hj. lia.
    - exists j. apply Hj. }
  assert (Hkeys : forall q,
             q ∈ ref_key <$> take (rrset_count (reply_info_sortref rep1))
                               (ref (reply_info_sortref rep1))
             <-> exists j, (j < rrset_count rp)%nat
                           /\ rrsets rp !! j = Some q).
  { intros q. cbn [rrset_count reply_info_sortref set_rrsets_ref].
    rewrite Hcnt, take_ge
      by (rewrite Hperm, Hlen, Hl; apply le_n).
    rewrite list_elem_of_fmap. split.
    - intros (r & -> & Hr). rewrite Hperm in Hr.
      apply Hrefs in Hr as (j & Hj & Hr).
      destruct (Hcap j Hj) as (p & k & A & _ & C).
      rewrite C in Hr. injection Hr as <-. exists j. split; assumption.
    - intros (j & Hj & Hq).
      destruct (Hcap j Hj) as (p & k & A & _ & C).
      rewrite Hq in A. injection A as <-.
      eexists. split; [|rewrite Hperm; apply Hrefs; exists j;
                         split; [exact Hj|exact C]].
      reflexivity. }
  split; [reflexivity|]. split; [exact Hrs|]. split; [exact Hcnt|].
  split; [|split].
  - cbn. rewrite Hperm, Hlen. exact Hl.
  - intros r Hr. cbn in Hr. rewrite Hperm in Hr.
    apply Hrefs in Hr as (j & Hj & Hr).
    destruct (Hcap j Hj) as (p & k & A & _ & C).
    rewrite C in Hr. injection Hr as <-. exists j. split; assumption.
  - intros j p Hj Hp. unfold prep, reply_info_set_ttls.
    cbn [fst alloc set_alloc].
    rewrite alter_all_lookup by apply NoDup_remove_dups.
    destruct (decide _) as [_|Hn]; [reflexivity|].
    exfalso. apply Hn. apply elem_of_remove_dups. apply Hkeys.
    exists j. split; assumption.
Qed.

(** The loop of [store_rrsets] after [m] rounds. *)
Lemma store_rrsets_absolute (env : module_env) (rp : cached_reply)
    (now : Z) (m : nat) :
  reply_refs_ok env rp -> (m <= rrset_count rp)%nat ->
  let prep :=
    reply_info_set_ttls env
      (reply_info_sortref
         (foldl (capture_ref env) rp (seq 0 (rrset_count rp)))) now in
  let st := foldl (store_rrsets_step ub_rrset_sizefunc now) prep (seq 0 m) in
  (forall e, e ∈ rrset_cache_entries (rrset_cache (fst st)) ->
     e ∈ rrset_cache_entries (rrset_cache env)
     \/ stored_absolute env rp now e)
  /\ (forall q k1, alloc (fst st) !! q = Some k1 ->
        alloc (fst prep) !! q = Some k1)
  /\ (forall j, (m <= j)%nat ->
        rrsets (snd st) !! j = rrsets rp !! j
        /\ ref (snd st) !! j = ref (snd prep) !! j)
  /\ length (ref (snd st)) = rrset_count rp.
Proof.
  intros Hwf Hm prep.
  destruct (store_msg_prepared env rp now Hwf)
    as (P1 & P2 & P3 & P4 & P5 & P6).
  fold prep in P1, P2, P3, P4, P5, P6.
  induction m as [|m IH]; intros st.
  - subst st. cbn [seq foldl]. split; [|split; [|split]].
    + intros e He. left. rewrite <- P1. exact He.
    + auto.
    + intros j _. rewrite P2. split; reflexivity.
    + exact P4.
  - specialize (IH ltac:(lia)). cbn zeta in IH.
    destruct IH as (I1 & I2 & I3 & I4).
    subst st. rewrite seq_S, foldl_app. cbn [foldl Nat.add].
    destruct (foldl (store_rrsets_step ub_rrset_sizefunc now) prep (seq 0 m))
      as [envm repm].
    cbn [fst snd] in *.
    destruct (I3 m (le_n _)) as [Hrs Hrf].
    unfold store_rrsets_step.
    (* the reference used in this round points to a slot of the reply *)
    assert (Hcap : ref (capture_ref envm repm m) !! m = None
                   \/ exists r j,
                        ref (capture_ref envm repm m) !! m = Some r
                        /\ (j < rrset_count rp)%nat
                        /\ rrsets rp !! j = Some (ref_key r)).
    { unfold capture_ref.
      destruct (rrsets repm !! m) as [p|] eqn:Hp;
        [destruct (rrset_deref envm p) as [k|]|].
      - cbn [ref set_rrsets_ref]. right.
        exists {| ref_key := p; ref_id := id (key k) |}, m.
        split; [apply list_lookup_insert_eq; lia|].
        split; [lia|]. rewrite <- Hrs. reflexivity.
      - destruct (ref repm !! m) as [r|]; [|left; reflexivity].
        right. symmetry in Hrf.
        destruct (P5 r (list_elem_of_lookup_2 _ _ _ Hrf)) as (j & Hj & Hq).
        exists r, j. auto.
      - destruct (ref repm !! m) as [r|]; [|left; reflexivity].
        right. symmetry in Hrf.
        destruct (P5 r (list_elem_of_lookup_2 _ _ _ Hrf)) as (j & Hj & Hq).
        exists r, j. auto. }
    assert (Hfields : rrsets (capture_ref envm repm m) = rrsets repm
                      /\ length (ref (capture_ref envm repm m))
                         = rrset_count rp
                      /\ forall j, (S m <= j)%nat ->
                           ref (capture_ref envm repm m) !! j
                           = ref repm !! j).
    { unfold capture_ref.
      destruct (rrsets repm !! m) as [p|];
        [destruct (rrset_deref envm p) as [k|]|]; cbn [rrsets ref set_rrsets_ref];
        try (split; [reflexivity|split; [exact I4|reflexivity]]).
      split; [reflexivity|]. split; [rewrite length_insert; exact I4|].
      intros j Hj. apply list_lookup_insert_ne. lia. }
    destruct Hfields as (F1 & F2 & F3).
    set (rep' := capture_ref envm repm m) in *.
    destruct Hcap as [Hnone|(r & j0 & Hr & Hj0 & Hq0)].
    { rewrite Hnone. cbn [fst snd]. split; [exact I1|]. split; [exact I2|].
      split; [|exact F2].
      intros j Hj. rewrite F1, F3 by exact Hj.
      apply I3. lia. }
    rewrite Hr.
    destruct (rrset_cache_update_entries envm r now) as [U1 U2].
    destruct (rrset_cache_update ub_rrset_sizefunc envm r now)
      as [[incache r'] env'].
    cbn [snd] in U1, U2.
    assert (Hres :
      (forall e, e ∈ rrset_cache_entries (rrset_cache env') ->
         e ∈ rrset_cache_entries (rrset_cache env)
         \/ stored_absolute env rp now e)
      /\ (forall q k1, alloc env' !! q = Some k1 ->
            alloc (fst prep) !! q = Some k1)).
    { split.
      - intros e He. destruct (U2 e He) as [Hold|(k1 & Hk1 & Hd & Hk)].
        + exact (I1 e Hold).
        + right. apply I2 in Hk1. rewrite (P6 j0 _ Hj0 Hq0) in Hk1.
          destruct (alloc env !! ref_key r) as [k0|] eqn:Hk0;
            [|discriminate].
          injection Hk1 as <-.
          exists j0, (ref_key r), k0. repeat split; assumption.
      - intros q k1 Hq. apply I2, U1, Hq. }
    destruct Hres as [R1 R2].
    destruct incache; cbn [fst snd rrsets ref set_rrsets_ref];
      (split; [exact R1|]); (split; [exact R2|]); split.
    + intros j Hj. rewrite !list_lookup_insert_ne by lia.
      rewrite F1, F3 by exact Hj. apply I3. lia.
    + rewrite length_insert. exact F2.
    + intros j Hj. rewrite list_lookup_insert_ne by lia.
      rewrite F1, F3 by exact Hj. apply I3. lia.
    + rewrite length_insert. exact F2.
Qed.

(** C5: TTLs are stored absolute and exported relative.  The reply
    that [dns_cache_store_msg] stores has [now] added to its TTL.  The
    conversion comes before the store: [store_rrsets] runs on the
    environment in which every key object that a slot of the reply
    points to has [now] added to its TTL and to the TTL of each of its
    records and signatures, so that every entry that the call adds to
    the RRset cache carries these absolute TTLs.  Every RRset that
    [copy_rrset] copies out of the cache, so every RRset of a message
    built by [tomsg], has its TTL and the TTL of each of its records
    and signatures decremented by the time of the lookup; all of it in
    32-bit arithmetic, so that a TTL stored at [now] and exported at
    [now'] is the original less the time elapsed. *)
Theorem ttls_stored_absolute_exported_relative
    (env : module_env) (qinf : query_info) (h : hashvalue_t)
    (rp : cached_reply) (now : Z) :
  let res := dns_cache_store_msg msgreply_sizefunc ub_rrset_sizefunc
               env qinf h rp now in
  let prep :=
    reply_info_set_ttls env
      (reply_info_sortref
         (foldl (capture_ref env) rp (seq 0 (rrset_count rp)))) now in
  rep_ttl (snd res) = u32 (rep_ttl rp + now)
  /\ rrset_cache (fst res)
     = rrset_cache (fst (store_rrsets ub_rrset_sizefunc (fst prep)
                           (snd prep) now))
  /\ (reply_refs_ok env rp ->
      (forall i p k,
         (i < rrset_count rp)%nat -> rrsets rp !! i = Some p ->
         alloc env !! p = Some k ->
         alloc (fst prep) !! p = Some (entry_add_ttl now k))
      /\ (forall e,
            e ∈ rrset_cache_entries (rrset_cache (fst res)) ->
            e ∈ rrset_cache_entries (rrset_cache env)
            \/ stored_absolute env rp now e))
  /\ (forall k rg now' ck rg',
        copy_rrset k rg now' = (Some ck, rg') ->
        ttl (data ck) = u32 (ttl (data k) - now')
        /\ forall i, (i < count (data k) + rrsig_count (data k))%nat ->
             rr_ttl (data ck) !! i
             = (fun t => u32 (t - now')) <$> rr_ttl (data k) !! i)
  /\ (forall e r rg now' scratch msg env' rg',
        tomsg env e r rg now' scratch = (Some msg, env', rg') ->
        forall i, (i < rrset_count r)%nat ->
          exists p k ck,
            rrsets r !! i = Some p /\ rrset_deref env p = Some k
            /\ rrsets (rep msg) !! i = Some (Some ck)
            /\ ttl (data ck) = u32 (ttl (data k) - now')
            /\ forall j, (j < count (data k) + rrsig_count (data k))%nat ->
                 rr_ttl (data ck) !! j
                 = (fun t => u32 (t - now')) <$> rr_ttl (data k) !! j)
  /\ (forall t now', u32 (u32 (t + now) - now') = u32 (t - (now' - now))).
Proof.
  intros res prep.
  assert (Hcache : rrset_cache (fst res)
                   = rrset_cache (fst (store_rrsets ub_rrset_sizefunc
                                         (fst prep) (snd prep) now))).
  { unfold res, dns_cache_store_msg. fold prep.
    destruct prep as [env1 rep3]. cbn [fst snd].
    destruct (store_rrsets ub_rrset_sizefunc env1 rep3 now) as [env2 rep4].
    destruct (rep_ttl rp =? 0); [reflexivity|].
    destruct (region_alloc (heap env2)) as [[a|] hp]; reflexivity. }
  split; [|split; [exact Hcache|split; [|split; [|split]]]].
  - unfold res, dns_cache_store_msg.
    destruct (capture_loop_fields env (seq 0 (rrset_count rp)) rp)
      as (C1 & _ & _).
    unfold reply_info_set_ttls, store_rrsets.
    match goal with
    | |- context [foldl (store_rrsets_step ?sz ?n) ?a ?l] =>
        destruct (store_rrsets_loop_frame n l a) as (_ & _ & H3 & _);
        destruct (foldl (store_rrsets_step sz n) a l) as [env2 rep2]
    end.
    cbn [fst snd] in H3.
    destruct (rep_ttl rp =? 0); cbn [snd].
    + rewrite H3. cbn. rewrite C1. reflexivity.
    + destruct (region_alloc (heap env2)) as [[a|] hp]; cbn;
        rewrite H3; cbn; rewrite C1; reflexivity.
  - intros Hwf. split.
    + intros i p k Hi Hp Hk.
      destruct (store_msg_prepared env rp now Hwf)
        as (_ & _ & _ & _ & _ & P6).
      fold prep in P6. rewrite (P6 i p Hi Hp), Hk. reflexivity.
    + intros e He. rewrite Hcache in He.
      destruct (store_rrsets_absolute env rp now (rrset_count rp) Hwf
                  (le_n _)) as (I1 & _).
      apply I1. unfold store_rrsets in He.
      destruct (store_msg_prepared env rp now Hwf) as (_ & _ & P3 & _).
      fold prep in P3 |- *. rewrite <- P3.
      destruct prep as [env1 rep3]. exact He.
  - intros k rg now' ck rg' Hc.
    destruct (copy_rrset_spec _ _ _ _ _ Hc) as (_ & _ & _ & _ & _ & _ & H1 & H2).
    auto.
  - intros e r rg now' scratch msg env' rg' Ht i Hi.
    destruct (tomsg_spec _ _ _ _ _ _ _ _ _ Ht) as (_ & _ & _ & _ & _ & H).
    destruct (H i Hi) as (p & k & ck & rg1 & rg2 & H1 & H2 & H3 & H4).
    destruct (copy_rrset_spec _ _ _ _ _ H3) as (_ & _ & _ & _ & _ & _ & G1 & G2).
    exists p, k, ck. auto.
  - intros t now'. apply u32_add_sub.
Qed.

(** *** Looking a message up *)

Lemma query_info_compare_eq (a b : query_info) :
  query_info_compare a b = 0 <-> (fun x => x) a = (fun x => x) b.
Proof.
  unfold query_info_compare. destruct (decide (a = b)) as [E|N]; cbn; split;
    intros H; try reflexivity; try discriminate; try exact E;
    exfalso; apply N; exact H.
Qed.

Lemma ub_rrset_compare_eq (a b : ub_packed_rrset_key) :
  ub_rrset_compare a b = 0 <-> rk a = rk b.
Proof.
  unfold ub_rrset_compare. destruct (decide (rk a = rk b)) as [E|N]; split;
    intros H; try reflexivity; try discriminate; try exact E;
    exfalso; apply N; exact H.
Qed.

Lemma tomsg_copy_ext (env0 env : module_env) (r : cached_reply)
    (idx : list nat) (arr : list (option rrset_entry)) (rg : region)
    (now : Z) :
  (forall p, rrset_deref env0 p = rrset_deref env p) ->
  tomsg_copy env0 r idx arr rg now = tomsg_copy env r idx arr rg now.
Proof.
  intros H. revert arr rg. induction idx as [|i idx IH]; intros arr rg;
    cbn [tomsg_copy]; [reflexivity|].
  destruct (rrsets r !! i) as [p|]; cbn [mbind option_bind]; [|reflexivity].
  rewrite H. destruct (rrset_deref env p) as [k|]; [|reflexivity].
  destruct (copy_rrset k rg now) as [[ck|] rg1]; [apply IH|reflexivity].
Qed.

Lemma tomsg_msg_cache (env : module_env) (mc : slabhash query_info
                                                  (reply_info positive))
    (e : query_info) (r : cached_reply) (rg : region) (now : Z)
    (scratch : region) :
  outcome (tomsg (set_msg_cache env mc) e r rg now scratch)
  = outcome (tomsg env e r rg now scratch).
Proof.
  unfold tomsg.
  change (rrset_array_lock (set_msg_cache env mc)) with (rrset_array_lock env).
  destruct (now >? rep_ttl r); [reflexivity|].
  destruct (region_alloc rg) as [[?|] rg1]; [|reflexivity].
  destruct (region_alloc rg1) as [[?|] rg2]; [|reflexivity].
  destruct (region_alloc rg2) as [[?|] rg3]; [|reflexivity].
  destruct (region_alloc rg3) as [[?|] rg4]; [|reflexivity].
  destruct (rrset_array_lock _ (ref r) (rrset_count r) now); cbn [negb];
    [|reflexivity].
  rewrite (tomsg_copy_ext (set_msg_cache env mc) env)
    by (intros q; reflexivity).
  destruct (tomsg_copy env r _ _ rg4 now) as [[arr|] rg5]; reflexivity.
Qed.

Lemma tomsg_outcome_ext (env0 env : module_env)
    (e : query_info) (r : cached_reply) (rg : region) (now : Z)
    (scratch : region) :
  rrset_cache env0 = rrset_cache env -> alloc env0 = alloc env ->
  outcome (tomsg env0 e r rg now scratch)
  = outcome (tomsg env e r rg now scratch).
Proof.
  destruct env0 as [m0 c0 a0 h0], env as [m c a h]. cbn. intros -> ->.
  unfold tomsg.
  change (rrset_array_lock {| msg_cache := m0; rrset_cache := c;
                              alloc := a; heap := h0 |})
    with (rrset_array_lock {| msg_cache := m; rrset_cache := c;
                              alloc := a; heap := h |}).
  destruct (now >? rep_ttl r); [reflexivity|].
  destruct (region_alloc rg) as [[?|] rg1]; [|reflexivity].
  destruct (region_alloc rg1) as [[?|] rg2]; [|reflexivity].
  destruct (region_alloc rg2) as [[?|] rg3]; [|reflexivity].
  destruct (region_alloc rg3) as [[?|] rg4]; [|reflexivity].
  destruct (rrset_array_lock _ (ref r) (rrset_count r) now); cbn [negb];
    [|reflexivity].
  rewrite (tomsg_copy_ext {| msg_cache := m0; rrset_cache := c;
                             alloc := a; heap := h0 |}
             {| msg_cache := m; rrset_cache := c; alloc := a; heap := h |})
    by (intros q; reflexivity).
  destruct (tomsg_copy _ r _ _ rg4 now) as [[arr|] rg5]; reflexivity.
Qed.

Lemma tomsg_None_env (env : module_env) (e : query_info) (r : cached_reply)
    (rg : region) (now : Z) (scratch : region) :
  fst (fst (tomsg env e r rg now scratch)) = None ->
  snd (fst (tomsg env e r rg now scratch)) = env.
Proof.
  unfold tomsg. repeat (case_match; try reflexivity). discriminate.
Qed.

(** A lookup with its conversion, in terms of what the cache holds. *)
Lemma lookup_tomsg_peek (env : module_env) (k : query_info) (rg : region)
    (now : Z) (scratch : region) :
  outcome (lookup_tomsg query_info_hash env k rg now scratch)
  = match msg_peek query_info_hash env k with
    | Some e => outcome (tomsg env (key e) (data e) rg now scratch)
    | None => (None, rg)
    end.
Proof.
  unfold lookup_tomsg, msg_peek.
  rewrite <- (slabhash_lookup_fst query_info_compare).
  destruct (slabhash_lookup query_info_compare (msg_cache env)
              (query_info_hash k) k) as [[e|] mc]; cbn [fst].
  - apply tomsg_msg_cache.
  - reflexivity.
Qed.

Lemma lookup_tomsg_None_env (env : module_env) (k : query_info)
    (rg : region) (now : Z) (scratch : region) :
  fst (fst (lookup_tomsg query_info_hash env k rg now scratch)) = None ->
  snd (fst (lookup_tomsg query_info_hash env k rg now scratch))
  = set_msg_cache env
      (snd (slabhash_lookup query_info_compare (msg_cache env)
              (query_info_hash k) k)).
Proof.
  unfold lookup_tomsg.
  destruct (slabhash_lookup query_info_compare (msg_cache env)
              (query_info_hash k) k) as [[e|] mc]; cbn [snd].
  - apply tomsg_None_env.
  - reflexivity.
Qed.

(** The touch of one lookup does not change what the next lookup
    returns. *)
Lemma lookup_tomsg_after_touch (env : module_env) (k k' : query_info)
    (rg : region) (now : Z) (scratch : region) :
  outcome (lookup_tomsg query_info_hash
             (set_msg_cache env
                (snd (slabhash_lookup query_info_compare (msg_cache env)
                        (query_info_hash k) k)))
             k' rg now scratch)
  = outcome (lookup_tomsg query_info_hash env k' rg now scratch).
Proof.
  rewrite !lookup_tomsg_peek. unfold msg_peek. cbn [msg_cache set_msg_cache].
  rewrite (slabhash_peek_lookup query_info_compare _ query_info_compare_eq).
  destruct (slabhash_peek _ _ _ _) as [e|]; [|reflexivity].
  apply tomsg_msg_cache.
Qed.

Lemma msg_peek_key (env : module_env) (k : query_info)
    (e : lruhash_entry query_info (reply_info positive)) :
  msg_peek query_info_hash env k = Some e -> key e = k.
Proof.
  unfold msg_peek, slabhash_peek.
  destruct (array (msg_cache env) !! _) as [t|]; cbn; [|discriminate].
  rewrite lruhash_peek_find. intros H. apply List.find_some in H as [_ H].
  apply (entry_matches_key query_info_compare _ query_info_compare_eq) in H.
  apply H.
Qed.

(** [dns_cache_lookup] is the first lookup, and on its failure the
    lookup of the CNAME. *)
Lemma dns_cache_lookup_outcome (env : module_env) (qname : list byte)
    (qnamelen qtype qclass : Z) (rg scratch : region) (now : Z) :
  let k := {| qname := name_at qname qnamelen; qtype := qtype;
              qclass := qclass |} in
  let kc := {| qname := name_at qname qnamelen;
               qtype := LDNS_RR_TYPE_CNAME; qclass := qclass |} in
  let first := lookup_tomsg query_info_hash env k rg now scratch in
  outcome (dns_cache_lookup query_info_hash env qname qnamelen qtype qclass
             rg scratch now)
  = match fst (fst first) with
    | Some m => outcome first
    | None => outcome (lookup_tomsg query_info_hash env kc (snd first)
                         now scratch)
    end.
Proof.
  intros k kc first. unfold dns_cache_lookup. fold k kc. fold first.
  pose proof (lookup_tomsg_None_env env k rg now scratch) as Henv.
  fold first in Henv.
  destruct first as [[[m|] env1] rg1]; cbn [fst snd] in *; [reflexivity|].
  rewrite (Henv eq_refl).
  rewrite <- (lookup_tomsg_after_touch env k kc rg1 now scratch).
  destruct (lookup_tomsg query_info_hash _ kc rg1 now scratch)
    as [[[m|] env2] rg2]; reflexivity.
Qed.

(** C10: when the entry for (qname, qtype, qclass) is missing, has
    expired or is not converted, [dns_cache_lookup] makes a second
    lookup, for (qname, CNAME, qclass), in the region as the first
    attempt left it, and returns the cached CNAME reply when that one
    is converted; the result is NULL only when both lookups fail. *)
Theorem dns_cache_lookup_cname_fallback (env : module_env)
    (qname : list byte) (qnamelen qtype qclass : Z) (rg scratch : region)
    (now : Z) :
  let k := {| qname := name_at qname qnamelen; qtype := qtype;
              qclass := qclass |} in
  let kc := {| qname := name_at qname qnamelen;
               qtype := LDNS_RR_TYPE_CNAME; qclass := qclass |} in
  let first := lookup_tomsg query_info_hash env k rg now scratch in
  let result := dns_cache_lookup query_info_hash env qname qnamelen
                  qtype qclass rg scratch now in
  (* the first lookup fails on a miss and on an expired entry, and is
     otherwise the conversion of the entry *)
  (msg_peek query_info_hash env k = None -> outcome first = (None, rg))
  /\ (forall e, msg_peek query_info_hash env k = Some e ->
        (rep_ttl (data e) < now -> outcome first = (None, rg))
        /\ outcome first = outcome (tomsg env k (data e) rg now scratch))
  (* when it fails, the CNAME entry is looked up and converted *)
  /\ (fst (fst first) = None ->
        outcome result
        = match msg_peek query_info_hash env kc with
          | Some ec => outcome (tomsg env kc (data ec) (snd first) now scratch)
          | None => (None, snd first)
          end)
  /\ (forall m, fst (fst first) = None -> fst (fst result) = Some m ->
        qinfo m = kc
        /\ exists ec, msg_peek query_info_hash env kc = Some ec
                      /\ rep_ttl (rep m) = rep_ttl (data ec)
                      /\ now <= rep_ttl (data ec))
  (* when it succeeds, its message is the answer *)
  /\ (forall m, fst (fst first) = Some m -> outcome result = outcome first)
  (* NULL only when both lookups fail *)
  /\ (fst (fst result) = None <->
      fst (fst first) = None
      /\ fst (fst (lookup_tomsg query_info_hash env kc (snd first)
                     now scratch)) = None).
Proof.
  intros k kc first result.
  pose proof (dns_cache_lookup_outcome env qname qnamelen qtype qclass
                rg scratch now) as Hout.
  cbv zeta in Hout. fold k kc first result in Hout.
  pose proof (lookup_tomsg_peek env k rg now scratch) as Hfirst.
  fold first in Hfirst.
  pose proof (lookup_tomsg_peek env kc (snd first) now scratch) as Hsecond.
  clearbody result first k kc.
  split; [|split; [|split; [|split; [|split]]]].
  - intros Hmiss. rewrite Hfirst, Hmiss. reflexivity.
  - intros e He. pose proof (msg_peek_key env k e He) as Hk.
    rewrite Hfirst, He, Hk. split; [|reflexivity].
    intros Hexp. rewrite (tomsg_expired env k (data e) rg now scratch Hexp).
    reflexivity.
  - intros Hnone. rewrite Hout, Hnone, Hsecond.
    destruct (msg_peek query_info_hash env kc) as [ec|] eqn:Hc;
      [|reflexivity].
    rewrite (msg_peek_key env kc ec Hc). reflexivity.
  - intros m Hnone Hm. rewrite Hnone, Hsecond in Hout.
    destruct (msg_peek query_info_hash env kc) as [ec|] eqn:Hc.
    + rewrite (msg_peek_key env kc ec Hc) in Hout.
      unfold outcome in Hout. rewrite Hm in Hout.
      destruct (tomsg env kc (data ec) (snd first) now scratch)
        as [[m' env'] rg'] eqn:Ht.
      cbn [fst snd] in Hout. injection Hout as <- _.
      destruct (tomsg_spec _ _ _ _ _ _ _ _ _ Ht) as (H1 & H2 & H3 & _).
      split; [exact H2|]. exists ec. auto.
    + unfold outcome in Hout. rewrite Hm in Hout. discriminate.
  - intros m Hm. rewrite Hout, Hm. reflexivity.
  - unfold outcome in Hout.
    destruct (fst (fst first)) as [m|] eqn:Hf.
    + injection Hout as Hr _. rewrite Hr.
      split; [discriminate|intros [? _]; discriminate].
    + injection Hout as Hr _. rewrite Hr. split; [auto|intros [_ H]; exact H].
Qed.

(** C1, as the code has it: a cached reply whose absolute TTL is
    before [now] is treated as absent.  [tomsg] builds no message from
    it and allocates nothing, and [dns_cache_lookup] returns what the
    lookup of the CNAME returns, which is also what it returns from any
    cache that has no entry for the query and is otherwise the same. *)
Theorem expired_reply_treated_as_absent (env : module_env)
    (qname : list byte) (qnamelen qtype qclass : Z) (rg scratch : region)
    (now : Z) (e : lruhash_entry query_info (reply_info positive)) :
  let k := {| qname := name_at qname qnamelen; qtype := qtype;
              qclass := qclass |} in
  let kc := {| qname := name_at qname qnamelen;
               qtype := LDNS_RR_TYPE_CNAME; qclass := qclass |} in
  msg_peek query_info_hash env k = Some e ->
  rep_ttl (data e) < now ->
  tomsg env (key e) (data e) rg now scratch = (None, env, rg)
  /\ outcome (dns_cache_lookup query_info_hash env qname qnamelen
                qtype qclass rg scratch now)
     = outcome (lookup_tomsg query_info_hash env kc rg now scratch)
  /\ forall env0,
       msg_peek query_info_hash env0 k = None ->
       msg_peek query_info_hash env0 kc = msg_peek query_info_hash env kc ->
       rrset_cache env0 = rrset_cache env -> alloc env0 = alloc env ->
       outcome (dns_cache_lookup query_info_hash env0 qname qnamelen
                  qtype qclass rg scratch now)
       = outcome (dns_cache_lookup query_info_hash env qname qnamelen
                    qtype qclass rg scratch now).
Proof.
  intros k kc He Hexp.
  assert (Hgen : forall env',
    outcome (dns_cache_lookup query_info_hash env' qname qnamelen
               qtype qclass rg scratch now)
    = match fst (fst (lookup_tomsg query_info_hash env' k rg now scratch)) with
      | Some m => outcome (lookup_tomsg query_info_hash env' k rg now scratch)
      | None =>
          outcome (lookup_tomsg query_info_hash env' kc
                     (snd (lookup_tomsg query_info_hash env' k rg now scratch))
                     now scratch)
      end)
    by (intros env'; apply dns_cache_lookup_outcome).
  clearbody k kc.
  assert (Hmiss_like : forall env',
    outcome (lookup_tomsg query_info_hash env' k rg now scratch) = (None, rg) ->
    outcome (dns_cache_lookup query_info_hash env' qname qnamelen
               qtype qclass rg scratch now)
    = outcome (lookup_tomsg query_info_hash env' kc rg now scratch)).
  { intros env' Hfirst. rewrite Hgen.
    unfold outcome in Hfirst. injection Hfirst as -> ->. reflexivity. }
  assert (Hmine :
    outcome (dns_cache_lookup query_info_hash env qname qnamelen
               qtype qclass rg scratch now)
    = outcome (lookup_tomsg query_info_hash env kc rg now scratch)).
  { apply Hmiss_like. rewrite lookup_tomsg_peek, He.
    rewrite (tomsg_expired _ _ _ _ _ _ Hexp). reflexivity. }
  split; [apply tomsg_expired; exact Hexp|]. split; [exact Hmine|].
  intros env0 Hmiss Hsame Hrc Hal.
  rewrite Hmine, Hmiss_like by (rewrite lookup_tomsg_peek, Hmiss; reflexivity).
  rewrite !lookup_tomsg_peek, Hsame.
  destruct (msg_peek query_info_hash env kc) as [ec|]; [|reflexivity].
  apply tomsg_outcome_ext; assumption.
Qed.

(** *** Finding the delegation *)

Lemma dname_strip_length (n : list byte) :
  n <> [] -> (length (dname_strip n) < length n)%nat.
Proof.
  destruct n as [|lab rest]; [congruence|]. intros _.
  unfold dname_strip. rewrite length_drop. cbn [length]. lia.
Qed.

Lemma dname_valid_loop_fuel (f1 f2 : nat) (n : list byte) :
  (length n <= f1)%nat -> (length n <= f2)%nat ->
  dname_valid_loop f1 n = dname_valid_loop f2 n.
Proof.
  revert f2 n. induction f1 as [|f1 IH]; intros f2 n H1 H2.
  - destruct n; [|cbn in H1; lia]. destruct f2; reflexivity.
  - destruct n as [|lab rest]; [destruct f2; reflexivity|].
    destruct f2 as [|f2]; [cbn in H2; lia|].
    cbn [dname_valid_loop].
    destruct (Nat.eqb (Byte.to_nat lab) 0); [reflexivity|].
    f_equal. pose proof (dname_strip_length (lab :: rest) ltac:(congruence)).
    cbn [length] in *. apply IH; lia.
Qed.

Lemma dname_suffixes_loop_fuel (f1 f2 : nat) (n : list byte) :
  (length n <= f1)%nat -> (length n <= f2)%nat ->
  dname_suffixes_loop f1 n = dname_suffixes_loop f2 n.
Proof.
  revert f2 n. induction f1 as [|f1 IH]; intros f2 n H1 H2.
  - destruct n; [|cbn in H1; lia]. destruct f2; reflexivity.
  - destruct n as [|lab rest]; [destruct f2; reflexivity|].
    destruct f2 as [|f2]; [cbn in H2; lia|].
    cbn [dname_suffixes_loop].
    destruct (Nat.eqb (Byte.to_nat lab) 0); [reflexivity|].
    f_equal. pose proof (dname_strip_length (lab :: rest) ltac:(congruence)).
    cbn [length] in *. apply IH; lia.
Qed.

(** The suffixes of a name are suffixes of it, each longer than the
    next. *)
Lemma dname_suffixes_loop_suffix (f : nat) (n s : list byte) :
  s ∈ dname_suffixes_loop f n -> s `suffix_of` n.
Proof.
  revert n. induction f as [|f IH]; intros n; cbn [dname_suffixes_loop].
  - intros H. inversion H.
  - destruct n as [|lab rest]; [intros H; inversion H|].
    intros H. apply elem_of_cons in H as [->|H]; [reflexivity|].
    destruct (Nat.eqb (Byte.to_nat lab) 0); [inversion H|].
    apply IH in H. etrans; [exact H|]. unfold dname_strip.
    apply suffix_drop.
Qed.

Lemma dname_suffixes_loop_lengths (f : nat) (n : list byte) (i : nat)
    (s : list byte) :
  dname_suffixes_loop f n !! i = Some s -> (length s + i <= length n)%nat.
Proof.
  revert n i. induction f as [|f IH]; intros n i; cbn [dname_suffixes_loop];
    [discriminate|].
  destruct n as [|lab rest]; [discriminate|].
  destruct i as [|i]; cbn [lookup list_lookup].
  - intros [= <-]. lia.
  - destruct (Nat.eqb (Byte.to_nat lab) 0); [discriminate|].
    intros H. apply IH in H.
    pose proof (dname_strip_length (lab :: rest) ltac:(congruence)). lia.
Qed.

Lemma dname_suffixes_loop_decreasing (f : nat) (n : list byte) (i j : nat)
    (s s' : list byte) :
  dname_suffixes_loop f n !! i = Some s ->
  dname_suffixes_loop f n !! j = Some s' ->
  (i < j)%nat -> (length s' < length s)%nat.
Proof.
  revert n i j. induction f as [|f IH]; intros n i j;
    cbn [dname_suffixes_loop]; [discriminate|].
  destruct n as [|lab rest]; [discriminate|].
  destruct j as [|j]; [lia|]. destruct i as [|i]; cbn [lookup list_lookup].
  - intros [= <-].
    destruct (Nat.eqb (Byte.to_nat lab) 0); [discriminate|].
    intros H _. apply dname_suffixes_loop_lengths in H.
    pose proof (dname_strip_length (lab :: rest) ltac:(congruence)). lia.
  - destruct (Nat.eqb (Byte.to_nat lab) 0); [discriminate|].
    intros Hi Hj Hlt. apply (IH _ i j Hi Hj). lia.
Qed.

Lemma first_cached_ns_Some (c : slabhash ub_packed_rrset_key packed_rrset_data)
    (qclass now : Z) (l : list (list byte))
    (e : lruhash_entry ub_packed_rrset_key packed_rrset_data) :
  first_cached_ns rrset_key_hash c qclass now l = Some e ->
  exists i s,
    l !! i = Some s
    /\ rrset_cache_peek rrset_key_hash c s LDNS_RR_TYPE_NS qclass 0 now
       = Some e
    /\ forall j s', (j < i)%nat -> l !! j = Some s' ->
         rrset_cache_peek rrset_key_hash c s' LDNS_RR_TYPE_NS qclass 0 now
         = None.
Proof.
  induction l as [|s l IH]; cbn [first_cached_ns]; [discriminate|].
  destruct (rrset_cache_peek rrset_key_hash c s LDNS_RR_TYPE_NS qclass 0 now)
    as [e'|] eqn:Hs.
  - intros [= ->]. exists 0%nat, s. repeat split; auto. intros j s' Hj. lia.
  - intros H. destruct (IH H) as (i & s0 & Hi & Hp & Hbefore).
    exists (S i), s0. repeat split; auto.
    intros [|j] s'; cbn [lookup list_lookup].
    + intros _ [= <-]. exact Hs.
    + intros Hj. apply Hbefore. lia.
Qed.

Lemma first_cached_ns_None (c : slabhash ub_packed_rrset_key packed_rrset_data)
    (qclass now : Z) (l : list (list byte)) :
  first_cached_ns rrset_key_hash c qclass now l = None ->
  forall s, s ∈ l ->
    rrset_cache_peek rrset_key_hash c s LDNS_RR_TYPE_NS qclass 0 now = None.
Proof.
  induction l as [|s l IH]; cbn [first_cached_ns]; intros H s0 Hs0.
  - inversion Hs0.
  - destruct (rrset_cache_peek rrset_key_hash c s LDNS_RR_TYPE_NS qclass 0
                now) as [e'|] eqn:Hs; [discriminate|].
    apply elem_of_cons in Hs0 as [->|Hs0]; auto.
Qed.

Lemma rrset_cache_lookup_fst
    (c : slabhash ub_packed_rrset_key packed_rrset_data) (n : list byte)
    (ty cl fl now : Z) :
  fst (rrset_cache_lookup rrset_key_hash c n ty cl fl now)
  = rrset_cache_peek rrset_key_hash c n ty cl fl now.
Proof.
  unfold rrset_cache_lookup, rrset_cache_peek.
  rewrite <- (slabhash_lookup_fst ub_rrset_compare).
  destruct (slabhash_lookup _ _ _ _) as [[e|] c']; cbn [fst];
    [destruct (now >? ttl (data e))|]; reflexivity.
Qed.

(** A lookup in the RRset cache touches the LRU and leaves what the
    cache holds as it was. *)
Lemma rrset_cache_peek_lookup
    (c : slabhash ub_packed_rrset_key packed_rrset_data) (n n' : list byte)
    (ty cl fl now ty' cl' fl' now' : Z) :
  rrset_cache_peek rrset_key_hash
    (snd (rrset_cache_lookup rrset_key_hash c n ty cl fl now))
    n' ty' cl' fl' now'
  = rrset_cache_peek rrset_key_hash c n' ty' cl' fl' now'.
Proof.
  unfold rrset_cache_peek at 1. unfold rrset_cache_lookup.
  pose proof (slabhash_peek_lookup ub_rrset_compare rk ub_rrset_compare_eq c)
    as Hp.
  match goal with
  | |- context [slabhash_lookup ub_rrset_compare c ?h ?k] =>
      specialize (Hp h); specialize (fun h' k' => Hp h' k k');
      destruct (slabhash_lookup ub_rrset_compare c h k) as [[e|] c']
  end; cbn [snd] in *;
    [destruct (now >? ttl (data e))|]; cbn [snd]; rewrite Hp; reflexivity.
Qed.

Lemma rrset_cache_peek_key
    (c : slabhash ub_packed_rrset_key packed_rrset_data) (n : list byte)
    (ty cl fl now : Z)
    (e : lruhash_entry ub_packed_rrset_key packed_rrset_data) :
  rrset_cache_peek rrset_key_hash c n ty cl fl now = Some e ->
  rk (key e) = {| rk_dname := n; rk_flags := fl; rk_type := ty;
                  rk_class := cl |}
  /\ now <= ttl (data e).
Proof.
  unfold rrset_cache_peek, slabhash_peek.
  destruct (array c !! _) as [t|]; cbn [mbind option_bind]; [|discriminate].
  rewrite lruhash_peek_find.
  destruct (List.find _ (lru t)) as [e'|] eqn:Hf; [|discriminate].
  destruct (Z.gtb_spec now (ttl (data e'))); [discriminate|].
  intros [= <-]. apply List.find_some in Hf as [_ Hf].
  apply (entry_matches_key ub_rrset_compare rk ub_rrset_compare_eq) in Hf.
  split; [apply Hf|lia].
Qed.

(** The walk of [find_deleg_ns] over a well-formed name visits the
    name and its ancestors, the longest first, and returns the first
    one for which the cache holds an unexpired NS set. *)
Lemma find_deleg_ns_loop_spec (qclass now : Z) (f : nat) (n : list byte)
    (c c0 : slabhash ub_packed_rrset_key packed_rrset_data) :
  n = [] \/ dname_valid_loop f n = true ->
  Z.of_nat (length n) < 2 ^ 64 ->
  (forall s ty cl fl nw,
      rrset_cache_peek rrset_key_hash c s ty cl fl nw
      = rrset_cache_peek rrset_key_hash c0 s ty cl fl nw) ->
  fst (find_deleg_ns_loop rrset_key_hash (S f) c n (Z.of_nat (length n))
         qclass now)
  = first_cached_ns rrset_key_hash c0 qclass now (dname_suffixes_loop f n)
  /\ forall s ty cl fl nw,
       rrset_cache_peek rrset_key_hash
         (snd (find_deleg_ns_loop rrset_key_hash (S f) c n
                 (Z.of_nat (length n)) qclass now)) s ty cl fl nw
       = rrset_cache_peek rrset_key_hash c0 s ty cl fl nw.
Proof.
  revert n c. induction f as [|f IH]; intros n c Hv Hlen Heq.
  - destruct Hv as [->|Hv]; [|discriminate]. cbn. auto.
  - destruct n as [|lab rest].
    { cbn. auto. }
    destruct Hv as [Hv|Hv]; [discriminate|].
    cbn [find_deleg_ns_loop].
    assert (Hpos : (0 <? Z.of_nat (length (lab :: rest))) = true)
      by (apply Z.ltb_lt; cbn [length]; lia).
    rewrite Hpos.
    assert (Hname : name_at (lab :: rest) (Z.of_nat (length (lab :: rest)))
                    = lab :: rest)
      by (unfold name_at; rewrite Nat2Z.id; apply take_ge; lia).
    rewrite Hname.
    pose proof (rrset_cache_lookup_fst c (lab :: rest) LDNS_RR_TYPE_NS
                  qclass 0 now) as Hfst.
    pose proof (fun s ty cl fl nw =>
                  rrset_cache_peek_lookup c (lab :: rest) s
                    LDNS_RR_TYPE_NS qclass 0 now ty cl fl nw) as Hsnd.
    destruct (rrset_cache_lookup rrset_key_hash c (lab :: rest)
                LDNS_RR_TYPE_NS qclass 0 now) as [r c'].
    cbn [fst snd] in Hfst, Hsnd.
    rewrite Heq in Hfst.
    cbn [dname_suffixes_loop first_cached_ns]. rewrite <- Hfst.
    assert (Heq' : forall s ty cl fl nw,
               rrset_cache_peek rrset_key_hash c' s ty cl fl nw
               = rrset_cache_peek rrset_key_hash c0 s ty cl fl nw)
      by (intros; rewrite Hsnd; apply Heq).
    destruct r as [e|]; [cbn [fst snd]; auto|].
    cbn [dname_valid_loop] in Hv.
    change (drop (Byte.to_nat lab + 1) (lab :: rest))
      with (dname_strip (lab :: rest)).
    destruct (Nat.eqb_spec (Byte.to_nat lab) 0) as [Hz|Hnz].
    + destruct rest; [|discriminate].
      unfold dname_strip. rewrite Hz. cbn [Nat.add drop length].
      change (usize (Z.of_nat 1 - Z.of_nat 1)) with 0.
      destruct f; cbn; auto.
    + apply andb_true_iff in Hv as [Hlab Hv]. apply Nat.leb_le in Hlab.
      assert (Hl : usize (Z.of_nat (length (lab :: rest))
                          - Z.of_nat (Byte.to_nat lab + 1))
                   = Z.of_nat (length (dname_strip (lab :: rest)))).
      { unfold dname_strip. rewrite length_drop. cbn [length] in *.
        unfold usize. rewrite Z.mod_small; lia. }
      rewrite Hl.
      apply IH; [right; exact Hv| |exact Heq'].
      pose proof (dname_strip_length (lab :: rest) ltac:(congruence)). lia.
Qed.

Lemma find_deleg_ns_spec (qclass now : Z) (n : list byte)
    (c : slabhash ub_packed_rrset_key packed_rrset_data) :
  dname_valid n = true ->
  fst (find_deleg_ns rrset_key_hash c n (Z.of_nat (length n)) qclass now)
  = first_cached_ns rrset_key_hash c qclass now (dname_suffixes n).
Proof.
  unfold dname_valid, find_deleg_ns, dname_suffixes. intros Hv.
  apply andb_true_iff in Hv as [Hlen Hv]. apply Nat.leb_le in Hlen.
  apply find_deleg_ns_loop_spec; [right; exact Hv| |reflexivity].
  assert (255 < 2 ^ 64) by reflexivity. lia.
Qed.

Lemma delegpt_add_names_name (rds : list (list byte)) (dp : delegpt)
    (rg : region) :
  dp_name (snd (fst (delegpt_add_names dp rg rds))) = dp_name dp.
Proof.
  revert dp rg. induction rds as [|rd rds IH]; intros dp rg;
    cbn [delegpt_add_names]; [reflexivity|].
  destruct (region_alloc rg) as [[a|] rg1]; [|reflexivity].
  rewrite IH. reflexivity.
Qed.

Lemma delegpt_add_targets_name (rds : list (list byte)) (dp : delegpt)
    (rg : region) :
  dp_name (snd (fst (delegpt_add_targets dp rg rds))) = dp_name dp.
Proof.
  revert dp rg. induction rds as [|rd rds IH]; intros dp rg;
    cbn [delegpt_add_targets]; [reflexivity|].
  destruct (region_alloc rg) as [[a|] rg1]; [|reflexivity].
  rewrite IH. reflexivity.
Qed.

Lemma find_add_addr_name (qclass now rrtype : Z) (ns : list byte)
    (st : deleg_state) :
  dp_name (ds_dp (snd (find_add_addr rrset_key_hash qclass now rrtype ns st)))
  = dp_name (ds_dp st).
Proof.
  unfold find_add_addr.
  destruct (rrset_cache_lookup _ _ _ _ _ _ _) as [[akey|] c]; [|reflexivity].
  unfold delegpt_add_rrset_A.
  pose proof (delegpt_add_targets_name
                (take (count (data akey)) (rr_data (data akey)))
                (ds_dp st) (ds_rg st)) as H.
  destruct (delegpt_add_targets _ _ _) as [[[|] dp] rg]; cbn [fst snd] in H.
  - destruct (ds_msg st) as [m|].
    + destruct (addr_to_additional akey rg m now). exact H.
    + exact H.
  - exact H.
Qed.

Lemma find_add_addrs_loop_name (qclass now : Z) (nss : list (list byte))
    (st : deleg_state) :
  dp_name (ds_dp (snd (find_add_addrs_loop rrset_key_hash qclass now nss st)))
  = dp_name (ds_dp st).
Proof.
  revert st. induction nss as [|ns nss IH]; intros st;
    cbn [find_add_addrs_loop]; [reflexivity|].
  pose proof (find_add_addr_name qclass now LDNS_RR_TYPE_A ns st) as H1.
  destruct (find_add_addr rrset_key_hash qclass now LDNS_RR_TYPE_A ns st)
    as [[|] st1]; cbn [snd] in H1; [|exact H1].
  pose proof (find_add_addr_name qclass now LDNS_RR_TYPE_AAAA ns st1) as H2.
  destruct (find_add_addr rrset_key_hash qclass now LDNS_RR_TYPE_AAAA ns st1)
    as [[|] st2]; cbn [snd] in H2; [|cbn [snd]; congruence].
  rewrite IH. congruence.
Qed.

Lemma find_add_ds_name (now : Z) (msg : dns_msg) (st : deleg_state) :
  ds_dp (find_add_ds rrset_key_hash now msg st) = ds_dp st.
Proof.
  unfold find_add_ds.
  destruct (rrset_cache_lookup _ _ _ LDNS_RR_TYPE_DS _ _ _) as [[r|] c].
  - destruct (copy_rrset r (ds_rg st) now). reflexivity.
  - destruct (rrset_cache_lookup _ _ _ LDNS_RR_TYPE_NSEC _ _ _) as [[r|] c'].
    + destruct (copy_rrset r (ds_rg st) now). reflexivity.
    + reflexivity.
Qed.

(** A delegation point that is returned carries the owner name of the
    NS set that [find_deleg_ns] found. *)
Lemma find_delegation_name (env : module_env) (qname : list byte)
    (qnamelen qtype qclass : Z) (rg : region) (want_msg : bool) (now : Z)
    (dp : delegpt) (m : option dns_msg) :
  fst (fst (dns_cache_find_delegation rrset_key_hash env qname qnamelen
              qtype qclass rg want_msg now)) = Some (dp, m) ->
  exists nskey,
    fst (find_deleg_ns rrset_key_hash (rrset_cache env) qname qnamelen
           qclass now) = Some nskey
    /\ dp_name dp = rk_dname (rk (key nskey)).
Proof.
  unfold dns_cache_find_delegation.
  destruct (find_deleg_ns rrset_key_hash (rrset_cache env) qname qnamelen
              qclass now) as [[nskey|] c]; [|discriminate].
  cbn [fst]. unfold delegpt_create, delegpt_set_name.
  destruct (region_alloc rg) as [[a1|] rg1]; [|discriminate].
  destruct (region_alloc rg1) as [[a2|] rg2]; [|discriminate].
  set (dp0 := {| dp_name := rk_dname (rk (key nskey)); nslist := _;
                 target_list := _ |}).
  assert (exists mres rg3,
            (if want_msg
             then match create_msg qname qnamelen qtype qclass rg2 nskey now
                  with
                  | (None, rg) => (None, rg)
                  | (Some m, rg) => (Some (Some m), rg)
                  end
             else (Some None, rg2)) = (mres, rg3)) as (mres & rg3 & ->)
    by (destruct (if want_msg then _ else _); eauto).
  destruct mres as [msg|]; [|discriminate].
  unfold delegpt_rrset_add_ns.
  pose proof (delegpt_add_names_name
                (take (count (data nskey)) (rr_data (data nskey))) dp0 rg3)
    as Hn.
  destruct (delegpt_add_names dp0 rg3 _) as [[b dp1] rg4].
  cbn [fst snd] in Hn.
  set (st0 := {| ds_cache := c; ds_rg := rg4; ds_dp := dp1; ds_msg := msg |}).
  set (st1 := match msg with
              | Some m0 => find_add_ds rrset_key_hash now m0 st0
              | None => st0
              end).
  assert (Hst1 : ds_dp st1 = dp1)
    by (subst st1; destruct msg; [apply find_add_ds_name|reflexivity]).
  unfold find_add_addrs.
  pose proof (find_add_addrs_loop_name qclass now (nslist (ds_dp st1)) st1)
    as Hl.
  destruct (find_add_addrs_loop rrset_key_hash qclass now
              (nslist (ds_dp st1)) st1) as [b' st2].
  cbn [fst snd] in *. intros [= <- _].
  exists nskey. split; [reflexivity|]. rewrite Hl, Hst1, Hn. reflexivity.
Qed.

(** With memory for every allocation, a delegation point is returned
    whenever [find_deleg_ns] finds an NS set. *)
Lemma find_delegation_succeeds (env : module_env) (qname : list byte)
    (qnamelen qtype qclass : Z) (rg : region) (want_msg : bool) (now : Z)
    (nskey : lruhash_entry ub_packed_rrset_key packed_rrset_data) :
  script rg = [] ->
  fst (find_deleg_ns rrset_key_hash (rrset_cache env) qname qnamelen
         qclass now) = Some nskey ->
  exists dp m,
    fst (fst (dns_cache_find_delegation rrset_key_hash env qname qnamelen
                qtype qclass rg want_msg now)) = Some (dp, m).
Proof.
  intros Hrg. unfold dns_cache_find_delegation.
  destruct (find_deleg_ns rrset_key_hash (rrset_cache env) qname qnamelen
              qclass now) as [[nskey'|] c]; [|discriminate].
  cbn [fst]. intros [= ->]. unfold delegpt_create, delegpt_set_name.
  destruct (region_alloc_Some_script rg Hrg) as (a1 & rg1 & -> & H1).
  destruct (region_alloc_Some_script rg1 H1) as (a2 & rg2 & -> & H2).
  assert (exists msg rg3,
            (if want_msg
             then match create_msg qname qnamelen qtype qclass rg2 nskey now
                  with
                  | (None, rg) => (None, rg)
                  | (Some m, rg) => (Some (Some m), rg)
                  end
             else (Some None, rg2)) = (Some msg, rg3)) as (msg & rg3 & ->).
  { destruct want_msg; [|eauto]. unfold create_msg.
    destruct (region_alloc_Some_script rg2 H2) as (b1 & r1 & -> & G1).
    destruct (region_alloc_Some_script r1 G1) as (b2 & r2 & -> & G2).
    destruct (region_alloc_Some_script r2 G2) as (b3 & r3 & -> & G3).
    destruct (region_alloc_Some_script r3 G3) as (b4 & r4 & -> & G4).
    destruct (copy_rrset_succeeds nskey r4 now G4) as (ck & r5 & -> & G5).
    eauto. }
  destruct (delegpt_rrset_add_ns _ rg3 nskey) as [[b dp1] rg4].
  destruct (find_add_addrs rrset_key_hash qclass now _) as [b' st2].
  cbn [fst]. eauto.
Qed.

Lemma region_has_S (n : nat) (rg : region) :
  region_has (S n) rg
  = match region_alloc rg with
    | (Some _, rg') => region_has n rg'
    | (None, _) => false
    end.
Proof.
  unfold region_has, region_alloc.
  destruct (script rg) as [|[|] s]; cbn [take forallb script andb];
    [rewrite take_nil|..]; reflexivity.
Qed.

(** A delegation point is returned exactly when the region has memory
    for [delegpt_create], for [delegpt_set_name] and, with a message
    asked for, for the seven allocations of [create_msg]. *)
Lemma find_delegation_memory (env : module_env) (qname : list byte)
    (qnamelen qtype qclass : Z) (rg : region) (want_msg : bool) (now : Z)
    (nskey : lruhash_entry ub_packed_rrset_key packed_rrset_data) :
  fst (find_deleg_ns rrset_key_hash (rrset_cache env) qname qnamelen
         qclass now) = Some nskey ->
  if region_has (if want_msg then 9 else 2) rg
  then exists dp m,
         fst (fst (dns_cache_find_delegation rrset_key_hash env qname
                     qnamelen qtype qclass rg want_msg now)) = Some (dp, m)
  else fst (fst (dns_cache_find_delegation rrset_key_hash env qname
                   qnamelen qtype qclass rg want_msg now)) = None.
Proof.
  unfold dns_cache_find_delegation.
  destruct (find_deleg_ns rrset_key_hash (rrset_cache env) qname qnamelen
              qclass now) as [[nskey'|] c]; [|discriminate].
  cbn [fst]. intros [= ->]. unfold delegpt_create, delegpt_set_name.
  destruct want_msg.
  - unfold create_msg, copy_rrset.
    rewrite region_has_S.
    destruct (region_alloc rg) as [[a1|] rg1]; [|reflexivity].
    rewrite region_has_S.
    destruct (region_alloc rg1) as [[a2|] rg2]; [|reflexivity].
    rewrite region_has_S.
    destruct (region_alloc rg2) as [[a3|] rg3]; [|reflexivity].
    rewrite region_has_S.
    destruct (region_alloc rg3) as [[a4|] rg4]; [|reflexivity].
    rewrite region_has_S.
    destruct (region_alloc rg4) as [[a5|] rg5]; [|reflexivity].
    rewrite region_has_S.
    destruct (region_alloc rg5) as [[a6|] rg6]; [|reflexivity].
    rewrite region_has_S.
    destruct (region_alloc rg6) as [[a7|] rg7]; [|reflexivity].
    rewrite region_has_S.
    destruct (region_alloc rg7) as [[a8|] rg8]; [|reflexivity].
    rewrite region_has_S.
    destruct (region_alloc rg8) as [[a9|] rg9]; [|reflexivity].
    change (region_has 0 rg9) with true. cbn iota.
    destruct (delegpt_rrset_add_ns _ rg9 nskey) as [[b dp1] rg10].
    destruct (find_add_addrs rrset_key_hash qclass now _) as [b' st2].
    cbn [fst]. eauto.
  - rewrite region_has_S.
    destruct (region_alloc rg) as [[a1|] rg1]; [|reflexivity].
    rewrite region_has_S.
    destruct (region_alloc rg1) as [[a2|] rg2]; [|reflexivity].
    change (region_has 0 rg2) with true. cbn iota.
    destruct (delegpt_rrset_add_ns _ rg2 nskey) as [[b dp1] rg10].
    destruct (find_add_addrs rrset_key_hash qclass now _) as [b' st2].
    cbn [fst]. eauto.
Qed.
(** C3, as the code has it: for a well-formed qname with a cached,
    unexpired NS set at one of its suffixes, [find_deleg_ns] returns
    the NS set of the longest such suffix.  Every delegation point
    that [dns_cache_find_delegation] returns has that suffix, an
    ancestor of the qname or the qname itself, as its owner name.  One
    is returned exactly when the region has memory for
    [delegpt_create], for [delegpt_set_name] and, with a message asked
    for, for [create_msg]: two allocations, or nine; when one of them
    fails the result is NULL.  An allocation that fails later, while
    the names of the servers or their addresses are added, is only
    logged: the delegation point is returned all the same. *)
Theorem find_delegation_closest_cached_ns (env : module_env)
    (qname : list byte) (qtype qclass : Z) (rg : region) (want_msg : bool)
    (now : Z) :
  dname_valid qname = true ->
  (exists s, s ∈ dname_suffixes qname
             /\ rrset_cache_peek rrset_key_hash (rrset_cache env) s
                  LDNS_RR_TYPE_NS qclass 0 now <> None) ->
  exists i s e,
    dname_suffixes qname !! i = Some s
    /\ s `suffix_of` qname
    /\ rrset_cache_peek rrset_key_hash (rrset_cache env) s
         LDNS_RR_TYPE_NS qclass 0 now = Some e
    /\ rk_dname (rk (key e)) = s
    /\ (forall s', s' ∈ dname_suffixes qname ->
          rrset_cache_peek rrset_key_hash (rrset_cache env) s'
            LDNS_RR_TYPE_NS qclass 0 now <> None ->
          (length s' <= length s)%nat)
    /\ fst (find_deleg_ns rrset_key_hash (rrset_cache env) qname
              (Z.of_nat (length qname)) qclass now) = Some e
    /\ (forall dp m,
          fst (fst (dns_cache_find_delegation rrset_key_hash env qname
                      (Z.of_nat (length qname)) qtype qclass rg want_msg
                      now)) = Some (dp, m) ->
          dp_name dp = s)
    /\ (region_has (if want_msg then 9 else 2) rg = true ->
        exists dp m,
          fst (fst (dns_cache_find_delegation rrset_key_hash env qname
                      (Z.of_nat (length qname)) qtype qclass rg want_msg
                      now)) = Some (dp, m)
          /\ dp_name dp = s)
    /\ (region_has (if want_msg then 9 else 2) rg = false ->
        fst (fst (dns_cache_find_delegation rrset_key_hash env qname
                    (Z.of_nat (length qname)) qtype qclass rg want_msg
                    now)) = None).
Proof.
  intros Hv (s0 & Hs0 & Hc0).
  pose proof (find_deleg_ns_spec qclass now qname (rrset_cache env) Hv)
    as Hfind.
  destruct (first_cached_ns rrset_key_hash (rrset_cache env) qclass now
              (dname_suffixes qname)) as [e|] eqn:Hfirst.
  2: { exfalso. apply Hc0.
       exact (first_cached_ns_None _ _ _ _ Hfirst s0 Hs0). }
  destruct (first_cached_ns_Some _ _ _ _ _ Hfirst) as (i & s & Hi & Hp & Hb).
  destruct (rrset_cache_peek_key _ _ _ _ _ _ _ Hp) as [Hrk _].
  assert (Hname : rk_dname (rk (key e)) = s) by (rewrite Hrk; reflexivity).
  assert (Hdp : forall dp m,
             fst (fst (dns_cache_find_delegation rrset_key_hash env qname
                         (Z.of_nat (length qname)) qtype qclass rg want_msg
                         now)) = Some (dp, m) ->
             dp_name dp = s).
  { intros dp m Hres.
    destruct (find_delegation_name _ _ _ _ _ _ _ _ _ _ Hres)
      as (nskey & Hn & Hd).
    rewrite Hfind in Hn. injection Hn as <-. congruence. }
  exists i, s, e. repeat split; auto.
  - apply (dname_suffixes_loop_suffix (length qname)).
    apply list_elem_of_lookup. exists i. exact Hi.
  - intros s' Hs' Hc'. apply list_elem_of_lookup in Hs' as [j Hj].
    destruct (Nat.lt_ge_cases j i) as [Hlt|Hge].
    + exfalso. apply Hc'. exact (Hb j s' Hlt Hj).
    + destruct (Nat.eq_dec j i) as [->|Hne].
      * unfold dname_suffixes in *. rewrite Hi in Hj. injection Hj as <-. lia.
      * pose proof (dname_suffixes_loop_decreasing _ _ i j s s' Hi Hj
                      ltac:(lia)). lia.
  - intros Hrg.
    pose proof (find_delegation_memory env qname (Z.of_nat (length qname))
                  qtype qclass rg want_msg now e Hfind) as Hmem.
    rewrite Hrg in Hmem. destruct Hmem as (dp & m & Hres).
    exists dp, m. split; [exact Hres|]. exact (Hdp dp m Hres).
  - intros Hrg.
    pose proof (find_delegation_memory env qname (Z.of_nat (length qname))
                  qtype qclass rg want_msg now e Hfind) as Hmem.
    rewrite Hrg in Hmem. exact Hmem.
Qed.

End DnsFacts.

(** ** The scenarios *)

Section ScenarioFacts.
Import Data Slabhash Dns Scenario.

(** The message cache of [env_nodata] holds the reply for [query_a]
    with the absolute TTL 1300. *)
Lemma env_nodata_entry :
  msg_peek qhash env_nodata query_a = Some nodata_entry.
Proof. vm_compute. reflexivity. Qed.

(** A reply whose absolute TTL equals [now] is still served: at time
    1300 the lookup builds a message from the entry whose TTL is 1300,
    where a cache without the entry gives NULL. *)
Lemma reply_at_its_ttl_is_served :
  msg_peek qhash env_nodata query_a = Some nodata_entry
  /\ rep_ttl (data nodata_entry) <= 1300
  /\ fst (fst (tomsg env_nodata (key nodata_entry) (data nodata_entry)
                 memory 1300 memory)) <> None
  /\ (exists m,
        fst (fst (dns_cache_lookup qhash env_nodata www_example_com 17
                    LDNS_RR_TYPE_A IN memory memory 1300)) = Some m
        /\ qinfo m = query_a
        /\ rep_ttl (rep m) = rep_ttl (data nodata_entry))
  /\ fst (fst (dns_cache_lookup qhash empty_env www_example_com 17
                 LDNS_RR_TYPE_A IN memory memory 1300)) = None.
Proof.
  split; [exact env_nodata_entry|].
  split; [vm_compute; discriminate|].
  split; [vm_compute; discriminate|].
  split; [|vm_compute; reflexivity].
  eexists. split; [vm_compute; reflexivity|]. split; reflexivity.
Qed.

Lemma expired_reply_treated_as_absent_witness :
  msg_peek qhash env_nodata query_a = Some nodata_entry
  /\ rep_ttl (data nodata_entry) < 1301
  /\ tomsg env_nodata (key nodata_entry) (data nodata_entry)
       memory 1301 memory = (None, env_nodata, memory)
  /\ outcome (dns_cache_lookup qhash env_nodata www_example_com 17
                LDNS_RR_TYPE_A IN memory memory 1301)
     = outcome (lookup_tomsg qhash env_nodata query_cname memory 1301
                  memory).
Proof.
  assert (H1 : msg_peek qhash env_nodata query_a = Some nodata_entry)
    by (vm_compute; reflexivity).
  assert (H2 : rep_ttl (data nodata_entry) < 1301) by reflexivity.
  split; [exact H1|]. split; [exact H2|].
  destruct (expired_reply_treated_as_absent qhash env_nodata
              www_example_com 17 LDNS_RR_TYPE_A IN memory memory 1301
              nodata_entry H1 H2) as (A & B & _).
  split; [exact A|exact B].
Defined.

(** Without memory in the region no delegation point is returned,
    although the NS set of com is cached and unexpired. *)
Lemma find_delegation_null_without_memory :
  dname_valid www_example_com = true
  /\ com ∈ dname_suffixes www_example_com
  /\ rrset_cache_peek rhash (rrset_cache env_stored) com
       LDNS_RR_TYPE_NS IN 0 1100 <> None
  /\ fst (fst (dns_cache_find_delegation rhash env_stored www_example_com
                 17 LDNS_RR_TYPE_A IN no_memory true 1100)) = None.
Proof.
  split; [reflexivity|].
  split; [apply list_elem_of_lookup; exists 2%nat; reflexivity|].
  split; [vm_compute; discriminate|vm_compute; reflexivity].
Qed.

Lemma find_delegation_closest_cached_ns_witness :
  dname_valid www_example_com = true
  /\ (exists s, s ∈ dname_suffixes www_example_com
                /\ rrset_cache_peek rhash (rrset_cache env_stored) s
                     LDNS_RR_TYPE_NS IN 0 1100 <> None)
  /\ exists dp m,
       fst (fst (dns_cache_find_delegation rhash env_stored
                   www_example_com 17 LDNS_RR_TYPE_A IN memory true 1100))
       = Some (dp, m)
       /\ dp_name dp `suffix_of` www_example_com
       /\ dp_name dp = com.
Proof.
  assert (H1 : dname_valid www_example_com = true) by reflexivity.
  assert (H2 : exists s, s ∈ dname_suffixes www_example_com
                /\ rrset_cache_peek rhash (rrset_cache env_stored) s
                     LDNS_RR_TYPE_NS IN 0 1100 <> None).
  { exists com. split; [apply list_elem_of_lookup; exists 2%nat; reflexivity|].
    vm_compute. discriminate. }
  split; [exact H1|]. split; [exact H2|].
  destruct (find_delegation_closest_cached_ns rhash env_stored
              www_example_com LDNS_RR_TYPE_A IN memory true 1100 H1 H2)
    as (i & s & e & _ & Hsuf & _ & _ & _ & _ & _ & Hok & _).
  destruct (Hok eq_refl) as (dp & m & Hres & Hn).
  exists dp, m. split; [exact Hres|]. split; [rewrite Hn; exact Hsuf|].
  vm_compute in Hres. injection Hres as <- _. reflexivity.
Defined.

Lemma store_msg_ttl_zero_keeps_msg_cache_witness :
  rep_ttl (referral 0) = 0
  /\ msg_cache (fst (dns_cache_store_msg msgsize rrsize env_fresh query_a
                       (qhash query_a) (referral 0) 1000))
     = msg_cache env_fresh
  /\ rrset_cache_peek rhash
       (rrset_cache (fst (dns_cache_store_msg msgsize rrsize env_fresh
                            query_a (qhash query_a) (referral 0) 1000)))
       com LDNS_RR_TYPE_NS IN 0 1000 <> None.
Proof.
  split; [reflexivity|]. split.
  - apply (store_msg_ttl_zero_keeps_msg_cache msgsize rrsize env_fresh
             query_a (qhash query_a) (referral 0) 1000 eq_refl).
  - vm_compute. discriminate.
Defined.

Lemma ttls_stored_absolute_exported_relative_witness :
  rep_ttl (snd (dns_cache_store_msg msgsize rrsize env_fresh query_a
                  (qhash query_a) (referral 300) 1000)) = 1300
  /\ reply_refs_ok env_fresh (referral 300)
  /\ rrset_cache_entries (rrset_cache env_stored) <> []
  /\ (forall e, e ∈ rrset_cache_entries (rrset_cache env_stored) ->
        rk (key e) = rk (key com_ns)
        /\ ttl (data e) = 1300 /\ rr_ttl (data e) = [1300])
  /\ exists m ck,
       fst (fst (dns_cache_lookup qhash env_stored www_example_com 17
                   LDNS_RR_TYPE_A IN memory memory 1100)) = Some m
       /\ rrsets (rep m) !! 0%nat = Some (Some ck)
       /\ ttl (data ck) = 200 /\ rr_ttl (data ck) = [200].
Proof.
  assert (Hwf : reply_refs_ok env_fresh (referral 300)).
  { split; [reflexivity|]. intros i Hi. cbn in Hi.
    destruct i as [|i]; [|lia].
    exists 16%positive. split; [reflexivity|].
    exists com_ns. reflexivity. }
  destruct (ttls_stored_absolute_exported_relative msgsize rrsize
              env_fresh query_a (qhash query_a) (referral 300) 1000)
    as (Httl & _ & Hstore & _).
  destruct (Hstore Hwf) as [_ Hent].
  split; [rewrite Httl; reflexivity|]. split; [exact Hwf|].
  split; [vm_compute; discriminate|]. split.
  - intros e He. destruct (Hent e He) as [Hold|(i & p & k0 & Hi & Hp & Hk & Hrk & Hd)].
    + vm_compute in Hold. inversion Hold.
    + cbn in Hi. destruct i as [|i]; [|lia].
      injection Hp as <-.
      assert (Hk0 : k0 = com_ns)
        by (change (Some com_ns = Some k0) in Hk; congruence).
      subst k0. rewrite Hrk, Hd. repeat split.
  - eexists _, _. split; [vm_compute; reflexivity|].
    split; [reflexivity|]. split; reflexivity.
Defined.

Lemma dns_cache_lookup_cname_fallback_witness :
  msg_peek qhash env_cname query_a = None
  /\ exists m,
       fst (fst (dns_cache_lookup qhash env_cname www_example_com 17
                   LDNS_RR_TYPE_A IN memory memory 1100)) = Some m
       /\ qinfo m = query_cname.
Proof.
  split; [vm_compute; reflexivity|].
  destruct (dns_cache_lookup_cname_fallback qhash env_cname www_example_com
              17 LDNS_RR_TYPE_A IN memory memory 1100)
    as (_ & _ & _ & H & _).
  destruct (fst (fst (dns_cache_lookup qhash env_cname www_example_com 17
                        LDNS_RR_TYPE_A IN memory memory 1100)))
    as [m|] eqn:Hm; [|vm_compute in Hm; discriminate].
  exists m. split; [reflexivity|].
  apply (H m); [vm_compute; reflexivity|reflexivity].
Defined.

Lemma slabhash_insert_swaps_or_evicts_witness :
  (1 <= 32)%nat
  /\ exists t' evs,
       slabhash_insert unit_size Z.sub small_table 0 3 30
       = (with_array small_table (<[0%nat := t']> (array small_table)), evs)
       /\ space_max t' = 2%nat
       /\ lru t' = [{| hash := 0; key := 3; data := 30 |};
                    {| hash := 0; key := 2; data := 20 |}].
Proof.
  assert (H : (1 <= 32)%nat) by (repeat constructor).
  split; [exact H|].
  destruct (slabhash_insert_swaps_or_evicts unit_size Z.sub 1 4
              [op_insert 0 1 10; op_insert 0 2 20] 0 3 30 H)
    as (t & t' & evs & _ & H2 & _ & H4 & _).
  exists t', evs. split; [exact H2|]. split; [exact H4|].
  vm_compute in H2. injection H2 as H2 _.
  rewrite <- H2. reflexivity.
Defined.

End ScenarioFacts.

(** ** The address tree *)

Section AddrtreeBitFacts.
Import Data Addrtree.
Variable KEYWIDTH : Z.
Hypothesis KEYWIDTH_pos : 0 < KEYWIDTH.

Lemma bit_land_1 (x : Z) : Z.land x 1 = 0 \/ Z.land x 1 = 1.
Proof.
  assert (H : Z.land x 1 = x mod 2)
    by (exact (Z.land_ones x 1 ltac:(lia))).
  rewrite H. pose proof (Z.mod_pos_bound x 2 ltac:(lia)). lia.
Qed.

Lemma bit_lxor_shiftr (a b s : Z) :
  Z.land (Z.shiftr (Z.lxor a b) s) 1
  = Z.lxor (Z.land (Z.shiftr a s) 1) (Z.land (Z.shiftr b s) 1).
Proof.
  rewrite Z.shiftr_lxor. apply Z.bits_inj'. intros n Hn.
  rewrite Z.land_spec, !Z.lxor_spec, !Z.land_spec.
  destruct (Z.testbit (Z.shiftr a s) n), (Z.testbit (Z.shiftr b s) n),
    (Z.testbit 1 n); reflexivity.
Qed.

Lemma getbit_01 (addr : list Z) (l n b : Z) :
  getbit KEYWIDTH addr l n = Some b -> b = 0 \/ b = 1.
Proof.
  unfold getbit. destruct (n <? l); [|discriminate].
  destruct (addr !! _) as [w|]; [|discriminate]. cbn.
  intros [= <-]. apply bit_land_1.
Qed.

Lemma cmpbit_getbit (k1 : list Z) (l1 : Z) (k2 : list Z) (l2 n : Z) :
  n < l1 -> n < l2 ->
  cmpbit KEYWIDTH k1 k2 n
  = (b1 ← getbit KEYWIDTH k1 l1 n; b2 ← getbit KEYWIDTH k2 l2 n;
     Some (if b1 =? b2 then 0 else 1)).
Proof.
  intros H1 H2. unfold cmpbit, getbit.
  destruct (Z.ltb_spec n l1); [|lia]. destruct (Z.ltb_spec n l2); [|lia].
  destruct (k1 !! _) as [w1|]; [|reflexivity]. cbn.
  destruct (k2 !! _) as [w2|]; [|reflexivity]. cbn.
  rewrite bit_lxor_shiftr.
  destruct (bit_land_1 (Z.shiftr w1 (KEYWIDTH - 1 - n mod KEYWIDTH)))
    as [-> | ->],
    (bit_land_1 (Z.shiftr w2 (KEYWIDTH - 1 - n mod KEYWIDTH)))
    as [-> | ->]; reflexivity.
Qed.

(** The words that hold [l] bits hold bit [j] for every [j < l]. *)
Lemma nwords_index (l j : Z) :
  0 <= j < l -> (Z.to_nat (j / KEYWIDTH) < Z.to_nat (nwords KEYWIDTH l))%nat.
Proof.
  intros Hj. unfold nwords.
  assert (0 <= j / KEYWIDTH) by (apply Z.div_pos; lia).
  assert (j / KEYWIDTH < l / KEYWIDTH
                         + (if l mod KEYWIDTH =? 0 then 0 else 1)).
  { destruct (Z.eqb_spec (l mod KEYWIDTH) 0) as [Hm|Hm].
    - apply Z.div_lt_upper_bound; [lia|].
      pose proof (Z.div_mod l KEYWIDTH ltac:(lia)). nia.
    - pose proof (Z.div_le_mono j l KEYWIDTH ltac:(lia) ltac:(lia)). lia. }
  lia.
Qed.

Lemma nwords_mono (l l' : Z) :
  0 <= l <= l' -> nwords KEYWIDTH l <= nwords KEYWIDTH l'.
Proof.
  intros H. unfold nwords.
  pose proof (Z.div_le_mono l l' KEYWIDTH ltac:(lia) ltac:(lia)) as Hd.
  destruct (Z.eqb_spec (l mod KEYWIDTH) 0) as [Hm|Hm]; [
    destruct (Z.eqb_spec (l' mod KEYWIDTH) 0); lia|].
  destruct (Z.eqb_spec (l' mod KEYWIDTH) 0) as [Hm'|Hm']; [|lia].
  destruct (Z.eq_dec (l / KEYWIDTH) (l' / KEYWIDTH)) as [Heq|]; [|lia].
  pose proof (Z.div_mod l KEYWIDTH ltac:(lia)).
  pose proof (Z.div_mod l' KEYWIDTH ltac:(lia)).
  pose proof (Z.mod_pos_bound l KEYWIDTH ltac:(lia)). nia.
Qed.

Lemma nwords_nonneg (l : Z) : 0 <= l -> 0 <= nwords KEYWIDTH l.
Proof.
  intros H. unfold nwords.
  pose proof (Z.div_pos l KEYWIDTH ltac:(lia) ltac:(lia)).
  destruct (_ =? _); lia.
Qed.

Lemma getbit_in_range (addr : list Z) (l j : Z) :
  0 <= j < l -> (Z.to_nat (nwords KEYWIDTH l) <= length addr)%nat ->
  exists b, getbit KEYWIDTH addr l j = Some b /\ (b = 0 \/ b = 1).
Proof.
  intros Hj Hl. unfold getbit. destruct (Z.ltb_spec j l); [|lia].
  pose proof (nwords_index l j Hj) as Hi.
  destruct (lookup_lt_is_Some_2 addr (Z.to_nat (j / KEYWIDTH))
              ltac:(lia)) as [w Hw].
  rewrite Hw. cbn. eexists. split; [reflexivity|apply bit_land_1].
Qed.

(** The bit does not depend on the length given for the [assert]. *)
Lemma getbit_len (addr : list Z) (l l' j : Z) :
  j < l -> j < l' -> getbit KEYWIDTH addr l j = getbit KEYWIDTH addr l' j.
Proof.
  intros H H'. unfold getbit.
  destruct (Z.ltb_spec j l); [|lia]. destruct (Z.ltb_spec j l'); [|lia].
  reflexivity.
Qed.

Lemma getbit_take (addr : list Z) (l l' j : Z) :
  0 <= j < l -> j < l' ->
  getbit KEYWIDTH (take (Z.to_nat (nwords KEYWIDTH l)) addr) l j
  = getbit KEYWIDTH addr l' j.
Proof.
  intros Hj H'. unfold getbit.
  destruct (Z.ltb_spec j l); [|lia]. destruct (Z.ltb_spec j l'); [|lia].
  rewrite lookup_take_lt by (apply nwords_index; lia). reflexivity.
Qed.

Lemma bits_common_loop_spec (s1 s2 : list Z) (k : nat) (i : Z) :
  (forall j, i <= j < i + Z.of_nat k ->
     exists c, cmpbit KEYWIDTH s1 s2 j = Some c /\ (c = 0 \/ c = 1)) ->
  exists c,
    bits_common_loop KEYWIDTH s1 s2 k i = Some c
    /\ i <= c <= i + Z.of_nat k
    /\ (forall j, i <= j < c -> cmpbit KEYWIDTH s1 s2 j = Some 0)
    /\ (c < i + Z.of_nat k -> cmpbit KEYWIDTH s1 s2 c = Some 1).
Proof.
  revert i. induction k as [|k IH]; intros i Hr.
  - exists i. cbn. repeat split; try lia; intros; lia.
  - cbn [bits_common_loop].
    destruct (Hr i ltac:(lia)) as (c0 & Hc0 & Hb). rewrite Hc0. cbn.
    destruct Hb as [-> | ->]; cbn.
    + destruct (IH (i + 1)) as (c & Hc & Hle & Heq & Hne).
      { intros j Hj. apply Hr. lia. }
      exists c. split; [exact Hc|]. split; [lia|]. split.
      * intros j Hj. destruct (Z.eq_dec j i) as [->|]; [exact Hc0|].
        apply Heq. lia.
      * intros Hlt. apply Hne. lia.
    + exists i. split; [reflexivity|]. split; [lia|].
      split; [intros; lia|intros _; exact Hc0].
Qed.

Lemma cmpbit_in_range (s1 : list Z) (l1 : Z) (s2 : list Z) (l2 j : Z) :
  0 <= j -> j < l1 -> j < l2 ->
  (Z.to_nat (nwords KEYWIDTH l1) <= length s1)%nat ->
  (Z.to_nat (nwords KEYWIDTH l2) <= length s2)%nat ->
  exists b1 b2,
    getbit KEYWIDTH s1 l1 j = Some b1 /\ getbit KEYWIDTH s2 l2 j = Some b2
    /\ cmpbit KEYWIDTH s1 s2 j = Some (if b1 =? b2 then 0 else 1).
Proof.
  intros H0 H1 H2 Hs1 Hs2.
  destruct (getbit_in_range s1 l1 j ltac:(lia) Hs1) as (b1 & Hb1 & _).
  destruct (getbit_in_range s2 l2 j ltac:(lia) Hs2) as (b2 & Hb2 & _).
  exists b1, b2. split; [exact Hb1|]. split; [exact Hb2|].
  rewrite (cmpbit_getbit s1 l1 s2 l2 j H1 H2), Hb1, Hb2. reflexivity.
Qed.

(** What [bits_common] computes, for keys that hold the bits asked
    for. *)
Lemma bits_common_spec (s1 : list Z) (l1 : Z) (s2 : list Z) (l2 skip : Z) :
  0 <= skip -> skip < l1 -> skip < l2 ->
  (Z.to_nat (nwords KEYWIDTH l1) <= length s1)%nat ->
  (Z.to_nat (nwords KEYWIDTH l2) <= length s2)%nat ->
  exists c,
    bits_common KEYWIDTH s1 l1 s2 l2 skip = Some c
    /\ skip <= c <= Z.min l1 l2
    /\ (forall j, skip <= j < c ->
          getbit KEYWIDTH s1 l1 j = getbit KEYWIDTH s2 l2 j)
    /\ (c < Z.min l1 l2 ->
          getbit KEYWIDTH s1 l1 c <> getbit KEYWIDTH s2 l2 c).
Proof.
  intros H0 H1 H2 Hs1 Hs2. unfold bits_common.
  assert (Hmin : (if l2 <? l1 then l2 else l1) = Z.min l1 l2)
    by (destruct (Z.ltb_spec l2 l1); lia).
  rewrite Hmin. destruct (Z.ltb_spec skip (Z.min l1 l2)); [|lia].
  destruct (bits_common_loop_spec s1 s2
              (Z.to_nat (Z.min l1 l2 - skip)) skip)
    as (c & Hc & Hle & Heq & Hne).
  { intros j Hj.
    destruct (cmpbit_in_range s1 l1 s2 l2 j) as (b1 & b2 & _ & _ & ->);
      try lia; try assumption.
    eexists. split; [reflexivity|]. destruct (b1 =? b2); auto. }
  exists c. split; [exact Hc|]. split; [lia|]. split.
  - intros j Hj.
    destruct (cmpbit_in_range s1 l1 s2 l2 j) as (b1 & b2 & -> & -> & Hcmp);
      try lia; try assumption.
    rewrite (Heq j Hj) in Hcmp.
    destruct (Z.eqb_spec b1 b2); congruence.
  - intros Hlt.
    destruct (cmpbit_in_range s1 l1 s2 l2 c) as (b1 & b2 & -> & -> & Hcmp);
      try lia; try assumption.
    rewrite (Hne ltac:(lia)) in Hcmp.
    destruct (Z.eqb_spec b1 b2); congruence.
Qed.

End AddrtreeBitFacts.

Section AddrtreeFacts.
Import Data Addrtree.
Variable KEYWIDTH : Z.
Hypothesis KEYWIDTH_pos : 0 < KEYWIDTH.
Context {E Env : Type}.

Abbreviation addrnode_ok := (Addrtree.addrnode_ok KEYWIDTH (E := E)).
Abbreviation insert_loop := (Addrtree.insert_loop KEYWIDTH (E := E)).
Abbreviation find_loop := (Addrtree.find_loop KEYWIDTH (E := E)).
Abbreviation getbit := (Addrtree.getbit KEYWIDTH).
Abbreviation nwords := (Addrtree.nwords KEYWIDTH).

(** Induction on the nodes of a tree. *)
Lemma addrnode_induction (P : addrnode E -> Prop) :
  (forall el sc e0 e1,
     match e0 with Some (mk_edge _ _ (Some c)) => P c | _ => True end ->
     match e1 with Some (mk_edge _ _ (Some c)) => P c | _ => True end ->
     P (mk_node el sc e0 e1)) ->
  forall n, P n.
Proof.
  intros H. fix IH 1. intros [el sc e0 e1]. apply H.
  - destruct e0 as [[s l [c|]]|]; [apply IH|exact I|exact I].
  - destruct e1 as [[s l [c|]]|]; [apply IH|exact I|exact I].
Qed.

(** The induction hypothesis for the child behind an edge. *)
Lemma addrnode_induction_child (P : addrnode E -> Prop)
    (n : addrnode E) (index : Z) (e : addredge E) (c : addrnode E) :
  match edge0 n with Some (mk_edge _ _ (Some c)) => P c | _ => True end ->
  match edge1 n with Some (mk_edge _ _ (Some c)) => P c | _ => True end ->
  edge_at n index = Some e -> node e = Some c -> P c.
Proof.
  intros H0 H1 He Hc. unfold edge_at in He.
  destruct (index =? 0); rewrite He in *; destruct e as [s l nd];
    cbn in Hc; subst nd; assumption.
Qed.

Lemma edge_at_set_edge (n : addrnode E) (index : Z) (e : option (addredge E)) :
  edge_at (set_edge n index e) index = e.
Proof. unfold edge_at, set_edge. destruct (index =? 0); reflexivity. Qed.

Lemma edge_at_set_edge_other (n : addrnode E) (i j : Z)
    (e : option (addredge E)) :
  (i = 0 \/ i = 1) -> (j = 0 \/ j = 1) -> i <> j ->
  edge_at (set_edge n i e) j = edge_at n j.
Proof.
  intros [-> | ->] [-> | ->] Hne; try congruence; reflexivity.
Qed.

Lemma elem_set_edge (n : addrnode E) (i : Z) (e : option (addredge E)) :
  elem (set_edge n i e) = elem n.
Proof. unfold set_edge. destruct (i =? 0); reflexivity. Qed.

Lemma scope_set_edge (n : addrnode E) (i : Z) (e : option (addredge E)) :
  scope (set_edge n i e) = scope n.
Proof. unfold set_edge. destruct (i =? 0); reflexivity. Qed.

Lemma lxor_1_other (i : Z) :
  (i = 0 \/ i = 1) -> (Z.lxor i 1 = 0 \/ Z.lxor i 1 = 1) /\ Z.lxor i 1 <> i.
Proof. intros [-> | ->]; cbn; split; auto; discriminate. Qed.

(** The parts of [addrnode_ok]. *)
Lemma addrnode_ok_elem (maxd depth : Z) (n : addrnode E) :
  addrnode_ok maxd depth n = true ->
  (is_Some (elem n) -> depth <= scope n) /\ scope n <= maxd.
Proof.
  destruct n as [el sc e0 e1]. cbn [Addrtree.addrnode_ok elem scope].
  rewrite !andb_true_iff. intros [[[H1 H2] _] _]. split; [|lia].
  intros [x ->]. lia.
Qed.

Lemma addrnode_ok_edge (maxd depth : Z) (n : addrnode E) (index : Z)
    (e : addredge E) :
  addrnode_ok maxd depth n = true ->
  (index = 0 \/ index = 1) ->
  edge_at n index = Some e ->
  depth < len e /\ len e <= maxd
  /\ (Z.to_nat (nwords (len e)) <= length (str e))%nat
  /\ getbit (str e) (len e) depth = Some index
  /\ exists c, node e = Some c /\ addrnode_ok maxd (len e) c = true.
Proof.
  destruct n as [el sc e0 e1]. cbn [Addrtree.addrnode_ok].
  rewrite !andb_true_iff. intros [[_ H0] H1] Hi He.
  assert (Hedge :
    match getbit (str e) (len e) depth with
    | Some b => b =? index | None => false end = true
    /\ (depth <? len e) = true /\ (len e <=? maxd) = true
    /\ (Z.to_nat (nwords (len e)) <=? length (str e))%nat = true
    /\ match node e with
       | Some c => addrnode_ok maxd (len e) c
       | None => false end = true).
  { destruct Hi as [-> | ->]; cbn in He; subst; destruct e as [s l nd];
      cbn [str len node];
      [rewrite !andb_true_iff in H0|rewrite !andb_true_iff in H1];
      tauto. }
  destruct Hedge as (Hb & Hd & Hm & Hw & Hc).
  split; [lia|]. split; [lia|]. split; [apply Nat.leb_le; exact Hw|].
  split.
  - destruct (getbit (str e) (len e) depth) as [b|]; [|discriminate].
    f_equal. lia.
  - destruct (node e) as [c|]; [|discriminate]. eauto.
Qed.

Lemma addrnode_ok_intro (maxd depth : Z) (n : addrnode E) :
  (is_Some (elem n) -> depth <= scope n) ->
  scope n <= maxd ->
  (forall index e, (index = 0 \/ index = 1) ->
     edge_at n index = Some e ->
     depth < len e /\ len e <= maxd
     /\ (Z.to_nat (nwords (len e)) <= length (str e))%nat
     /\ getbit (str e) (len e) depth = Some index
     /\ exists c, node e = Some c /\ addrnode_ok maxd (len e) c = true) ->
  addrnode_ok maxd depth n = true.
Proof.
  destruct n as [el sc e0 e1]. cbn [elem scope]. intros Hel Hsc Hed.
  cbn [Addrtree.addrnode_ok]. rewrite !andb_true_iff.
  assert (Hone : forall index e, (index = 0 \/ index = 1) ->
    edge_at (mk_node el sc e0 e1) index = Some e ->
    (depth <? len e) && (len e <=? maxd)
    && (Z.to_nat (nwords (len e)) <=? length (str e))%nat
    && match getbit (str e) (len e) depth with
       | Some b => b =? index | None => false end
    && match node e with
       | Some c => addrnode_ok maxd (len e) c
       | None => false end = true).
  { intros index e Hi He.
    destruct (Hed index e Hi He) as (H1 & H2 & H3 & H4 & c & H5 & H6).
    rewrite H4, H5, H6. rewrite !andb_true_iff.
    repeat split; try lia; try (apply Nat.leb_le; exact H3). }
  split; [split; [split|]|].
  - destruct el; [|reflexivity]. apply Z.leb_le. apply Hel. eauto.
  - lia.
  - destruct e0 as [[s l nd]|]; [|reflexivity].
    apply (Hone 0 (mk_edge s l nd)); auto.
  - destruct e1 as [[s l nd]|]; [|reflexivity].
    apply (Hone 1 (mk_edge s l nd)); auto.
Qed.

(** With memory to spare every allocation succeeds. *)
Lemma node_create_plenty (el : option E) (sc : Z) (h : region) :
  script h = [] ->
  exists h', node_create el sc h = (Some (mk_node el sc None None), h')
             /\ script h' = [].
Proof.
  intros Hs. unfold node_create, region_alloc. rewrite Hs.
  eexists. split; reflexivity.
Qed.

Lemma edge_create_plenty (nd : option (addrnode E)) (addr : list Z)
    (l : Z) (h : region) :
  script h = [] -> (Z.to_nat (nwords l) <= length addr)%nat ->
  exists h',
    edge_create KEYWIDTH nd addr l h
    = Some (Some (mk_edge (take (Z.to_nat (nwords l)) addr) l nd), h')
    /\ script h' = [].
Proof.
  intros Hs Hl. unfold edge_create, region_alloc. rewrite Hs. cbn.
  destruct (Nat.leb_spec (Z.to_nat (nwords l)) (length addr)); [|lia].
  eexists. split; reflexivity.
Qed.

(** Under the conditions of the insert the two keys agree at the depth
    of the node, so the common prefix goes beyond it. *)
Lemma bits_common_edge (maxd depth : Z) (n : addrnode E) (index : Z)
    (e : addredge E) (addr : list Z) (sm : Z) :
  addrnode_ok maxd depth n = true ->
  0 <= depth < sm ->
  (Z.to_nat (nwords sm) <= length addr)%nat ->
  getbit addr sm depth = Some index ->
  edge_at n index = Some e ->
  exists common,
    bits_common KEYWIDTH (str e) (len e) addr sm depth = Some common
    /\ depth < common <= Z.min (len e) sm
    /\ (forall j, depth <= j < common ->
          getbit (str e) (len e) j = getbit addr sm j)
    /\ (common < Z.min (len e) sm ->
        exists b, (b = 0 \/ b = 1)
                  /\ getbit (str e) (len e) common = Some b
                  /\ getbit addr sm common = Some (Z.lxor b 1)).
Proof.
  intros Hok Hd Haddr Hbit He.
  assert (Hi : index = 0 \/ index = 1) by (eapply getbit_01; eauto).
  destruct (addrnode_ok_edge _ _ _ _ _ Hok Hi He)
    as (Hlen & Hmax & Hw & Hib & _).
  destruct (bits_common_spec KEYWIDTH KEYWIDTH_pos (str e) (len e) addr sm
              depth) as (c & Hc & Hle & Heq & Hne); try lia; try assumption.
  exists c. split; [exact Hc|].
  assert (depth < c).
  { destruct (Z.eq_dec c depth) as [->|]; [|lia]. exfalso.
    apply Hne; [lia|]. congruence. }
  split; [lia|]. split; [exact Heq|].
  intros Hlt.
  destruct (getbit_in_range KEYWIDTH KEYWIDTH_pos (str e) (len e) c)
    as (b & Hb & Hb01); [lia|assumption|].
  destruct (getbit_in_range KEYWIDTH KEYWIDTH_pos addr sm c)
    as (b' & Hb' & Hb01'); [lia|assumption|].
  exists b. split; [exact Hb01|]. split; [exact Hb|].
  rewrite Hb'. f_equal. specialize (Hne Hlt). rewrite Hb, Hb' in Hne.
  destruct Hb01 as [-> | ->], Hb01' as [-> | ->]; cbn;
    try reflexivity; exfalso; apply Hne; reflexivity.
Qed.

Lemma leaf_ok (maxd sm sc : Z) (el : option E) :
  sm <= sc -> sc <= maxd ->
  addrnode_ok maxd sm (mk_node el sc None None) = true.
Proof.
  intros H1 H2. cbn. destruct el; rewrite ?andb_true_r; lia.
Qed.

Lemma insert_loop_ok (addr : list Z) (sm sc : Z) (el : option E) (maxd : Z) :
  0 <= sm <= sc -> sc <= maxd ->
  (Z.to_nat (nwords sm) <= length addr)%nat ->
  forall nd depth h,
    script h = [] -> 0 <= depth <= sm ->
    addrnode_ok maxd depth nd = true ->
    exists nd' del h',
      insert_loop addr sm sc el nd depth h = Some (nd', del, h')
      /\ script h' = [] /\ addrnode_ok maxd depth nd' = true.
Proof.
  intros Hsm Hsc Haddr nd.
  induction nd as [el0 sc0 e0 e1 IH0 IH1] using addrnode_induction.
  intros depth h Hs Hd Hok.
  cbn [Addrtree.insert_loop].
  set (nd := mk_node el0 sc0 e0 e1) in *.
  destruct (Z.ltb_spec sm depth); [lia|].
  destruct (addrnode_ok_elem _ _ _ Hok) as [Hel Hscope].
  destruct (Z.eqb_spec depth sm) as [->|Hne].
  { (* Case 1 *)
    do 3 eexists. split; [reflexivity|]. split; [exact Hs|].
    apply addrnode_ok_intro; cbn [elem scope]; [lia|lia|].
    intros index e Hi He. apply (addrnode_ok_edge _ _ nd index e Hok Hi).
    exact He. }
  destruct (getbit_in_range KEYWIDTH KEYWIDTH_pos addr sm depth)
    as (index & Hbit & Hi); [lia|assumption|].
  rewrite Hbit.
  destruct (edge_at nd index) as [edge|] eqn:He.
  2:{ (* Case 2 *)
    destruct (node_create_plenty el sc h Hs) as (h1 & -> & Hs1).
    destruct (edge_create_plenty (Some (mk_node el sc None None)) addr sm h1
                Hs1 Haddr) as (h2 & -> & Hs2).
    do 3 eexists. split; [reflexivity|]. split; [exact Hs2|].
    apply addrnode_ok_intro;
      rewrite ?elem_set_edge, ?scope_set_edge; [exact Hel|exact Hscope|].
    intros j e Hj Hej.
    destruct (Z.eq_dec j index) as [->|Hji].
    - rewrite edge_at_set_edge in Hej. injection Hej as <-.
      cbn [str len node]. split; [lia|]. split; [lia|].
      split; [rewrite length_take; lia|].
      split; [rewrite (getbit_take KEYWIDTH KEYWIDTH_pos addr sm sm depth)
                by lia; exact Hbit|].
      eexists. split; [reflexivity|]. apply leaf_ok; lia.
    - rewrite edge_at_set_edge_other in Hej by auto.
      apply (addrnode_ok_edge _ _ nd j e Hok Hj Hej). }
  destruct (addrnode_ok_edge _ _ _ _ _ Hok Hi He)
    as (Hlen & Hmax & Hw & Hib & child & Hchild & Hcok).
  destruct (bits_common_edge _ _ _ _ _ addr sm Hok ltac:(lia) Haddr Hbit He)
    as (common & -> & Hcr & Hagree & Hdiff).
  destruct (Z.eqb_spec common (len edge)) as [Hceq|Hcne].
  { (* Case 3 *)
    rewrite Hchild.
    destruct (addrnode_induction_child _ nd index edge child IH0 IH1 He
                Hchild (len edge) h Hs ltac:(lia) Hcok)
      as (child' & del & h' & -> & Hs' & Hok').
    do 3 eexists. split; [reflexivity|]. split; [exact Hs'|].
    apply addrnode_ok_intro;
      rewrite ?elem_set_edge, ?scope_set_edge; cbn [elem scope];
      [lia|lia|].
    intros j e Hj Hej.
    destruct (Z.eq_dec j index) as [->|Hji].
    - rewrite edge_at_set_edge in Hej. injection Hej as <-.
      cbn [str len node]. eauto 10.
    - rewrite edge_at_set_edge_other in Hej by auto.
      apply (addrnode_ok_edge _ _ nd j e Hok Hj). exact Hej. }
  (* Case 4 *)
  destruct (node_create_plenty None 0 h Hs) as (h1 & -> & Hs1).
  assert (Hwc : (Z.to_nat (nwords common) <= length addr)%nat).
  { pose proof (nwords_mono KEYWIDTH KEYWIDTH_pos common sm ltac:(lia)).
    lia. }
  destruct (edge_create_plenty (Some (mk_node None 0 None None)) addr common
              h1 Hs1 Hwc) as (h2 & -> & Hs2).
  destruct (getbit_in_range KEYWIDTH KEYWIDTH_pos (str edge) (len edge)
              common) as (index2 & Hb2 & Hi2); [lia|assumption|].
  rewrite Hb2. cbn [str len].
  destruct (lxor_1_other index2 Hi2) as [Hi2' Hne2].
  assert (Hold : forall j e, (j = 0 \/ j = 1) ->
    edge_at (set_edge (mk_node None 0 None None) index2 (Some edge)) j
    = Some e -> j = index2 /\ e = edge).
  { intros j e Hj Hej. destruct (Z.eq_dec j index2) as [->|Hji].
    - rewrite edge_at_set_edge in Hej. injection Hej as <-. auto.
    - rewrite edge_at_set_edge_other in Hej by auto.
      destruct Hj as [-> | ->]; discriminate. }
  assert (Hedge_ok :
    common < len edge /\ len edge <= maxd
    /\ (Z.to_nat (nwords (len edge)) <= length (str edge))%nat
    /\ getbit (str edge) (len edge) common = Some index2
    /\ exists c, node edge = Some c /\ addrnode_ok maxd (len edge) c = true).
  { split; [lia|]. split; [lia|]. split; [exact Hw|]. split; [exact Hb2|].
    eauto. }
  assert (Hfinish : forall nn h',
    script h' = [] -> addrnode_ok maxd common nn = true ->
    exists nd' del h'',
      Some (set_edge nd index
              (Some (mk_edge (take (Z.to_nat (nwords common)) addr) common
                       (Some nn))), @nil E, h') = Some (nd', del, h'')
      /\ script h'' = [] /\ addrnode_ok maxd depth nd' = true).
  { intros nn h' Hs' Hnn. do 3 eexists. split; [reflexivity|].
    split; [exact Hs'|].
    apply addrnode_ok_intro;
      rewrite ?elem_set_edge, ?scope_set_edge; [exact Hel|exact Hscope|].
    intros j e Hj Hej.
    destruct (Z.eq_dec j index) as [->|Hji].
    - rewrite edge_at_set_edge in Hej. injection Hej as <-.
      cbn [str len node]. split; [lia|]. split; [lia|].
      split; [rewrite length_take; lia|].
      split; [rewrite (getbit_take KEYWIDTH KEYWIDTH_pos addr common sm depth)
                by lia; exact Hbit|].
      eauto.
    - rewrite edge_at_set_edge_other in Hej by auto.
      apply (addrnode_ok_edge _ _ nd j e Hok Hj Hej). }
  destruct (Z.eqb_spec common sm) as [Hcs|Hcs].
  - apply Hfinish; [exact Hs2|].
    apply addrnode_ok_intro; cbn [elem scope]; [lia|lia|].
    intros j e Hj Hej.
    assert (Hej' : edge_at (set_edge (mk_node None 0 None None) index2
                              (Some edge)) j = Some e)
      by (destruct Hj as [-> | ->]; exact Hej).
    destruct (Hold j e Hj Hej') as [-> ->]. exact Hedge_ok.
  - destruct (node_create_plenty el sc h2 Hs2) as (h3 & -> & Hs3).
    destruct (edge_create_plenty (Some (mk_node el sc None None)) addr sm h3
                Hs3 Haddr) as (h4 & -> & Hs4).
    assert (Hbaddr : getbit addr sm common = Some (Z.lxor index2 1)).
    { destruct (Hdiff ltac:(lia)) as (b & _ & Hb & Hba). congruence. }
    apply Hfinish; [exact Hs4|].
    apply addrnode_ok_intro;
      rewrite ?elem_set_edge, ?scope_set_edge; cbn [elem scope];
      [intros [? [=]]|lia|].
    intros j e Hj Hej.
    destruct (Z.eq_dec j (Z.lxor index2 1)) as [->|Hji].
    + rewrite edge_at_set_edge in Hej. injection Hej as <-.
      cbn [str len node]. split; [lia|]. split; [lia|].
      split; [rewrite length_take; lia|].
      split; [rewrite (getbit_take KEYWIDTH KEYWIDTH_pos addr sm sm common)
                by lia; exact Hbaddr|].
      eexists. split; [reflexivity|]. apply leaf_ok; lia.
    + rewrite edge_at_set_edge_other in Hej by auto.
      destruct (Hold j e Hj Hej) as [-> ->]. exact Hedge_ok.
Qed.

(** One turn of the loop of [addrtree_insert], case by case. *)
Lemma insert_loop_cases (addr : list Z) (sm sc : Z) (el : option E)
    (maxd : Z) (nd : addrnode E) (depth : Z) (h : region) :
  0 <= sm <= sc -> sc <= maxd ->
  (Z.to_nat (nwords sm) <= length addr)%nat ->
  script h = [] -> 0 <= depth <= sm ->
  addrnode_ok maxd depth nd = true ->
  let leaf := mk_node el sc None None in
  let key l := take (Z.to_nat (nwords l)) addr in
  exists nd' del h',
    insert_loop addr sm sc el nd depth h = Some (nd', del, h')
    /\ script h' = []
    /\ ((* Case 1: update existing node *)
        (depth = sm /\ nd' = mk_node el sc (edge0 nd) (edge1 nd)
         /\ del = option_list (elem nd))
        \/ (depth < sm /\ exists index,
              (index = 0 \/ index = 1)
              /\ getbit addr sm depth = Some index
              /\ ((* Case 2: New leafnode *)
                  (edge_at nd index = None /\ del = []
                   /\ nd' = set_edge nd index
                              (Some (mk_edge (key sm) sm (Some leaf))))
                  \/ (* Case 3: Traverse edge *)
                  (exists edge child child',
                     edge_at nd index = Some edge
                     /\ node edge = Some child
                     /\ depth < len edge <= sm
                     /\ (forall j, depth <= j < len edge ->
                           getbit (str edge) (len edge) j = getbit addr sm j)
                     /\ insert_loop addr sm sc el child (len edge) h
                        = Some (child', del, h')
                     /\ nd' = set_edge
                                (mk_node (elem nd) sc (edge0 nd) (edge1 nd))
                                index
                                (Some (mk_edge (str edge) (len edge)
                                         (Some child'))))
                  \/ (* Case 4: split. *)
                  (exists edge common index2 nn,
                     edge_at nd index = Some edge
                     /\ depth < common < len edge /\ common <= sm
                     /\ (index2 = 0 \/ index2 = 1)
                     /\ getbit (str edge) (len edge) common = Some index2
                     /\ del = []
                     /\ nd' = set_edge nd index
                                (Some (mk_edge (key common) common (Some nn)))
                     /\ ((common = sm
                          /\ nn = set_edge (mk_node el sc None None) index2
                                     (Some edge))
                         \/ (common < sm
                             /\ getbit addr sm common
                                = Some (Z.lxor index2 1)
                             /\ nn = set_edge
                                       (set_edge (mk_node None 0 None None)
                                          index2 (Some edge))
                                       (Z.lxor index2 1)
                                       (Some (mk_edge (key sm) sm
                                                (Some leaf))))))))).
Proof.
  intros Hsm Hsc Haddr Hs Hd Hok leaf key.
  destruct nd as [el0 sc0 e0 e1].
  cbn [Addrtree.insert_loop].
  set (nd := mk_node el0 sc0 e0 e1) in *.
  destruct (Z.ltb_spec sm depth); [lia|].
  destruct (Z.eqb_spec depth sm) as [->|Hne].
  { do 3 eexists. split; [reflexivity|]. split; [exact Hs|]. left.
    split; [reflexivity|]. split; [reflexivity|].
    cbn [elem nd]. destruct el0; reflexivity. }
  destruct (getbit_in_range KEYWIDTH KEYWIDTH_pos addr sm depth)
    as (index & Hbit & Hi); [lia|assumption|].
  rewrite Hbit.
  destruct (edge_at nd index) as [edge|] eqn:He.
  2:{ destruct (node_create_plenty el sc h Hs) as (h1 & -> & Hs1).
    destruct (edge_create_plenty (Some (mk_node el sc None None)) addr sm h1
                Hs1 Haddr) as (h2 & -> & Hs2).
    do 3 eexists. split; [reflexivity|]. split; [exact Hs2|]. right.
    split; [lia|]. exists index. split; [exact Hi|]. split; [reflexivity|].
    left. auto. }
  destruct (addrnode_ok_edge _ _ _ _ _ Hok Hi He)
    as (Hlen & Hmax & Hw & Hib & child & Hchild & Hcok).
  destruct (bits_common_edge _ _ _ _ _ addr sm Hok ltac:(lia) Haddr Hbit He)
    as (common & -> & Hcr & Hagree & Hdiff).
  destruct (Z.eqb_spec common (len edge)) as [Hceq|Hcne].
  { rewrite Hchild.
    destruct (insert_loop_ok addr sm sc el maxd Hsm Hsc Haddr child
                (len edge) h Hs ltac:(lia) Hcok)
      as (child' & del & h' & Hins & Hs' & _).
    rewrite Hins.
    do 3 eexists. split; [reflexivity|]. split; [exact Hs'|]. right.
    split; [lia|]. exists index. split; [exact Hi|]. split; [reflexivity|].
    right. left. exists edge, child, child'.
    split; [exact He|]. split; [exact Hchild|]. split; [lia|].
    split; [intros j Hj; apply Hagree; lia|]. split; [exact Hins|].
    reflexivity. }
  destruct (node_create_plenty None 0 h Hs) as (h1 & -> & Hs1).
  assert (Hwc : (Z.to_nat (nwords common) <= length addr)%nat).
  { pose proof (nwords_mono KEYWIDTH KEYWIDTH_pos common sm ltac:(lia)).
    lia. }
  destruct (edge_create_plenty (Some (mk_node None 0 None None)) addr common
              h1 Hs1 Hwc) as (h2 & -> & Hs2).
  destruct (getbit_in_range KEYWIDTH KEYWIDTH_pos (str edge) (len edge)
              common) as (index2 & Hb2 & Hi2); [lia|assumption|].
  rewrite Hb2. cbn [str len].
  destruct (Z.eqb_spec common sm) as [Hcs|Hcs].
  - do 3 eexists. split; [reflexivity|]. split; [exact Hs2|]. right.
    split; [lia|]. exists index. split; [exact Hi|]. split; [reflexivity|].
    right. right. exists edge, common, index2. eexists.
    split; [exact He|]. split; [lia|]. split; [lia|].
    split; [exact Hi2|]. split; [exact Hb2|]. split; [reflexivity|].
    split; [reflexivity|]. left. split; [exact Hcs|].
    destruct Hi2 as [-> | ->]; reflexivity.
  - destruct (node_create_plenty el sc h2 Hs2) as (h3 & -> & Hs3).
    destruct (edge_create_plenty (Some (mk_node el sc None None)) addr sm h3
                Hs3 Haddr) as (h4 & -> & Hs4).
    do 3 eexists. split; [reflexivity|]. split; [exact Hs4|]. right.
    split; [lia|]. exists index. split; [exact Hi|]. split; [reflexivity|].
    right. right. exists edge, common, index2. eexists.
    split; [exact He|]. split; [lia|]. split; [lia|].
    split; [exact Hi2|]. split; [exact Hb2|]. split; [reflexivity|].
    split; [reflexivity|]. right. split; [lia|].
    split; [|reflexivity].
    destruct (Hdiff ltac:(lia)) as (b & _ & Hb & Hba). congruence.
Qed.

End AddrtreeFacts.

Section AddrtreeFindFacts.
Import Data Addrtree.
Variable KEYWIDTH : Z.
Hypothesis KEYWIDTH_pos : 0 < KEYWIDTH.
Context {E Env : Type}.

Abbreviation addrnode_ok := (Addrtree.addrnode_ok KEYWIDTH (E := E)).
Abbreviation insert_loop := (Addrtree.insert_loop KEYWIDTH (E := E)).
Abbreviation find_loop := (Addrtree.find_loop KEYWIDTH (E := E)).
Abbreviation getbit := (Addrtree.getbit KEYWIDTH).
Abbreviation nwords := (Addrtree.nwords KEYWIDTH).
Abbreviation issub := (Addrtree.issub KEYWIDTH).

(** What [issub] answers, for keys that hold the bits asked for. *)
Lemma issub_spec (s1 : list Z) (l1 : Z) (s2 : list Z) (l2 skip : Z) :
  0 <= skip -> skip < l1 -> skip < l2 ->
  (Z.to_nat (nwords l1) <= length s1)%nat ->
  (Z.to_nat (nwords l2) <= length s2)%nat ->
  exists r,
    issub s1 l1 s2 l2 skip = Some r
    /\ (r = 0 \/ r = 1)
    /\ (r = 1 <->
        l1 <= l2
        /\ forall j, skip <= j < l1 -> getbit s1 l1 j = getbit s2 l2 j).
Proof.
  intros H0 H1 H2 Hs1 Hs2. unfold Addrtree.issub.
  destruct (bits_common_spec KEYWIDTH KEYWIDTH_pos s1 l1 s2 l2 skip)
    as (c & -> & Hle & Heq & Hne); try assumption.
  cbn. eexists. split; [reflexivity|].
  destruct (Z.eqb_spec c l1) as [->|Hc].
  - split; [auto|]. split; [intros _|reflexivity]. split; [lia|exact Heq].
  - split; [auto|]. split; [discriminate|]. intros [Hl Hag]. exfalso.
    apply Hne; [lia|]. apply Hag. lia.
Qed.

Lemma issub_agree (s1 : list Z) (l1 : Z) (s2 : list Z) (l2 skip : Z) :
  0 <= skip -> skip < l1 -> l1 <= l2 ->
  (Z.to_nat (nwords l1) <= length s1)%nat ->
  (Z.to_nat (nwords l2) <= length s2)%nat ->
  (forall j, skip <= j < l1 -> getbit s1 l1 j = getbit s2 l2 j) ->
  issub s1 l1 s2 l2 skip = Some 1.
Proof.
  intros H0 H1 H2 Hs1 Hs2 Hag.
  destruct (issub_spec s1 l1 s2 l2 skip) as (r & -> & _ & Hr);
    try assumption; try lia.
  f_equal. apply Hr. auto.
Qed.

Lemma issub_take (addr : list Z) (l l2 skip : Z) :
  0 <= skip -> skip < l -> l <= l2 ->
  (Z.to_nat (nwords l2) <= length addr)%nat ->
  issub (take (Z.to_nat (nwords l)) addr) l addr l2 skip = Some 1.
Proof.
  intros H0 H1 H2 Hs.
  pose proof (nwords_mono KEYWIDTH KEYWIDTH_pos l l2 ltac:(lia)).
  apply issub_agree; try assumption; try lia.
  - rewrite length_take. lia.
  - intros j Hj. apply getbit_take; [assumption|lia|lia].
Qed.

(** One turn of the loop of [addrtree_find]. *)
Lemma find_loop_eq (addr : list Z) (sm : Z) (nd : addrnode E) (depth : Z) :
  find_loop addr sm nd depth
  = if sm <? depth then None
    else
      match
        match elem nd with
        | Some _ =>
            if scope nd <? depth then None
            else Some ((depth =? scope nd)
                       || ((sm <? scope nd) && (depth =? sm)))
        | None => Some false
        end
      with
      | None => None
      | Some true => Some (Some nd)
      | Some false =>
          if depth =? sm then Some None
          else
            match getbit addr sm depth with
            | None => None
            | Some index =>
            match edge_at nd index with
            | None => Some None
            | Some edge =>
            match node edge with
            | None => Some None
            | Some child =>
                if sm <? len edge then Some None
                else
                  match issub (str edge) (len edge) addr sm depth with
                  | None => None
                  | Some sub =>
                      if sub =? 0 then Some None
                      else if depth <? len edge
                      then find_loop addr sm child (len edge)
                      else None
                  end
            end end end
      end.
Proof. destruct nd; reflexivity. Qed.

(** A node that holds the element for this query is the answer. *)
Lemma find_loop_hit (addr : list Z) (smq sc : Z) (nd : addrnode E)
    (e : E) :
  elem nd = Some e -> scope nd = sc ->
  0 <= Z.min smq sc ->
  find_loop addr smq nd (Z.min smq sc) = Some (Some nd).
Proof.
  intros He Hsc H0. rewrite find_loop_eq, He, Hsc.
  destruct (Z.ltb_spec smq (Z.min smq sc)); [lia|].
  destruct (Z.ltb_spec sc (Z.min smq sc)); [lia|].
  destruct (Z.eqb_spec (Z.min smq sc) sc) as [_|Hn]; [reflexivity|].
  destruct (Z.ltb_spec smq sc); [|lia].
  destruct (Z.eqb_spec (Z.min smq sc) smq); [reflexivity|lia].
Qed.

(** A node above the depth of the insert is passed when the edge
    agrees with the address. *)
Lemma find_loop_pass (addr : list Z) (smq : Z) (nd : addrnode E)
    (depth index : Z) (edge : addredge E) (child : addrnode E) :
  match elem nd with
  | Some _ =>
      if scope nd <? depth then None
      else Some ((depth =? scope nd)
                 || ((smq <? scope nd) && (depth =? smq)))
  | None => Some false
  end = Some false ->
  0 <= depth < len edge -> len edge <= smq ->
  (Z.to_nat (nwords smq) <= length addr)%nat ->
  (Z.to_nat (nwords (len edge)) <= length (str edge))%nat ->
  getbit addr smq depth = Some index ->
  edge_at nd index = Some edge -> node edge = Some child ->
  (forall j, depth <= j < len edge ->
     getbit (str edge) (len edge) j = getbit addr smq j) ->
  find_loop addr smq nd depth = find_loop addr smq child (len edge).
Proof.
  intros Hhit Hd Hl Haddr Hw Hbit He Hc Hag.
  rewrite find_loop_eq, Hhit.
  destruct (Z.ltb_spec smq depth); [lia|].
  destruct (Z.eqb_spec depth smq); [lia|].
  rewrite Hbit, He, Hc.
  destruct (Z.ltb_spec smq (len edge)); [lia|].
  rewrite issub_agree by (try assumption; lia). cbn.
  destruct (Z.ltb_spec depth (len edge)); [reflexivity|lia].
Qed.

(** On a tree of the shape that inserts keep, [addrtree_find] fails no
    assertion, and what it returns holds an element. *)
Lemma find_loop_ok (addr : list Z) (sm maxd : Z) :
  (Z.to_nat (nwords sm) <= length addr)%nat ->
  forall nd depth,
    0 <= depth <= sm -> addrnode_ok maxd depth nd = true ->
    exists r, find_loop addr sm nd depth = Some r
              /\ forall n, r = Some n -> is_Some (elem n).
Proof.
  intros Haddr nd.
  induction nd as [el0 sc0 e0 e1 IH0 IH1]
    using (addrnode_induction (E := E)).
  intros depth Hd Hok. rewrite find_loop_eq.
  set (nd := mk_node el0 sc0 e0 e1) in *.
  destruct (Z.ltb_spec sm depth); [lia|].
  destruct (addrnode_ok_elem KEYWIDTH _ _ _ Hok) as [Hel Hscope].
  assert (Hhit : exists b,
    match elem nd with
    | Some _ =>
        if scope nd <? depth then None
        else Some ((depth =? scope nd)
                   || ((sm <? scope nd) && (depth =? sm)))
    | None => Some false
    end = Some b /\ (b = true -> is_Some (elem nd))).
  { destruct (elem nd) as [x|] eqn:Hx.
    - destruct (Z.ltb_spec (scope nd) depth);
        [specialize (Hel ltac:(eauto)); lia|].
      eexists. split; [reflexivity|]. eauto.
    - eexists. split; [reflexivity|]. discriminate. }
  destruct Hhit as (b & -> & Hb). destruct b.
  { eexists. split; [reflexivity|]. intros n [= <-]. auto. }
  destruct (Z.eqb_spec depth sm).
  { eexists. split; [reflexivity|]. discriminate. }
  destruct (getbit_in_range KEYWIDTH KEYWIDTH_pos addr sm depth)
    as (index & Hbit & Hi); [lia|assumption|].
  rewrite Hbit.
  destruct (edge_at nd index) as [edge|] eqn:He.
  2:{ eexists. split; [reflexivity|]. discriminate. }
  destruct (addrnode_ok_edge KEYWIDTH _ _ _ _ _ Hok Hi He)
    as (Hlen & Hmax & Hw & Hib & child & Hchild & Hcok).
  rewrite Hchild.
  destruct (Z.ltb_spec sm (len edge)).
  { eexists. split; [reflexivity|]. discriminate. }
  destruct (issub_spec (str edge) (len edge) addr sm depth)
    as (r & -> & Hr & _); try assumption; try lia.
  destruct Hr as [-> | ->]; cbn.
  { eexists. split; [reflexivity|]. discriminate. }
  destruct (Z.ltb_spec depth (len edge)); [|lia].
  apply (addrnode_induction_child _ nd index edge child IH0 IH1 He Hchild).
  - lia.
  - exact Hcok.
Qed.

(** The side conditions of [find_loop_pass]. *)
Ltac pass_side :=
  cbn [str len node elem scope];
  rewrite ?elem_set_edge, ?scope_set_edge; cbn [str len node elem scope];
  first
    [ assumption
    | lia
    | reflexivity
    | rewrite length_take; lia
    | apply edge_at_set_edge
    | let j := fresh "j" in let Hj := fresh "Hj" in
      intros j Hj; apply getbit_take; [assumption|lia|lia] ].

(** A lookup that found nothing finds, after the insert, the element
    inserted. *)
Lemma find_loop_insert (addr : list Z) (smq sc : Z) (e : E) (maxd : Z) :
  0 <= smq -> 0 <= sc <= maxd ->
  (Z.to_nat (nwords smq) <= length addr)%nat ->
  forall nd depth h nd' del h',
    script h = [] -> 0 <= depth <= Z.min smq sc ->
    addrnode_ok maxd depth nd = true ->
    find_loop addr smq nd depth = Some None ->
    insert_loop addr (Z.min smq sc) sc (Some e) nd depth h
    = Some (nd', del, h') ->
    exists n, find_loop addr smq nd' depth = Some (Some n)
              /\ elem n = Some e /\ scope n = sc.
Proof.
  intros Hq Hsc Haddr nd.
  set (sm := Z.min smq sc).
  assert (Haddr' : (Z.to_nat (nwords sm) <= length addr)%nat).
  { pose proof (nwords_mono KEYWIDTH KEYWIDTH_pos sm smq ltac:(lia)). lia. }
  assert (Hleaf : forall n, elem n = Some e -> scope n = sc ->
    exists n', find_loop addr smq n sm = Some (Some n')
               /\ elem n' = Some e /\ scope n' = sc).
  { intros n H1 H2. exists n. split; [|auto].
    apply (find_loop_hit addr smq sc n e H1 H2). lia. }
  induction nd as [el0 sc0 e0 e1 IH0 IH1]
    using (addrnode_induction (E := E)).
  intros depth h nd' del h' Hs Hd Hok Hfind Hins.
  set (nd := mk_node el0 sc0 e0 e1) in *.
  destruct (insert_loop_cases KEYWIDTH KEYWIDTH_pos addr sm sc (Some e) maxd
              nd depth h ltac:(lia) ltac:(lia) Haddr' Hs Hd Hok)
    as (nd'' & del' & h'' & Hins' & _ & Hcases).
  rewrite Hins in Hins'. injection Hins' as <- <- <-.
  destruct Hcases as [(-> & -> & _) | (Hlt & index & Hi & Hbit & Hcases)].
  { apply Hleaf; reflexivity. }
  (* the old lookup passed this node *)
  rewrite find_loop_eq in Hfind.
  destruct (Z.ltb_spec smq depth); [lia|].
  destruct (match elem nd with
            | Some _ =>
                if scope nd <? depth then None
                else Some ((depth =? scope nd)
                           || ((smq <? scope nd) && (depth =? smq)))
            | None => Some false
            end) as [[|]|] eqn:Hhit; try discriminate.
  assert (Hneq : (depth =? smq) = false) by lia.
  rewrite Hneq in Hfind.
  assert (Hbitq : getbit addr smq depth = Some index)
    by (rewrite <- Hbit; apply getbit_len; lia).
  rewrite Hbitq in Hfind.
  destruct Hcases as [(He & _ & ->) | [Hc3 | Hc4]].
  - (* Case 2 *)
    rewrite (find_loop_pass addr smq _ depth index
               (mk_edge (take (Z.to_nat (nwords sm)) addr) sm
                  (Some (mk_node (Some e) sc None None)))
               (mk_node (Some e) sc None None)) by pass_side.
    apply Hleaf; reflexivity.
  - (* Case 3 *)
    destruct Hc3 as (edge & child & child' & He & Hchild & Hlen & Hag
                     & Hinsc & ->).
    destruct (addrnode_ok_edge KEYWIDTH _ _ _ _ _ Hok Hi He)
      as (_ & _ & Hw & _ & c & Hc & Hcok).
    assert (c = child) by congruence. subst c.
    assert (Hagq : forall j, depth <= j < len edge ->
              getbit (str edge) (len edge) j = getbit addr smq j).
    { intros j Hj. rewrite (Hag j Hj). apply getbit_len; lia. }
    assert (Hold : find_loop addr smq child (len edge) = Some None).
    { rewrite <- (find_loop_pass addr smq nd depth index edge child)
        by pass_side.
      rewrite find_loop_eq, Hhit.
      destruct (Z.ltb_spec smq depth); [lia|].
      rewrite Hneq, Hbitq. exact Hfind. }
    assert (Hhit' :
      match elem nd with
      | Some _ =>
          if sc <? depth then None
          else Some ((depth =? sc) || ((smq <? sc) && (depth =? smq)))
      | None => Some false
      end = Some false).
    { destruct (elem nd); [|reflexivity].
      destruct (Z.ltb_spec sc depth); [lia|].
      destruct (Z.eqb_spec depth sc); [lia|].
      rewrite Hneq, andb_false_r. reflexivity. }
    rewrite (find_loop_pass addr smq _ depth index
               (mk_edge (str edge) (len edge) (Some child')) child')
      by pass_side.
    apply (addrnode_induction_child _ nd index edge child IH0 IH1 He
             Hchild (len edge) h child' del h' Hs ltac:(lia) Hcok Hold
             Hinsc).
  - (* Case 4 *)
    destruct Hc4 as (edge & common & index2 & nn & He & Hcr & Hcs & Hi2
                     & Hb2 & _ & -> & Hnn).
    assert (Hwc : (Z.to_nat (nwords common) <= length addr)%nat).
    { pose proof (nwords_mono KEYWIDTH KEYWIDTH_pos common smq ltac:(lia)).
      lia. }
    rewrite (find_loop_pass addr smq _ depth index
               (mk_edge (take (Z.to_nat (nwords common)) addr) common
                  (Some nn)) nn) by pass_side.
    destruct Hnn as [(-> & ->) | (Hlt2 & Hbaddr & ->)].
    + apply Hleaf; [apply elem_set_edge|apply scope_set_edge].
    + destruct (lxor_1_other index2 Hi2) as [Hi2' Hne2].
      assert (Hbq : getbit addr smq common = Some (Z.lxor index2 1))
        by (rewrite <- Hbaddr; apply getbit_len; lia).
      rewrite (find_loop_pass addr smq _ common (Z.lxor index2 1)
                 (mk_edge (take (Z.to_nat (nwords sm)) addr) sm
                    (Some (mk_node (Some e) sc None None)))
                 (mk_node (Some e) sc None None)) by pass_side.
      apply Hleaf; reflexivity.
Qed.

End AddrtreeFindFacts.

Section AddrtreeElemFacts.
Import Data Addrtree.
Variable KEYWIDTH : Z.
Hypothesis KEYWIDTH_pos : 0 < KEYWIDTH.
Context {E Env : Type}.

Abbreviation addrnode_ok := (Addrtree.addrnode_ok KEYWIDTH (E := E)).
Abbreviation insert_loop := (Addrtree.insert_loop KEYWIDTH (E := E)).
Abbreviation nwords := (Addrtree.nwords KEYWIDTH).

Lemma elems_eq (n : addrnode E) :
  elems n = option_list (elem n) ++ elems_below (edge0 n)
            ++ elems_below (edge1 n).
Proof. destruct n; reflexivity. Qed.

Lemma elems_edge_at (n : addrnode E) (index : Z) :
  (index = 0 \/ index = 1) ->
  elems n ≡ₚ option_list (elem n) ++ elems_below (edge_at n index)
             ++ elems_below (edge_at n (Z.lxor index 1)).
Proof.
  rewrite elems_eq. intros [-> | ->]; cbn [edge_at Z.eqb Z.lxor Pos.lxor];
    [reflexivity|solve_Permutation].
Qed.

Lemma elems_set_edge (n : addrnode E) (index : Z)
    (e : option (addredge E)) :
  (index = 0 \/ index = 1) ->
  elems (set_edge n index e)
  ≡ₚ option_list (elem n) ++ elems_below e
     ++ elems_below (edge_at n (Z.lxor index 1)).
Proof.
  intros Hi. rewrite (elems_edge_at _ index Hi).
  destruct (lxor_1_other index Hi) as [Hi' Hne].
  rewrite elem_set_edge, edge_at_set_edge,
    edge_at_set_edge_other by auto.
  reflexivity.
Qed.

(** With memory to spare an insert loses no element and deletes none
    twice: what the tree holds afterwards, with what was given to
    [reply_info_parsedelete], is what it held before and the element
    inserted. *)
Lemma insert_loop_elems (addr : list Z) (sm sc : Z) (el : option E)
    (maxd : Z) :
  0 <= sm <= sc -> sc <= maxd ->
  (Z.to_nat (nwords sm) <= length addr)%nat ->
  forall nd depth h nd' del h',
    script h = [] -> 0 <= depth <= sm ->
    addrnode_ok maxd depth nd = true ->
    insert_loop addr sm sc el nd depth h = Some (nd', del, h') ->
    elems nd' ++ del ≡ₚ option_list el ++ elems nd.
Proof.
  intros Hsm Hsc Haddr nd.
  induction nd as [el0 sc0 e0 e1 IH0 IH1]
    using (addrnode_induction (E := E)).
  intros depth h nd' del h' Hs Hd Hok Hins.
  set (nd := mk_node el0 sc0 e0 e1) in *.
  destruct (insert_loop_cases KEYWIDTH KEYWIDTH_pos addr sm sc el maxd
              nd depth h Hsm Hsc Haddr Hs Hd Hok)
    as (nd'' & del' & h'' & Hins' & _ & Hcases).
  rewrite Hins in Hins'. injection Hins' as <- <- <-.
  destruct Hcases as [(-> & -> & ->) | (Hlt & index & Hi & Hbit & Hcases)].
  { rewrite !elems_eq. cbn [elem edge0 edge1]. solve_Permutation. }
  destruct (lxor_1_other index Hi) as [Hi' Hne].
  destruct Hcases as [(He & -> & ->) | [Hc3 | Hc4]].
  - rewrite app_nil_r, elems_set_edge, (elems_edge_at nd index), He by auto.
    cbn [elems_below]. rewrite (elems_eq (mk_node el sc None None)).
    cbn [elem edge0 edge1 elems_below]. solve_Permutation.
  - destruct Hc3 as (edge & child & child' & He & Hchild & Hlen & Hag
                     & Hinsc & ->).
    destruct (addrnode_ok_edge KEYWIDTH _ _ _ _ _ Hok Hi He)
      as (_ & _ & _ & _ & c & Hc & Hcok).
    assert (c = child) by congruence. subst c.
    pose proof (addrnode_induction_child _ nd index edge child IH0 IH1 He
                  Hchild (len edge) h child' del h' Hs ltac:(lia) Hcok
                  Hinsc) as IH.
    rewrite elems_set_edge, (elems_edge_at nd index), He by auto.
    assert (Hb : elems_below (Some edge) = elems child)
      by (destruct edge as [s l n]; cbn in Hchild; subst n; reflexivity).
    rewrite Hb. cbn [elem elems_below].
    assert (Ho : edge_at (mk_node (elem nd) sc (edge0 nd) (edge1 nd))
                   (Z.lxor index 1) = edge_at nd (Z.lxor index 1))
      by reflexivity.
    rewrite Ho.
    transitivity (option_list (elem nd) ++ (elems child' ++ del)
                  ++ elems_below (edge_at nd (Z.lxor index 1)));
      [solve_Permutation|].
    rewrite IH. solve_Permutation.
  - destruct Hc4 as (edge & common & index2 & nn & He & Hcr & Hcs & Hi2
                     & Hb2 & -> & -> & Hnn).
    destruct (lxor_1_other index2 Hi2) as [Hi2' Hne2].
    rewrite app_nil_r, elems_set_edge, (elems_edge_at nd index), He by auto.
    cbn [elems_below].
    assert (Hnn' : elems nn ≡ₚ option_list el ++ elems_below (Some edge)).
    { destruct Hnn as [(_ & ->) | (_ & _ & ->)].
      - rewrite elems_set_edge by auto. cbn [elem].
        assert (Hn : edge_at (mk_node el sc None None) (Z.lxor index2 1)
                     = None) by (destruct Hi2 as [-> | ->]; reflexivity).
        rewrite Hn. cbn [elems_below]. rewrite app_nil_r. reflexivity.
      - rewrite elems_set_edge by auto. rewrite elem_set_edge.
        cbn [elem option_list elems_below app].
        assert (Hl : Z.lxor (Z.lxor index2 1) 1 = index2)
          by (destruct Hi2 as [-> | ->]; reflexivity).
        rewrite Hl, edge_at_set_edge.
        rewrite (elems_eq (mk_node el sc None None)).
        cbn [elem edge0 edge1 elems_below]. rewrite !app_nil_r.
        reflexivity. }
    rewrite Hnn'. solve_Permutation.
Qed.

(** [freenode_recursive] gives every element of the tree to
    [reply_info_parsedelete], once. *)
Lemma freenode_recursive_elems (maxd : Z) :
  forall nd depth,
    addrnode_ok maxd depth nd = true ->
    exists del, freenode_recursive nd = Some del /\ del ≡ₚ elems nd.
Proof.
  intros nd.
  induction nd as [el0 sc0 e0 e1 IH0 IH1]
    using (addrnode_induction (E := E)).
  intros depth Hok.
  set (nd := mk_node el0 sc0 e0 e1) in *.
  assert (Hedge : forall index, (index = 0 \/ index = 1) ->
    exists d,
      match edge_at nd index with
      | Some (mk_edge _ _ (Some c)) => freenode_recursive c
      | Some (mk_edge _ _ None) => None
      | None => Some []
      end = Some d
      /\ d ≡ₚ elems_below (edge_at nd index)).
  { intros index Hi. destruct (edge_at nd index) as [edge|] eqn:He.
    - destruct (addrnode_ok_edge KEYWIDTH _ _ _ _ _ Hok Hi He)
        as (_ & _ & _ & _ & c & Hc & Hcok).
      destruct (addrnode_induction_child _ nd index edge c IH0 IH1 He Hc
                  (len edge) Hcok) as (d & Hd & Hp).
      destruct edge as [s l n]. cbn in Hc. subst n. cbn [elems_below].
      eauto.
    - exists []. split; reflexivity. }
  destruct (Hedge 0 ltac:(auto)) as (d0 & H0 & Hp0).
  destruct (Hedge 1 ltac:(auto)) as (d1 & H1 & Hp1).
  cbn [edge_at Z.eqb nd edge0 edge1] in H0, H1, Hp0, Hp1.
  unfold nd at 1. cbn [freenode_recursive]. fold nd.
  rewrite H0. cbn [mbind option_bind].
  rewrite H1. cbn [mbind option_bind].
  eexists. split; [reflexivity|].
  rewrite Hp0, Hp1, (elems_eq nd). cbn [nd edge0 edge1 elem].
  unfold addrtree_clean_node. cbn [elem].
  destruct el0; cbn [snd option_list]; solve_Permutation.
Qed.

End AddrtreeElemFacts.

Section AddrtreeTheorems.
Import Data Addrtree.
Variable KEYWIDTH : Z.
Hypothesis KEYWIDTH_pos : 0 < KEYWIDTH.
Context {E Env : Type}.

Abbreviation getbit := (Addrtree.getbit KEYWIDTH).
Abbreviation cmpbit := (Addrtree.cmpbit KEYWIDTH).
Abbreviation bits_common := (Addrtree.bits_common KEYWIDTH).
Abbreviation issub := (Addrtree.issub KEYWIDTH).
Abbreviation nwords := (Addrtree.nwords KEYWIDTH).
Abbreviation key_ok := (Addrtree.key_ok KEYWIDTH).
Abbreviation addrtree_ok := (Addrtree.addrtree_ok KEYWIDTH (E := E) (Env := Env)).
Abbreviation addrtree_insert :=
  (Addrtree.addrtree_insert KEYWIDTH (E := E) (Env := Env)).
Abbreviation addrtree_insert_all :=
  (Addrtree.addrtree_insert_all KEYWIDTH (E := E) (Env := Env)).
Abbreviation addrtree_find :=
  (Addrtree.addrtree_find KEYWIDTH (E := E) (Env := Env)).

Lemma key_ok_spec (addr : list Z) (sm : Z) :
  key_ok addr sm = true ->
  0 <= sm /\ (Z.to_nat (nwords sm) <= length addr)%nat.
Proof.
  unfold Addrtree.key_ok. rewrite andb_true_iff, Nat.leb_le. lia.
Qed.

(** The clamping at the head of [addrtree_insert]. *)
Lemma insert_clamp (maxd sm sc : Z) :
  let sc' := if maxd <? sc then maxd else sc in
  let sm' := if sc' <? sm then sc' else sm in
  sc' = Z.min sc maxd /\ sm' = Z.min sm sc'.
Proof.
  cbv zeta. destruct (Z.ltb_spec maxd sc);
    match goal with |- context [?a <? sm] => destruct (Z.ltb_spec a sm) end;
    lia.
Qed.

Lemma addrtree_ok_root (t : addrtree E Env) :
  addrtree_ok t = true ->
  exists r, root t = Some r /\ 0 <= max_depth t
            /\ addrnode_ok KEYWIDTH (max_depth t) 0 r = true.
Proof.
  unfold Addrtree.addrtree_ok. destruct (root t) as [r|]; [|discriminate].
  rewrite andb_true_iff. intros [H1 H2]. exists r.
  split; [reflexivity|]. split; [lia|exact H2].
Qed.

Lemma addrtree_insert_step (t : addrtree E Env) (addr : list Z)
    (sm sc : Z) (el : option E) (h : region) :
  addrtree_ok t = true -> key_ok addr sm = true -> 0 <= sc ->
  script h = [] ->
  exists t' del h',
    addrtree_insert t addr sm sc el h = Some (t', del, h')
    /\ script h' = [] /\ addrtree_ok t' = true
    /\ max_depth t' = max_depth t /\ env t' = env t
    /\ addrtree_elems t' ++ del ≡ₚ option_list el ++ addrtree_elems t.
Proof.
  intros Hok Hkey Hsc Hs.
  destruct (addrtree_ok_root t Hok) as (r & Hr & Hmax & Hrok).
  destruct (key_ok_spec addr sm Hkey) as [Hsm Haddr].
  unfold Addrtree.addrtree_insert. rewrite Hr.
  destruct (insert_clamp (max_depth t) sm sc) as [Hc1 Hc2].
  cbv zeta in Hc1, Hc2. rewrite Hc1 in *. rewrite Hc2. clear Hc1 Hc2.
  set (sc' := Z.min sc (max_depth t)). set (sm' := Z.min sm sc').
  assert (Haddr' : (Z.to_nat (nwords sm') <= length addr)%nat).
  { pose proof (nwords_mono KEYWIDTH KEYWIDTH_pos sm' sm ltac:(lia)). lia. }
  destruct (insert_loop_ok KEYWIDTH KEYWIDTH_pos addr sm' sc' el
              (max_depth t) ltac:(lia) ltac:(lia) Haddr' r 0 h Hs
              ltac:(lia) Hrok) as (r' & del & h' & Hins & Hs' & Hok').
  rewrite Hins. do 3 eexists. split; [reflexivity|].
  split; [exact Hs'|]. split.
  { unfold Addrtree.addrtree_ok. cbn [root max_depth].
    rewrite Hok'. rewrite andb_true_r. lia. }
  split; [reflexivity|]. split; [reflexivity|].
  unfold addrtree_elems. cbn [root]. rewrite Hr.
  apply (insert_loop_elems KEYWIDTH KEYWIDTH_pos addr sm' sc' el
           (max_depth t) ltac:(lia) ltac:(lia) Haddr' r 0 h r' del h' Hs
           ltac:(lia) Hrok Hins).
Qed.

Lemma addrtree_create_plenty (maxd : Z) (ev : Env) (h : region) :
  0 <= maxd -> script h = [] ->
  exists t h',
    addrtree_create (E := E) maxd (Some ev) h = Some (Some t, h')
    /\ script h' = [] /\ addrtree_ok t = true
    /\ max_depth t = maxd /\ env t = ev /\ addrtree_elems t = [].
Proof.
  intros Hm Hs. unfold addrtree_create, node_create, region_alloc.
  rewrite Hs. cbn. do 2 eexists. split; [reflexivity|].
  split; [reflexivity|]. split.
  { unfold Addrtree.addrtree_ok. cbn. rewrite !andb_true_r.
    apply andb_true_iff. split; lia. }
  repeat split.
Qed.

Lemma addrtree_insert_all_plenty (ops : list (insert_op E)) :
  Forall (fun o => insert_op_ok KEYWIDTH o = true) ops ->
  forall (t : addrtree E Env) h,
    addrtree_ok t = true -> script h = [] ->
    exists t' del h',
      addrtree_insert_all t ops h = Some (t', del, h')
      /\ script h' = [] /\ addrtree_ok t' = true
      /\ max_depth t' = max_depth t /\ env t' = env t
      /\ addrtree_elems t' ++ del
         ≡ₚ omap op_elem ops ++ addrtree_elems t.
Proof.
  induction 1 as [|o ops Ho _ IH]; intros t h Hok Hs.
  - do 3 eexists. split; [reflexivity|]. repeat split; try assumption.
    cbn. rewrite app_nil_r. reflexivity.
  - unfold insert_op_ok in Ho. apply andb_true_iff in Ho as [Hk Hsc].
    destruct (addrtree_insert_step t (op_addr o) (op_sourcemask o)
                (op_scope o) (op_elem o) h Hok Hk ltac:(lia) Hs)
      as (t1 & d1 & h1 & Hins & Hs1 & Hok1 & Hm1 & He1 & Hp1).
    destruct (IH t1 h1 Hok1 Hs1)
      as (t2 & d2 & h2 & Hall & Hs2 & Hok2 & Hm2 & He2 & Hp2).
    cbn [Addrtree.addrtree_insert_all]. rewrite Hins, Hall.
    do 3 eexists. split; [reflexivity|]. split; [exact Hs2|].
    split; [exact Hok2|]. split; [congruence|]. split; [congruence|].
    transitivity ((addrtree_elems t2 ++ d2) ++ d1); [solve_Permutation|].
    rewrite Hp2.
    transitivity (omap op_elem ops ++ (addrtree_elems t1 ++ d1));
      [solve_Permutation|].
    rewrite Hp1. cbn [omap list_omap].
    destruct (op_elem o); cbn [option_list]; solve_Permutation.
Qed.

Lemma insert_loop_del (addr : list Z) (sm sc : Z) (el : option E)
    (maxd : Z) :
  0 <= sm <= sc -> sc <= maxd ->
  (Z.to_nat (nwords sm) <= length addr)%nat ->
  forall nd depth h nd' del h',
    script h = [] -> 0 <= depth <= sm ->
    addrnode_ok KEYWIDTH maxd depth nd = true ->
    insert_loop KEYWIDTH addr sm sc el nd depth h = Some (nd', del, h') ->
    (length del <= 1)%nat.
Proof.
  intros Hsm Hsc Haddr nd.
  induction nd as [el0 sc0 e0 e1 IH0 IH1]
    using (addrnode_induction (E := E)).
  intros depth h nd' del h' Hs Hd Hok Hins.
  set (nd := mk_node el0 sc0 e0 e1) in *.
  destruct (insert_loop_cases KEYWIDTH KEYWIDTH_pos addr sm sc el maxd
              nd depth h Hsm Hsc Haddr Hs Hd Hok)
    as (nd'' & del' & h'' & Hins' & _ & Hcases).
  rewrite Hins in Hins'. injection Hins' as <- <- <-.
  destruct Hcases as [(_ & _ & ->) | (Hlt & index & Hi & Hbit & Hcases)].
  { destruct (elem nd); cbn; lia. }
  destruct Hcases as [(_ & -> & _) | [Hc3 | Hc4]]; [cbn; lia| |].
  - destruct Hc3 as (edge & child & child' & He & Hchild & Hlen & _
                     & Hinsc & _).
    destruct (addrnode_ok_edge KEYWIDTH _ _ _ _ _ Hok Hi He)
      as (_ & _ & _ & _ & c & Hc & Hcok).
    assert (c = child) by congruence. subst c.
    apply (addrnode_induction_child _ nd index edge child IH0 IH1 He
             Hchild (len edge) h child' del h' Hs ltac:(lia) Hcok Hinsc).
  - destruct Hc4 as (? & ? & ? & ? & _ & _ & _ & _ & _ & -> & _).
    cbn; lia.
Qed.

(** X1 (addrtree.c, getbit and cmpbit): for two keys that hold bit [n],
    [getbit] returns 0 or 1 for each, and [cmpbit] returns 0 when the
    two bits are equal and 1 when they differ. *)
Theorem cmpbit_tests_bit_equality (k1 : list Z) (l1 : Z) (k2 : list Z)
    (l2 n : Z) :
  key_ok k1 l1 = true -> key_ok k2 l2 = true ->
  0 <= n -> n < l1 -> n < l2 ->
  exists b1 b2,
    getbit k1 l1 n = Some b1 /\ getbit k2 l2 n = Some b2
    /\ (b1 = 0 \/ b1 = 1) /\ (b2 = 0 \/ b2 = 1)
    /\ cmpbit k1 k2 n = Some (if b1 =? b2 then 0 else 1).
Proof.
  intros Hk1 Hk2 H0 H1 H2.
  destruct (key_ok_spec k1 l1 Hk1) as [_ Hw1].
  destruct (key_ok_spec k2 l2 Hk2) as [_ Hw2].
  destruct (cmpbit_in_range KEYWIDTH KEYWIDTH_pos k1 l1 k2 l2 n)
    as (b1 & b2 & Hb1 & Hb2 & Hc); try assumption.
  exists b1, b2. split; [exact Hb1|]. split; [exact Hb2|].
  split; [eapply getbit_01; eauto|]. split; [eapply getbit_01; eauto|].
  exact Hc.
Qed.

(** X2 (addrtree.c, bits_common): for two keys that hold their bits and
    a [skip] below both lengths, [bits_common] returns the first
    position from [skip] on where the keys differ, or the shorter
    length when they agree on all of it; the result does not depend on
    the order of the two keys. *)
Theorem bits_common_longest_common_prefix (s1 : list Z) (l1 : Z)
    (s2 : list Z) (l2 skip : Z) :
  key_ok s1 l1 = true -> key_ok s2 l2 = true ->
  0 <= skip -> skip < l1 -> skip < l2 ->
  exists c,
    bits_common s1 l1 s2 l2 skip = Some c
    /\ bits_common s2 l2 s1 l1 skip = Some c
    /\ skip <= c <= Z.min l1 l2
    /\ (forall j, skip <= j < c -> getbit s1 l1 j = getbit s2 l2 j)
    /\ (c < Z.min l1 l2 -> getbit s1 l1 c <> getbit s2 l2 c).
Proof.
  intros Hk1 Hk2 H0 H1 H2.
  destruct (key_ok_spec s1 l1 Hk1) as [_ Hw1].
  destruct (key_ok_spec s2 l2 Hk2) as [_ Hw2].
  destruct (bits_common_spec KEYWIDTH KEYWIDTH_pos s1 l1 s2 l2 skip)
    as (c & Hc & Hle & Heq & Hne); try assumption.
  destruct (bits_common_spec KEYWIDTH KEYWIDTH_pos s2 l2 s1 l1 skip)
    as (c' & Hc' & Hle' & Heq' & Hne'); try assumption.
  exists c. split; [exact Hc|]. split; [|auto].
  rewrite Hc'. f_equal.
  destruct (Z.lt_trichotomy c c') as [Hlt | [-> | Hgt]]; [|reflexivity|].
  - exfalso. apply Hne; [lia|]. symmetry. apply Heq'. lia.
  - exfalso. apply Hne'; [lia|]. symmetry. apply Heq. lia.
Qed.

(** X3 (addrtree.c, issub): under the same conditions [issub] answers 1
    exactly when the first key is not longer than the second and the
    two agree on every bit of the first from [skip] on, and 0
    otherwise. *)
Theorem issub_iff_prefix (s1 : list Z) (l1 : Z) (s2 : list Z)
    (l2 skip : Z) :
  key_ok s1 l1 = true -> key_ok s2 l2 = true ->
  0 <= skip -> skip < l1 -> skip < l2 ->
  exists r,
    issub s1 l1 s2 l2 skip = Some r
    /\ (r = 0 \/ r = 1)
    /\ (r = 1 <->
        l1 <= l2
        /\ forall j, skip <= j < l1 -> getbit s1 l1 j = getbit s2 l2 j).
Proof.
  intros Hk1 Hk2 H0 H1 H2.
  destruct (key_ok_spec s1 l1 Hk1) as [_ Hw1].
  destruct (key_ok_spec s2 l2 Hk2) as [_ Hw2].
  apply (issub_spec KEYWIDTH KEYWIDTH_pos); assumption.
Qed.

(** X4 (addrtree.c, addrtree_create and addrtree_insert): with memory
    to spare, a tree made by [addrtree_create] and grown by any
    sequence of inserts, each with a key that holds its bits, is
    built without a failed assertion, a NULL dereference or a read past
    a key, and has the shape [addrtree_ok]: in particular no edge is
    longer than [max_depth] and every element sits in a node whose
    scope is at least its depth. *)
Theorem addrtree_inserts_keep_shape (maxd : Z) (ev : Env)
    (ops : list (insert_op E)) (h : region) :
  0 <= maxd -> script h = [] ->
  Forall (fun o => insert_op_ok KEYWIDTH o = true) ops ->
  exists t0 h0 t del h',
    addrtree_create maxd (Some ev) h = Some (Some t0, h0)
    /\ addrtree_insert_all t0 ops h0 = Some (t, del, h')
    /\ addrtree_ok t = true /\ max_depth t = maxd /\ env t = ev.
Proof.
  intros Hm Hs Hops.
  destruct (addrtree_create_plenty maxd ev h Hm Hs)
    as (t0 & h0 & Hc & Hs0 & Hok0 & Hm0 & He0 & _).
  destruct (addrtree_insert_all_plenty ops Hops t0 h0 Hok0 Hs0)
    as (t & del & h' & Hall & _ & Hok & Hmax & Henv & _).
  exists t0, h0, t, del, h'. repeat split; try assumption; congruence.
Qed.

(** X5 (addrtree.c, addrtree_find): on a tree of that shape a lookup
    with a key that holds its bits fails no assertion, and the node it
    returns, if any, holds an element. *)
Theorem addrtree_find_safe_and_sound (t : addrtree E Env)
    (addr : list Z) (sm : Z) :
  addrtree_ok t = true -> key_ok addr sm = true ->
  exists r, addrtree_find t addr sm = Some r
            /\ forall n, r = Some n -> is_Some (elem n).
Proof.
  intros Hok Hkey.
  destruct (addrtree_ok_root t Hok) as (r & Hr & Hmax & Hrok).
  destruct (key_ok_spec addr sm Hkey) as [Hsm Haddr].
  unfold Addrtree.addrtree_find. rewrite Hr.
  apply (find_loop_ok KEYWIDTH KEYWIDTH_pos addr sm (max_depth t) Haddr r 0
           ltac:(lia) Hrok).
Qed.

(** X6 (addrtree.c, addrtree_insert then addrtree_find): when a lookup
    finds nothing for an address and a source mask, then after an
    insert for the same address and mask the same lookup returns the
    node that holds the inserted element, with the scope limited to
    [max_depth]. *)
Theorem addrtree_find_after_insert (t : addrtree E Env) (addr : list Z)
    (sm sc : Z) (e : E) (h : region) (t' : addrtree E Env)
    (del : list E) (h' : region) :
  addrtree_ok t = true -> key_ok addr sm = true -> 0 <= sc ->
  script h = [] ->
  addrtree_find t addr sm = Some None ->
  addrtree_insert t addr sm sc (Some e) h = Some (t', del, h') ->
  exists n, addrtree_find t' addr sm = Some (Some n)
            /\ elem n = Some e /\ scope n = Z.min sc (max_depth t).
Proof.
  intros Hok Hkey Hsc Hs Hfind Hins.
  destruct (addrtree_ok_root t Hok) as (r & Hr & Hmax & Hrok).
  destruct (key_ok_spec addr sm Hkey) as [Hsm Haddr].
  unfold Addrtree.addrtree_insert in Hins.
  unfold Addrtree.addrtree_find in Hfind. rewrite Hr in Hins, Hfind.
  destruct (insert_clamp (max_depth t) sm sc) as [Hc1 Hc2].
  cbv zeta in Hc1, Hc2. rewrite Hc1 in *. rewrite Hc2 in Hins.
  clear Hc1 Hc2.
  destruct (insert_loop KEYWIDTH addr _ _ (Some e) r 0 h)
    as [[[r' del0] h0]|] eqn:Hloop; [|discriminate].
  injection Hins as <- <- <-.
  unfold Addrtree.addrtree_find. cbn [root].
  apply (find_loop_insert KEYWIDTH KEYWIDTH_pos addr sm
           (Z.min sc (max_depth t)) e (max_depth t) Hsm ltac:(lia) Haddr
           r 0 h r' del0 h0 Hs ltac:(lia) Hrok Hfind Hloop).
Qed.

(** X7 (addrtree.c, addrtree_insert): with memory to spare an insert
    loses no element: the elements of the tree afterwards, with those
    given to [reply_info_parsedelete], are the elements before and the
    one inserted; at most one element is deleted. *)
Theorem addrtree_insert_conserves_elements (t : addrtree E Env)
    (addr : list Z) (sm sc : Z) (el : option E) (h : region)
    (t' : addrtree E Env) (del : list E) (h' : region) :
  addrtree_ok t = true -> key_ok addr sm = true -> 0 <= sc ->
  script h = [] ->
  addrtree_insert t addr sm sc el h = Some (t', del, h') ->
  addrtree_elems t' ++ del ≡ₚ option_list el ++ addrtree_elems t
  /\ (length del <= 1)%nat.
Proof.
  intros Hok Hkey Hsc Hs Hins.
  destruct (addrtree_insert_step t addr sm sc el h Hok Hkey Hsc Hs)
    as (t1 & d1 & h1 & Hins1 & _ & _ & _ & _ & Hp).
  rewrite Hins in Hins1. injection Hins1 as <- <- <-.
  split; [exact Hp|].
  destruct (addrtree_ok_root t Hok) as (r & Hr & Hmax & Hrok).
  destruct (key_ok_spec addr sm Hkey) as [Hsm Haddr].
  unfold Addrtree.addrtree_insert in Hins. rewrite Hr in Hins.
  destruct (insert_clamp (max_depth t) sm sc) as [Hc1 Hc2].
  cbv zeta in Hc1, Hc2. rewrite Hc1 in *. rewrite Hc2 in Hins.
  clear Hc1 Hc2.
  destruct (insert_loop KEYWIDTH addr _ _ el r 0 h)
    as [[[r' del0] h0]|] eqn:Hloop; [|discriminate].
  injection Hins as <- <- <-.
  set (sc' := Z.min sc (max_depth t)) in *.
  assert (Haddr' : (Z.to_nat (nwords (Z.min sm sc')) <= length addr)%nat).
  { pose proof (nwords_mono KEYWIDTH KEYWIDTH_pos (Z.min sm sc') sm
                  ltac:(lia)). lia. }
  apply (insert_loop_del addr (Z.min sm sc') sc' el (max_depth t)
           ltac:(lia) ltac:(lia) Haddr' r 0 h r' del0 h0 Hs ltac:(lia)
           Hrok Hloop).
Qed.

(** X8 (addrtree.c, addrtree_delete and freenode_recursive): with
    memory to spare, after [addrtree_create], any sequence of inserts
    and [addrtree_delete], every element inserted has been given to
    [reply_info_parsedelete] exactly once, by an insert that replaced
    it or by the delete; deleting no tree deletes nothing. *)
Theorem addrtree_delete_releases_every_element (maxd : Z) (ev : Env)
    (ops : list (insert_op E)) (h : region) :
  0 <= maxd -> script h = [] ->
  Forall (fun o => insert_op_ok KEYWIDTH o = true) ops ->
  exists t0 h0 t del h' last,
    addrtree_create maxd (Some ev) h = Some (Some t0, h0)
    /\ addrtree_insert_all t0 ops h0 = Some (t, del, h')
    /\ addrtree_delete (Some t) = Some last
    /\ del ++ last ≡ₚ omap op_elem ops
    /\ addrtree_delete (E := E) (Env := Env) None = Some [].
Proof.
  intros Hm Hs Hops.
  destruct (addrtree_create_plenty maxd ev h Hm Hs)
    as (t0 & h0 & Hc & Hs0 & Hok0 & Hm0 & He0 & Hel0).
  destruct (addrtree_insert_all_plenty ops Hops t0 h0 Hok0 Hs0)
    as (t & del & h' & Hall & _ & Hok & Hmax & Henv & Hp).
  destruct (addrtree_ok_root t Hok) as (r & Hr & _ & Hrok).
  destruct (freenode_recursive_elems KEYWIDTH (max_depth t) r 0 Hrok)
    as (last & Hfree & Hlast).
  exists t0, h0, t, del, h', last.
  split; [exact Hc|]. split; [exact Hall|].
  split; [cbn [addrtree_delete]; rewrite Hr; exact Hfree|].
  split; [|reflexivity].
  rewrite Hel0, app_nil_r in Hp. rewrite <- Hp.
  unfold addrtree_elems. rewrite Hr, Hlast. solve_Permutation.
Qed.

End AddrtreeTheorems.

Section AddrtreeUpdateFacts.
Import Data Addrtree.
Variable KEYWIDTH : Z.
Hypothesis KEYWIDTH_pos : 0 < KEYWIDTH.
Context {E Env : Type}.

Abbreviation addrnode_ok := (Addrtree.addrnode_ok KEYWIDTH (E := E)).
Abbreviation insert_loop := (Addrtree.insert_loop KEYWIDTH (E := E)).
Abbreviation getbit := (Addrtree.getbit KEYWIDTH).
Abbreviation nwords := (Addrtree.nwords KEYWIDTH).
Abbreviation bits_common := (Addrtree.bits_common KEYWIDTH).
Abbreviation key_ok := (Addrtree.key_ok KEYWIDTH).
Abbreviation addrtree_ok := (Addrtree.addrtree_ok KEYWIDTH (E := E) (Env := Env)).
Abbreviation addrtree_insert :=
  (Addrtree.addrtree_insert KEYWIDTH (E := E) (Env := Env)).

Lemma bits_common_agree (s1 : list Z) (l1 : Z) (s2 : list Z) (l2 skip : Z) :
  0 <= skip -> skip < l1 -> l1 <= l2 ->
  (Z.to_nat (nwords l1) <= length s1)%nat ->
  (Z.to_nat (nwords l2) <= length s2)%nat ->
  (forall j, skip <= j < l1 -> getbit s1 l1 j = getbit s2 l2 j) ->
  bits_common s1 l1 s2 l2 skip = Some l1.
Proof.
  intros H0 H1 H2 Hs1 Hs2 Hag.
  destruct (bits_common_spec KEYWIDTH KEYWIDTH_pos s1 l1 s2 l2 skip)
    as (c & -> & Hle & _ & Hne); try assumption; try lia.
  f_equal. destruct (Z.eq_dec c l1) as [|Hc]; [assumption|]. exfalso.
  apply Hne; [lia|]. apply Hag. lia.
Qed.

(** The insert at the depth of the node: Case 1, without an
    allocation. *)
Lemma insert_loop_update (addr : list Z) (sm sc : Z) (el : option E)
    (nd : addrnode E) (h : region) :
  insert_loop addr sm sc el nd sm h
  = Some (mk_node el sc (edge0 nd) (edge1 nd), option_list (elem nd), h).
Proof.
  destruct nd as [el0 sc0 e0 e1]. cbn [Addrtree.insert_loop].
  rewrite Z.ltb_irrefl, Z.eqb_refl. cbn [elem].
  destruct el0; reflexivity.
Qed.

(** The insert above that depth along an edge that agrees with the
    address: Case 3. *)
Lemma insert_loop_pass (addr : list Z) (sm sc : Z) (el : option E)
    (nd : addrnode E) (depth index : Z) (edge : addredge E)
    (child : addrnode E) (h : region) :
  0 <= depth < len edge -> len edge <= sm ->
  (Z.to_nat (nwords sm) <= length addr)%nat ->
  (Z.to_nat (nwords (len edge)) <= length (str edge))%nat ->
  getbit addr sm depth = Some index ->
  edge_at nd index = Some edge -> node edge = Some child ->
  (forall j, depth <= j < len edge ->
     getbit (str edge) (len edge) j = getbit addr sm j) ->
  insert_loop addr sm sc el nd depth h
  = match insert_loop addr sm sc el child (len edge) h with
    | None => None
    | Some (child', del, h) =>
        Some (set_edge (mk_node (elem nd) sc (edge0 nd) (edge1 nd)) index
                (Some (mk_edge (str edge) (len edge) (Some child'))),
              del, h)
    end.
Proof.
  intros Hd Hl Haddr Hw Hbit He Hc Hag.
  destruct nd as [el0 sc0 e0 e1]. cbn [Addrtree.insert_loop].
  destruct (Z.ltb_spec sm depth); [lia|].
  destruct (Z.eqb_spec depth sm); [lia|].
  rewrite Hbit, He.
  rewrite bits_common_agree by (try assumption; lia).
  rewrite Z.eqb_refl, Hc. reflexivity.
Qed.

Ltac again_side :=
  cbn [str len node elem scope];
  first
    [ assumption
    | lia
    | reflexivity
    | rewrite length_take; lia
    | apply edge_at_set_edge
    | let j := fresh "j" in let Hj := fresh "Hj" in
      intros j Hj; apply getbit_take; [assumption|lia|lia] ].

(** After an insert, the insert for the same address, mask and scope
    walks to the node made and updates it. *)
Lemma insert_loop_again (addr : list Z) (sm sc : Z) (el1 el2 : option E)
    (maxd : Z) :
  0 <= sm <= sc -> sc <= maxd ->
  (Z.to_nat (nwords sm) <= length addr)%nat ->
  forall nd depth h nd1 del1 h1 h2,
    script h = [] -> 0 <= depth <= sm ->
    addrnode_ok maxd depth nd = true ->
    insert_loop addr sm sc el1 nd depth h = Some (nd1, del1, h1) ->
    exists nd2,
      insert_loop addr sm sc el2 nd1 depth h2
      = Some (nd2, option_list el1, h2).
Proof.
  intros Hsm Hsc Haddr nd.
  induction nd as [el0 sc0 e0 e1 IH0 IH1]
    using (addrnode_induction (E := E)).
  intros depth h nd1 del1 h1 h2 Hs Hd Hok Hins.
  set (nd := mk_node el0 sc0 e0 e1) in *.
  destruct (insert_loop_cases KEYWIDTH KEYWIDTH_pos addr sm sc el1 maxd
              nd depth h Hsm Hsc Haddr Hs Hd Hok)
    as (nd'' & del' & h'' & Hins' & _ & Hcases).
  rewrite Hins in Hins'. injection Hins' as <- <- <-.
  assert (Hleaf : forall n, elem n = el1 ->
    exists nd2, insert_loop addr sm sc el2 n sm h2
                = Some (nd2, option_list el1, h2)).
  { intros n <-. eexists. apply insert_loop_update. }
  destruct Hcases as [(-> & -> & _) | (Hlt & index & Hi & Hbit & Hcases)].
  { apply Hleaf. reflexivity. }
  destruct Hcases as [(He & _ & ->) | [Hc3 | Hc4]].
  - rewrite (insert_loop_pass addr sm sc el2 _ depth index
               (mk_edge (take (Z.to_nat (nwords sm)) addr) sm
                  (Some (mk_node el1 sc None None)))
               (mk_node el1 sc None None)) by again_side.
    cbn [len]. rewrite insert_loop_update. eexists. reflexivity.
  - destruct Hc3 as (edge & child & child' & He & Hchild & Hlen & Hag
                     & Hinsc & ->).
    destruct (addrnode_ok_edge KEYWIDTH _ _ _ _ _ Hok Hi He)
      as (_ & _ & Hw & _ & c & Hc & Hcok).
    assert (c = child) by congruence. subst c.
    destruct (addrnode_induction_child _ nd index edge child IH0 IH1 He
                Hchild (len edge) h child' del1 h1 h2 Hs ltac:(lia) Hcok
                Hinsc) as (c2 & Hc2).
    rewrite (insert_loop_pass addr sm sc el2 _ depth index
               (mk_edge (str edge) (len edge) (Some child')) child')
      by again_side.
    cbn [len]. rewrite Hc2. eexists. reflexivity.
  - destruct Hc4 as (edge & common & index2 & nn & He & Hcr & Hcs & Hi2
                     & Hb2 & _ & -> & Hnn).
    assert (Hwc : (Z.to_nat (nwords common) <= length addr)%nat).
    { pose proof (nwords_mono KEYWIDTH KEYWIDTH_pos common sm ltac:(lia)).
      lia. }
    rewrite (insert_loop_pass addr sm sc el2 _ depth index
               (mk_edge (take (Z.to_nat (nwords common)) addr) common
                  (Some nn)) nn) by again_side.
    cbn [len].
    assert (Hnn2 : exists n2,
      insert_loop addr sm sc el2 nn common h2
      = Some (n2, option_list el1, h2)).
    { destruct Hnn as [(-> & ->) | (Hlt2 & Hbaddr & ->)].
      - apply Hleaf. apply elem_set_edge.
      - rewrite (insert_loop_pass addr sm sc el2 _ common (Z.lxor index2 1)
                   (mk_edge (take (Z.to_nat (nwords sm)) addr) sm
                      (Some (mk_node el1 sc None None)))
                   (mk_node el1 sc None None)) by again_side.
        cbn [len]. rewrite insert_loop_update. eexists. reflexivity. }
    destruct Hnn2 as (n2 & ->). eexists. reflexivity.
Qed.

(** X9 (addrtree.c, addrtree_insert twice): after an insert with memory
    to spare, an insert for the same address, source mask and scope
    updates the node made by the first: it succeeds whatever the heap,
    allocates nothing, and gives exactly the element of the first
    insert to [reply_info_parsedelete]. *)
Theorem addrtree_insert_twice_replaces (t : addrtree E Env)
    (addr : list Z) (sm sc : Z) (el1 el2 : option E) (h : region)
    (t1 : addrtree E Env) (del1 : list E) (h1 h2 : region) :
  addrtree_ok t = true -> key_ok addr sm = true -> 0 <= sc ->
  script h = [] ->
  addrtree_insert t addr sm sc el1 h = Some (t1, del1, h1) ->
  exists t2,
    addrtree_insert t1 addr sm sc el2 h2 = Some (t2, option_list el1, h2).
Proof.
  intros Hok Hkey Hsc Hs Hins.
  destruct (addrtree_ok_root KEYWIDTH t Hok) as (r & Hr & Hmax & Hrok).
  destruct (key_ok_spec KEYWIDTH addr sm Hkey) as [Hsm Haddr].
  unfold Addrtree.addrtree_insert in *. rewrite Hr in Hins.
  destruct (insert_clamp (max_depth t) sm sc) as [Hc1 Hc2].
  cbv zeta in Hc1, Hc2. rewrite Hc1 in *. rewrite Hc2 in Hins.
  destruct (insert_loop addr _ _ el1 r 0 h)
    as [[[r' del0] h0]|] eqn:Hloop; [|discriminate].
  injection Hins as <- <- <-. cbn [root max_depth].
  rewrite Hc1, Hc2.
  set (sc' := Z.min sc (max_depth t)) in *.
  assert (Haddr' : (Z.to_nat (nwords (Z.min sm sc')) <= length addr)%nat).
  { pose proof (nwords_mono KEYWIDTH KEYWIDTH_pos (Z.min sm sc') sm
                  ltac:(lia)). lia. }
  destruct (insert_loop_again addr (Z.min sm sc') sc' el1 el2 (max_depth t)
              ltac:(lia) ltac:(lia) Haddr' r 0 h r' del0 h0 h2 Hs
              ltac:(lia) Hrok Hloop) as (r2 & ->).
  eexists. reflexivity.
Qed.

End AddrtreeUpdateFacts.

(** ** More of services/cache/dns.c *)

Section DnsMoreFacts.
Import Data Slabhash Dns Regions Referral.
Variable query_info_hash   : query_info -> Z.
Variable rrset_key_hash    : packed_rrset_key -> Z.
Variable msgreply_sizefunc : query_info -> reply_info positive -> nat.
Variable ub_rrset_sizefunc :
  ub_packed_rrset_key -> packed_rrset_data -> nat.

Lemma allocated_0 (rg : region) : allocated 0 rg rg.
Proof.
  unfold allocated. rewrite drop_0, take_0. repeat split; [lia|constructor].
Qed.

Lemma allocated_trans (n m : nat) (rg rg1 rg2 : region) :
  allocated n rg rg1 -> allocated m rg1 rg2 -> allocated (n + m) rg rg2.
Proof.
  intros (H1 & H2 & H3) (H4 & H5 & H6). unfold allocated.
  split; [rewrite H4, H1, drop_drop; reflexivity|]. split; [lia|].
  rewrite H1 in H6. rewrite <- take_take_drop. apply Forall_app. auto.
Qed.

Lemma region_alloc_Some (rg : region) (a : positive) (rg' : region) :
  region_alloc rg = (Some a, rg') -> a = brk rg /\ allocated 1 rg rg'.
Proof.
  unfold region_alloc, allocated.
  destruct (script rg) as [|[|] s] eqn:Hs; intros [= <- <-]; cbn;
    repeat split; try lia; repeat constructor.
Qed.

Lemma region_alloc_None (rg rg' : region) :
  region_alloc rg = (None, rg') ->
  head (script rg) = Some false /\ brk rg' = brk rg
  /\ script rg' = drop 1 (script rg).
Proof.
  unfold region_alloc.
  destruct (script rg) as [|[|] s] eqn:Hs; intros [= <-]; cbn; auto.
Qed.

Lemma alter_seq_length (f : Z -> Z) (idx : list nat) (l : list Z) :
  length (foldl (fun t i => alter f i t) l idx) = length l.
Proof.
  revert l. induction idx as [|i idx IH]; intros l; [reflexivity|].
  cbn [foldl]. rewrite IH. apply length_alter.
Qed.

(** X10 (dns.c, copy_rrset): the copy is a new object at the next
    address of the region, made with three allocations; it has the id,
    the key, the hash, the counts, the trust, the security status and
    the RDATA of the original and as many TTL slots; the copy is NULL
    exactly when one of the three allocations fails. *)
Theorem copy_rrset_new_object (k : lruhash_entry ub_packed_rrset_key
                                     packed_rrset_data)
    (rg : region) (now : Z) :
  match copy_rrset k rg now with
  | (Some ck, rg') =>
      allocated 3 rg rg'
      /\ key_addr (key ck) = brk rg
      /\ id (key ck) = id (key k) /\ rk (key ck) = rk (key k)
      /\ hash ck = hash k
      /\ count (data ck) = count (data k)
      /\ rrsig_count (data ck) = rrsig_count (data k)
      /\ trust (data ck) = trust (data k)
      /\ security (data ck) = security (data k)
      /\ rr_data (data ck) = rr_data (data k)
      /\ length (rr_ttl (data ck)) = length (rr_ttl (data k))
  | (None, rg') => false ∈ take 3 (script rg)
  end.
Proof.
  unfold copy_rrset.
  destruct (region_alloc rg) as [[a1|] rg1] eqn:H1.
  2:{ apply region_alloc_None in H1 as (Hh & _).
      destruct (script rg) as [|b s]; [discriminate|].
      injection Hh as ->. cbn. left. }
  apply region_alloc_Some in H1 as [-> A1].
  destruct (region_alloc rg1) as [[a2|] rg2] eqn:H2.
  2:{ apply region_alloc_None in H2 as (Hh & _).
      destruct A1 as (Hs & _ & _). rewrite Hs in Hh.
      destruct (script rg) as [|b [|b' s]]; try discriminate.
      injection Hh as ->. cbn. right. left. }
  apply region_alloc_Some in H2 as [-> A2].
  destruct (region_alloc rg2) as [[a3|] rg3] eqn:H3.
  2:{ apply region_alloc_None in H3 as (Hh & _).
      destruct A1 as (Hs1 & _ & _), A2 as (Hs2 & _ & _).
      rewrite Hs2, Hs1 in Hh.
      destruct (script rg) as [|b [|b' [|b'' s]]]; try discriminate.
      injection Hh as ->. cbn. right. right. left. }
  apply region_alloc_Some in H3 as [-> A3].
  cbn [key data key_addr id rk hash count rrsig_count trust security
       rr_data rr_ttl].
  pose proof (allocated_trans _ _ _ _ _ A1 A2) as B2.
  split; [exact (allocated_trans _ _ _ _ _ B2 A3)|].
  repeat split. apply alter_seq_length.
Qed.

Lemma copy_rrset_allocated (k : lruhash_entry ub_packed_rrset_key
                                    packed_rrset_data)
    (rg : region) (now : Z)
    (ck : lruhash_entry ub_packed_rrset_key packed_rrset_data)
    (rg' : region) :
  copy_rrset k rg now = (Some ck, rg') -> allocated 3 rg rg'.
Proof.
  intros H. pose proof (copy_rrset_new_object k rg now) as Hc.
  rewrite H in Hc. tauto.
Qed.

Lemma tomsg_copy_allocated (env : module_env) (r : reply_info positive)
    (now : Z) (idx : list nat)
    (arr : list (option (lruhash_entry ub_packed_rrset_key
                           packed_rrset_data)))
    (rg : region) arr' rg' :
  tomsg_copy env r idx arr rg now = (Some arr', rg') ->
  allocated (3 * length idx) rg rg'.
Proof.
  revert arr rg. induction idx as [|i idx IH]; intros arr rg; cbn [tomsg_copy].
  - intros [= <- <-]. apply allocated_0.
  - destruct (rrsets r !! i ≫= rrset_deref env) as [k|]; [|discriminate].
    destruct (copy_rrset k rg now) as [[ck|] rg1] eqn:Hc; [|discriminate].
    intros H. apply IH in H. apply copy_rrset_allocated in Hc.
    replace (3 * length (i :: idx))%nat with (3 + 3 * length idx)%nat
      by (cbn [length]; lia).
    eapply allocated_trans; eassumption.
Qed.

(** X11 (dns.c, tomsg): a message built from a cache entry has the
    query of the entry and the header of the cached reply copied as it
    is (its TTL still the absolute time of expiry, unlike the TTLs of
    its RRsets); every RRset slot holds a copy; building it takes
    exactly 4 + 3 * rrset_count allocations from the region, and
    leaves the message cache, the key objects and the heap alone. *)
Theorem tomsg_copies_header (env : module_env) (e : query_info)
    (r : reply_info positive) (rg : region) (now : Z) (scratch : region)
    (msg : dns_msg) (env' : module_env) (rg' : region) :
  tomsg env e r rg now scratch = (Some msg, env', rg') ->
  qinfo msg = e
  /\ flags (rep msg) = flags r /\ qdcount (rep msg) = qdcount r
  /\ rep_ttl (rep msg) = rep_ttl r
  /\ rep_security (rep msg) = rep_security r
  /\ an_numrrsets (rep msg) = an_numrrsets r
  /\ ns_numrrsets (rep msg) = ns_numrrsets r
  /\ ar_numrrsets (rep msg) = ar_numrrsets r
  /\ rrset_count (rep msg) = rrset_count r
  /\ length (rrsets (rep msg)) = rrset_count r
  /\ (forall i, (i < rrset_count r)%nat ->
        exists ck, rrsets (rep msg) !! i = Some (Some ck))
  /\ allocated (4 + 3 * rrset_count r) rg rg'
  /\ msg_cache env' = msg_cache env /\ alloc env' = alloc env
  /\ heap env' = heap env.
Proof.
  intros H. pose proof (tomsg_spec _ _ _ _ _ _ _ _ _ H)
    as (_ & _ & _ & _ & _ & Hslots).
  unfold tomsg in H.
  destruct (now >? rep_ttl r); [discriminate|].
  destruct (region_alloc rg) as [[a1|] rg1] eqn:H1; [|discriminate].
  destruct (region_alloc rg1) as [[a2|] rg2] eqn:H2; [|discriminate].
  destruct (region_alloc rg2) as [[a3|] rg3] eqn:H3; [|discriminate].
  destruct (region_alloc rg3) as [[a4|] rg4] eqn:H4; [|discriminate].
  destruct (negb _); [discriminate|].
  destruct (tomsg_copy env r _ _ rg4 now) as [[arr|] rg5] eqn:H5;
    [|discriminate].
  injection H as <- <- <-. cbn [qinfo rep flags qdcount rep_ttl rep_security
    an_numrrsets ns_numrrsets ar_numrrsets rrset_count rrsets].
  apply region_alloc_Some in H1 as [_ A1], H2 as [_ A2], H3 as [_ A3],
    H4 as [_ A4].
  pose proof (tomsg_copy_allocated _ _ _ _ _ _ _ _ H5) as A5.
  rewrite length_seq in A5.
  destruct (tomsg_copy_spec env r now (rrset_count r) 0 _ rg4 arr rg5 H5)
    as (Hlen & _ & _); [rewrite length_replicate; lia|].
  rewrite length_replicate in Hlen.
  pose proof (allocated_trans _ _ _ _ _ A1 A2) as B2.
  pose proof (allocated_trans _ _ _ _ _ B2 A3) as B3.
  pose proof (allocated_trans _ _ _ _ _ B3 A4) as B4.
  pose proof (allocated_trans _ _ _ _ _ B4 A5) as (B5 & B6 & B7).
  repeat split; try assumption.
  intros i Hi. destruct (Hslots i Hi) as (p & k & ck & _ & _ & _ & _ & _ & Hck).
  cbn in Hck. eauto.
Qed.

Lemma first_cached_ns_all_None
    (c : slabhash ub_packed_rrset_key packed_rrset_data)
    (qclass now : Z) (l : list (list byte)) :
  (forall s, s ∈ l ->
     rrset_cache_peek rrset_key_hash c s LDNS_RR_TYPE_NS qclass 0 now
     = None) ->
  first_cached_ns rrset_key_hash c qclass now l = None.
Proof.
  induction l as [|s l IH]; intros H; [reflexivity|].
  cbn [first_cached_ns]. rewrite (H s) by left.
  apply IH. intros s' Hs'. apply H. right. exact Hs'.
Qed.

(** X12 (dns.c, dns_cache_find_delegation and find_deleg_ns): for a
    well-formed qname with no unexpired NS set cached at any of its
    suffixes, down to the root, the result is NULL, and nothing is
    allocated in the region; the message cache, the key objects and
    the heap are as they were. *)
Theorem find_delegation_null_without_cached_ns (env : module_env)
    (qname : list byte) (qtype qclass : Z) (rg : region) (want_msg : bool)
    (now : Z) :
  dname_valid qname = true ->
  (forall s, s ∈ dname_suffixes qname ->
     rrset_cache_peek rrset_key_hash (rrset_cache env) s LDNS_RR_TYPE_NS
       qclass 0 now = None) ->
  exists env',
    dns_cache_find_delegation rrset_key_hash env qname
      (Z.of_nat (length qname)) qtype qclass rg want_msg now
    = (None, env', rg)
    /\ msg_cache env' = msg_cache env /\ alloc env' = alloc env
    /\ heap env' = heap env.
Proof.
  intros Hv Hnone.
  pose proof (find_deleg_ns_spec rrset_key_hash qclass now qname
                (rrset_cache env) Hv) as Hfind.
  rewrite (first_cached_ns_all_None _ _ _ _ Hnone) in Hfind.
  unfold dns_cache_find_delegation.
  destruct (find_deleg_ns rrset_key_hash (rrset_cache env) qname
              (Z.of_nat (length qname)) qclass now) as [[nskey|] c];
    [discriminate|].
  eexists. split; [reflexivity|]. repeat split.
Qed.











End DnsMoreFacts.

(** * The subnet tree and the referral path on concrete data *)

Section SubnetScenarioFacts.
Import Data Addrtree SubnetScenario.

Lemma cmpbit_tests_bit_equality_witness :
  exists b1 b2,
    getbit KEYWIDTH net_168 16 15 = Some b1
    /\ getbit KEYWIDTH net_169 16 15 = Some b2
    /\ (b1 = 0 \/ b1 = 1) /\ (b2 = 0 \/ b2 = 1)
    /\ cmpbit KEYWIDTH net_168 net_169 15
       = Some (if b1 =? b2 then 0 else 1).
Proof.
  apply (cmpbit_tests_bit_equality 8 ltac:(lia) net_168 16 net_169 16 15);
    [reflexivity|reflexivity|lia|lia|lia].
Defined.

Lemma bits_common_longest_common_prefix_witness :
  exists c,
    bits_common KEYWIDTH net_168 16 host_168_1_7 24 0 = Some c
    /\ bits_common KEYWIDTH host_168_1_7 24 net_168 16 0 = Some c
    /\ 0 <= c <= Z.min 16 24
    /\ (forall j, 0 <= j < c ->
          getbit KEYWIDTH net_168 16 j = getbit KEYWIDTH host_168_1_7 24 j)
    /\ (c < Z.min 16 24 ->
          getbit KEYWIDTH net_168 16 c <> getbit KEYWIDTH host_168_1_7 24 c).
Proof.
  apply (bits_common_longest_common_prefix 8 ltac:(lia)
           net_168 16 host_168_1_7 24 0);
    [reflexivity|reflexivity|lia|lia|lia].
Defined.

Lemma issub_iff_prefix_witness :
  exists r,
    issub KEYWIDTH net_168 16 host_168_1_7 24 0 = Some r
    /\ (r = 0 \/ r = 1)
    /\ (r = 1 <->
        16 <= 24
        /\ forall j, 0 <= j < 16 ->
             getbit KEYWIDTH net_168 16 j
             = getbit KEYWIDTH host_168_1_7 24 j).
Proof.
  apply (issub_iff_prefix 8 ltac:(lia) net_168 16 host_168_1_7 24 0);
    [reflexivity|reflexivity|lia|lia|lia].
Defined.

Lemma addrtree_inserts_keep_shape_witness :
  exists t0 h0 t del h',
    addrtree_create 32 (Some tt) heap = Some (Some t0, h0)
    /\ addrtree_insert_all KEYWIDTH t0 answers h0 = Some (t, del, h')
    /\ addrtree_ok KEYWIDTH t = true /\ max_depth t = 32 /\ env t = tt.
Proof.
  apply (addrtree_inserts_keep_shape 8 ltac:(lia) 32 tt answers heap);
    [lia|reflexivity|repeat constructor].
Defined.

Lemma addrtree_find_safe_and_sound_witness :
  exists r,
    addrtree_find KEYWIDTH grown host_168_1_7 32 = Some r
    /\ forall n, r = Some n -> is_Some (elem n).
Proof.
  apply (addrtree_find_safe_and_sound 8 ltac:(lia) grown host_168_1_7 32);
    [vm_compute; reflexivity|reflexivity].
Defined.

Lemma addrtree_find_after_insert_witness :
  exists t' del h',
    addrtree_insert KEYWIDTH fresh net_168 16 24 (Some "a"%string) heap
    = Some (t', del, h')
    /\ exists n,
         addrtree_find KEYWIDTH t' net_168 16 = Some (Some n)
         /\ elem n = Some "a"%string /\ scope n = Z.min 24 (max_depth fresh).
Proof.
  destruct (addrtree_insert KEYWIDTH fresh net_168 16 24 (Some "a"%string)
              heap) as [[[t' del] h']|] eqn:Hi;
    [|vm_compute in Hi; discriminate].
  exists t', del, h'. split; [reflexivity|].
  apply (addrtree_find_after_insert 8 ltac:(lia) fresh net_168 16 24
           "a"%string heap t' del h');
    [vm_compute; reflexivity|reflexivity|lia|reflexivity
    |vm_compute; reflexivity|exact Hi].
Defined.

Lemma addrtree_insert_conserves_elements_witness :
  exists t' del h',
    addrtree_insert KEYWIDTH grown net_168 16 16 (Some "d"%string) heap
    = Some (t', del, h')
    /\ addrtree_elems t' ++ del
       ≡ₚ option_list (Some "d"%string) ++ addrtree_elems grown
    /\ (length del <= 1)%nat.
Proof.
  destruct (addrtree_insert KEYWIDTH grown net_168 16 16 (Some "d"%string)
              heap) as [[[t' del] h']|] eqn:Hi;
    [|vm_compute in Hi; discriminate].
  exists t', del, h'. split; [reflexivity|].
  apply (addrtree_insert_conserves_elements 8 ltac:(lia) grown net_168 16 16
           (Some "d"%string) heap t' del h');
    [vm_compute; reflexivity|reflexivity|lia|reflexivity|exact Hi].
Defined.

Lemma addrtree_delete_releases_every_element_witness :
  exists t0 h0 t del h' last,
    addrtree_create 32 (Some tt) heap = Some (Some t0, h0)
    /\ addrtree_insert_all KEYWIDTH t0 answers h0 = Some (t, del, h')
    /\ addrtree_delete (Some t) = Some last
    /\ del ++ last ≡ₚ omap op_elem answers
    /\ addrtree_delete (E := string) (Env := unit) None = Some [].
Proof.
  apply (addrtree_delete_releases_every_element 8 ltac:(lia) 32 tt answers
           heap);
    [lia|reflexivity|repeat constructor].
Defined.

Lemma addrtree_insert_twice_replaces_witness :
  exists t1 del1 h1,
    addrtree_insert KEYWIDTH grown host_168_1_7 24 24 (Some "d"%string) heap
    = Some (t1, del1, h1)
    /\ exists t2,
         addrtree_insert KEYWIDTH t1 host_168_1_7 24 24 (Some "e"%string) heap
         = Some (t2, option_list (Some "d"%string), heap).
Proof.
  destruct (addrtree_insert KEYWIDTH grown host_168_1_7 24 24
              (Some "d"%string) heap) as [[[t1 del1] h1]|] eqn:Hi;
    [|vm_compute in Hi; discriminate].
  exists t1, del1, h1. split; [reflexivity|].
  apply (addrtree_insert_twice_replaces 8 ltac:(lia) grown host_168_1_7 24
           24 (Some "d"%string) (Some "e"%string) heap t1 del1 h1 heap);
    [vm_compute; reflexivity|reflexivity|lia|reflexivity|exact Hi].
Defined.

End SubnetScenarioFacts.

Section ReferralScenarioFacts.
Import Data Slabhash Dns Regions Referral Scenario.

Lemma tomsg_copies_header_witness :
  exists msg env' rg',
    tomsg env_stored query_a
      (snd (dns_cache_store_msg msgsize rrsize env_fresh query_a
              (qhash query_a) (referral 300) 1000))
      memory 1100 memory = (Some msg, env', rg')
    /\ qinfo msg = query_a
    /\ rep_ttl (rep msg) = 1300
    /\ allocated 7 memory rg'.
Proof.
  destruct (tomsg env_stored query_a
              (snd (dns_cache_store_msg msgsize rrsize env_fresh query_a
                      (qhash query_a) (referral 300) 1000))
              memory 1100 memory) as [[[msg|] env'] rg'] eqn:Ht;
    [|vm_compute in Ht; discriminate].
  exists msg, env', rg'. split; [reflexivity|].
  destruct (tomsg_copies_header _ _ _ _ _ _ _ _ _ Ht)
    as (A & _ & _ & B & _ & _ & _ & _ & _ & _ & _ & C & _).
  split; [exact A|]. split; [rewrite B; reflexivity|exact C].
Defined.

Lemma find_delegation_null_without_cached_ns_witness :
  exists env',
    dns_cache_find_delegation rhash empty_env www_example_com
      (Z.of_nat (length www_example_com)) LDNS_RR_TYPE_A IN memory true 1100
    = (None, env', memory)
    /\ msg_cache env' = msg_cache empty_env
    /\ alloc env' = alloc empty_env /\ heap env' = heap empty_env.
Proof.
  apply (find_delegation_null_without_cached_ns rhash empty_env
           www_example_com LDNS_RR_TYPE_A IN memory true 1100);
    [reflexivity|].
  intros s Hs. apply list_elem_of_In in Hs. vm_compute in Hs.
  repeat (destruct Hs as [<-|Hs]; [vm_compute; reflexivity|]).
  destruct Hs.
Defined.


End ReferralScenarioFacts.

(** * The parser: what the driver does on every input *)

Section YYDriverFacts.
Import Data ConfigFile YYParse YYAutomaton.
Context `{externs : config_externs}.

Lemma yydefault_do (s : Z) (v : yyvars) :
  yydefault s v = yydo (yymove_default s) v.
Proof.
  unfold yydefault, yymove_default.
  destruct (yyat yydefact s) as [r|]; cbn; [|reflexivity].
  destruct (r =? 0); reflexivity.
Qed.

Lemma yybackup_token_do (s p t : Z) (v : yyvars) :
  yybackup_token s p t v = yydo (yymove_token s p t) v.
Proof.
  unfold yybackup_token, yymove_token.
  destruct ((p + t <? 0) || (YYLAST <? p + t)); [apply yydefault_do|].
  destruct (yyat yycheck (p + t)) as [c|]; cbn; [|reflexivity].
  destruct (negb (c =? t)); [apply yydefault_do|].
  destruct (yyat yytable (p + t)) as [x|]; cbn; [|reflexivity].
  destruct (x <=? 0); reflexivity.
Qed.

Lemma yybackup_do (s p : Z) (v : yyvars) :
  yyat yypact s = Some p ->
  yybackup s v
  = if p =? YYPACT_NINF then yydo (yymove_default s) v
    else match yytoken (yypeek v) with
         | None => yyfault
         | Some t => yydo (yymove_token s p t) (yypeek v)
         end.
Proof.
  intros Hp. unfold yybackup. rewrite Hp.
  destruct (p =? YYPACT_NINF); [apply yydefault_do|].
  unfold yypeek, yytoken.
  destruct ((if yychar v =? YYEMPTY then yylex v else v).(yychar) <=? YYEOF)
    eqn:He.
  - cbn [yychar set_yychar]. change (YYEOF <=? YYEOF) with true. cbn.
    apply yybackup_token_do.
  - rewrite He.
    destruct (YYTRANSLATE _); [apply yybackup_token_do|reflexivity].
Qed.

Lemma yysetstate_small (s : Z) (v : yyvars) :
  Z.of_nat (length (yyss v)) + 1 < yystacksize v ->
  yysetstate s v
  = let v0 := set_stacks (s :: yyss v) (yyvs v) v in
    if s =? YYFINAL then yyacceptlab v0 else yybackup s v0.
Proof.
  intros Hsmall. unfold yysetstate, yygrow.
  cbn [yyss set_stacks yystacksize length].
  destruct (Z.leb_spec (yystacksize v - 1)
              (Z.of_nat (S (length (yyss v))) - 1)); [lia|reflexivity].
Qed.

Ltac yylia :=
  unfold YYEOF, YYEMPTY, YYNTOKENS, YYINITDEPTH, YYFINAL, YYUNDEFTOK,
    YYMAXUTOK, YYPACT_NINF in *; lia.

Lemma yystacks_checked : forallb yycheck_stack yystacks = true.
Proof. vm_compute. reflexivity. Qed.

Lemma yystack_eqb_eq (a b : list Z) : yystack_eqb a b = true -> a = b.
Proof.
  revert b. induction a as [|x a IH]; intros [|y b] H; cbn in H;
    try discriminate; [reflexivity|].
  apply andb_true_iff in H as [H1 H2]. apply Z.eqb_eq in H1.
  rewrite H1, (IH b H2). reflexivity.
Qed.

Lemma yyviable_checked (ss : list Z) :
  yyviable ss = true -> yycheck_stack ss = true.
Proof.
  unfold yyviable. intros H. apply existsb_exists in H as (x & Hin & Heq).
  apply yystack_eqb_eq in Heq. subst x.
  exact (proj1 (forallb_forall _ _) yystacks_checked ss Hin).
Qed.

Lemma yytranslate_range :
  forallb (fun t => (0 <=? t) && (t <? YYNTOKENS)) yytranslate = true.
Proof. vm_compute. reflexivity. Qed.

Lemma seqZ_elem (t n : Z) : 0 <= t < n -> In t (seqZ 0 n).
Proof.
  intros H. apply list_elem_of_In. apply elem_of_seqZ. lia.
Qed.

Lemma yytoken_range (v : yyvars) :
  exists t, yytoken v = Some t /\ 0 <= t < YYNTOKENS
            /\ (t = YYEOF -> yychar v <= 0 \/ 0 < yychar v).
Proof.
  unfold yytoken. destruct (Z.leb_spec (yychar v) YYEOF) as [Hle|Hgt].
  - exists YYEOF. split; [reflexivity|]. split; [unfold YYEOF, YYNTOKENS; lia|].
    intros _. left. exact Hle.
  - unfold YYTRANSLATE.
    destruct ((0 <=? yychar v) && (yychar v <=? YYMAXUTOK)) eqn:Hr.
    + apply andb_true_iff in Hr as [H0 H1].
      apply Z.leb_le in H0, H1. unfold yyat.
      destruct (Z.ltb_spec (yychar v) 0); [lia|].
      destruct (yytranslate !! Z.to_nat (yychar v)) as [t|] eqn:Ht.
      * exists t. split; [reflexivity|].
        pose proof (proj1 (forallb_forall _ _) yytranslate_range t) as Hin.
        assert (Hel : In t yytranslate).
        { apply list_elem_of_In. eapply list_elem_of_lookup_2. exact Ht. }
        specialize (Hin Hel). apply andb_true_iff in Hin as [A B].
        apply Z.leb_le in A. apply Z.ltb_lt in B.
        split; [lia|]. intros _. right. unfold YYEOF in Hgt. lia.
      * apply lookup_ge_None in Ht.
        change (length yytranslate) with 404%nat in Ht.
        unfold YYMAXUTOK in H1. lia.
    + exists YYUNDEFTOK. split; [reflexivity|].
      split; [unfold YYUNDEFTOK, YYNTOKENS; lia|].
      intros _. right. unfold YYEOF in Hgt. lia.
Qed.

(** The loop of [yyerrlab1] on a stack without a state that shifts the
    error token. *)
Lemma yyerrlab1_loop_aborts (ss : list Z) (vs : list YYSTYPE)
    (v : yyvars) :
  ss <> [] ->
  forallb (fun s' => match yyerrshift s' with
                     | Some None => true
                     | _ => false
                     end) ss = true ->
  exists ss' vs', yyerrlab1_loop ss vs v = yyabortlab (set_stacks ss' vs' v).
Proof.
  revert vs. induction ss as [|s ss IH]; intros vs Hne Hall; [congruence|].
  cbn in Hall. apply andb_true_iff in Hall as [Hs Hall].
  cbn [yyerrlab1_loop].
  destruct (yyerrshift s) as [[t|]|]; try discriminate.
  destruct ss as [|s2 ss]; [eexists _, _; reflexivity|].
  apply IH; [discriminate|exact Hall].
Qed.

Lemma yyerrlab_aborts (v : yyvars) :
  yyerrstatus v = 0 -> yynerrs v = 0 -> yyss v <> [] ->
  forallb (fun s' => match yyerrshift s' with
                     | Some None => true
                     | _ => false
                     end) (yyss v) = true ->
  exists v',
    yyerrlab v = yyreturn 1 v'
    /\ yynerrs v' = 1 /\ yystacksize v' = yystacksize v
    /\ cfg_parser v' = yyerror "syntax error" (cfg_parser v)
    /\ yyin v' = yyin v /\ yychar v' = yychar v.
Proof.
  intros He Hn Hne Hall. unfold yyerrlab. rewrite He.
  change (0 =? 0) with true. cbn iota.
  cbn [yyerrstatus set_cfg_parser set_yynerrs]. rewrite He.
  change (0 =? 3) with false. cbn iota. unfold yyerrlab1.
  cbn [yyss yyvs set_yyerrstatus set_cfg_parser set_yynerrs].
  destruct (yyerrlab1_loop_aborts (yyss v) (yyvs v)
              (set_yyerrstatus 3
                 (set_cfg_parser (yyerror "syntax error" (cfg_parser v))
                    (set_yynerrs (yynerrs v + 1) v))) Hne Hall)
    as (ss' & vs' & ->).
  eexists. split; [reflexivity|]. cbn. rewrite Hn. repeat split.
Qed.

Lemma yyreduce_stack (r : Z) (v : yyvars) (g : Z) (ss' : list Z) :
  yystack_reduce r (yyss v) = Some (g :: ss') ->
  exists n yyval,
    ss' = drop n (yyss v) /\ (n < length (yyss v))%nat
    /\ yyreduce r v
       = match yyaction r (reverse (take n (yyvs v))) (cfg_parser v) with
         | yyhalts h => yystop h
         | yybreak st =>
             yynewstate g
               (set_cfg_parser st
                  (set_stacks ss' (yyval :: drop n (yyvs v)) v))
         end.
Proof.
  unfold yystack_reduce, yyreduce.
  destruct (yyat yyr2 r) as [yylen|]; cbn; [|discriminate].
  destruct (yyat yyr1 r) as [lhs|]; cbn; [|discriminate].
  destruct (drop (Z.to_nat yylen) (yyss v)) as [|top below] eqn:Hd;
    [discriminate|].
  destruct (yygoto lhs top) as [g'|]; cbn; [|discriminate].
  intros [= <- <-].
  exists (Z.to_nat yylen), (if yylen =? 0 then None
                            else mjoin (yyvs v !! (Z.to_nat yylen - 1)%nat)).
  split; [symmetry; exact Hd|]. split.
  - destruct (Nat.lt_ge_cases (Z.to_nat yylen) (length (yyss v)))
      as [Hlt|Hge]; [exact Hlt|].
    rewrite drop_ge in Hd by exact Hge. discriminate.
  - reflexivity.
Qed.


Lemma yyrank_le (s : Z) : (yyrank s <= 5)%nat.
Proof.
  unfold yyrank.
  destruct (list_find _ yyranks) as [[i [s' n]]|] eqn:Hf; [|lia].
  apply list_find_Some in Hf as (Hl & _ & _).
  assert (Hall : forallb (fun p => (snd p <=? 5)%nat) yyranks = true)
    by (vm_compute; reflexivity).
  apply list_elem_of_lookup_2, list_elem_of_In in Hl.
  apply (proj1 (forallb_forall _ _) Hall) in Hl. cbn in Hl.
  apply Nat.leb_le in Hl. exact Hl.
Qed.

(** One pass keeps [yyinv] and lowers the measure, or ends the parse. *)
Lemma yysetstate_inv (s : Z) (v : yyvars) :
  yyinv s v ->
  match yysetstate s v with
  | yynewstate s' v' =>
      yyinv s' v'
      /\ (s' = YYFINAL \/ (yymeasure s' v' < yymeasure s v)%nat)
  | yyreturn r v' => yyended (yyreturned r v')
  | yystop h => yyended (yystopped h)
  | yyfault => False
  end.
Proof.
  intros (Hvia & Hlen & Hsz & Hes & Hne & Hch).
  pose proof (yyviable_checked _ Hvia) as Hck.
  unfold yycheck_stack in Hck.
  apply andb_true_iff in Hck as [Hck Hmoves].
  apply andb_true_iff in Hck as [Hshort Herr].
  apply Nat.leb_le in Hshort. cbn [length] in Hshort.
  rewrite yysetstate_small by (rewrite Hsz; unfold YYINITDEPTH; lia).
  cbn zeta.
  set (v0 := set_stacks (s :: yyss v) (yyvs v) v).
  destruct (s =? YYFINAL) eqn:Hfin.
  { cbn. split; [exact Hsz|]. left. split; [reflexivity|exact Hne]. }
  cbn [orb] in Hmoves.
  destruct (yyat yypact s) as [p|] eqn:Hp; [|discriminate].
  rewrite (yybackup_do s p v0 Hp).
  (* what a checked move does, from variables [w] that hold the stack *)
  assert (Hmove : forall (m : option yymove) (eof : bool) (w : yyvars),
             yycheck_move (s :: yyss v) eof m = true ->
             yyss w = s :: yyss v -> yyvs w = yyvs v ->
             yystacksize w = YYINITDEPTH -> yyerrstatus w = 0 ->
             yynerrs w = 0 -> 0 <= yychar w \/ yychar w = YYEMPTY ->
             (yybudget w <= yybudget v)%nat ->
             (eof = false -> forall t, m = Some (mv_shift t) ->
                0 < yychar w) ->
             match yydo m w with
             | yynewstate s' v' =>
                 yyinv s' v'
                 /\ (s' = YYFINAL \/ (yymeasure s' v' < yymeasure s v)%nat)
             | yyreturn r v' => yyended (yyreturned r v')
             | yystop h => yyended (yystopped h)
             | yyfault => False
             end).
  { intros m eof w Hm Hss Hvs Hwsz Hwes Hwne Hwch Hbud Hpos.
    destruct m as [[t|r|]|]; cbn [yydo]; cbn [yycheck_move] in Hm.
    - (* shift *)
      apply andb_true_iff in Hm as [Hm Hrk].
      apply andb_true_iff in Hm as [Hv' Hf].
      unfold yyshift. rewrite Hwes. change (0 =? 0) with true. cbn iota.
      split.
      + unfold yyinv. cbn. rewrite Hss, Hvs. cbn [length].
        repeat split; try assumption.
        * rewrite Hlen. reflexivity.
        * left. reflexivity.
      + destruct eof.
        * left. cbn in Hf. apply Z.eqb_eq in Hf. exact Hf.
        * right. specialize (Hpos eq_refl t eq_refl).
          unfold yymeasure. apply Nat.leb_le in Hrk.
          assert (Hb : (yybudget (set_stacks (yyss w) (yylval w :: yyvs w)
                                    (set_yychar YYEMPTY w)) < yybudget w)%nat).
          { unfold yybudget. cbn [yychar yyin set_stacks set_yychar].
            change (YYEMPTY =? YYEMPTY) with true. cbn iota.
            destruct (Z.eqb_spec (yychar w) YYEMPTY) as [E|E];
              [unfold YYEMPTY in E; lia|].
            destruct (Z.eqb_spec (yychar w) YYEOF) as [E2|E2];
              [unfold YYEOF in E2; lia|]. lia. }
          lia.
    - (* reduce *)
      destruct (yystack_reduce r (s :: yyss v)) as [[|g ss']|] eqn:Hr;
        try discriminate.
      apply andb_true_iff in Hm as [Hv' Hrk]. apply Nat.ltb_lt in Hrk.
      rewrite <- Hss in Hr.
      destruct (yyreduce_stack r w g ss' Hr) as (n & yyval & Hss' & Hn & ->).
      destruct (yyaction r _ _) as [st|h] eqn:Ha;
        [|eexists _, _, _; exact Ha].
      split.
      + unfold yyinv. cbn. repeat split; try assumption.
        * rewrite Hss'. rewrite !length_drop. rewrite Hvs, Hss.
          cbn [length]. rewrite Hlen. rewrite Hss in Hn. cbn [length] in Hn.
          lia.
        * destruct Hwch as [A|A]; [right; exact A|left; exact A].
      + right. unfold yymeasure.
        assert (Hb : yybudget (set_cfg_parser st
                                 (set_stacks ss' (yyval :: drop n (yyvs w)) w))
                     = yybudget w) by reflexivity.
        rewrite Hb. lia.
    - (* error *)
      destruct (yyerrlab_aborts w Hwes Hwne) as (v' & -> & A & B & C & _).
      + rewrite Hss. discriminate.
      + rewrite Hss. exact Herr.
      + cbn. split; [rewrite B; exact Hwsz|]. right.
        split; [reflexivity|]. split; [exact A|].
        rewrite C. cbn. rewrite last_snoc. reflexivity.
    - discriminate. }
  destruct (p =? YYPACT_NINF) eqn:Hdef.
  - (* the default move; the lookahead is not read *)
    apply (Hmove _ false v0 Hmoves); try reflexivity; try assumption.
    + destruct Hch as [A|A]; [right; exact A|left; exact A].
    + intros _ t Ht. unfold yymove_default in Ht.
      destruct (yyat yydefact s) as [d|]; cbn in Ht; [|discriminate].
      destruct (d =? 0); discriminate.
  - (* the move for the lookahead *)
    destruct (yytoken_range (yypeek v0)) as (t & Ht & Hrange & Heof).
    rewrite Ht.
    assert (Hpk : yyss (yypeek v0) = s :: yyss v
                  /\ yyvs (yypeek v0) = yyvs v
                  /\ yystacksize (yypeek v0) = YYINITDEPTH
                  /\ yyerrstatus (yypeek v0) = 0
                  /\ yynerrs (yypeek v0) = 0
                  /\ 0 <= yychar (yypeek v0)
                  /\ (yybudget (yypeek v0) <= yybudget v)%nat).
    { unfold yypeek, v0, yylex, yybudget.
      cbn [yychar yyin set_stacks].
      destruct Hch as [A|A].
      - rewrite A. change (YYEMPTY =? YYEMPTY) with true. cbn iota.
        destruct (yyin v) as [|[tok val] rest]; cbn.
        + repeat split; try assumption; yylia.
        + destruct (Z.leb_spec tok YYEOF) as [B|B]; cbn.
          * repeat split; try assumption; yylia.
          * destruct (Z.eqb_spec tok YYEMPTY) as [C|C];
              [yylia|].
            destruct (Z.eqb_spec tok YYEOF) as [D|D];
              [yylia|].
            repeat split; try assumption; yylia.
      - destruct (Z.eqb_spec (yychar v) YYEMPTY) as [C|C];
          [yylia|].
        cbn iota. cbn [yychar set_stacks].
        destruct (Z.leb_spec (yychar v) YYEOF) as [B|B]; cbn.
        + assert (E : yychar v = 0) by yylia.
          rewrite E. cbn. repeat split; try assumption; yylia.
        + repeat split; try assumption; try yylia.
          rewrite (proj2 (Z.eqb_neq _ _) C). reflexivity. }
    destruct Hpk as (P1 & P2 & P3 & P4 & P5 & P6 & P7).
    pose proof (proj1 (forallb_forall _ _) Hmoves t
                  (seqZ_elem t YYNTOKENS Hrange)) as Hm.
    apply (Hmove _ (t =? YYEOF) (yypeek v0) Hm); try assumption.
    + left. exact P6.
    + intros Hneq t' _. apply Z.eqb_neq in Hneq.
      unfold yytoken in Ht.
      destruct (Z.leb_spec (yychar (yypeek v0)) YYEOF) as [B|B].
      * injection Ht as <-. congruence.
      * unfold YYEOF in B. lia.
Qed.


Lemma yyinv_init (input : list (Z * YYSTYPE)) (st : config_parser_state) :
  yyinv 0 (yyinit input st).
Proof.
  unfold yyinv. cbn [yyinit yyss yyvs yystacksize yyerrstatus yynerrs yychar].
  split; [vm_compute; reflexivity|].
  do 4 (split; [reflexivity|]). left. reflexivity.
Qed.

Lemma yyinv_small (s : Z) (v : yyvars) :
  yyinv s v -> Z.of_nat (length (yyss v)) + 1 < yystacksize v.
Proof.
  intros (Hvia & _ & Hsz & _).
  pose proof (yyviable_checked _ Hvia) as Hck.
  unfold yycheck_stack in Hck.
  apply andb_true_iff in Hck as [Hck _].
  apply andb_true_iff in Hck as [Hshort _].
  apply Nat.leb_le in Hshort. cbn [length] in Hshort.
  rewrite Hsz. yylia.
Qed.

Lemma yyparse_loop_ended (n : nat) (s : Z) (v : yyvars) :
  yyinv s v -> (yymeasure s v < n)%nat -> yyended (yyparse_loop n s v).
Proof.
  revert s v. induction n as [|n IH]; intros s v Hinv Hm; [lia|].
  cbn [yyparse_loop].
  pose proof (yysetstate_inv s v Hinv) as Hpass.
  destruct (yysetstate s v) as [s' v'|r v'|h|];
    [|exact Hpass|exact Hpass|exact Hpass].
  destruct Hpass as [Hinv' [Hfin|Hlt]]; [|apply IH; [exact Hinv'|lia]].
  subst s'.
  assert (Hn : (0 < n)%nat).
  { unfold yymeasure, yybudget in Hm.
    destruct (yychar v =? YYEMPTY); [lia|].
    destruct (yychar v =? YYEOF); lia. }
  destruct n as [|n]; [lia|]. cbn [yyparse_loop].
  rewrite (yysetstate_small YYFINAL v' (yyinv_small _ _ Hinv')).
  destruct Hinv' as (_ & _ & Hsz & _ & Hne & _).
  cbn. split; [exact Hsz|]. left. split; [reflexivity|exact Hne].
Qed.

Lemma yyinit_measure (input : list (Z * YYSTYPE))
    (st : config_parser_state) :
  (yymeasure 0 (yyinit input st) < 6 * length input + 18)%nat.
Proof.
  unfold yymeasure, yybudget. cbn [yychar yyin yyinit].
  change (YYEMPTY =? YYEMPTY) with true. cbn iota.
  pose proof (yyrank_le 0). lia.
Qed.

Lemma yyparse_ended (input : list (Z * YYSTYPE))
    (st : config_parser_state) :
  yyended (yyparse input st).
Proof.
  unfold yyparse.
  apply yyparse_loop_ended; [apply yyinv_init|apply yyinit_measure].
Qed.

(** X14 (configparser.c, yyparse): on every sequence of tokens the
    parser comes to an end within six passes for each token and eighteen
    more, whatever the functions of util/config_file.c do.  It never
    reads outside its tables nor pops below its stack.  It returns 0
    without a syntax error, or 1 after exactly one syntax error, which
    is the last thing it reports; it never returns 2: the stacks are
    never grown beyond their first 200 slots.  When it does not return,
    it stopped inside one of its actions, in [fatal_exit] or in what C
    leaves undefined. *)
Theorem yyparse_returns (input : list (Z * YYSTYPE))
    (st : config_parser_state) :
  match yyparse input st with
  | yyreturned r v =>
      yystacksize v = YYINITDEPTH
      /\ ((r = 0 /\ yynerrs v = 0)
          \/ (r = 1 /\ yynerrs v = 1
              /\ last (log (cfg_parser v)) = Some "syntax error"%string))
  | yystopped h => exists yyn vals st', yyaction yyn vals st' = yyhalts h
  | yyfaulted => False
  | yyrunning _ _ => False
  end.
Proof.
  unfold yyparse.
  pose proof (yyparse_loop_ended (6 * length input + 18) 0
                (yyinit input st) (yyinv_init input st)
                (yyinit_measure input st)) as Hend.
  destruct (yyparse_loop _ 0 (yyinit input st)) as [r v|h| |s' v'];
    [|exact Hend|exact Hend|exact Hend].
  destruct Hend as [Hsz Hres]. split; [exact Hsz|].
  destruct Hres as [[Hr Hn]|Hres]; [left; split; assumption|].
  right. exact Hres.
Qed.

End YYDriverFacts.

(** * The parser: the sentences of the grammar *)

Section YYSentenceFacts.
Import Data ConfigFile YYParse YYAutomaton YYGrammar.
Context `{externs : config_externs}.

Ltac yylia :=
  unfold YYEOF, YYEMPTY, YYNTOKENS, YYINITDEPTH, YYFINAL, YYUNDEFTOK,
    YYMAXUTOK, YYPACT_NINF in *; lia.


Lemma yyquiet_spec (r : Z) : yyquiet r = true -> yyno_action r.
Proof.
  unfold yyquiet. intros H. apply existsb_exists in H as (x & Hin & Heq).
  apply Z.eqb_eq in Heq. subst x. vm_compute in Hin.
  repeat (destruct Hin as [<-|Hin]; [intros vals st; reflexivity|]).
  destruct Hin.
Qed.

Lemma yyshift_to_spec (s tok s' : Z) :
  yyshift_to s tok = Some s' -> yyshifts s tok s'.
Proof.
  unfold yyshift_to, yyshifts. intros H.
  destruct (Z.eqb_spec s YYFINAL) as [|Hs]; [discriminate|].
  destruct (Z.leb_spec tok 0) as [|Ht]; [discriminate|]. cbn in H.
  destruct (yyat yypact s) as [p|]; cbn in H; [|discriminate].
  destruct (Z.eqb_spec p YYPACT_NINF) as [|Hp]; [discriminate|].
  destruct (YYTRANSLATE tok) as [t|]; cbn in H; [|discriminate].
  destruct (yymove_token s p t) as [[x| |]|] eqn:Hm; try discriminate.
  injection H as ->.
  split; [exact Hs|]. split; [exact Ht|]. exists p, t. repeat split; assumption.
Qed.

Lemma yygoto_of_spec (r : Z) (yylen : nat) (top g : Z) :
  yygoto_of r yylen top = Some g -> yyrule_goto r yylen top g.
Proof.
  unfold yygoto_of, yyrule_goto. intros H.
  destruct (yyat yyr2 r) as [n|]; cbn in H; [|discriminate].
  destruct (Z.eqb_spec n (Z.of_nat yylen)) as [Hn|Hn]; [|discriminate].
  cbn in H. destruct (yyat yyr1 r) as [lhs|]; cbn in H; [|discriminate].
  split; [rewrite Hn; reflexivity|].
  exists lhs. split; [reflexivity|exact H].
Qed.

Lemma yyreduce_to_spec (s : Z) (yylen : nat) (top r g : Z) :
  yyreduce_to s yylen top = Some (r, g) -> yyreduces s r yylen top g.
Proof.
  unfold yyreduce_to, yyreduces. intros H.
  destruct (Z.eqb_spec s YYFINAL) as [|Hs]; [discriminate|].
  destruct (yyat yypact s) as [p|]; cbn in H; [|discriminate].
  destruct (Z.eqb_spec p YYPACT_NINF) as [Hp|Hp]; [|discriminate].
  cbn in H. rewrite Hp.
  destruct (yyat yydefact s) as [r'|]; cbn in H; [|discriminate].
  destruct (Z.eqb_spec r' 0) as [|Hr]; [discriminate|].
  destruct (yygoto_of r' yylen top) as [g'|] eqn:Hg; cbn in H;
    [|discriminate].
  injection H as -> ->.
  repeat split; try assumption; try reflexivity.
  - destruct (yygoto_of_spec _ _ _ _ Hg) as [A _]. exact A.
  - destruct (yygoto_of_spec _ _ _ _ Hg) as [_ B]. exact B.
Qed.

Lemma yyclause_end_check_spec (sh c r k : Z) (yylen : nat) :
  yyclause_end_check sh c r k yylen = true ->
  exists g1 u g2 cc,
    yyreduces k r yylen c g1
    /\ yyreduces g1 u 1 c g2 /\ yyno_action u
    /\ yyreduces g2 cc 2 sh c /\ yyno_action cc.
Proof.
  unfold yyclause_end_check. intros H.
  destruct (yyreduce_to k yylen c) as [[r' g1]|] eqn:H3; cbn in H;
    [|discriminate].
  destruct (yyreduce_to g1 1 c) as [[u g2]|] eqn:H4; cbn in H;
    [|discriminate].
  destruct (yyreduce_to g2 2 sh) as [[cc c']|] eqn:H5; cbn in H;
    [|discriminate].
  apply andb_true_iff in H as [H Hc]. apply andb_true_iff in H as [H Hcc].
  apply andb_true_iff in H as [Hr Hu].
  apply Z.eqb_eq in Hr, Hc. subst r' c'.
  exists g1, u, g2, cc.
  split; [apply yyreduce_to_spec; exact H3|].
  split; [apply yyreduce_to_spec; exact H4|].
  split; [apply yyquiet_spec; exact Hu|].
  split; [apply yyreduce_to_spec; exact H5|apply yyquiet_spec; exact Hcc].
Qed.

Lemma yyclause_check_spec (sh c r : Z) :
  yyclause_check sh c r = true -> yyclause_path sh c r.
Proof.
  unfold yyclause_check, yyclause_path. intros H.
  destruct (yyshift_to c (yykeyword r)) as [k1|] eqn:H1; [|discriminate].
  apply andb_true_iff in H as [Hnv H].
  destruct (yyshift_to k1 STRING_ARG) as [k2|] eqn:H2; [|discriminate].
  destruct (omap (yyat yytoknum) (yyrhs_of r)) as [|kw [|sa [|sb [|]]]];
    try discriminate.
  - apply andb_true_iff in H as [Hsa H]. apply Z.eqb_eq in Hsa.
    destruct (yyclause_end_check_spec _ _ _ _ _ H)
      as (g1 & u & g2 & cc & R1 & R2 & Qu & R3 & Qcc).
    exists (yykeyword r), k1, k2, g1, u, g2, cc.
    split; [reflexivity|].
    split; [apply yyshift_to_spec; exact H1|].
    split; [exact Hnv|].
    split; [apply yyshift_to_spec; exact H2|].
    split; [split; assumption|].
    split; [exact R2|]. split; [exact Qu|]. split; [exact R3|exact Qcc].
  - apply andb_true_iff in H as [H H3].
    apply andb_true_iff in H as [H Hnv2].
    apply andb_true_iff in H as [Hsa Hsb]. apply Z.eqb_eq in Hsa, Hsb.
    destruct (yyshift_to k2 STRING_ARG) as [k3|] eqn:H4; [|discriminate].
    destruct (yyclause_end_check_spec _ _ _ _ _ H3)
      as (g1 & u & g2 & cc & R1 & R2 & Qu & R3 & Qcc).
    exists (yykeyword r), k1, k2, g1, u, g2, cc.
    split; [reflexivity|].
    split; [apply yyshift_to_spec; exact H1|].
    split; [exact Hnv|].
    split; [apply yyshift_to_spec; exact H2|].
    split.
    { split; [exact Hsa|]. split; [exact Hsb|]. split; [exact Hnv2|].
      exists k3. split; [apply yyshift_to_spec; exact H4|exact R1]. }
    split; [exact R2|]. split; [exact Qu|]. split; [exact R3|exact Qcc].
Qed.

Lemma yysection_end_check_spec (c : Z) :
  yysection_end_check c = true -> exists tv, yysection_end c tv.
Proof.
  unfold yysection_end_check, yysection_end. intros H.
  apply andb_true_iff in H as [Hc H].
  apply andb_true_iff in Hc as [Hc Heof].
  apply negb_true_iff in Heof.
  destruct (Z.eqb_spec c YYFINAL) as [|Hc']; [discriminate|].
  destruct (yyat yypact c) as [p|]; [|discriminate].
  apply andb_true_iff in H as [Hp H].
  destruct (Z.eqb_spec p YYPACT_NINF) as [|Hp']; [discriminate|].
  destruct (yymove_token c p YYEOF) as [[|tv|]|]; try discriminate.
  apply andb_true_iff in H as [H H3]. apply andb_true_iff in H as [Hall Hq].
  destruct (yygoto_of tv 2 1) as [g3|] eqn:Hg; [|discriminate].
  destruct (yyreduce_to g3 2 0) as [[r3 g]|] eqn:Hr; [|discriminate].
  apply andb_true_iff in H3 as [A B]. apply Z.eqb_eq in A, B. subst r3 g.
  exists tv. split; [exact Hc'|]. split; [exact Heof|]. exists p, g3.
  split; [reflexivity|]. split; [exact Hp'|]. split; [exact Hall|].
  split; [apply yygoto_of_spec; exact Hg|].
  split; [apply yyquiet_spec; exact Hq|].
  split; [apply yyreduce_to_spec; exact Hr|].
  apply yyquiet_spec. reflexivity.
Qed.

Lemma yysections_checked : forallb yysection_check yystart_rules = true.
Proof. vm_compute. reflexivity. Qed.

Lemma yysection_check_spec (h : Z) (rules : list Z) :
  yyclauses_of h = Some rules ->
  exists sh c, yysection_states h = Some (sh, c)
               /\ yysection_path h rules sh c
               /\ yykeywords_check h c = true.
Proof.
  intros Hcl.
  assert (Hin : In h yystart_rules).
  { revert Hcl. unfold yyclauses_of, yystart_rules.
    destruct (Z.eqb_spec h 10) as [->|_]; [intros _; cbn; auto 10|].
    destruct (Z.eqb_spec h 117) as [->|_]; [intros _; cbn; auto 10|].
    destruct (Z.eqb_spec h 125) as [->|_]; [intros _; cbn; auto 10|].
    destruct (Z.eqb_spec h 245) as [->|_]; [intros _; cbn; auto 10|].
    destruct (Z.eqb_spec h 262) as [->|_]; [intros _; cbn; auto 10|].
    destruct (Z.eqb_spec h 289) as [->|_]; [intros _; cbn; auto 10|].
    intros H; discriminate H. }
  pose proof (proj1 (forallb_forall _ _) yysections_checked h Hin) as Hck.
  unfold yysection_check in Hck. rewrite Hcl in Hck.
  unfold yysection_states in Hck.
  destruct (omap (yyat yytoknum) (yyrhs_of h)) as [|htok [|]] eqn:Hrhs;
    try discriminate.
  destruct (yyshift_to 1 htok) as [stok|] eqn:H1; cbn in Hck;
    [|discriminate].
  destruct (yyreduce_to stok 1 1) as [[h' sh]|] eqn:H2; cbn in Hck;
    [|discriminate].
  destruct (yyreduce_to sh 0 sh) as [[e c]|] eqn:H3; cbn in Hck;
    [|discriminate].
  destruct ((h' =? h) && yyquiet e) eqn:H4; [|discriminate].
  apply andb_true_iff in H4 as [Hh He]. apply Z.eqb_eq in Hh. subst h'.
  apply andb_true_iff in Hck as [Hck Hhead].
  apply andb_true_iff in Hck as [Hcls Hend].
  apply andb_true_iff in Hcls as [Hcls Hkw].
  destruct (yysection_end_check_spec c Hend) as (tv & Htv).
  exists sh, c. split.
  { unfold yysection_states. rewrite Hrhs, H1. cbn. rewrite H2. cbn.
    rewrite H3. cbn. rewrite Z.eqb_refl, He. reflexivity. }
  split; [|exact Hkw].
  exists htok, stok, e, tv.
  split; [exact Hrhs|].
  split; [apply yyshift_to_spec; exact H1|].
  split; [apply yyreduce_to_spec; exact H2|].
  split; [apply yyreduce_to_spec; exact H3|].
  split; [apply yyquiet_spec; exact He|].
  split; [|split; [exact Htv|exact Hhead]].
  apply Forall_forall. intros r Hr. apply yyclause_check_spec.
  apply list_elem_of_In in Hr.
  exact (proj1 (forallb_forall _ _) Hcls r Hr).
Qed.


(** *** Single passes *)

Lemma yypeek_fields (v : yyvars) :
  yyss (yypeek v) = yyss v /\ yyvs (yypeek v) = yyvs v
  /\ yystacksize (yypeek v) = yystacksize v
  /\ yyerrstatus (yypeek v) = yyerrstatus v
  /\ yynerrs (yypeek v) = yynerrs v
  /\ cfg_parser (yypeek v) = cfg_parser v.
Proof.
  unfold yypeek, yylex.
  destruct (yychar v =? YYEMPTY); [destruct (yyin v) as [|[tok val] rest]|];
    cbn;
    try match goal with |- context [if ?b then _ else _] => destruct b end;
    repeat split.
Qed.

Lemma yypeek_pending (v : yyvars) (tok : Z) (lv : YYSTYPE)
    (rest : list (Z * YYSTYPE)) :
  yypending v = (tok, lv) :: rest -> 0 < tok ->
  yychar (yypeek v) = tok /\ yylval (yypeek v) = lv
  /\ yyin (yypeek v) = rest.
Proof.
  unfold yypending, yypeek, yylex. intros Hp Htok.
  destruct (yychar v =? YYEMPTY).
  - rewrite Hp. cbn.
    destruct (Z.leb_spec tok YYEOF); [yylia|]. repeat split.
  - injection Hp as H1 H2 H3.
    destruct (Z.leb_spec (yychar v) YYEOF); [yylia|].
    repeat split; assumption.
Qed.

Lemma yypeek_eof (v : yyvars) :
  yyateof v -> yychar (yypeek v) = YYEOF /\ yyin (yypeek v) = yyin v.
Proof.
  unfold yyateof, yypeek, yylex. intros [[Hc Hi]|Hc]; rewrite Hc.
  - change (YYEMPTY =? YYEMPTY) with true. cbn iota.
    destruct (yyin v) eqn:Hy; [|discriminate]. cbn.
    split; [reflexivity|exact Hy].
  - change (YYEOF =? YYEMPTY) with false. cbn iota. rewrite Hc.
    change (YYEOF <=? YYEOF) with true. cbn. split; reflexivity.
Qed.

Lemma yyconfig_small (ss : list Z) (v : yyvars) :
  yyconfig ss v -> (length ss < 190)%nat ->
  Z.of_nat (length (yyss v)) + 1 < yystacksize v.
Proof.
  intros (Hss & _ & Hsz & _) Hlen. rewrite Hss, Hsz. yylia.
Qed.

Lemma yysetstate_token (s : Z) (v : yyvars) (ss : list Z) (p : Z) :
  yyconfig ss v -> (length ss < 190)%nat -> s <> YYFINAL ->
  yyat yypact s = Some p -> p <> YYPACT_NINF ->
  yysetstate s v
  = match yytoken (yypeek (set_stacks (s :: ss) (yyvs v) v)) with
    | None => yyfault
    | Some t =>
        yydo (yymove_token s p t)
             (yypeek (set_stacks (s :: ss) (yyvs v) v))
    end.
Proof.
  intros Hc Hlen Hs Hp Hp'.
  rewrite yysetstate_small by (eapply yyconfig_small; eassumption).
  cbn zeta. destruct Hc as (-> & _).
  rewrite (proj2 (Z.eqb_neq _ _) Hs).
  rewrite (yybackup_do s p _ Hp).
  rewrite (proj2 (Z.eqb_neq _ _) Hp'). reflexivity.
Qed.

Lemma yysetstate_default (s : Z) (v : yyvars) (ss : list Z) :
  yyconfig ss v -> (length ss < 190)%nat -> s <> YYFINAL ->
  yyat yypact s = Some YYPACT_NINF ->
  yysetstate s v
  = yydo (yymove_default s) (set_stacks (s :: ss) (yyvs v) v).
Proof.
  intros Hc Hlen Hs Hp.
  rewrite yysetstate_small by (eapply yyconfig_small; eassumption).
  cbn zeta. destruct Hc as (-> & _).
  rewrite (proj2 (Z.eqb_neq _ _) Hs).
  rewrite (yybackup_do s _ _ Hp). reflexivity.
Qed.

(** A reduction from variables that hold the whole stack [ss]. *)
Lemma yyreduce_config (r : Z) (w : yyvars) (ss : list Z) (yylen : nat)
    (top : Z) (below : list Z) (g : Z) :
  yyss w = ss -> length (yyvs w) = length ss ->
  yystacksize w = YYINITDEPTH -> yyerrstatus w = 0 -> yynerrs w = 0 ->
  yyrule_goto r yylen top g -> drop yylen ss = top :: below ->
  match yyaction r (reverse (take yylen (yyvs w))) (cfg_parser w) with
  | yybreak st =>
      exists v',
        yyreduce r w = yynewstate g v'
        /\ yyconfig (top :: below) v'
        /\ yychar v' = yychar w /\ yylval v' = yylval w
        /\ yyin v' = yyin w /\ cfg_parser v' = st
  | yyhalts h => yyreduce r w = yystop h
  end.
Proof.
  intros Hss Hvs Hsz Hes Hne (Hr2 & lhs & Hr1 & Hg) Hd.
  unfold yyreduce. rewrite Hr2, Hr1, Nat2Z.id, Hss, Hd, Hg.
  destruct (yyaction r _ _) as [st|h]; [|reflexivity].
  eexists. split; [reflexivity|].
  split; [|repeat split].
  unfold yyconfig. cbn. repeat split; try assumption.
  rewrite length_drop, Hvs.
  assert (Hl : length (drop yylen ss) = S (length below))
    by (rewrite Hd; reflexivity).
  rewrite length_drop in Hl. lia.
Qed.

(** *** Runs *)

Lemma yyruns_step (s : Z) (v : yyvars) (s' : Z) (v' : yyvars)
    (Q : yyoutcome -> Prop) :
  yysetstate s v = yynewstate s' v' -> yyruns s' v' Q -> yyruns s v Q.
Proof.
  intros Hp (n & Hf & HQ). exists (S n). cbn [yyparse_loop]. rewrite Hp.
  split; assumption.
Qed.

Lemma yyruns_return (s : Z) (v : yyvars) (r : Z) (v' : yyvars)
    (Q : yyoutcome -> Prop) :
  yysetstate s v = yyreturn r v' -> Q (yyreturned r v') -> yyruns s v Q.
Proof.
  intros Hp HQ. exists 1%nat. cbn [yyparse_loop]. rewrite Hp.
  split; [reflexivity|exact HQ].
Qed.

Lemma yyruns_stop (s : Z) (v : yyvars) (h : yyhalt)
    (Q : yyoutcome -> Prop) :
  yysetstate s v = yystop h -> Q (yystopped h) -> yyruns s v Q.
Proof.
  intros Hp HQ. exists 1%nat. cbn [yyparse_loop]. rewrite Hp.
  split; [reflexivity|exact HQ].
Qed.

Lemma run_shift (s : Z) (v : yyvars) (ss : list Z) (tok s' : Z)
    (lv : YYSTYPE) (rest : list (Z * YYSTYPE)) (Q : yyoutcome -> Prop) :
  yyconfig ss v -> (length ss < 190)%nat -> yyshifts s tok s' ->
  yypending v = (tok, lv) :: rest ->
  (forall v', yyconfig (s :: ss) v' -> yychar v' = YYEMPTY ->
              yyin v' = rest -> cfg_parser v' = cfg_parser v ->
              yyvs v' = lv :: yyvs v -> yyruns s' v' Q) ->
  yyruns s v Q.
Proof.
  intros Hc Hlen (Hs & Htok & p & t & Hp & Hp' & Ht & Hm) Hpend Hk.
  pose proof (yysetstate_token s v ss p Hc Hlen Hs Hp Hp') as Hpass.
  set (v0 := set_stacks (s :: ss) (yyvs v) v) in *.
  assert (Hpend0 : yypending v0 = (tok, lv) :: rest) by exact Hpend.
  destruct (yypeek_pending v0 tok lv rest Hpend0 Htok) as (P1 & P2 & P3).
  destruct (yypeek_fields v0) as (F1 & F2 & F3 & F4 & F5 & F6).
  destruct Hc as (Hss & Hvs & Hsz & Hes & Hne).
  assert (Hty : yytoken (yypeek v0) = Some t).
  { unfold yytoken. rewrite P1.
    destruct (Z.leb_spec tok YYEOF); [yylia|exact Ht]. }
  rewrite Hty, Hm in Hpass. cbn [yydo] in Hpass. unfold yyshift in Hpass.
  rewrite F4 in Hpass. cbn [yyerrstatus set_stacks v0] in Hpass.
  rewrite Hes in Hpass. change (0 =? 0) with true in Hpass.
  cbn iota in Hpass.
  eapply yyruns_step; [exact Hpass|]. apply Hk.
  - unfold yyconfig. cbn. rewrite F1, F2, F3, F4, F5. cbn.
    rewrite Hvs. repeat split; assumption.
  - reflexivity.
  - cbn. exact P3.
  - cbn. rewrite F6. reflexivity.
  - cbn. rewrite P2, F2. reflexivity.
Qed.

Lemma run_reduce (s : Z) (v : yyvars) (ss : list Z) (r : Z) (yylen : nat)
    (top : Z) (below : list Z) (g : Z) (Q : yyoutcome -> Prop) :
  yyconfig ss v -> (length ss < 190)%nat -> yyreduces s r yylen top g ->
  drop yylen (s :: ss) = top :: below ->
  match yyaction r (reverse (take yylen (yyvs v))) (cfg_parser v) with
  | yybreak st =>
      forall v', yyconfig (top :: below) v' -> yychar v' = yychar v ->
                 yylval v' = yylval v -> yyin v' = yyin v ->
                 cfg_parser v' = st -> yyruns g v' Q
  | yyhalts h => Q (yystopped h)
  end ->
  yyruns s v Q.
Proof.
  intros Hc Hlen (Hs & Hp & Hd & Hr & Hg) Hdrop Hk.
  pose proof (yysetstate_default s v ss Hc Hlen Hs Hp) as Hpass.
  unfold yymove_default in Hpass. rewrite Hd in Hpass. cbn in Hpass.
  rewrite (proj2 (Z.eqb_neq _ _) Hr) in Hpass.
  destruct Hc as (Hss & Hvs & Hsz & Hes & Hne).
  pose proof (yyreduce_config r (set_stacks (s :: ss) (yyvs v) v) (s :: ss)
                yylen top below g eq_refl Hvs Hsz Hes Hne Hg Hdrop) as Hred.
  cbn [yyvs cfg_parser set_stacks] in Hred.
  destruct (yyaction r _ _) as [st|h].
  - destruct Hred as (v' & Hv' & C & A1 & A2 & A3 & A4).
    rewrite Hv' in Hpass. eapply yyruns_step; [exact Hpass|].
    apply Hk; assumption.
  - rewrite Hred in Hpass. eapply yyruns_stop; [exact Hpass|exact Hk].
Qed.

Lemma run_reduce_lookahead (s : Z) (v : yyvars) (ss : list Z) (p t r : Z)
    (yylen : nat) (top : Z) (below : list Z) (g : Z)
    (Q : yyoutcome -> Prop) :
  yyconfig ss v -> (length ss < 190)%nat -> s <> YYFINAL ->
  yyat yypact s = Some p -> p <> YYPACT_NINF ->
  yytoken (yypeek v) = Some t ->
  yymove_token s p t = Some (mv_reduce r) ->
  yyrule_goto r yylen top g -> yyno_action r ->
  drop yylen (s :: ss) = top :: below ->
  (forall v', yyconfig (top :: below) v' ->
              yychar v' = yychar (yypeek v) ->
              yylval v' = yylval (yypeek v) ->
              yyin v' = yyin (yypeek v) ->
              cfg_parser v' = cfg_parser v -> yyruns g v' Q) ->
  yyruns s v Q.
Proof.
  intros Hc Hlen Hs Hp Hp' Ht Hm Hg Hq Hdrop Hk.
  pose proof (yysetstate_token s v ss p Hc Hlen Hs Hp Hp') as Hpass.
  set (v0 := set_stacks (s :: ss) (yyvs v) v) in *.
  assert (Hpk : yypeek v0 = set_stacks (s :: ss) (yyvs v) (yypeek v)).
  { unfold v0, yypeek, yylex. cbn.
    destruct (yychar v =? YYEMPTY); [destruct (yyin v) as [|[a b] l]|];
      cbn;
      try match goal with
          | |- context [if ?b then _ else _] => destruct b
          end;
      reflexivity. }
  rewrite Hpk in Hpass.
  assert (Hty : yytoken (set_stacks (s :: ss) (yyvs v) (yypeek v))
                = Some t) by exact Ht.
  rewrite Hty, Hm in Hpass. cbn [yydo] in Hpass.
  destruct (yypeek_fields v) as (F1 & F2 & F3 & F4 & F5 & F6).
  destruct Hc as (Hss & Hvs & Hsz & Hes & Hne).
  pose proof (yyreduce_config r (set_stacks (s :: ss) (yyvs v) (yypeek v))
                (s :: ss) yylen top below g eq_refl Hvs
                ltac:(cbn; rewrite F3; exact Hsz)
                ltac:(cbn; rewrite F4; exact Hes)
                ltac:(cbn; rewrite F5; exact Hne) Hg Hdrop) as Hred.
  rewrite Hq in Hred. destruct Hred as (v' & Hv' & C & A1 & A2 & A3 & A4).
  rewrite Hv' in Hpass. eapply yyruns_step; [exact Hpass|].
  apply Hk; try assumption. rewrite A4. cbn. exact F6.
Qed.

(** *** The passes of a clause and of a section *)

Lemma yypending_empty (v : yyvars) :
  yychar v = YYEMPTY -> yypending v = yyin v.
Proof. unfold yypending. intros ->. reflexivity. Qed.

Lemma clause_end_runs (sh c r : Z) (k : Z) (ks : list Z) (yylen : nat)
    (g1 u g2 cc : Z) (v : yyvars) (vals : list YYSTYPE)
    (rest : list (Z * YYSTYPE)) (st0 : config_parser_state)
    (Q : yyoutcome -> Prop) :
  yyreduces k r yylen c g1 ->
  yyreduces g1 u 1 c g2 -> yyno_action u ->
  yyreduces g2 cc 2 sh c -> yyno_action cc ->
  yyconfig (ks ++ [c; sh; 1; 0]) v -> S (length ks) = yylen ->
  (yylen <= 3)%nat ->
  reverse (take yylen (yyvs v)) = vals -> cfg_parser v = st0 ->
  yychar v = YYEMPTY -> yyin v = rest ->
  match yyaction r vals st0 with
  | yybreak st =>
      forall v', yyconfig [sh; 1; 0] v' -> yychar v' = YYEMPTY ->
                 yyin v' = rest -> cfg_parser v' = st -> yyruns c v' Q
  | yyhalts h => Q (yystopped h)
  end ->
  yyruns k v Q.
Proof.
  intros R1 R2 Qu R3 Qcc C Hlen Hle Hvals Hst E I Hk.
  apply (run_reduce k v (ks ++ [c; sh; 1; 0]) r yylen c [sh; 1; 0] g1);
    [exact C|rewrite length_app; cbn; lia|exact R1| |].
  { rewrite <- Hlen. cbn [drop]. rewrite drop_app_length. reflexivity. }
  rewrite Hvals, Hst.
  destruct (yyaction r vals st0) as [st|h]; [|exact Hk].
  intros v3 C3 E3 L3 I3 P3.
  apply (run_reduce g1 v3 [c; sh; 1; 0] u 1 c [sh; 1; 0] g2);
    [exact C3|cbn; lia|exact R2|reflexivity|].
  rewrite Qu. intros v4 C4 E4 L4 I4 P4.
  apply (run_reduce g2 v4 [c; sh; 1; 0] cc 2 sh [1; 0] c);
    [exact C4|cbn; lia|exact R3|reflexivity|].
  rewrite Qcc. intros v5 C5 E5 L5 I5 P5.
  apply Hk; [exact C5|congruence|congruence|congruence].
Qed.

Lemma yyrhs_length (k r : Z) (n : nat) (c g : Z) :
  yyreduces k r n c g ->
  length (omap (yyat yytoknum) (yyrhs_of r)) = n ->
  length (yyrhs_of r) = n.
Proof.
  intros (_ & _ & _ & _ & Hr2 & _) Hl.
  assert (Hlen : (length (omap (yyat yytoknum) (yyrhs_of r))
                  <= length (yyrhs_of r))%nat).
  { generalize (yyrhs_of r). intros l.
    induction l as [|x l IH]; cbn; [lia|].
    destruct (yyat yytoknum x); cbn; lia. }
  unfold yyrhs_of in Hlen, Hl |- *.
  destruct (yyat yyprhs r) as [i|]; [|cbn in Hlen, Hl |- *; lia].
  rewrite Hr2 in Hlen, Hl |- *. rewrite Nat2Z.id in Hlen, Hl |- *.
  rewrite length_take in Hlen |- *. lia.
Qed.

Lemma clause_runs (sh c r : Z) (v : yyvars) (vals : list YYSTYPE)
    (rest : list (Z * YYSTYPE)) (Q : yyoutcome -> Prop) :
  yyclause_path sh c r ->
  yyconfig [sh; 1; 0] v -> yychar v = YYEMPTY ->
  length vals = length (yyrhs_of r) ->
  yyin v = yytokens_of r vals ++ rest ->
  match yyaction r vals (cfg_parser v) with
  | yybreak st =>
      forall v', yyconfig [sh; 1; 0] v' -> yychar v' = YYEMPTY ->
                 yyin v' = rest -> cfg_parser v' = st -> yyruns c v' Q
  | yyhalts h => Q (yystopped h)
  end ->
  yyruns c v Q.
Proof.
  intros (kw & k1 & k2 & g1 & u & g2 & cc & Hkw & S1 & _ & S2 & Hrule & R2
          & Qu & R3 & Qcc) Hc Hch Hvals Hin Hk.
  unfold yytokens_of in Hin. unfold yykeyword in Hkw.
  destruct (omap (yyat yytoknum) (yyrhs_of r)) as [|kw' [|sa [|sb [|]]]]
    eqn:Hrhs; try contradiction.
  - (* keyword and one string *)
    destruct Hrule as [-> R1]. cbn in Hkw. subst kw'.
    assert (Hr2 : length (yyrhs_of r) = 2%nat)
      by (apply (yyrhs_length _ _ _ _ _ R1); rewrite Hrhs; reflexivity).
    rewrite Hr2 in Hvals.
    destruct vals as [|lv1 [|lv2 [|]]]; try discriminate. cbn in Hin.
    apply (run_shift c v [sh; 1; 0] kw k1 lv1 ((STRING_ARG, lv2) :: rest));
      [exact Hc|cbn; lia|exact S1|rewrite yypending_empty; assumption|].
    intros v1 C1 E1 I1 P1 V1.
    apply (run_shift k1 v1 [c; sh; 1; 0] STRING_ARG k2 lv2 rest);
      [exact C1|cbn; lia|exact S2|rewrite yypending_empty; assumption|].
    intros v2 C2 E2 I2 P2 V2.
    apply (clause_end_runs sh c r k2 [k1] 2 g1 u g2 cc v2 [lv1; lv2] rest
             (cfg_parser v) Q R1 R2 Qu R3 Qcc C2 eq_refl ltac:(lia));
      [|congruence|exact E2|exact I2|exact Hk].
    rewrite V2, V1. cbn [take]. rewrite take_0. reflexivity.
  - (* keyword and two strings *)
    destruct Hrule as (-> & -> & _ & k3 & S3 & R1). cbn in Hkw. subst kw'.
    assert (Hr2 : length (yyrhs_of r) = 3%nat)
      by (apply (yyrhs_length _ _ _ _ _ R1); rewrite Hrhs; reflexivity).
    rewrite Hr2 in Hvals.
    destruct vals as [|lv1 [|lv2 [|lv3 [|]]]]; try discriminate.
    cbn in Hin.
    apply (run_shift c v [sh; 1; 0] kw k1 lv1
             ((STRING_ARG, lv2) :: (STRING_ARG, lv3) :: rest));
      [exact Hc|cbn; lia|exact S1|rewrite yypending_empty; assumption|].
    intros v1 C1 E1 I1 P1 V1.
    apply (run_shift k1 v1 [c; sh; 1; 0] STRING_ARG k2 lv2
             ((STRING_ARG, lv3) :: rest));
      [exact C1|cbn; lia|exact S2|rewrite yypending_empty; assumption|].
    intros v2 C2 E2 I2 P2 V2.
    apply (run_shift k2 v2 [k1; c; sh; 1; 0] STRING_ARG k3 lv3 rest);
      [exact C2|cbn; lia|exact S3|rewrite yypending_empty; assumption|].
    intros v3 C3 E3 I3 P3 V3.
    apply (clause_end_runs sh c r k3 [k2; k1] 3 g1 u g2 cc v3
             [lv1; lv2; lv3] rest (cfg_parser v) Q R1 R2 Qu R3 Qcc C3
             eq_refl ltac:(lia));
      [|congruence|exact E3|exact I3|exact Hk].
    rewrite V3, V2, V1. cbn [take]. rewrite take_0. reflexivity.
Qed.

Lemma foldl_yyrun_clause_halts (h : yyhalt) (cls : list yyclause) :
  foldl yyrun_clause (yyhalts h) cls = yyhalts h.
Proof. induction cls as [|c cls IH]; [reflexivity|exact IH]. Qed.

Lemma foldl_yyrun_section_halts (h : yyhalt) (f : list yysection) :
  foldl yyrun_section (yyhalts h) f = yyhalts h.
Proof.
  induction f as [|s f IH]; [reflexivity|]. cbn [foldl].
  unfold yyrun_section at 2. cbn [yythen].
  rewrite foldl_yyrun_clause_halts. exact IH.
Qed.

Lemma clauses_runs (sh c : Z) (rules : list Z) (cls : list yyclause)
    (v : yyvars) (next : list (Z * YYSTYPE)) (Q : yyoutcome -> Prop) :
  Forall (yyclause_path sh c) rules ->
  forallb (yyclause_ok rules) cls = true ->
  yyconfig [sh; 1; 0] v -> yychar v = YYEMPTY ->
  yyin v = concat (map yyclause_tokens cls) ++ next ->
  match foldl yyrun_clause (yybreak (cfg_parser v)) cls with
  | yybreak st =>
      forall v', yyconfig [sh; 1; 0] v' -> yychar v' = YYEMPTY ->
                 yyin v' = next -> cfg_parser v' = st -> yyruns c v' Q
  | yyhalts h => Q (yystopped h)
  end ->
  yyruns c v Q.
Proof.
  intros Hpaths. revert v.
  induction cls as [|cl cls IH]; intros v Hok Hc Hch Hin Hk.
  - apply Hk; try assumption. reflexivity.
  - cbn [forallb] in Hok. apply andb_true_iff in Hok as [Hcl Hok].
    unfold yyclause_ok in Hcl. apply andb_true_iff in Hcl as [Hr Hlen].
    apply existsb_exists in Hr as (r & Hrin & Hreq).
    apply Z.eqb_eq in Hreq. apply Nat.eqb_eq in Hlen.
    assert (Hpath : yyclause_path sh c (cl_rule cl)).
    { rewrite Hreq. apply (proj1 (Forall_forall _ _) Hpaths).
      apply list_elem_of_In. exact Hrin. }
    cbn [map concat] in Hin. rewrite <- app_assoc in Hin.
    apply (clause_runs sh c (cl_rule cl) v (cl_vals cl) _ Q Hpath Hc Hch
             Hlen Hin).
    cbn [foldl] in Hk. unfold yyrun_clause at 2 in Hk.
    cbn [yythen] in Hk.
    destruct (yyaction (cl_rule cl) (cl_vals cl) (cfg_parser v)) as [st|h].
    + intros v' C' E' I' P'. apply (IH v' Hok C' E' I').
      rewrite P'. exact Hk.
    + rewrite foldl_yyrun_clause_halts in Hk. exact Hk.
Qed.

Lemma yytoken_translate (v : yyvars) (tok : Z) :
  yychar v = tok -> 0 < tok -> yytoken v = YYTRANSLATE tok.
Proof.
  intros <- Hpos. unfold yytoken.
  destruct (Z.leb_spec (yychar v) YYEOF); [yylia|reflexivity].
Qed.

Lemma section_start (h : Z) (rules : list Z) (sh c : Z) (v : yyvars)
    (tok : Z) (lv : YYSTYPE) (rest : list (Z * YYSTYPE))
    (Q : yyoutcome -> Prop) :
  yysection_path h rules sh c ->
  yyconfig [0] v ->
  yypending v = yytokens_of h [lv] ++ rest ->
  match yyaction h [lv] (cfg_parser v) with
  | yybreak st =>
      forall v', yyconfig [sh; 1; 0] v' -> yychar v' = YYEMPTY ->
                 yyin v' = rest -> cfg_parser v' = st -> yyruns c v' Q
  | yyhalts h' => Q (yystopped h')
  end ->
  yyruns 1 v Q.
Proof.
  intros (htok & stok & e & tv & Hrhs & S1 & R1 & R2 & Qe & _) Hc Hp Hk.
  unfold yytokens_of in Hp. rewrite Hrhs in Hp. cbn in Hp.
  apply (run_shift 1 v [0] htok stok lv rest);
    [exact Hc|cbn; lia|exact S1|exact Hp|].
  intros v1 C1 E1 I1 P1 V1.
  apply (run_reduce stok v1 [1; 0] h 1 1 [0] sh);
    [exact C1|cbn; lia|exact R1|reflexivity|].
  rewrite V1, P1. cbn [take]. rewrite take_0.
  change (reverse [lv]) with [lv].
  destruct (yyaction h [lv] (cfg_parser v)) as [st|h']; [|exact Hk].
  intros v2 C2 E2 L2 I2 P2.
  apply (run_reduce sh v2 [1; 0] e 0 sh [1; 0] c);
    [exact C2|cbn; lia|exact R2|reflexivity|].
  rewrite Qe. intros v3 C3 E3 L3 I3 P3.
  apply Hk; [exact C3|congruence|congruence|congruence].
Qed.

Lemma yyis_reduce_spec (r : Z) (m : option yymove) :
  yyis_reduce r m = true -> m = Some (mv_reduce r).
Proof.
  destruct m as [[| |]|]; cbn; try discriminate.
  intros H. apply Z.eqb_eq in H. subst. reflexivity.
Qed.

(** The symbol of the lookahead, for the tokens that are yet to come. *)
Lemma yyupcoming_token (v : yyvars) (l : list (Z * YYSTYPE)) :
  yyupcoming v l ->
  exists t,
    yytoken (yypeek v) = Some t /\ 0 <= t < YYNTOKENS
    /\ match l with
       | [] => t = YYEOF /\ yychar (yypeek v) = YYEOF
       | (tok, lv) :: rest =>
           YYTRANSLATE tok = Some t
           /\ yychar (yypeek v) = tok /\ yylval (yypeek v) = lv
           /\ yyin (yypeek v) = rest
       end.
Proof.
  intros Hup.
  destruct (yytoken_range (yypeek v)) as (t & Ht & Hr & _).
  exists t. split; [exact Ht|]. split; [exact Hr|].
  destruct l as [|[tok lv] rest]; cbn in Hup.
  - destruct (yypeek_eof v Hup) as [He _]. split; [|exact He].
    unfold yytoken in Ht. rewrite He in Ht.
    change (YYEOF <=? YYEOF) with true in Ht. congruence.
  - destruct Hup as [Hpos Hp].
    destruct (yypeek_pending v tok lv rest Hp Hpos) as (A & B & C).
    split; [|repeat split; assumption].
    rewrite (yytoken_translate (yypeek v) tok A Hpos) in Ht. exact Ht.
Qed.

Lemma yyupcoming_loaded (v v' : yyvars) (l : list (Z * YYSTYPE)) :
  yyupcoming v l ->
  yychar v' = yychar (yypeek v) -> yylval v' = yylval (yypeek v) ->
  yyin v' = yyin (yypeek v) ->
  yyupcoming v' l.
Proof.
  intros Hup Hc Hl Hi.
  destruct (yyupcoming_token v l Hup) as (t & _ & _ & Hl').
  destruct l as [|[tok lv] rest]; cbn.
  - right. rewrite Hc. apply Hl'.
  - destruct Hl' as (_ & A & B & C). destruct Hup as [Hpos _].
    split; [exact Hpos|]. unfold yypending.
    rewrite Hc, A. destruct (Z.eqb_spec tok YYEMPTY); [yylia|].
    rewrite Hl, Hi, B, C. reflexivity.
Qed.

Lemma section_end (c tv sh : Z) (v : yyvars) (l : list (Z * YYSTYPE))
    (Q : yyoutcome -> Prop) :
  yysection_end c tv ->
  yyconfig [sh; 1; 0] v -> yyupcoming v l ->
  match l with
  | [] => True
  | (tok, _) :: _ => yyshifted c (default 0 (YYTRANSLATE tok)) = false
  end ->
  (forall v', yyconfig [0] v' -> yyupcoming v' l ->
              cfg_parser v' = cfg_parser v -> yyruns 1 v' Q) ->
  yyruns c v Q.
Proof.
  intros (Hc' & Heof & p & g3 & Hp & Hp' & Hall & Hg & Qtv & R3 & Q3)
         Hc Hup Hns Hk.
  destruct (yyupcoming_token v l Hup) as (t & Ht & Hr & Hl).
  assert (Hnot : yyshifted c t = false).
  { destruct l as [|[tok lv] rest].
    - destruct Hl as [-> _]. exact Heof.
    - destruct Hl as (Htr & _). rewrite Htr in Hns. exact Hns. }
  pose proof (proj1 (forallb_forall _ _) Hall t (seqZ_elem t _ Hr)) as Hm.
  cbn beta in Hm. rewrite Hnot in Hm. cbn [orb] in Hm.
  apply yyis_reduce_spec in Hm.
  apply (run_reduce_lookahead c v [sh; 1; 0] p t tv 2 1 [0] g3);
    [exact Hc|cbn; lia|exact Hc'|exact Hp|exact Hp'|exact Ht|exact Hm
    |exact Hg|exact Qtv|reflexivity|].
  intros v1 C1 E1 L1 I1 P1.
  apply (run_reduce g3 v1 [1; 0] 3 2 0 [] 1);
    [exact C1|cbn; lia|exact R3|reflexivity|].
  rewrite Q3. intros v2 C2 E2 L2 I2 P2.
  apply Hk; [exact C2| |congruence].
  apply (yyupcoming_loaded v v2 l Hup); congruence.
Qed.

(** *** State 1, between the sections *)

Lemma top_eof (v : yyvars) :
  yyconfig [0] v -> yyateof v ->
  yyruns 1 v (fun o => exists v',
                o = yyreturned 0 v' /\ cfg_parser v' = cfg_parser v
                /\ yynerrs v' = 0).
Proof.
  intros Hc Hup.
  assert (Hp : yyat yypact 1 = Some 0) by reflexivity.
  pose proof (yysetstate_token 1 v [0] 0 Hc ltac:(cbn; lia)
                ltac:(yylia) Hp ltac:(yylia)) as Hpass.
  set (v0 := set_stacks [1; 0] (yyvs v) v) in *.
  assert (Hup0 : yyateof v0) by exact Hup.
  destruct (yypeek_eof v0 Hup0) as [He _].
  destruct (yypeek_fields v0) as (F1 & F2 & F3 & F4 & F5 & F6).
  destruct Hc as (Hss & Hvs & Hsz & Hes & Hne).
  unfold yytoken in Hpass. rewrite He in Hpass.
  change (YYEOF <=? YYEOF) with true in Hpass. cbn iota in Hpass.
  change (yymove_token 1 0 YYEOF) with (Some (mv_shift 2)) in Hpass.
  cbn [yydo] in Hpass. unfold yyshift in Hpass.
  rewrite F4 in Hpass. cbn [yyerrstatus set_stacks v0] in Hpass.
  rewrite Hes in Hpass. change (0 =? 0) with true in Hpass.
  cbn iota in Hpass.
  eapply yyruns_step; [exact Hpass|].
  eapply yyruns_return.
  - rewrite yysetstate_small; [reflexivity|].
    cbn. rewrite F1, F3. cbn. rewrite Hsz. yylia.
  - eexists. split; [reflexivity|]. cbn. rewrite F5, F6. cbn.
    split; [reflexivity|exact Hne].
Qed.

Lemma top_error (v : yyvars) (tok : Z) (lv : YYSTYPE)
    (rest : list (Z * YYSTYPE)) :
  yyconfig [0] v -> yyupcoming v ((tok, lv) :: rest) ->
  yyshifted 1 (default 0 (YYTRANSLATE tok)) = false ->
  yyruns 1 v (fun o => exists v',
                o = yyreturned 1 v'
                /\ cfg_parser v' = yyerror "syntax error" (cfg_parser v)
                /\ yynerrs v' = 1 /\ yyin v' = rest).
Proof.
  intros Hc Hup Hns.
  assert (Hp : yyat yypact 1 = Some 0) by reflexivity.
  pose proof (yysetstate_token 1 v [0] 0 Hc ltac:(cbn; lia)
                ltac:(yylia) Hp ltac:(yylia)) as Hpass.
  set (v0 := set_stacks [1; 0] (yyvs v) v) in *.
  assert (Hup0 : yyupcoming v0 ((tok, lv) :: rest)) by exact Hup.
  destruct (yyupcoming_token v0 _ Hup0) as (t & Ht & Hr & Htr & A & B & C).
  rewrite Htr in Hns. cbn in Hns.
  assert (Hall : forallb (fun t => yyshifted 1 t
                            || match yymove_token 1 0 t with
                               | Some mv_error => true
                               | _ => false
                               end) (seqZ 0 YYNTOKENS) = true)
    by (vm_compute; reflexivity).
  pose proof (proj1 (forallb_forall _ _) Hall t (seqZ_elem t _ Hr)) as Hm.
  cbn beta in Hm. rewrite Hns in Hm. cbn [orb] in Hm.
  rewrite Ht in Hpass.
  destruct (yymove_token 1 0 t) as [[| |]|]; try discriminate.
  cbn [yydo] in Hpass.
  destruct (yypeek_fields v0) as (F1 & F2 & F3 & F4 & F5 & F6).
  destruct Hc as (Hss & Hvs & Hsz & Hes & Hne).
  destruct (yyerrlab_aborts (yypeek v0)) as (v' & Hv' & N & _ & P & I & _).
  - rewrite F4. exact Hes.
  - rewrite F5. exact Hne.
  - rewrite F1. discriminate.
  - rewrite F1. reflexivity.
  - rewrite Hv' in Hpass. eapply yyruns_return; [exact Hpass|].
    exists v'. split; [reflexivity|]. rewrite P, F6, I, C.
    repeat split. exact N.
Qed.

(** *** A whole file *)

Lemma yyupcoming_fresh (v : yyvars) (l : list (Z * YYSTYPE)) :
  yychar v = YYEMPTY -> yyin v = l ->
  match l with
  | [] => True
  | (tok, _) :: _ => 0 < tok
  end ->
  yyupcoming v l.
Proof.
  intros Hc Hi Hpos. destruct l as [|[tok lv] rest]; cbn.
  - left. split; assumption.
  - split; [exact Hpos|]. rewrite yypending_empty by exact Hc. exact Hi.
Qed.

(** The first token of a file is a keyword that opens a section. *)
Lemma yyfile_tokens_head (s : yysection) (f : list yysection)
    (tail : list (Z * YYSTYPE)) :
  yysection_ok s = true ->
  exists htok rest,
    yyfile_tokens (s :: f) ++ tail = (htok, sec_val s) :: rest
    /\ 0 < htok /\ In htok yyheader_tokens.
Proof.
  unfold yysection_ok. intros Hok.
  destruct (yyclauses_of (sec_rule s)) as [rules|] eqn:Hcl; [|discriminate].
  destruct (yysection_check_spec _ _ Hcl)
    as (sh & c & _ & (htok & stok & e & tv & Hrhs & S1 & _) & _).
  exists htok. eexists. split; [|split].
  - unfold yyfile_tokens. cbn [map concat]. unfold yysection_tokens at 1.
    unfold yytokens_of at 1. rewrite Hrhs. cbn. reflexivity.
  - destruct S1 as (_ & Hpos & _). exact Hpos.
  - unfold yyheader_tokens. apply in_concat.
    exists (omap (yyat yytoknum) (yyrhs_of (sec_rule s))).
    split; [|rewrite Hrhs; left; reflexivity].
    apply (in_map (fun h => omap (yyat yytoknum) (yyrhs_of h))
             yystart_rules (sec_rule s)).
    revert Hcl. unfold yyclauses_of, yystart_rules.
    destruct (Z.eqb_spec (sec_rule s) 10) as [->|_];
      [intros _; cbn; auto 10|].
    destruct (Z.eqb_spec (sec_rule s) 117) as [->|_];
      [intros _; cbn; auto 10|].
    destruct (Z.eqb_spec (sec_rule s) 125) as [->|_];
      [intros _; cbn; auto 10|].
    destruct (Z.eqb_spec (sec_rule s) 245) as [->|_];
      [intros _; cbn; auto 10|].
    destruct (Z.eqb_spec (sec_rule s) 262) as [->|_];
      [intros _; cbn; auto 10|].
    destruct (Z.eqb_spec (sec_rule s) 289) as [->|_];
      [intros _; cbn; auto 10|].
    intros H; discriminate H.
Qed.

Lemma file_runs (f : list yysection) (v : yyvars)
    (tail : list (Z * YYSTYPE)) (Q : yyoutcome -> Prop) :
  forallb yysection_ok f = true ->
  yyconfig [0] v -> yyupcoming v (yyfile_tokens f ++ tail) ->
  yytail_ok f tail ->
  match foldl yyrun_section (yybreak (cfg_parser v)) f with
  | yybreak st =>
      forall v', yyconfig [0] v' -> yyupcoming v' tail ->
                 cfg_parser v' = st -> yyruns 1 v' Q
  | yyhalts h => Q (yystopped h)
  end ->
  yyruns 1 v Q.
Proof.
  revert v. induction f as [|s f IH]; intros v Hok Hc Hup Htail Hk.
  - apply Hk; [exact Hc|exact Hup|reflexivity].
  - cbn [forallb] in Hok. apply andb_true_iff in Hok as [Hs Hok].
    pose proof Hs as Hs'. unfold yysection_ok in Hs'.
    destruct (yyclauses_of (sec_rule s)) as [rules|] eqn:Hcl;
      [|discriminate].
    destruct (yysection_check_spec _ _ Hcl)
      as (sh & c & Hst & Hpath & Hkw).
    pose proof Hpath as (htok & stok & e & tv & Hrhs & S1 & R1 & R2 & Qe
                         & Hpaths & Hend & Hheads).
    set (next := yyfile_tokens f ++ tail).
    assert (Htoks : yyfile_tokens (s :: f) ++ tail
                    = yytokens_of (sec_rule s) [sec_val s]
                      ++ (concat (map yyclause_tokens (sec_clauses s))
                          ++ next)).
    { unfold yyfile_tokens, next. cbn [map concat].
      unfold yysection_tokens at 1. rewrite <- !app_assoc. reflexivity. }
    assert (Hpend : yypending v
                    = yytokens_of (sec_rule s) [sec_val s]
                      ++ (concat (map yyclause_tokens (sec_clauses s))
                          ++ next)).
    { rewrite Htoks in Hup. unfold yytokens_of in Hup |- *.
      rewrite Hrhs in Hup |- *. cbn in Hup |- *. apply Hup. }
    (* what follows the section *)
    assert (Hnext : match next with
                    | [] => True
                    | (tok, _) :: _ =>
                        0 < tok
                        /\ yyshifted c (default 0 (YYTRANSLATE tok)) = false
                    end).
    { unfold next. destruct f as [|s2 f2].
      - cbn [yyfile_tokens map concat app].
        destruct tail as [|[tok lv] rest]; [exact I|].
        destruct Htail as [Hpos Hlast]. split; [exact Hpos|].
        exact (Hlast sh c Hst).
      - cbn [forallb] in Hok. apply andb_true_iff in Hok as [Hs2 _].
        destruct (yyfile_tokens_head s2 f2 tail Hs2)
          as (htok2 & rest2 & -> & Hpos2 & Hin2).
        split; [exact Hpos2|].
        pose proof (proj1 (forallb_forall _ _) Hheads htok2 Hin2) as Hn.
        cbn beta in Hn. apply negb_true_iff in Hn. exact Hn. }
    apply (section_start (sec_rule s) rules sh c v htok (sec_val s) _ Q
             Hpath Hc Hpend).
    cbn [foldl] in Hk. unfold yyrun_section at 2 in Hk.
    cbn [yythen] in Hk.
    destruct (yyaction (sec_rule s) [sec_val s] (cfg_parser v))
      as [st1|h1].
    2:{ rewrite foldl_yyrun_clause_halts, foldl_yyrun_section_halts in Hk.
        exact Hk. }
    intros v1 C1 E1 I1 P1.
    apply (clauses_runs sh c rules (sec_clauses s) v1 next Q Hpaths Hs' C1
             E1 I1).
    rewrite P1.
    destruct (foldl yyrun_clause (yybreak st1) (sec_clauses s))
      as [st2|h2].
    2:{ rewrite foldl_yyrun_section_halts in Hk. exact Hk. }
    intros v2 C2 E2 I2 P2.
    apply (section_end c tv sh v2 next Q Hend C2).
    + apply yyupcoming_fresh; [exact E2|exact I2|].
      destruct next as [|[tok lv] rest]; [exact I|apply Hnext].
    + destruct next as [|[tok lv] rest]; [exact I|apply Hnext].
    + intros v3 C3 U3 P3.
      apply (IH v3 Hok C3 U3).
      * unfold yytail_ok in Htail |- *.
        destruct tail as [|[tok lv] rest]; [exact I|].
        destruct Htail as [Hpos Hlast]. split; [exact Hpos|].
        destruct f as [|s2 f2]; [exact I|]. exact Hlast.
      * rewrite P3, P2. exact Hk.
Qed.

(** *** From the runs to [yyparse] *)

Lemma yyparse_loop_mono (n m : nat) (s : Z) (v : yyvars) :
  yyfinished (yyparse_loop n s v) = true -> (n <= m)%nat ->
  yyparse_loop m s v = yyparse_loop n s v.
Proof.
  revert m s v. induction n as [|n IH]; intros m s v Hf Hle;
    [discriminate|].
  destruct m as [|m]; [lia|]. cbn [yyparse_loop] in Hf |- *.
  destruct (yysetstate s v) as [s' v'|r v'|h|]; try reflexivity.
  apply IH; [exact Hf|lia].
Qed.

Lemma yyended_finished (o : yyoutcome) : yyended o -> yyfinished o = true.
Proof. destruct o; cbn; [reflexivity|reflexivity|intros []|intros []]. Qed.

Lemma yyruns_parse (input : list (Z * YYSTYPE)) (st : config_parser_state)
    (Q : yyoutcome -> Prop) :
  yyruns 0 (yyinit input st) Q -> Q (yyparse input st).
Proof.
  intros (n & Hf & HQ).
  pose proof (yyended_finished _ (yyparse_ended input st)) as Hf'.
  unfold yyparse in *.
  set (F := (6 * length input + 18)%nat) in *.
  rewrite <- (yyparse_loop_mono F (Nat.max n F) 0 _ Hf' ltac:(lia)).
  rewrite (yyparse_loop_mono n (Nat.max n F) 0 _ Hf ltac:(lia)).
  exact HQ.
Qed.

Lemma yyparse_start (input : list (Z * YYSTYPE))
    (st : config_parser_state) (Q : yyoutcome -> Prop) :
  (forall v, yyconfig [0] v -> yychar v = YYEMPTY -> yyin v = input ->
             cfg_parser v = st -> yyruns 1 v Q) ->
  yyruns 0 (yyinit input st) Q.
Proof.
  intros Hk.
  assert (R : yyreduces 0 2 0 0 1) by (apply yyreduce_to_spec; reflexivity).
  apply (run_reduce 0 (yyinit input st) [] 2 0 0 [] 1);
    [repeat split|cbn; lia|exact R|reflexivity|].
  rewrite (yyquiet_spec 2 eq_refl).
  intros v' C E L I P. apply Hk; assumption.
Qed.

Lemma yyruns_weaken (s : Z) (v : yyvars) (Q1 Q2 : yyoutcome -> Prop) :
  yyruns s v Q1 -> (forall o, Q1 o -> Q2 o) -> yyruns s v Q2.
Proof.
  intros (n & Hf & HQ) Himp. exists n. split; [exact Hf|apply Himp, HQ].
Qed.

Lemma yyfile_upcoming (f : list yysection) (tail : list (Z * YYSTYPE))
    (v : yyvars) :
  forallb yysection_ok f = true ->
  match tail with
  | [] => True
  | (tok, _) :: _ => 0 < tok
  end ->
  yychar v = YYEMPTY -> yyin v = yyfile_tokens f ++ tail ->
  yyupcoming v (yyfile_tokens f ++ tail).
Proof.
  intros Hok Htail Hc Hi. apply yyupcoming_fresh; [exact Hc|exact Hi|].
  destruct f as [|s f]; [exact Htail|].
  cbn [forallb] in Hok. apply andb_true_iff in Hok as [Hs _].
  destruct (yyfile_tokens_head s f tail Hs) as (htok & rest & -> & Hpos & _).
  exact Hpos.
Qed.

Lemma file_parses (f : list yysection) (st : config_parser_state)
    (Q : yyoutcome -> Prop) :
  forallb yysection_ok f = true ->
  match yyrun_file st f with
  | yybreak st' =>
      forall v, cfg_parser v = st' -> yynerrs v = 0 -> Q (yyreturned 0 v)
  | yyhalts h => Q (yystopped h)
  end ->
  Q (yyparse (yyfile_tokens f) st).
Proof.
  intros Hok HQ.
  apply (yyruns_parse (yyfile_tokens f) st Q).
  apply yyparse_start. intros v C E Hi P.
  apply (file_runs f v []); [exact Hok|exact C| |exact I|].
  - apply yyfile_upcoming; [exact Hok|exact I|exact E|].
    rewrite app_nil_r. exact Hi.
  - unfold yyrun_file in HQ. rewrite P.
    destruct (foldl yyrun_section (yybreak st) f) as [st'|h]; [|exact HQ].
    intros v' C' U' P'.
    apply (yyruns_weaken 1 v' _ _ (top_eof v' C' U')).
    intros o (v2 & -> & A & B). apply HQ; [congruence|exact B].
Qed.

(** X15 (configparser.c, yyparse): a file that follows the grammar, a
    sequence of sections each opened by its keyword and made of clauses
    [keyword STRING_ARG] or, for access-control and local-zone,
    [keyword STRING_ARG STRING_ARG], is accepted: [yyparse] returns 0,
    reports no syntax error, and has run the actions of the sections
    and of the clauses in the order of the text, each on the values of
    its own tokens.  When one of these actions ends in [fatal_exit] or
    in what C leaves undefined, the parse stops there and no later
    action runs. *)
Theorem yyparse_runs_actions_in_order (f : list yysection)
    (st : config_parser_state) :
  forallb yysection_ok f = true ->
  match yyrun_file st f with
  | yybreak st' =>
      exists v, yyparse (yyfile_tokens f) st = yyreturned 0 v
                /\ cfg_parser v = st' /\ yynerrs v = 0
  | yyhalts h => yyparse (yyfile_tokens f) st = yystopped h
  end.
Proof.
  intros Hok.
  apply (file_parses f st
           (fun o => match yyrun_file st f with
                     | yybreak st' =>
                         exists v, o = yyreturned 0 v
                                   /\ cfg_parser v = st' /\ yynerrs v = 0
                     | yyhalts h => o = yystopped h
                     end) Hok).
  destruct (yyrun_file st f) as [st'|h]; [|reflexivity].
  intros v P N. exists v. split; [reflexivity|]. split; assumption.
Qed.

Lemma YYTRANSLATE_range (x t : Z) :
  YYTRANSLATE x = Some t -> 0 <= t < YYNTOKENS.
Proof.
  unfold YYTRANSLATE.
  destruct ((0 <=? x) && (x <=? YYMAXUTOK)); [|intros [= <-]; yylia].
  unfold yyat. destruct (x <? 0); [discriminate|]. intros Ht.
  pose proof (proj1 (forallb_forall _ _) yytranslate_range t) as Hin.
  assert (Hel : In t yytranslate).
  { apply list_elem_of_In. eapply list_elem_of_lookup_2. exact Ht. }
  specialize (Hin Hel). apply andb_true_iff in Hin as [A B].
  apply Z.leb_le in A. apply Z.ltb_lt in B. lia.
Qed.

Lemma yytranslate_toknum (tok t : Z) :
  0 < tok -> YYTRANSLATE tok = Some t ->
  t = YYUNDEFTOK \/ yyat yytoknum t = Some tok.
Proof.
  intros Hpos. unfold YYTRANSLATE.
  destruct ((0 <=? tok) && (tok <=? YYMAXUTOK)) eqn:Hr;
    [|intros [= <-]; left; reflexivity].
  apply andb_true_iff in Hr as [_ Hle]. apply Z.leb_le in Hle.
  assert (Hall : forallb
            (fun tok =>
               match yyat yytranslate tok with
               | Some t =>
                   (t =? YYUNDEFTOK)
                   || match yyat yytoknum t with
                      | Some x => x =? tok
                      | None => false
                      end
               | None => false
               end) (seqZ 1 YYMAXUTOK) = true) by (vm_compute; reflexivity).
  assert (Hin : In tok (seqZ 1 YYMAXUTOK)).
  { apply list_elem_of_In, elem_of_seqZ. yylia. }
  pose proof (proj1 (forallb_forall _ _) Hall tok Hin) as H. cbn beta in H.
  intros Ht. rewrite Ht in H. apply orb_true_iff in H as [H|H].
  - left. apply Z.eqb_eq in H. exact H.
  - right. destruct (yyat yytoknum t) as [x|]; [|discriminate].
    apply Z.eqb_eq in H. subst x. reflexivity.
Qed.

(** A token that is no keyword of a section is not shifted in the state
    of the section. *)
Lemma yykeywords_check_spec (h c tok : Z) :
  yykeywords_check h c = true -> 0 < tok ->
  existsb (Z.eqb tok) (yykeywords_of h) = false ->
  yyshifted c (default 0 (YYTRANSLATE tok)) = false.
Proof.
  intros Hck Hpos Hno.
  destruct (YYTRANSLATE tok) as [t|] eqn:Ht.
  - change (yyshifted c t = false).
    pose proof (YYTRANSLATE_range tok t Ht) as Hr.
    pose proof (proj1 (forallb_forall _ _) Hck t (seqZ_elem t _ Hr)) as H.
    cbn beta in H. destruct (yyshifted c t); [|reflexivity].
    cbn in H. apply andb_true_iff in H as [Hu H].
    destruct (yytranslate_toknum tok t Hpos Ht) as [E|E].
    + rewrite E in Hu. discriminate.
    + rewrite E in H. congruence.
  - unfold YYTRANSLATE in Ht.
    destruct ((0 <=? tok) && (tok <=? YYMAXUTOK)) eqn:Hr; [|discriminate].
    apply andb_true_iff in Hr as [H0 H1]. apply Z.leb_le in H0, H1.
    unfold yyat in Ht. destruct (Z.ltb_spec tok 0); [lia|].
    apply lookup_ge_None in Ht. change (length yytranslate) with 404%nat in Ht.
    yylia.
Qed.


Lemma yyheaders_check_spec (tok : Z) :
  0 < tok -> existsb (Z.eqb tok) yyheader_tokens = false ->
  yyshifted 1 (default 0 (YYTRANSLATE tok)) = false.
Proof.
  intros Hpos Hno.
  assert (Hall : forallb
            (fun t =>
               negb (yyshifted 1 t) || (t =? YYEOF)
               || (negb (t =? YYUNDEFTOK)
                   && match yyat yytoknum t with
                      | Some x => existsb (Z.eqb x) yyheader_tokens
                      | None => false
                      end)) (seqZ 0 YYNTOKENS) = true)
    by (vm_compute; reflexivity).
  destruct (YYTRANSLATE tok) as [t|] eqn:Ht.
  - change (yyshifted 1 t = false).
    pose proof (YYTRANSLATE_range tok t Ht) as Hr.
    pose proof (proj1 (forallb_forall _ _) Hall t (seqZ_elem t _ Hr)) as H.
    cbn beta in H. destruct (yyshifted 1 t); [|reflexivity].
    cbn [negb orb] in H.
    destruct (yytranslate_toknum tok t Hpos Ht) as [E|E].
    + rewrite E in H. discriminate.
    + rewrite E in H. apply orb_true_iff in H as [H|H].
      * apply Z.eqb_eq in H. subst t.
        change (yyat yytoknum YYEOF) with (Some 0) in E. injection E as E.
        lia.
      * apply andb_true_iff in H as [_ H]. congruence.
  - unfold YYTRANSLATE in Ht.
    destruct ((0 <=? tok) && (tok <=? YYMAXUTOK)) eqn:Hr; [|discriminate].
    apply andb_true_iff in Hr as [H0 H1]. apply Z.leb_le in H0, H1.
    unfold yyat in Ht. destruct (Z.ltb_spec tok 0); [lia|].
    apply lookup_ge_None in Ht. change (length yytranslate) with 404%nat in Ht.
    yylia.
Qed.

Lemma last_forallb {A : Type} (P : A -> bool) (l : list A) (x : A) :
  forallb P l = true -> last l = Some x -> P x = true.
Proof.
  intros Hall Hlast. apply (proj1 (forallb_forall _ _) Hall).
  apply last_Some in Hlast as (l' & ->).
  apply in_or_app. right. left. reflexivity.
Qed.

(** X16 (configparser.c, yyparse): after a file that follows the
    grammar, a token that opens no section and is no keyword of the
    section that is open is a syntax error, and the parse ends there:
    [yyparse] reports "syntax error" once, on top of what the actions of
    the file reported, returns 1 and leaves the tokens after the
    offending one unread.  There is no resynchronisation: no state of
    the parser shifts the error token.  When an action of the file does
    not come to its [break], the parse stopped there. *)
Theorem yyparse_stops_at_unexpected_token (f : list yysection)
    (st : config_parser_state) (tok : Z) (lv : YYSTYPE)
    (rest : list (Z * YYSTYPE)) :
  forallb yysection_ok f = true -> 0 < tok ->
  yyunexpected f tok = true ->
  match yyrun_file st f with
  | yybreak st' =>
      exists v,
        yyparse (yyfile_tokens f ++ (tok, lv) :: rest) st = yyreturned 1 v
        /\ cfg_parser v = yyerror "syntax error" st'
        /\ yynerrs v = 1 /\ yyin v = rest
  | yyhalts h =>
      yyparse (yyfile_tokens f ++ (tok, lv) :: rest) st = yystopped h
  end.
Proof.
  intros Hok Hpos Hun.
  unfold yyunexpected in Hun. apply andb_true_iff in Hun as [Hhead Hlast].
  apply negb_true_iff in Hhead.
  apply (yyruns_parse (yyfile_tokens f ++ (tok, lv) :: rest) st
           (fun o => match yyrun_file st f with
                     | yybreak st' =>
                         exists v,
                           o = yyreturned 1 v
                           /\ cfg_parser v = yyerror "syntax error" st'
                           /\ yynerrs v = 1 /\ yyin v = rest
                     | yyhalts h => o = yystopped h
                     end)).
  apply yyparse_start. intros v C E Hi P.
  apply (file_runs f v ((tok, lv) :: rest)); [exact Hok|exact C| | |].
  - apply yyfile_upcoming; [exact Hok|exact Hpos|exact E|exact Hi].
  - cbn. split; [exact Hpos|].
    destruct (last f) as [s|] eqn:Hl; [|exact I].
    intros sh c Hst.
    pose proof (last_forallb _ _ _ Hok Hl) as Hs.
    unfold yysection_ok in Hs.
    destruct (yyclauses_of (sec_rule s)) as [rules|] eqn:Hcl;
      [|discriminate].
    destruct (yysection_check_spec _ _ Hcl) as (sh' & c' & Hst' & _ & Hkw).
    rewrite Hst in Hst'. injection Hst' as <- <-.
    apply (yykeywords_check_spec (sec_rule s) c tok Hkw Hpos).
    apply negb_true_iff in Hlast. exact Hlast.
  - unfold yyrun_file. rewrite P.
    destruct (foldl yyrun_section (yybreak st) f) as [st'|h];
      [|reflexivity].
    intros v' C' U' P'.
    apply (yyruns_weaken 1 v' _ _
             (top_error v' tok lv rest C' U'
                (yyheaders_check_spec tok Hpos Hhead))).
    intros o (v2 & -> & A & B & D). exists v2.
    split; [reflexivity|]. split; [congruence|]. split; assumption.
Qed.

(** *** A keyword without its value *)

Lemma run_error (s : Z) (v : yyvars) (ss : list Z)
    (l : list (Z * YYSTYPE)) :
  yyconfig ss v -> (length ss < 190)%nat -> yyneeds_value s ss = true ->
  yyupcoming v l ->
  match l with
  | [] => True
  | (tok, _) :: _ => tok <> STRING_ARG
  end ->
  yyruns s v (fun o => exists v',
                o = yyreturned 1 v'
                /\ cfg_parser v' = yyerror "syntax error" (cfg_parser v)
                /\ yynerrs v' = 1
                /\ yyin v' = match l with
                             | [] => yyin v
                             | _ :: rest => rest
                             end).
Proof.
  intros Hc Hlen Hnv Hup Hns.
  unfold yyneeds_value in Hnv.
  apply andb_true_iff in Hnv as [Hnv Herr].
  apply andb_true_iff in Hnv as [Hfin Hnv].
  apply negb_true_iff, Z.eqb_neq in Hfin.
  destruct (yyat yypact s) as [p|] eqn:Hp; [|discriminate].
  apply andb_true_iff in Hnv as [Hninf Hall].
  apply negb_true_iff, Z.eqb_neq in Hninf.
  pose proof (yysetstate_token s v ss p Hc Hlen Hfin Hp Hninf) as Hpass.
  set (v0 := set_stacks (s :: ss) (yyvs v) v) in *.
  assert (Hup0 : yyupcoming v0 l) by exact Hup.
  destruct (yyupcoming_token v0 _ Hup0) as (t & Ht & Hr & Htl).
  pose proof (proj1 (forallb_forall _ _) Hall t (seqZ_elem t _ Hr)) as Hm.
  cbn beta in Hm.
  assert (Hne : bool_decide (Some t = YYTRANSLATE STRING_ARG) = false).
  { apply bool_decide_eq_false. intros Heq.
    change (YYTRANSLATE STRING_ARG) with (Some 10) in Heq.
    injection Heq as ->.
    destruct l as [|[tok lv] rest].
    - destruct Htl as [E _]. discriminate E.
    - destruct Htl as (Htr & _). destruct Hup as [Hpos _].
      destruct (yytranslate_toknum tok 10 Hpos Htr) as [E|E];
        [discriminate E|].
      apply Hns. vm_compute in E. injection E as <-. reflexivity. }
  rewrite Hne in Hm. cbn [orb] in Hm.
  rewrite Ht in Hpass.
  destruct (yymove_token s p t) as [[| |]|]; try discriminate.
  cbn [yydo] in Hpass.
  destruct (yypeek_fields v0) as (F1 & F2 & F3 & F4 & F5 & F6).
  destruct Hc as (Hss & Hvs & Hsz & Hes & Hnerr).
  destruct (yyerrlab_aborts (yypeek v0)) as (v' & Hv' & N & _ & P & I & _).
  - rewrite F4. exact Hes.
  - rewrite F5. exact Hnerr.
  - rewrite F1. discriminate.
  - rewrite F1. exact Herr.
  - rewrite Hv' in Hpass. eapply yyruns_return; [exact Hpass|].
    exists v'. split; [reflexivity|]. rewrite P, F6, I.
    split; [reflexivity|]. split; [exact N|].
    destruct l as [|[tok lv] rest].
    + destruct (yypeek_eof v0 Hup0) as [_ ->]. reflexivity.
    + destruct Htl as (_ & _ & _ & E). exact E.
Qed.

(** A clause that breaks off after its keyword, or after the first of
    two strings. *)
Lemma clause_breaks_off (sh c r : Z) (v : yyvars) (vals : list YYSTYPE)
    (more : list (Z * YYSTYPE)) :
  yyclause_path sh c r ->
  yyconfig [sh; 1; 0] v -> yychar v = YYEMPTY ->
  (0 < length vals < length (yyrhs_of r))%nat ->
  yyin v = yytokens_of r vals ++ more ->
  match more with
  | [] => True
  | (tok, _) :: _ => 0 < tok /\ tok <> STRING_ARG
  end ->
  yyruns c v (fun o => exists v',
                o = yyreturned 1 v'
                /\ cfg_parser v' = yyerror "syntax error" (cfg_parser v)
                /\ yynerrs v' = 1 /\ yyin v' = tl more).
Proof.
  intros (kw & k1 & k2 & g1 & u & g2 & cc & Hkw & S1 & Hnv1 & S2 & Hrule
          & _) Hc Hch Hvals Hin Hmore.
  assert (Hpos : match more with
                 | [] => True
                 | (tok, _) :: _ => 0 < tok
                 end)
    by (destruct more as [|[? ?] ?]; [exact I|apply Hmore]).
  assert (Hns : match more with
                | [] => True
                | (tok, _) :: _ => tok <> STRING_ARG
                end)
    by (destruct more as [|[? ?] ?]; [exact I|apply Hmore]).
  unfold yytokens_of in Hin. unfold yykeyword in Hkw.
  (* the keyword alone *)
  assert (Hone : forall lv1,
             yyin v = (kw, lv1) :: more ->
             yyruns c v (fun o => exists v',
                o = yyreturned 1 v'
                /\ cfg_parser v' = yyerror "syntax error" (cfg_parser v)
                /\ yynerrs v' = 1 /\ yyin v' = tl more)).
  { intros lv1 Hi.
    apply (run_shift c v [sh; 1; 0] kw k1 lv1 more _ Hc
             ltac:(cbn; lia) S1).
    { rewrite yypending_empty by exact Hch. exact Hi. }
    intros v4 C4 E4 I4 P4 _.
    apply (yyruns_weaken k1 v4 _ _
             (run_error k1 v4 [c; sh; 1; 0] more C4 ltac:(cbn; lia) Hnv1
                (yyupcoming_fresh v4 more E4 I4 Hpos) Hns)).
    intros o (v5 & -> & A & B & D). exists v5.
    split; [reflexivity|]. split; [congruence|]. split; [exact B|].
    rewrite D. destruct more; [exact I4|reflexivity]. }
  destruct (omap (yyat yytoknum) (yyrhs_of r)) as [|kw' [|sa [|sb [|]]]]
    eqn:Hrhs; try contradiction.
  - destruct Hrule as [-> R1]. cbn in Hkw. subst kw'.
    assert (Hr2 : length (yyrhs_of r) = 2%nat)
      by (apply (yyrhs_length _ _ _ _ _ R1); rewrite Hrhs; reflexivity).
    rewrite Hr2 in Hvals.
    destruct vals as [|lv1 [|]]; cbn [length] in Hvals; try lia.
    apply (Hone lv1). exact Hin.
  - destruct Hrule as (-> & -> & Hnv2 & k3 & S3 & R1). cbn in Hkw.
    subst kw'.
    assert (Hr2 : length (yyrhs_of r) = 3%nat)
      by (apply (yyrhs_length _ _ _ _ _ R1); rewrite Hrhs; reflexivity).
    rewrite Hr2 in Hvals.
    destruct vals as [|lv1 [|lv2 [|]]]; cbn [length] in Hvals; try lia.
    + apply (Hone lv1). exact Hin.
    + cbn in Hin.
      apply (run_shift c v [sh; 1; 0] kw k1 lv1 ((STRING_ARG, lv2) :: more)
               _ Hc ltac:(cbn; lia) S1).
      { rewrite yypending_empty by exact Hch. exact Hin. }
      intros v1 C1 E1 I1 P1 _.
      apply (run_shift k1 v1 [c; sh; 1; 0] STRING_ARG k2 lv2 more _ C1
               ltac:(cbn; lia) S2).
      { rewrite yypending_empty by exact E1. exact I1. }
      intros v2 C2 E2 I2 P2 _.
      apply (yyruns_weaken k2 v2 _ _
               (run_error k2 v2 [k1; c; sh; 1; 0] more C2 ltac:(cbn; lia)
                  Hnv2 (yyupcoming_fresh v2 more E2 I2 Hpos) Hns)).
      intros o (v5 & -> & A & B & D). exists v5.
      split; [reflexivity|]. split; [congruence|]. split; [exact B|].
      rewrite D. destruct more; [exact I2|reflexivity].
Qed.

(** The first token of what is left of a clause is its keyword. *)
Lemma yytokens_of_head (sh c r : Z) (vals : list YYSTYPE) :
  yyclause_path sh c r -> (0 < length vals)%nat ->
  exists lv rest, yytokens_of r vals = (yykeyword r, lv) :: rest.
Proof.
  intros (kw & k1 & k2 & g1 & u & g2 & cc & Hkw & _ & _ & _ & Hrule & _)
         Hlen.
  unfold yytokens_of, yykeyword in *.
  destruct (omap (yyat yytoknum) (yyrhs_of r)) as [|kw' l];
    [contradiction|].
  destruct vals as [|lv vals]; [cbn in Hlen; lia|].
  cbn. eexists _, _. reflexivity.
Qed.

(** X17 (configparser.c, yyparse): a clause of the open section that
    breaks off is a syntax error: after its keyword, or after the
    first string of access-control or local-zone, the end of the input
    or any token other than a string makes [yyparse] report "syntax
    error" once, on top of what the actions before reported, return 1
    and read nothing after the token that took the place of the
    string.  The action of the clause does not run. *)
Theorem yyparse_stops_at_missing_value (f : list yysection)
    (s : yysection) (rules : list Z) (r : Z) (vals : list YYSTYPE)
    (more : list (Z * YYSTYPE)) (st : config_parser_state) :
  forallb yysection_ok (f ++ [s]) = true ->
  yyclauses_of (sec_rule s) = Some rules -> In r rules ->
  (0 < length vals < length (yyrhs_of r))%nat ->
  match more with
  | [] => True
  | (tok, _) :: _ => 0 < tok /\ tok <> STRING_ARG
  end ->
  match yyrun_file st (f ++ [s]) with
  | yybreak st' =>
      exists v,
        yyparse (yyfile_tokens (f ++ [s]) ++ yytokens_of r vals ++ more) st
        = yyreturned 1 v
        /\ cfg_parser v = yyerror "syntax error" st'
        /\ yynerrs v = 1 /\ yyin v = tl more
  | yyhalts h =>
      yyparse (yyfile_tokens (f ++ [s]) ++ yytokens_of r vals ++ more) st
      = yystopped h
  end.
Proof.
  intros Hok Hcl Hin Hvals Hmore.
  rewrite forallb_app in Hok. apply andb_true_iff in Hok as [Hok Hs].
  cbn [forallb] in Hs. rewrite andb_true_r in Hs.
  destruct (yysection_check_spec _ _ Hcl) as (sh & c & Hst & Hpath & Hkw).
  pose proof Hpath as (htok & stok & e & tv & Hrhs & S1 & R1 & R2 & Qe
                       & Hpaths & Hend & Hheads).
  pose proof (proj1 (Forall_forall _ _) Hpaths r
                (proj2 (list_elem_of_In _ _) Hin)) as Hr.
  set (open := concat (map yyclause_tokens (sec_clauses s))
               ++ yytokens_of r vals ++ more).
  assert (Htoks : yyfile_tokens (f ++ [s]) ++ yytokens_of r vals ++ more
                  = yyfile_tokens f
                    ++ (htok, sec_val s) :: open).
  { unfold yyfile_tokens, open. rewrite map_app, concat_app.
    cbn [map concat]. rewrite app_nil_r. unfold yysection_tokens at 2.
    unfold yytokens_of at 1. rewrite Hrhs. cbn.
    rewrite <- !app_assoc. reflexivity. }
  rewrite Htoks.
  assert (Hhpos : 0 < htok) by (destruct S1 as (_ & Hpos & _); exact Hpos).
  assert (Hhin : In htok yyheader_tokens).
  { destruct (yyfile_tokens_head s [] [] Hs) as (h' & rest' & E & _ & Hi).
    unfold yyfile_tokens in E. cbn [map concat] in E.
    unfold yysection_tokens, yytokens_of in E. rewrite Hrhs in E.
    cbn in E. injection E as <- _. exact Hi. }
  apply (yyruns_parse _ st
           (fun o => match yyrun_file st (f ++ [s]) with
                     | yybreak st' =>
                         exists v,
                           o = yyreturned 1 v
                           /\ cfg_parser v = yyerror "syntax error" st'
                           /\ yynerrs v = 1 /\ yyin v = tl more
                     | yyhalts h => o = yystopped h
                     end)).
  apply yyparse_start. intros v C E Hi P.
  apply (file_runs f v ((htok, sec_val s) :: open)); [exact Hok|exact C| | |].
  - apply yyfile_upcoming; [exact Hok|exact Hhpos|exact E|exact Hi].
  - cbn. split; [exact Hhpos|].
    destruct (last f) as [s0|] eqn:Hl; [|exact I].
    intros sh0 c0 Hst0.
    pose proof (last_forallb _ _ _ Hok Hl) as Hs0.
    unfold yysection_ok in Hs0.
    destruct (yyclauses_of (sec_rule s0)) as [rules0|] eqn:Hcl0;
      [|discriminate].
    destruct (yysection_check_spec _ _ Hcl0)
      as (sh' & c' & Hst' & Hpath0 & _).
    rewrite Hst0 in Hst'. injection Hst' as <- <-.
    destruct Hpath0 as (? & ? & ? & ? & _ & _ & _ & _ & _ & _ & _ & Hheads0).
    pose proof (proj1 (forallb_forall _ _) Hheads0 htok Hhin) as Hn.
    cbn beta in Hn. apply negb_true_iff in Hn. exact Hn.
  - unfold yyrun_file. rewrite foldl_app. cbn [foldl]. rewrite P.
    destruct (foldl yyrun_section (yybreak st) f) as [st1|h1].
    2:{ unfold yyrun_section. cbn [yythen].
        rewrite foldl_yyrun_clause_halts. reflexivity. }
    intros v1 C1 U1 P1.
    apply (section_start (sec_rule s) rules sh c v1 htok (sec_val s) open _
             Hpath C1).
    { destruct U1 as [_ U1]. rewrite U1. unfold yytokens_of.
      rewrite Hrhs. reflexivity. }
    unfold yyrun_section. cbn [yythen]. rewrite P1.
    destruct (yyaction (sec_rule s) [sec_val s] st1) as [st2|h2].
    2:{ rewrite foldl_yyrun_clause_halts; reflexivity. }
    intros v2 C2 E2 I2 P2.
    unfold yysection_ok in Hs. rewrite Hcl in Hs.
    apply (clauses_runs sh c rules (sec_clauses s) v2
             (yytokens_of r vals ++ more) _ Hpaths Hs C2 E2 I2).
    rewrite P2.
    destruct (foldl yyrun_clause (yybreak st2) (sec_clauses s))
      as [st3|h3]; [|reflexivity].
    intros v3 C3 E3 I3 P3.
    apply (yyruns_weaken c v3 _ _
             (clause_breaks_off sh c r v3 vals more Hr C3 E3 Hvals I3
                Hmore)).
    intros o (v5 & -> & A & B & D). exists v5.
    split; [reflexivity|]. split; [congruence|]. split; assumption.
Qed.

End YYSentenceFacts.

(** ** The options: bounds, rejected values, interfaces, stub zones *)

Section YYOptionFacts.
Import Data ConfigFile YYParse YYAutomaton YYGrammar YYOptions.
Context `{externs : config_externs}.

(** *** What a parse keeps *)

Section Keeps.
Variable P : config_file -> Prop.
Hypothesis yyaction_keeps :
  forall yyn vals st, P (cfg st) -> yyleaves P (yyaction yyn vals st).

Lemma yyreduce_keeps (yyn : Z) (v : yyvars) :
  P (cfg (cfg_parser v)) -> yykeeps P (yyreduce yyn v).
Proof.
  intros Hp. unfold yyreduce.
  destruct (yyat yyr2 yyn) as [yylen|]; [|exact I].
  destruct (yyat yyr1 yyn) as [lhs|]; [|exact I].
  pose proof (yyaction_keeps yyn
                (reverse (take (Z.to_nat yylen) (yyvs v))) _ Hp) as Ha.
  destruct (yyaction yyn _ (cfg_parser v)) as [st|h]; [|exact Ha].
  destruct (drop _ (yyss v)) as [|top below]; [exact I|].
  destruct (yygoto lhs top); [|exact I].
  exact Ha.
Qed.

Lemma yyerrlab1_loop_keeps (ss : list Z) (vs : list YYSTYPE) (v : yyvars) :
  P (cfg (cfg_parser v)) -> yykeeps P (yyerrlab1_loop ss vs v).
Proof.
  intros Hp. revert vs. induction ss as [|s below IH]; intros vs; [exact I|].
  cbn [yyerrlab1_loop].
  destruct (yyerrshift s) as [[t|]|]; [exact Hp| |exact I].
  destruct below as [|s' below']; [exact Hp|]. apply IH.
Qed.

Lemma yyerrlab_keeps (v : yyvars) :
  P (cfg (cfg_parser v)) -> yykeeps P (yyerrlab v).
Proof.
  intros Hp. unfold yyerrlab.
  set (v1 := if yyerrstatus v =? 0 then _ else v).
  assert (H1 : P (cfg (cfg_parser v1))).
  { unfold v1. destruct (yyerrstatus v =? 0); exact Hp. }
  clearbody v1. unfold yyerrlab1, yyabortlab.
  destruct (yyerrstatus v1 =? 3); [|apply yyerrlab1_loop_keeps; exact H1].
  destruct (yychar v1 <=? YYEOF).
  - destruct (yychar v1 =? YYEOF); [exact H1|].
    apply yyerrlab1_loop_keeps; exact H1.
  - apply yyerrlab1_loop_keeps; exact H1.
Qed.

Lemma yydefault_keeps (s : Z) (v : yyvars) :
  P (cfg (cfg_parser v)) -> yykeeps P (yydefault s v).
Proof.
  intros Hp. unfold yydefault.
  destruct (yyat yydefact s) as [yyn|]; [|exact I].
  destruct (yyn =? 0); [apply yyerrlab_keeps|apply yyreduce_keeps]; exact Hp.
Qed.

Lemma yybackup_token_keeps (s yyn t : Z) (v : yyvars) :
  P (cfg (cfg_parser v)) -> yykeeps P (yybackup_token s yyn t v).
Proof.
  intros Hp. unfold yybackup_token.
  destruct ((yyn + t <? 0) || (YYLAST <? yyn + t));
    [apply yydefault_keeps; exact Hp|].
  destruct (yyat yycheck (yyn + t)) as [c|]; [|exact I].
  destruct (negb (c =? t)); [apply yydefault_keeps; exact Hp|].
  destruct (yyat yytable (yyn + t)) as [t'|]; [|exact I].
  destruct (t' <=? 0); [apply yyreduce_keeps; exact Hp|].
  cbn. destruct (yyerrstatus v =? 0); exact Hp.
Qed.

Lemma yybackup_keeps (s : Z) (v : yyvars) :
  P (cfg (cfg_parser v)) -> yykeeps P (yybackup s v).
Proof.
  intros Hp. unfold yybackup.
  destruct (yyat yypact s) as [yyn|]; [|exact I].
  destruct (yyn =? YYPACT_NINF); [apply yydefault_keeps; exact Hp|].
  set (v1 := if yychar v =? YYEMPTY then yylex v else v).
  assert (H1 : P (cfg (cfg_parser v1))).
  { unfold v1, yylex. destruct (yychar v =? YYEMPTY); [|exact Hp].
    destruct (yyin v) as [|[tok lv] rest]; exact Hp. }
  clearbody v1.
  destruct (yychar v1 <=? YYEOF); [apply yybackup_token_keeps; exact H1|].
  destruct (YYTRANSLATE (yychar v1)); [|exact I].
  apply yybackup_token_keeps; exact H1.
Qed.

Lemma yysetstate_keeps (s : Z) (v : yyvars) :
  P (cfg (cfg_parser v)) -> yykeeps P (yysetstate s v).
Proof.
  intros Hp. unfold yysetstate, yygrow.
  set (v0 := set_stacks (s :: yyss v) (yyvs v) v).
  assert (H0 : P (cfg (cfg_parser v0))) by exact Hp. clearbody v0.
  destruct (yystacksize v0 - 1 <=? Z.of_nat (length (yyss v0)) - 1).
  - destruct (YYMAXDEPTH <=? yystacksize v0); [exact H0|].
    destruct (region_alloc (heap (cfg_parser v0))) as [[a|] h].
    + destruct (_ <=? _); [exact H0|].
      destruct (s =? YYFINAL); [exact H0|].
      apply yybackup_keeps. exact H0.
    + exact H0.
  - destruct (s =? YYFINAL); [exact H0|].
    apply yybackup_keeps. exact H0.
Qed.

Lemma yyparse_loop_keeps (n : nat) (s : Z) (v : yyvars) :
  P (cfg (cfg_parser v)) ->
  match yyparse_loop n s v with
  | yyreturned _ v' | yyrunning _ v' => P (cfg (cfg_parser v'))
  | yystopped h => yyholds P h
  | yyfaulted => True
  end.
Proof.
  revert s v. induction n as [|n IH]; intros s v Hp; [exact Hp|].
  cbn [yyparse_loop]. pose proof (yysetstate_keeps s v Hp) as Hk.
  destruct (yysetstate s v) as [s' v'|r v'|h|];
    [|exact Hk|exact Hk|exact I].
  apply IH. exact Hk.
Qed.

End Keeps.

(** *** The bounds of the options *)

Ltac yyrules :=
  repeat match goal with
         | |- context [match ?p with
                       | xH => _ | xO _ => _ | xI _ => _
                       end] => is_var p; destruct p
         | |- context [match ?z with
                       | Z0 => _ | Zpos _ => _ | Zneg _ => _
                       end] => is_var z; destruct z
         end.

Lemma yybounds_frame (c c' : config_file) :
  ints c' = ints c -> stubs c' = stubs c -> forwards c' = forwards c ->
  yybounds c = true -> yybounds c' = true.
Proof. unfold yybounds. intros -> -> -> Hb. exact Hb. Qed.

Lemma yybounds_set_int (m : int_member) (x : Z) (c : config_file) :
  yybounds c = true -> yyint_ok m x = true ->
  yybounds (set_int m x c) = true.
Proof.
  unfold yybounds. intros Hb Hx.
  apply andb_true_iff in Hb as [Hb Hf]. apply andb_true_iff in Hb as [Hi Hs].
  cbn [stubs forwards set_int]. rewrite Hs, Hf, !andb_true_r.
  apply forallb_forall. intros m' Hin. cbn [ints set_int].
  destruct (decide (m' = m)) as [->|_]; [exact Hx|].
  exact (proj1 (forallb_forall _ _) Hi m' Hin).
Qed.

Lemma yybounds_set_stubs (l : list config_stub) (c : config_file) :
  yybounds c = true -> forallb yystub_ok l = true ->
  yybounds (set_stubs l c) = true.
Proof.
  unfold yybounds. intros Hb Hl.
  apply andb_true_iff in Hb as [Hb Hf]. apply andb_true_iff in Hb as [Hi Hs].
  cbn [ints stubs forwards set_stubs]. rewrite Hi, Hl, Hf. reflexivity.
Qed.

Lemma yybounds_set_forwards (l : list config_stub) (c : config_file) :
  yybounds c = true -> forallb yystub_ok l = true ->
  yybounds (set_forwards l c) = true.
Proof.
  unfold yybounds. intros Hb Hl.
  apply andb_true_iff in Hb as [Hb Hf]. apply andb_true_iff in Hb as [Hi Hs].
  cbn [ints stubs forwards set_forwards]. rewrite Hi, Hl, Hs. reflexivity.
Qed.

Lemma yybounds_stubs (c : config_file) :
  yybounds c = true ->
  forallb yystub_ok (stubs c) = true
  /\ forallb yystub_ok (forwards c) = true.
Proof.
  unfold yybounds. intros Hb.
  apply andb_true_iff in Hb as [Hb Hf]. apply andb_true_iff in Hb as [_ Hs].
  split; assumption.
Qed.

Lemma yyflag_b2i (b : bool) : yyflag (b2i b) = true.
Proof. destruct b; reflexivity. Qed.

Lemma yes_or_no_bounds (str : string) (m : int_member)
    (st : config_parser_state) :
  yybounds (cfg st) = true ->
  (forall x, yyflag x = true -> yyint_ok m x = true) ->
  yybounds (cfg (yes_or_no str (set_int m) st)) = true.
Proof.
  intros Hb Hm. unfold yes_or_no.
  destruct (negb (streq str "yes") && negb (streq str "no")); [exact Hb|].
  apply yybounds_set_int; [exact Hb|apply Hm, yyflag_b2i].
Qed.

Lemma use_syslog_bounds (str : string) (st : config_parser_state) :
  yybounds (cfg st) = true ->
  yybounds (cfg (server_use_syslog str st)) = true.
Proof.
  intros Hb. unfold server_use_syslog.
  pose proof (yes_or_no_bounds str use_syslog st Hb
                ltac:(intros x Hx; exact Hx)) as H1.
  destruct (negb HAVE_SYSLOG_H && negb UB_ON_WINDOWS && streq str "yes");
    exact H1.
Qed.

Lemma number_bounds (str : string) (m : int_member)
    (st : config_parser_state) :
  yybounds (cfg st) = true -> (forall x, yyint_ok m x = true) ->
  yybounds (cfg (number str (set_int m) st)) = true.
Proof.
  intros Hb Hm. unfold number.
  destruct ((atoi str =? 0) && negb (streq str "0")); [exact Hb|].
  apply yybounds_set_int; [exact Hb|apply Hm].
Qed.

Lemma nonzero_number_bounds (msg str : string) (m : int_member)
    (st : config_parser_state) :
  yybounds (cfg st) = true ->
  (forall x, x <> 0 -> yyint_ok m x = true) ->
  yybounds (cfg (nonzero_number msg str (set_int m) st)) = true.
Proof.
  intros Hb Hm. unfold nonzero_number.
  destruct (Z.eqb_spec (atoi str) 0) as [|Hn]; [exact Hb|].
  apply yybounds_set_int; [exact Hb|apply Hm, Hn].
Qed.

Lemma slabs_option_bounds (str : string) (m : int_member)
    (st : config_parser_state) :
  yybounds (cfg st) = true ->
  (forall x, x <> 0 -> yyint_ok m x = true) ->
  yybounds (cfg (slabs_option m str st)) = true.
Proof.
  intros Hb Hm. unfold slabs_option.
  destruct (Z.eqb_spec (atoi str) 0) as [|Hn]; [exact Hb|].
  assert (H1 : yybounds (set_int m (atoi str) (cfg st)) = true)
    by (apply yybounds_set_int; [exact Hb|apply Hm, Hn]).
  destruct (is_pow2 _ =? 0); exact H1.
Qed.

(** The actions that hand a member to a function leave the numbers and
    the zones alone. *)
Lemma handed_bounds (str : string) (st : config_parser_state) :
  yybounds (cfg st) = true ->
  (forall m, yybounds (cfg (strlist_option m str st)) = true)
  /\ (forall msg m, yybounds (cfg (memsize_option msg m str st)) = true)
  /\ (forall allow,
        yybounds (cfg (server_outgoing_port allow str st)) = true).
Proof.
  intros Hb. split; [|split].
  - intros m. unfold strlist_option.
    destruct (cfg_strlist_insert _ _ _) as [[r l] h].
    destruct (r =? 0); exact Hb.
  - intros msg m. unfold memsize_option.
    destruct (cfg_parse_memsize _ _) as [r x].
    destruct (r =? 0); exact Hb.
  - intros allow. unfold server_outgoing_port.
    destruct (cfg_mark_ports _ _ _ _) as [r a].
    destruct (r =? 0); exact Hb.
Qed.

Lemma lists_bounds (s2 s3 : YYSTYPE) (str : string)
    (st : config_parser_state) :
  yybounds (cfg st) = true ->
  yyleaves (fun c => yybounds c = true) (server_access_control s2 s3 st)
  /\ yyleaves (fun c => yybounds c = true) (server_local_zone s2 s3 st)
  /\ yyleaves (fun c => yybounds c = true) (server_local_data str st)
  /\ yyleaves (fun c => yybounds c = true) (server_local_data_ptr str st).
Proof.
  intros Hb.
  assert (Hd : forall str' h,
             yyleaves (fun c => yybounds c = true)
               (server_local_data str' (set_heap h st))).
  { intros str' h. unfold server_local_data.
    destruct (cfg_strlist_insert _ _ _) as [[r l] h'].
    destruct (r =? 0); exact Hb. }
  split; [|split; [|split]].
  - unfold server_access_control, yystr.
    destruct s3 as [act|]; [|exact I].
    destruct (_ && _); [exact Hb|].
    destruct s2 as [net|]; [|exact I].
    destruct (cfg_str2list_insert _ _ _ _) as [[r l] h].
    destruct (r =? 0); exact Hb.
  - unfold server_local_zone, yystr.
    destruct s3 as [type|]; [|exact I].
    destruct (_ && _); [exact Hb|].
    destruct (streq type "nodefault").
    + destruct s2 as [zone|]; [|exact I].
      destruct (cfg_strlist_insert _ _ _) as [[r l] h].
      destruct (r =? 0); exact Hb.
    + destruct s2 as [zone|]; [|exact I].
      destruct (cfg_str2list_insert _ _ _ _) as [[r l] h].
      destruct (r =? 0); exact Hb.
  - unfold server_local_data.
    destruct (cfg_strlist_insert _ _ _) as [[r l] h].
    destruct (r =? 0); exact Hb.
  - unfold server_local_data_ptr.
    destruct (cfg_ptr_reverse _ _) as [[ptr|] h]; [apply Hd|exact Hb].
Qed.

Lemma yystub_ok_fields (s s' : config_stub) :
  isfirst s' = isfirst s -> isprime s' = isprime s ->
  yystub_ok s = true -> yystub_ok s' = true.
Proof. unfold yystub_ok. intros -> ->. auto. Qed.

Lemma stub_bounds (f : string -> config_parser_state -> yyeffect)
    (str : string) (st : config_parser_state) :
  f = stub_name \/ f = stub_host \/ f = stub_addr \/ f = stub_first
  \/ f = stub_prime ->
  yybounds (cfg st) = true ->
  yyleaves (fun c => yybounds c = true) (f str st).
Proof.
  intros Hf Hb. destruct (yybounds_stubs _ Hb) as [Hs Hw].
  assert (Hhead : forall s l s',
             stubs (cfg st) = s :: l ->
             yystub_ok s' = true ->
             forallb yystub_ok (s' :: l) = true).
  { intros s l s' E Hs'. rewrite E in Hs. cbn [forallb] in Hs |- *.
    apply andb_true_iff in Hs as [_ Hl]. rewrite Hs', Hl. reflexivity. }
  assert (Hold : forall s l, stubs (cfg st) = s :: l -> yystub_ok s = true).
  { intros s l E. rewrite E in Hs. cbn [forallb] in Hs.
    apply andb_true_iff in Hs as [Hs1 _]. exact Hs1. }
  destruct Hf as [Hf|[Hf|[Hf|[Hf|Hf]]]]; subst f;
    unfold stub_name, stub_host, stub_addr, stub_first, stub_prime.
  - destruct (stubs (cfg st)) as [|s l] eqn:E; [exact I|].
    cbn [yyleaves].
    assert (Hl : forallb yystub_ok
                   ({| name := Some str; hosts := hosts s;
                       addrs := addrs s; isfirst := isfirst s;
                       isprime := isprime s |} :: l) = true)
      by (apply (Hhead s l _ eq_refl),
            (yystub_ok_fields s _ eq_refl eq_refl), (Hold s l eq_refl)).
    destruct (name s); apply yybounds_set_stubs; assumption.
  - destruct (stubs (cfg st)) as [|s l] eqn:E; [exact I|].
    destruct (cfg_strlist_insert _ _ _) as [[r x] h]. cbn [yyleaves].
    assert (Hl : forallb yystub_ok
                   ({| name := name s; hosts := x;
                       addrs := addrs s; isfirst := isfirst s;
                       isprime := isprime s |} :: l) = true)
      by (apply (Hhead s l _ eq_refl),
            (yystub_ok_fields s _ eq_refl eq_refl), (Hold s l eq_refl)).
    destruct (r =? 0); apply (yybounds_set_stubs _ (cfg st)); assumption.
  - destruct (stubs (cfg st)) as [|s l] eqn:E; [exact I|].
    destruct (cfg_strlist_insert _ _ _) as [[r x] h]. cbn [yyleaves].
    assert (Hl : forallb yystub_ok
                   ({| name := name s; hosts := hosts s;
                       addrs := x; isfirst := isfirst s;
                       isprime := isprime s |} :: l) = true)
      by (apply (Hhead s l _ eq_refl),
            (yystub_ok_fields s _ eq_refl eq_refl), (Hold s l eq_refl)).
    destruct (r =? 0); apply (yybounds_set_stubs _ (cfg st)); assumption.
  - destruct (negb (streq str "yes") && negb (streq str "no"));
      [exact Hb|].
    destruct (stubs (cfg st)) as [|s l] eqn:E; [exact I|].
    cbn [yyleaves]. apply yybounds_set_stubs; [exact Hb|].
    apply (Hhead s l _ eq_refl). pose proof (Hold s l eq_refl) as Hs1.
    unfold yystub_ok in Hs1 |- *. cbn [isfirst isprime].
    apply andb_true_iff in Hs1 as [_ Hp].
    rewrite yyflag_b2i, Hp. reflexivity.
  - destruct (negb (streq str "yes") && negb (streq str "no"));
      [exact Hb|].
    destruct (stubs (cfg st)) as [|s l] eqn:E; [exact I|].
    cbn [yyleaves]. apply yybounds_set_stubs; [exact Hb|].
    apply (Hhead s l _ eq_refl). pose proof (Hold s l eq_refl) as Hs1.
    unfold yystub_ok in Hs1 |- *. cbn [isfirst isprime].
    apply andb_true_iff in Hs1 as [Hp _].
    rewrite yyflag_b2i, Hp. reflexivity.
Qed.

Lemma forward_bounds (f : string -> config_parser_state -> yyeffect)
    (str : string) (st : config_parser_state) :
  f = forward_name \/ f = forward_host \/ f = forward_addr
  \/ f = forward_first ->
  yybounds (cfg st) = true ->
  yyleaves (fun c => yybounds c = true) (f str st).
Proof.
  intros Hf Hb. destruct (yybounds_stubs _ Hb) as [Hs Hw].
  assert (Hhead : forall s l s',
             forwards (cfg st) = s :: l ->
             yystub_ok s' = true ->
             forallb yystub_ok (s' :: l) = true).
  { intros s l s' E Hs'. rewrite E in Hw. cbn [forallb] in Hw |- *.
    apply andb_true_iff in Hw as [_ Hl]. rewrite Hs', Hl. reflexivity. }
  assert (Hold : forall s l,
             forwards (cfg st) = s :: l -> yystub_ok s = true).
  { intros s l E. rewrite E in Hw. cbn [forallb] in Hw.
    apply andb_true_iff in Hw as [Hs1 _]. exact Hs1. }
  destruct Hf as [Hf|[Hf|[Hf|Hf]]]; subst f;
    unfold forward_name, forward_host, forward_addr, forward_first.
  - destruct (forwards (cfg st)) as [|s l] eqn:E; [exact I|].
    cbn [yyleaves].
    assert (Hl : forallb yystub_ok
                   ({| name := Some str; hosts := hosts s;
                       addrs := addrs s; isfirst := isfirst s;
                       isprime := isprime s |} :: l) = true)
      by (apply (Hhead s l _ eq_refl),
            (yystub_ok_fields s _ eq_refl eq_refl), (Hold s l eq_refl)).
    destruct (name s); apply yybounds_set_forwards; assumption.
  - destruct (forwards (cfg st)) as [|s l] eqn:E; [exact I|].
    destruct (cfg_strlist_insert _ _ _) as [[r x] h]. cbn [yyleaves].
    assert (Hl : forallb yystub_ok
                   ({| name := name s; hosts := x;
                       addrs := addrs s; isfirst := isfirst s;
                       isprime := isprime s |} :: l) = true)
      by (apply (Hhead s l _ eq_refl),
            (yystub_ok_fields s _ eq_refl eq_refl), (Hold s l eq_refl)).
    destruct (r =? 0); apply (yybounds_set_forwards _ (cfg st)); assumption.
  - destruct (forwards (cfg st)) as [|s l] eqn:E; [exact I|].
    destruct (cfg_strlist_insert _ _ _) as [[r x] h]. cbn [yyleaves].
    assert (Hl : forallb yystub_ok
                   ({| name := name s; hosts := hosts s;
                       addrs := x; isfirst := isfirst s;
                       isprime := isprime s |} :: l) = true)
      by (apply (Hhead s l _ eq_refl),
            (yystub_ok_fields s _ eq_refl eq_refl), (Hold s l eq_refl)).
    destruct (r =? 0); apply (yybounds_set_forwards _ (cfg st)); assumption.
  - destruct (negb (streq str "yes") && negb (streq str "no"));
      [exact Hb|].
    destruct (forwards (cfg st)) as [|s l] eqn:E; [exact I|].
    cbn [yyleaves]. apply yybounds_set_forwards; [exact Hb|].
    apply (Hhead s l _ eq_refl). pose proof (Hold s l eq_refl) as Hs1.
    unfold yystub_ok in Hs1 |- *. cbn [isfirst isprime].
    apply andb_true_iff in Hs1 as [_ Hp].
    rewrite yyflag_b2i, Hp. reflexivity.
Qed.

Lemma start_bounds (st : config_parser_state) :
  yybounds (cfg st) = true ->
  yybounds (cfg (stubstart st)) = true
  /\ yybounds (cfg (forwardstart st)) = true.
Proof.
  intros Hb. destruct (yybounds_stubs _ Hb) as [Hs Hw].
  unfold stubstart, forwardstart.
  destruct (region_alloc (heap st)) as [[a|] h]; split;
    first [exact Hb
          |apply (yybounds_set_stubs _ (cfg st) Hb); cbn [forallb];
           rewrite Hs; reflexivity
          |apply (yybounds_set_forwards _ (cfg st) Hb); cbn [forallb];
           rewrite Hw; reflexivity].
Qed.

Lemma interface_bounds (str : string) (st : config_parser_state) :
  yybounds (cfg st) = true ->
  yyleaves (fun c => yybounds c = true) (server_interface str st)
  /\ yyleaves (fun c => yybounds c = true)
       (server_outgoing_interface str st).
Proof.
  unfold server_interface, server_outgoing_interface.
  intros Hb. split.
  - destruct (if num_ifs (cfg st) =? 0 then _ else _) as [[l|] h];
      [|exact Hb].
    destruct (num_ifs (cfg st) <? 0); [exact I|exact Hb].
  - destruct (if num_out_ifs (cfg st) =? 0 then _ else _) as [[l|] h];
      [|exact Hb].
    destruct (num_out_ifs (cfg st) <? 0); [exact I|exact Hb].
Qed.

Lemma sizes_bounds (str : string) (st : config_parser_state) :
  yybounds (cfg st) = true ->
  yybounds (cfg (server_edns_buffer_size str st)) = true
  /\ yybounds (cfg (server_msg_buffer_size str st)) = true.
Proof.
  intros Hb. unfold server_edns_buffer_size, server_msg_buffer_size.
  destruct (atoi str =? 0); [split; exact Hb|]. split.
  - destruct (Z.ltb_spec (atoi str) 12); [exact Hb|].
    destruct (Z.ltb_spec 65535 (atoi str));
      (apply yybounds_set_int; [exact Hb|cbn; lia]).
  - destruct (Z.ltb_spec (atoi str) 4096); [exact Hb|].
    apply yybounds_set_int; [exact Hb|cbn; lia].
Qed.

Lemma dates_bounds (str : string) (st : config_parser_state) :
  yybounds (cfg st) = true ->
  yybounds (cfg (server_statistics_interval str st)) = true
  /\ yybounds (cfg (server_logfile str st)) = true
  /\ yybounds (cfg (sig_skew val_sig_skew_min str st)) = true
  /\ yybounds (cfg (sig_skew val_sig_skew_max str st)) = true
  /\ yybounds (cfg (server_val_override_date str st)) = true.
Proof.
  intros Hb.
  unfold server_statistics_interval, server_logfile, sig_skew,
    server_val_override_date.
  repeat split.
  - destruct (streq str EmptyString || streq str "0");
      [apply yybounds_set_int; [exact Hb|reflexivity]|].
    destruct (atoi str =? 0); [exact Hb|].
    apply yybounds_set_int; [exact Hb|reflexivity].
  - apply (yybounds_set_int use_syslog 0 (set_str logfile (Some str) (cfg st)));
      [exact Hb|reflexivity].
  - destruct (_ || _); [apply yybounds_set_int; [exact Hb|reflexivity]|].
    destruct (_ =? 0); apply (yybounds_set_int _ _ (cfg st));
      solve [exact Hb|reflexivity].
  - destruct (_ || _); [apply yybounds_set_int; [exact Hb|reflexivity]|].
    destruct (_ =? 0); apply (yybounds_set_int _ _ (cfg st));
      solve [exact Hb|reflexivity].
  - destruct (_ || _);
      [apply yybounds_set_int; [exact Hb|reflexivity]|].
    destruct (Nat.eqb _ 14).
    + destruct (_ =? 0); apply (yybounds_set_int _ _ (cfg st));
        solve [exact Hb|reflexivity].
    + destruct (atoi str =? 0); apply (yybounds_set_int _ _ (cfg st));
        solve [exact Hb|reflexivity].
Qed.

Lemma yyaction_bounds (yyn : Z) (vals : list YYSTYPE)
    (st : config_parser_state) :
  yybounds (cfg st) = true ->
  yyleaves (fun c => yybounds c = true) (yyaction yyn vals st).
Proof.
  intros Hb. unfold yyaction. yyrules; try exact Hb.
  all: try (unfold yystr at 1;
            destruct (mjoin (vals !! 1%nat)) as [str|]; [|exact I]).
  all: lazymatch goal with
       | |- yyleaves _ (yybreak _) => cbn [yyleaves]
       | _ => idtac
       end.
  all: lazymatch goal with
       | |- yybounds (cfg (yes_or_no _ _ _)) = true =>
           apply yes_or_no_bounds; [exact Hb|intros x Hx; exact Hx]
       | |- yybounds (cfg (server_use_syslog _ _)) = true =>
           apply use_syslog_bounds; exact Hb
       | |- yybounds (cfg (number _ _ _)) = true =>
           apply number_bounds; [exact Hb|intros x; reflexivity]
       | |- yybounds (cfg (nonzero_number _ _ _ _)) = true =>
           apply nonzero_number_bounds; [exact Hb|];
           intros x Hx; cbn; apply negb_true_iff, Z.eqb_neq; exact Hx
       | |- yybounds (cfg (slabs_option _ _ _)) = true =>
           apply slabs_option_bounds; [exact Hb|];
           intros x Hx; cbn; apply negb_true_iff, Z.eqb_neq; exact Hx
       | |- yybounds (cfg (strlist_option _ ?s _)) = true =>
           exact (proj1 (handed_bounds s _ Hb) _)
       | |- yybounds (cfg (memsize_option _ _ ?s _)) = true =>
           exact (proj1 (proj2 (handed_bounds s _ Hb)) _ _)
       | |- yybounds (cfg (server_outgoing_port _ ?s _)) = true =>
           exact (proj2 (proj2 (handed_bounds s _ Hb)) _)
       | |- yybounds (cfg (set_cfg (set_str _ _) _)) = true => exact Hb
       | |- yybounds (cfg (verbose _ _)) = true => exact Hb
       | |- yybounds (cfg (set_cfg (set_int _ _) _)) = true =>
           apply yybounds_set_int; [exact Hb|reflexivity]
       | |- yybounds (cfg (stubstart _)) = true =>
           exact (proj1 (start_bounds _ Hb))
       | |- yybounds (cfg (forwardstart _)) = true =>
           exact (proj2 (start_bounds _ Hb))
       | |- yybounds (cfg (server_edns_buffer_size ?s _)) = true =>
           exact (proj1 (sizes_bounds s _ Hb))
       | |- yybounds (cfg (server_msg_buffer_size ?s _)) = true =>
           exact (proj2 (sizes_bounds s _ Hb))
       | |- yybounds (cfg (server_statistics_interval ?s _)) = true =>
           exact (proj1 (dates_bounds s _ Hb))
       | |- yybounds (cfg (server_logfile ?s _)) = true =>
           exact (proj1 (proj2 (dates_bounds s _ Hb)))
       | |- yybounds (cfg (sig_skew val_sig_skew_min ?s _)) = true =>
           exact (proj1 (proj2 (proj2 (dates_bounds s _ Hb))))
       | |- yybounds (cfg (sig_skew val_sig_skew_max ?s _)) = true =>
           exact (proj1 (proj2 (proj2 (proj2 (dates_bounds s _ Hb)))))
       | |- yybounds (cfg (server_val_override_date ?s _)) = true =>
           exact (proj2 (proj2 (proj2 (proj2 (dates_bounds s _ Hb)))))
       | |- yyleaves _ (server_interface ?s _) =>
           exact (proj1 (interface_bounds s _ Hb))
       | |- yyleaves _ (server_outgoing_interface ?s _) =>
           exact (proj2 (interface_bounds s _ Hb))
       | |- yyleaves _ (server_access_control ?a ?b _) =>
           exact (proj1 (lists_bounds a b EmptyString _ Hb))
       | |- yyleaves _ (server_local_zone ?a ?b _) =>
           exact (proj1 (proj2 (lists_bounds a b EmptyString _ Hb)))
       | |- yyleaves _ (server_local_data ?s _) =>
           exact (proj1 (proj2 (proj2 (lists_bounds None None s _ Hb))))
       | |- yyleaves _ (server_local_data_ptr ?s _) =>
           exact (proj2 (proj2 (proj2 (lists_bounds None None s _ Hb))))
       | |- yyleaves _ (forward_name _ _) =>
           apply forward_bounds; [auto 6|exact Hb]
       | |- yyleaves _ (forward_host _ _) =>
           apply forward_bounds; [auto 6|exact Hb]
       | |- yyleaves _ (forward_addr _ _) =>
           apply forward_bounds; [auto 6|exact Hb]
       | |- yyleaves _ (forward_first _ _) =>
           apply forward_bounds; [auto 6|exact Hb]
       | |- yyleaves _ (?f _ _) =>
           apply (stub_bounds f); [auto 6|exact Hb]
       end.
Qed.

(** X18 (configparser.c, yyparse): whatever the tokens and whatever the
    functions of util/config_file.c do, a parse keeps the options
    within their bounds: a yes/no option holds 0 or 1, the ports, the
    sizes of tables and the numbers of slabs that may not be zero are
    not zero, the EDNS buffer size is within 12 and 65535, the message
    buffer size is 4096 at least, and so are the flags of every stub and
    forward zone.  This holds of the configuration that [yyparse]
    returns with and of the one that [fatal_exit] leaves behind. *)
Theorem yyparse_keeps_bounds (input : list (Z * YYSTYPE))
    (st : config_parser_state) :
  yybounds (cfg st) = true ->
  match yyparse input st with
  | yyreturned _ v => yybounds (cfg (cfg_parser v)) = true
  | yystopped (yyfatal st') => yybounds (cfg st') = true
  | _ => True
  end.
Proof.
  intros Hb. unfold yyparse.
  pose proof (yyparse_loop_keeps (fun c => yybounds c = true)
                (fun yyn vals st0 => yyaction_bounds yyn vals st0)
                (6 * length input + 18) 0
                (yyinit input st) Hb) as Hk.
  destruct (yyparse_loop _ 0 (yyinit input st)) as [r v|[st'|]| |s' v'];
    [exact Hk|exact Hk|exact I|exact I|exact I].
Qed.

(** *** A value that is rejected *)

Ltac yyconds :=
  repeat match goal with
         | |- context [if ?b then _ else _] => destruct b
         | |- context [match ?x with Some _ => _ | None => _ end] =>
             destruct x
         end.

Lemma stub_flag_rejects (f : string -> config_parser_state -> yyeffect)
    (str : string) (st st' : config_parser_state) :
  f = stub_first \/ f = stub_prime \/ f = forward_first ->
  f str st = yybreak st' ->
  errors st' <> errors st -> cfg st' = cfg st.
Proof.
  intros Hf H He.
  destruct Hf as [Hf|[Hf|Hf]]; subst f;
    unfold stub_first, stub_prime, forward_first in H;
    (destruct (negb (streq str "yes") && negb (streq str "no"));
     [injection H as <-; reflexivity|]);
    destruct (stubs (cfg st)), (forwards (cfg st)); try discriminate H;
    injection H as <-; contradiction.
Qed.

Lemma lists_reject (s2 s3 : YYSTYPE) (str : string)
    (st st' : config_parser_state) :
  server_access_control s2 s3 st = yybreak st'
  \/ server_local_zone s2 s3 st = yybreak st'
  \/ server_local_data str st = yybreak st'
  \/ server_local_data_ptr str st = yybreak st' ->
  errors st' <> errors st -> cfg st' = cfg st.
Proof.
  assert (Hd : forall str' h,
             server_local_data str' (set_heap h st) = yybreak st' ->
             errors st' <> errors st -> cfg st' = cfg st).
  { intros str' h H He. unfold server_local_data in H.
    destruct (cfg_strlist_insert _ _ _) as [[r l] h'].
    destruct (r =? 0); [discriminate H|]. injection H as <-.
    contradiction He. reflexivity. }
  intros [H|[H|[H|H]]] He.
  - unfold server_access_control, yystr in H.
    destruct s3 as [act|]; [|discriminate H].
    destruct (_ && _); [injection H as <-; reflexivity|].
    destruct s2 as [net|]; [|discriminate H].
    destruct (cfg_str2list_insert _ _ _ _) as [[r l] h].
    destruct (r =? 0); [discriminate H|]. injection H as <-.
    contradiction He. reflexivity.
  - unfold server_local_zone, yystr in H.
    destruct s3 as [type|]; [|discriminate H].
    destruct (_ && _); [injection H as <-; reflexivity|].
    destruct (streq type "nodefault").
    + destruct s2 as [zone|]; [|discriminate H].
      destruct (cfg_strlist_insert _ _ _) as [[r l] h].
      destruct (r =? 0); [discriminate H|]. injection H as <-.
      contradiction He. reflexivity.
    + destruct s2 as [zone|]; [|discriminate H].
      destruct (cfg_str2list_insert _ _ _ _) as [[r l] h].
      destruct (r =? 0); [discriminate H|]. injection H as <-.
      contradiction He. reflexivity.
  - apply (Hd str (heap st)); [|exact He].
    destruct st. exact H.
  - unfold server_local_data_ptr in H.
    destruct (cfg_ptr_reverse _ _) as [[ptr|] h];
      [exact (Hd ptr h H He)|].
    injection H as <-. reflexivity.
Qed.

(** X19 (configparser.c, the actions of yyparse): an action that comes
    to its [break] with one more error counted leaves the
    configuration as it was, but for the rules of [yyeager_rules], which
    assign before or after they complain (the two kinds of interface,
    where the array is lost when [realloc] fails; use-syslog in a build
    without syslog; the four numbers of slabs, assigned before
    [is_pow2] is asked; val-override-date and the two val-sig-skew
    options; the name of a stub or forward zone), and for the rules of
    [yyhanded_rules], which complain when the function they handed a
    member to returns 0. *)
Theorem yyaction_rejects_without_assigning (yyn : Z)
    (vals : list YYSTYPE) (st st' : config_parser_state) :
  yyaction yyn vals st = yybreak st' ->
  ~ In yyn yyeager_rules -> ~ In yyn yyhanded_rules ->
  errors st' <> errors st -> cfg st' = cfg st.
Proof.
  revert st'. unfold yyaction. yyrules; intros st' H Hn Hh He;
    try (injection H as <-; reflexivity).
  all: try (exfalso; apply Hn; cbn; tauto).
  all: try (exfalso; apply Hh; cbn; tauto).
  all: try (unfold yystr at 1 in H;
            destruct (mjoin (vals !! 1%nat)) as [str|]; [|discriminate H]).
  all: lazymatch type of H with
       | yybreak _ = yybreak _ =>
           injection H as <-; revert He;
           unfold yes_or_no, number, nonzero_number, stubstart,
             forwardstart, server_statistics_interval, server_logfile,
             server_edns_buffer_size, server_msg_buffer_size;
           try (destruct (region_alloc (heap st)) as [[a|] h]);
           yyconds; cbn; intros He; solve [reflexivity|contradiction]
       | server_access_control ?a ?b _ = _ =>
           exact (lists_reject a b EmptyString _ _ (or_introl H) He)
       | server_local_zone ?a ?b _ = _ =>
           exact (lists_reject a b EmptyString _ _
                    (or_intror (or_introl H)) He)
       | server_local_data ?s _ = _ =>
           exact (lists_reject None None s _ _
                    (or_intror (or_intror (or_introl H))) He)
       | server_local_data_ptr ?s _ = _ =>
           exact (lists_reject None None s _ _
                    (or_intror (or_intror (or_intror H))) He)
       | ?f _ _ = _ =>
           exact (stub_flag_rejects f _ _ _ ltac:(auto) H He)
       end.
Qed.

(** *** Interfaces and stub zones *)

Lemma region_alloc_enough (n : nat) (h : region) :
  yyenough (S n) h = true ->
  exists a h', region_alloc h = (Some a, h')
               /\ script h' = drop 1 (script h)
               /\ yyenough n h' = true.
Proof.
  unfold yyenough, region_alloc. destruct (script h) as [|[|] s] eqn:E.
  - intros _. eexists _, _. split; [reflexivity|]. cbn [script].
    split; [reflexivity|]. rewrite take_nil. reflexivity.
  - cbn [take forallb andb]. intros Hs. eexists _, _.
    split; [reflexivity|]. cbn [script]. split; [reflexivity|exact Hs].
  - cbn [take forallb andb]. discriminate.
Qed.

Lemma region_alloc_fails (h : region) :
  script h !! 0%nat = Some false ->
  exists h', region_alloc h = (None, h') /\ script h' = drop 1 (script h).
Proof.
  unfold region_alloc. destruct (script h) as [|[|] s] eqn:E;
    [discriminate|discriminate|].
  intros _. eexists. split; reflexivity.
Qed.

Lemma server_interface_adds (s : string) (l : list (option string))
    (st : config_parser_state) :
  num_ifs (cfg st) = Z.of_nat (length l) ->
  (l <> [] -> ifs (cfg st) = Some l) ->
  yyenough 1 (heap st) = true ->
  exists h,
    server_interface s st
    = yybreak (set_cfg (set_ifs (Z.of_nat (length l) + 1)
                          (Some (l ++ [Some s])))
                 (set_heap h st))
    /\ script h = drop 1 (script (heap st)).
Proof.
  intros Hn Hl He.
  destruct (region_alloc_enough 0 _ He) as (a & h & Ha & Hs & _).
  exists h. split; [|exact Hs]. unfold server_interface.
  rewrite Hn. destruct (Z.ltb_spec (Z.of_nat (length l)) 0); [lia|].
  destruct l as [|x l].
  - cbn [length Z.of_nat Z.eqb]. unfold calloc_slots. rewrite Ha.
    reflexivity.
  - destruct (Z.eqb_spec (Z.of_nat (length (x :: l))) 0) as [E|_];
      [cbn [length] in E; lia|].
    unfold realloc_slots. rewrite Ha, (Hl ltac:(discriminate)).
    cbn [default]. do 3 f_equal.
    replace (Z.to_nat (Z.of_nat (length (x :: l)) + 1))
      with (length (x :: l) + 1)%nat by lia.
    rewrite Nat2Z.id.
    rewrite take_app_add'; [|reflexivity].
    replace (length (x :: l) + 1)%nat with (S (length (x :: l))) by lia.
    cbn [replicate take]. rewrite take_0.
    unfold Datatypes.id. rewrite insert_app_r_alt; [|lia].
    rewrite Nat.sub_diag. reflexivity.
Qed.

Lemma yyenough_drop (n : nat) (h0 h : region) :
  yyenough (S n) h0 = true -> script h = drop 1 (script h0) ->
  yyenough 1 h0 = true /\ yyenough n h = true.
Proof.
  unfold yyenough. intros He ->. destruct (script h0) as [|b s].
  - rewrite drop_nil, !take_nil. split; reflexivity.
  - cbn [take forallb] in *. apply andb_true_iff in He as [-> He].
    rewrite take_0. split; [reflexivity|exact He].
Qed.

Lemma yyenough_lookup (h : region) :
  script h !! 0%nat <> Some false -> yyenough 1 h = true.
Proof.
  unfold yyenough. destruct (script h) as [|[|] s]; cbn; try reflexivity.
  intros H. contradiction H. reflexivity.
Qed.

Lemma interfaces_run (kv : YYSTYPE) (strs : list string)
    (l : list (option string)) (st : config_parser_state) :
  num_ifs (cfg st) = Z.of_nat (length l) ->
  (l <> [] -> ifs (cfg st) = Some l) ->
  yyenough (length strs) (heap st) = true ->
  exists st',
    foldl yyrun_clause (yybreak st) (map (yyinterface_clause kv) strs)
    = yybreak st'
    /\ cfg st' = match strs with
                 | [] => cfg st
                 | _ => set_ifs (Z.of_nat (length l + length strs))
                          (Some (l ++ map Some strs)) (cfg st)
                 end
    /\ errors st' = errors st
    /\ script (heap st') = drop (length strs) (script (heap st)).
Proof.
  revert l st. induction strs as [|s strs IH]; intros l st Hn Hl He.
  - exists st. repeat split; reflexivity.
  - cbn [length] in He.
    assert (He1 : yyenough 1 (heap st) = true).
    { unfold yyenough in *. destruct (script (heap st)) as [|b r];
        [reflexivity|].
      cbn [take forallb] in *. apply andb_true_iff in He as [-> _].
      rewrite take_0. reflexivity. }
    destruct (server_interface_adds s l st Hn Hl He1) as (h & Hs & Hh).
    destruct (yyenough_drop _ _ h He Hh) as [_ He'].
    set (st1 := set_cfg (set_ifs (Z.of_nat (length l) + 1)
                           (Some (l ++ [Some s]))) (set_heap h st)) in *.
    destruct (IH (l ++ [Some s]) st1) as (st' & Hf & Hc & Hr & Hk).
    + cbn. rewrite length_app. cbn [length]. lia.
    + intros _. reflexivity.
    + exact He'.
    + exists st'. split.
      * cbn [map foldl]. unfold yyrun_clause at 2.
        cbn [yythen yyinterface_clause cl_rule cl_vals].
        change (yyaction 138 [kv; Some s] st) with (server_interface s st).
        rewrite Hs. exact Hf.
      * split; [|split; [exact Hr|]].
        -- rewrite Hc. destruct strs as [|s2 strs].
           ++ cbn. f_equal. lia.
           ++ cbn [cfg st1 set_cfg set_heap]. unfold set_ifs. cbn.
              rewrite <- app_assoc. cbn [app]. do 2 f_equal.
              rewrite length_app. cbn [length]. lia.
        -- rewrite Hk. cbn [heap st1 set_cfg set_heap]. rewrite Hh.
           rewrite drop_drop. reflexivity.
Qed.

Lemma yyinterfaces_tokens (hv kv : YYSTYPE) (strs : list string) :
  (VAR_SERVER, hv) :: yyinterfaces kv strs
  = yyfile_tokens
      [yyserver_section hv (map (yyinterface_clause kv) strs)]
  /\ forallb yysection_ok
       [yyserver_section hv (map (yyinterface_clause kv) strs)] = true.
Proof.
  split.
  - unfold yyfile_tokens. cbn [map concat]. rewrite app_nil_r.
    unfold yysection_tokens.
    cbn [sec_rule sec_val sec_clauses yyserver_section].
    change (yytokens_of 10 [hv]) with [(VAR_SERVER, hv)]. cbn [app].
    f_equal. induction strs as [|s strs IH]; [reflexivity|].
    cbn [map concat yyinterfaces flat_map]. rewrite <- IH. reflexivity.
  - cbn [forallb]. rewrite andb_true_r. unfold yysection_ok.
    cbn [sec_rule sec_clauses yyserver_section].
    change (yyclauses_of 10) with (Some (seqZ 132 104)).
    apply forallb_forall. intros c Hin. apply in_map_iff in Hin as (s & <- & _).
    reflexivity.
Qed.

(** X20 (configparser.c, the action of server_interface): with memory
    for them, the [interface:] lines of the server section are
    collected in the order of the text: [ifs] holds their values, first
    line first, [num_ifs] counts them, nothing else changes and no error
    is counted. *)
Theorem yyparse_collects_interfaces (hv kv : YYSTYPE) (strs : list string)
    (st : config_parser_state) :
  num_ifs (cfg st) = 0 -> yyenough (length strs) (heap st) = true ->
  exists v,
    yyparse ((VAR_SERVER, hv) :: yyinterfaces kv strs) st = yyreturned 0 v
    /\ cfg (cfg_parser v)
       = match strs with
         | [] => cfg st
         | _ => set_ifs (Z.of_nat (length strs)) (Some (map Some strs))
                  (cfg st)
         end
    /\ errors (cfg_parser v) = errors st.
Proof.
  intros Hn He.
  destruct (yyinterfaces_tokens hv kv strs) as [-> Hok].
  destruct (interfaces_run kv strs [] st Hn ltac:(congruence) He)
    as (st' & Hf & Hc & Hr & _).
  pattern (yyparse
             (yyfile_tokens
                [yyserver_section hv (map (yyinterface_clause kv) strs)])
             st).
  apply (file_parses _ st _ Hok).
  unfold yyrun_file. cbn [foldl]. unfold yyrun_section.
  cbn [sec_rule sec_val sec_clauses yyserver_section yythen].
  change (yyaction 10 [hv] st) with (yybreak st). cbn [yythen].
  rewrite Hf.
  intros v P _. exists v. rewrite P. split; [reflexivity|].
  split; [exact Hc|exact Hr].
Qed.

Lemma server_interface_fails (s : string) (st : config_parser_state) :
  script (heap st) !! 0%nat = Some false ->
  exists h,
    server_interface s st
    = yybreak (yyerror "out of memory"
                 (set_cfg (set_ifs (num_ifs (cfg st)) None)
                    (set_heap h st)))
    /\ script h = drop 1 (script (heap st)).
Proof.
  intros Hs. destruct (region_alloc_fails _ Hs) as (h & Ha & Hh).
  exists h. split; [|exact Hh]. unfold server_interface.
  unfold calloc_slots, realloc_slots. rewrite Ha.
  destruct (num_ifs (cfg st) =? 0); reflexivity.
Qed.

Lemma server_interface_after_loss (s : string) (k : nat)
    (st : config_parser_state) :
  num_ifs (cfg st) = Z.of_nat k -> ifs (cfg st) = None ->
  yyenough 1 (heap st) = true ->
  exists h,
    server_interface s st
    = yybreak (set_cfg (set_ifs (Z.of_nat k + 1)
                          (Some (replicate k None ++ [Some s])))
                 (set_heap h st)).
Proof.
  intros Hn Hi He.
  destruct (region_alloc_enough 0 _ He) as (a & h & Ha & _ & _).
  exists h. unfold server_interface. rewrite Hn.
  destruct (Z.ltb_spec (Z.of_nat k) 0); [lia|].
  unfold calloc_slots, realloc_slots. rewrite Ha, Hi. cbn [default app].
  destruct k as [|k]; [reflexivity|].
  destruct (Z.eqb_spec (Z.of_nat (S k)) 0); [lia|].
  do 3 f_equal.
  replace (Z.to_nat (Z.of_nat (S k) + 1)) with (S (S k)) by lia.
  rewrite Nat2Z.id, take_replicate, Nat.min_id.
  rewrite (replicate_S_end (S k)).
  rewrite insert_app_r_alt; rewrite length_replicate; [|lia].
  rewrite Nat.sub_diag. reflexivity.
Qed.

(** X21 (configparser.c, the action of server_interface): when
    [realloc] fails at an [interface:] line, the array is lost and its
    count is not: at the next line that finds memory the new array has
    a slot for every line counted before, none of which is set, and the
    value of the next line in its last slot.  One error is counted. *)
Theorem yyparse_loses_interfaces (hv kv : YYSTYPE) (strs : list string)
    (s1 s2 : string) (st : config_parser_state) :
  num_ifs (cfg st) = 0 ->
  yyenough (length strs) (heap st) = true ->
  script (heap st) !! length strs = Some false ->
  script (heap st) !! S (length strs) <> Some false ->
  exists v,
    yyparse ((VAR_SERVER, hv) :: yyinterfaces kv (strs ++ [s1; s2])) st
    = yyreturned 0 v
    /\ cfg (cfg_parser v)
       = set_ifs (Z.of_nat (length strs) + 1)
           (Some (replicate (length strs) None ++ [Some s2])) (cfg st)
    /\ errors (cfg_parser v) = errors st + 1.
Proof.
  intros Hn He Hfail Hnext.
  destruct (yyinterfaces_tokens hv kv (strs ++ [s1; s2])) as [-> Hok].
  destruct (interfaces_run kv strs [] st Hn ltac:(congruence) He)
    as (st1 & Hf & Hc & Hr & Hk).
  assert (Hn1 : num_ifs (cfg st1) = Z.of_nat (length strs)).
  { rewrite Hc. destruct strs; [exact Hn|reflexivity]. }
  destruct (server_interface_fails s1 st1) as (h2 & H2 & Hh2).
  { rewrite Hk, lookup_drop, Nat.add_0_r. exact Hfail. }
  set (st2 := yyerror "out of memory"
                (set_cfg (set_ifs (num_ifs (cfg st1)) None)
                   (set_heap h2 st1))) in *.
  destruct (server_interface_after_loss s2 (length strs) st2)
    as (h3 & H3).
  { exact Hn1. }
  { reflexivity. }
  { apply yyenough_lookup. cbn [heap st2 yyerror set_cfg set_heap].
    rewrite Hh2, Hk, drop_drop, lookup_drop, Nat.add_0_r.
    replace (length strs + 1)%nat with (S (length strs)) by lia.
    exact Hnext. }
  pattern (yyparse
             (yyfile_tokens
                [yyserver_section hv
                   (map (yyinterface_clause kv) (strs ++ [s1; s2]))])
             st).
  apply (file_parses _ st _ Hok).
  unfold yyrun_file. cbn [foldl]. unfold yyrun_section.
  cbn [sec_rule sec_val sec_clauses yyserver_section yythen].
  change (yyaction 10 [hv] st) with (yybreak st). cbn [yythen].
  rewrite map_app, foldl_app, Hf. cbn [map foldl].
  unfold yyrun_clause.
  cbn [yythen yyinterface_clause cl_rule cl_vals].
  change (yyaction 138 [kv; Some s1] st1) with (server_interface s1 st1).
  rewrite H2. cbn [yythen].
  change (yyaction 138 [kv; Some s2] st2) with (server_interface s2 st2).
  rewrite H3.
  intros v P _. exists v. rewrite P. split; [reflexivity|].
  cbn [cfg errors st2 yyerror set_cfg set_heap]. rewrite Hr.
  split; [|reflexivity]. rewrite Hc. destruct strs; reflexivity.
Qed.

Lemma yystub_zones_tokens (hv kv : YYSTYPE) (names : list string) :
  yystub_zones hv kv names
  = yyfile_tokens (map (yystub_section hv kv) names)
  /\ forallb yysection_ok (map (yystub_section hv kv) names) = true.
Proof.
  split.
  - unfold yyfile_tokens, yystub_zones.
    induction names as [|n names IH]; [reflexivity|].
    cbn [map concat flat_map]. rewrite <- IH. reflexivity.
  - apply forallb_forall. intros c Hin.
    apply in_map_iff in Hin as (n & <- & _). reflexivity.
Qed.

Lemma stub_section_run (hv kv : YYSTYPE) (n : string)
    (st : config_parser_state) :
  yyenough 1 (heap st) = true ->
  exists st',
    yyrun_section (yybreak st) (yystub_section hv kv n) = yybreak st'
    /\ cfg st' = set_stubs (yystub_of n :: stubs (cfg st)) (cfg st)
    /\ errors st' = errors st
    /\ script (heap st') = drop 1 (script (heap st)).
Proof.
  intros He.
  destruct (region_alloc_enough 0 _ He) as (a & h & Ha & Hh & _).
  unfold yyrun_section.
  cbn [sec_rule sec_val sec_clauses yystub_section yythen foldl].
  change (yyaction 117 [hv] st) with (yybreak (stubstart st)).
  unfold yyrun_clause. cbn [yythen cl_rule cl_vals].
  change (yyaction 236 [kv; Some n] (stubstart st))
    with (stub_name n (stubstart st)).
  unfold stubstart. rewrite Ha. unfold stub_name.
  cbn [cfg stubs set_cfg set_heap set_stubs name hosts addrs isfirst
       isprime].
  eexists. split; [reflexivity|].
  cbn [cfg errors heap set_cfg set_heap]. repeat split. exact Hh.
Qed.

Lemma stub_sections_run (hv kv : YYSTYPE) (names : list string)
    (st : config_parser_state) :
  yyenough (length names) (heap st) = true ->
  exists st',
    foldl yyrun_section (yybreak st) (map (yystub_section hv kv) names)
    = yybreak st'
    /\ stubs (cfg st') = map yystub_of (reverse names) ++ stubs (cfg st)
    /\ errors st' = errors st.
Proof.
  revert st. induction names as [|n names IH]; intros st He.
  - exists st. repeat split; reflexivity.
  - cbn [length] in He.
    assert (He1 : yyenough 1 (heap st) = true).
    { unfold yyenough in *. destruct (script (heap st)) as [|b r];
        [reflexivity|].
      cbn [take forallb] in *. apply andb_true_iff in He as [-> _].
      rewrite take_0. reflexivity. }
    destruct (stub_section_run hv kv n st He1) as (st1 & H1 & Hc & Hr & Hh).
    destruct (yyenough_drop _ _ (heap st1) He Hh) as [_ He'].
    destruct (IH st1 He') as (st' & Hf & Hs & Hr').
    exists st'. cbn [map foldl]. rewrite H1. split; [exact Hf|].
    split; [|congruence].
    rewrite Hs, Hc. cbn [stubs set_stubs].
    rewrite reverse_cons, map_app, <- app_assoc. reflexivity.
Qed.

(** X22 (configparser.c, stubstart and the action of stub_name): with
    memory for them, the stub zones of a file end up in [stubs] last
    zone first, in front of the zones that were there, each with its
    name and with both flags at 0; no error is counted. *)
Theorem yyparse_lists_stub_zones_last_first (hv kv : YYSTYPE)
    (names : list string) (st : config_parser_state) :
  yyenough (length names) (heap st) = true ->
  exists v,
    yyparse (yystub_zones hv kv names) st = yyreturned 0 v
    /\ stubs (cfg (cfg_parser v))
       = map yystub_of (reverse names) ++ stubs (cfg st)
    /\ errors (cfg_parser v) = errors st.
Proof.
  intros He.
  destruct (yystub_zones_tokens hv kv names) as [-> Hok].
  destruct (stub_sections_run hv kv names st He) as (st' & Hf & Hs & Hr).
  pattern (yyparse (yyfile_tokens (map (yystub_section hv kv) names)) st).
  apply (file_parses _ st _ Hok).
  unfold yyrun_file. rewrite Hf.
  intros v P _. exists v. rewrite P. split; [reflexivity|].
  split; [exact Hs|exact Hr].
Qed.

(** X23 (configparser.c, stubstart and the action of stub_name): when
    [calloc] fails at [stub-zone:], the [name:] that follows goes to the
    zone before: its name is replaced, with a second error if it had
    one.  When there is no zone before, the action follows a NULL
    pointer. *)
Theorem yyparse_stub_zone_without_memory (hv kv : YYSTYPE) (n : string)
    (st : config_parser_state) :
  script (heap st) !! 0%nat = Some false ->
  match stubs (cfg st) with
  | [] => yyparse (yystub_zones hv kv [n]) st = yystopped yyundefined
  | s :: l =>
      exists v,
        yyparse (yystub_zones hv kv [n]) st = yyreturned 0 v
        /\ stubs (cfg (cfg_parser v))
           = {| name := Some n; hosts := hosts s; addrs := addrs s;
                isfirst := isfirst s; isprime := isprime s |} :: l
        /\ errors (cfg_parser v)
           = errors st + match name s with
                         | Some _ => 2
                         | None => 1
                         end
  end.
Proof.
  intros Hs. destruct (region_alloc_fails _ Hs) as (h & Ha & _).
  destruct (yystub_zones_tokens hv kv [n]) as [-> Hok].
  assert (Hrun : yyrun_file st (map (yystub_section hv kv) [n])
                 = stub_name n (yyerror "out of memory" (set_heap h st))).
  { unfold yyrun_file. cbn [map foldl]. unfold yyrun_section.
    cbn [sec_rule sec_val sec_clauses yystub_section yythen foldl].
    change (yyaction 117 [hv] st) with (yybreak (stubstart st)).
    unfold yyrun_clause. cbn [yythen cl_rule cl_vals].
    change (yyaction 236 [kv; Some n] (stubstart st))
      with (stub_name n (stubstart st)).
    unfold stubstart. rewrite Ha. reflexivity. }
  destruct (stubs (cfg st)) as [|s l] eqn:E;
    pattern (yyparse (yyfile_tokens (map (yystub_section hv kv) [n])) st);
    apply (file_parses _ st _ Hok); rewrite Hrun; unfold stub_name;
    cbn [cfg yyerror set_heap]; rewrite E; [reflexivity|].
  intros v P _. exists v. rewrite P. split; [reflexivity|].
  destruct (name s); cbn; split; try reflexivity; lia.
Qed.

End YYOptionFacts.

(** * The parser on concrete data *)

Section ConfigScenarioFacts.
Import Data ConfigFile YYParse YYGrammar YYOptions ConfigScenario.

Lemma yyparse_runs_actions_in_order_witness :
  match yyrun_file state0 sample_file with
  | yybreak st' =>
      exists v, yyparse (yyfile_tokens sample_file) state0 = yyreturned 0 v
                /\ cfg_parser v = st' /\ yynerrs v = 0
  | yyhalts h => yyparse (yyfile_tokens sample_file) state0 = yystopped h
  end.
Proof.
  apply (yyparse_runs_actions_in_order sample_file state0). reflexivity.
Defined.

Lemma yyparse_stops_at_unexpected_token_witness :
  match yyrun_file state0 sample_file with
  | yybreak st' =>
      exists v,
        yyparse (yyfile_tokens sample_file
                 ++ (VAR_PORT, None) :: [(STRING_ARG, Some "53"%string)])
          state0
        = yyreturned 1 v
        /\ cfg_parser v = yyerror "syntax error" st'
        /\ yynerrs v = 1 /\ yyin v = [(STRING_ARG, Some "53"%string)]
  | yyhalts h =>
      yyparse (yyfile_tokens sample_file
               ++ (VAR_PORT, None) :: [(STRING_ARG, Some "53"%string)])
        state0
      = yystopped h
  end.
Proof.
  apply (yyparse_stops_at_unexpected_token sample_file state0 VAR_PORT None
           [(STRING_ARG, Some "53"%string)]);
    [reflexivity|reflexivity|reflexivity].
Defined.

Lemma yyparse_stops_at_missing_value_witness :
  match yyrun_file state0 ([] ++ [server_lines]) with
  | yybreak st' =>
      exists v,
        yyparse (yyfile_tokens ([] ++ [server_lines])
                 ++ yytokens_of 209 [None; Some "192.0.2.0/24"%string]
                 ++ [(VAR_DO_IP4, None)]) state0
        = yyreturned 1 v
        /\ cfg_parser v = yyerror "syntax error" st'
        /\ yynerrs v = 1 /\ yyin v = tl [(VAR_DO_IP4, None)]
  | yyhalts h =>
      yyparse (yyfile_tokens ([] ++ [server_lines])
               ++ yytokens_of 209 [None; Some "192.0.2.0/24"%string]
               ++ [(VAR_DO_IP4, None)]) state0
      = yystopped h
  end.
Proof.
  apply (yyparse_stops_at_missing_value [] server_lines (seqZ 132 104) 209
           [None; Some "192.0.2.0/24"%string] [(VAR_DO_IP4, None)] state0);
    [reflexivity|reflexivity|do 77 right; left; reflexivity| |].
  - vm_compute. lia.
  - split; [reflexivity|discriminate].
Defined.

Lemma yyparse_keeps_bounds_witness :
  match yyparse odd_tokens state0 with
  | yyreturned _ v => yybounds (cfg (cfg_parser v)) = true
  | yystopped (yyfatal st') => yybounds (cfg st') = true
  | _ => True
  end.
Proof.
  apply (yyparse_keeps_bounds odd_tokens state0). reflexivity.
Defined.

Lemma yyaction_rejects_without_assigning_witness :
  cfg (yyerror "port number expected" state0) = cfg state0.
Proof.
  apply (yyaction_rejects_without_assigning 137 [None; Some "0"%string]
           state0 (yyerror "port number expected" state0));
    [reflexivity| | |discriminate].
  - unfold yyeager_rules. cbn. intros H.
    repeat (destruct H as [H|H]; [discriminate H|]). exact H.
  - unfold yyhanded_rules. cbn. intros H.
    repeat (destruct H as [H|H]; [discriminate H|]). exact H.
Defined.

Lemma yyparse_collects_interfaces_witness :
  exists v,
    yyparse ((VAR_SERVER, None)
             :: yyinterfaces None ["192.0.2.1"; "::1"]%string) state0
    = yyreturned 0 v
    /\ cfg (cfg_parser v)
       = set_ifs 2 (Some [Some "192.0.2.1"; Some "::1"]%string) (cfg state0)
    /\ errors (cfg_parser v) = errors state0.
Proof.
  apply (yyparse_collects_interfaces None None ["192.0.2.1"; "::1"]%string
           state0);
    reflexivity.
Defined.

Lemma yyparse_loses_interfaces_witness :
  exists v,
    yyparse ((VAR_SERVER, None)
             :: yyinterfaces None
                  (["192.0.2.1"%string]
                   ++ ["192.0.2.2"%string; "::1"%string])) state_low
    = yyreturned 0 v
    /\ cfg (cfg_parser v)
       = set_ifs 2 (Some [None; Some "::1"%string]) (cfg state_low)
    /\ errors (cfg_parser v) = errors state_low + 1.
Proof.
  apply (yyparse_loses_interfaces None None ["192.0.2.1"%string]
           "192.0.2.2" "::1" state_low);
    [reflexivity|reflexivity|reflexivity|discriminate].
Defined.

Lemma yyparse_lists_stub_zones_last_first_witness :
  exists v,
    yyparse (yystub_zones None None ["example.org."; "example.net."]%string)
      state0
    = yyreturned 0 v
    /\ stubs (cfg (cfg_parser v))
       = [yystub_of "example.net."; yystub_of "example.org."]
    /\ errors (cfg_parser v) = 0.
Proof.
  apply (yyparse_lists_stub_zones_last_first None None
           ["example.org."; "example.net."]%string state0).
  reflexivity.
Defined.

Lemma yyparse_stub_zone_without_memory_witness :
  exists v,
    yyparse (yystub_zones None None ["example.net."%string]) state_zone
    = yyreturned 0 v
    /\ stubs (cfg (cfg_parser v)) = [yystub_of "example.net."]
    /\ errors (cfg_parser v) = 2.
Proof.
  apply (yyparse_stub_zone_without_memory None None "example.net."
           state_zone).
  reflexivity.
Defined.

End ConfigScenarioFacts.

